(** * YUI3 drag-and-drop: hit-testing, click/drag disambiguation, constraints

    A shallow embedding of the drag-and-drop modules bundled in
    [build/dd/dd-dragdrop-all-min.js] (dd-ddm-base, dd-ddm, dd-ddm-drop,
    dd-drag, dd-constrain, dd-drop), followed by the properties proved
    about them.

    Conventions of the embedding:
    - pixel coordinates are integers ([Z]); a two-element JS array [[x, y]]
      is a pair;
    - a JS object reference (a Node, a Drop) is a natural number, compared
      with [=?] where the source uses [===] / [!==];
    - [null], [undefined] and [false] used as "absent" are [None];
    - a [TypeError] raised by a property access on [null] is the
      [TypeError] outcome of the [Outcome] type;
    - events fired and DOM writes requested are appended to a trace. *)

From Stdlib Require Import ZArith Lia Bool List.
From stdpp Require Import base option list gmap strings.
Import ListNotations.

Local Open Scope Z_scope.

(** ** Outcomes of calls that may throw *)

Inductive Outcome (A : Type) : Type :=
| Ok (a : A)
| TypeError.
Arguments Ok {A} a.
Arguments TypeError {A}.

#[global] Instance Outcome_ret : MRet Outcome := fun A a => Ok a.

#[global] Instance Outcome_bind : MBind Outcome := fun A B k o =>
  match o with
  | Ok a => k a
  | TypeError => TypeError
  end.

Definition XY : Type := (Z * Z)%type.
(** References to Node and Drop objects. *)
Abbreviation NodeRef := nat.
Abbreviation DropRef := nat.

(** JS truthiness of a number: [0] is falsy. *)
Definition truthy (z : Z) : bool := negb (z =? 0).

(** Truthiness of a possibly-undefined number. *)
Definition otruthy (z : option Z) : bool :=
  match z with
  | Some v => truthy v
  | None => false
  end.

(** ** Regions *)

Module Region.
(** [{top, right, bottom, left, area}]; [area] is the slot that
  [getBestMatch] writes on a Drop's region. *)
Record t : Type := mk { top : Z; right : Z; bottom : Z; left : Z; area : Z }.

Definition set_area (r : t) (a : Z) : t :=
mk (top r) (right r) (bottom r) (left r) a.

(** The region literal built by [Drag.start], [Drag._moveNode] and
  [Drop.sizeShim]:
  [{area:0, top:y, right:x+w, bottom:y+h, left:x}]. *)
Definition at_xy (xy : XY) (w h : Z) : t :=
mk (snd xy) (fst xy + w) (snd xy + h) (fst xy) 0.

(** The degenerate rectangle [{top:y, bottom:y, left:x, right:x}] built by
  [isOverTarget] from the pointer position. *)
Definition point (xy : XY) : t :=
mk (snd xy) (fst xy) (snd xy) (fst xy) 0.
End Region.

(** ** The Node geometry service *)

Module Node.
(** The page geometry the Node abstraction reports for each element. *)
Record Dom : Type := {
getXY : NodeRef -> XY;
offsetWidth : NodeRef -> Z;
offsetHeight : NodeRef -> Z;
viewportRegion : NodeRef -> Region.t
}.

(** Modelled from the spec: [node.get("region")], the element's bounding
  region; the Node/DOM modules are not part of the bundle. The region is
  the element's page position extended by its box size. *)
Definition region (dom : Dom) (n : NodeRef) : Region.t :=
Region.at_xy (getXY dom n) (offsetWidth dom n) (offsetHeight dom n).

(** Result of [intersect]: the overlap's area and the [inRegion] flag. *)
Record Intersection : Type := { area : Z; inRegion_flag : bool }.

(** Width and height of the overlap of two rectangles; negative when the
  rectangles are apart on that axis. *)
Definition xoff (r1 r2 : Region.t) : Z :=
Z.min (Region.right r1) (Region.right r2) - Z.max (Region.left r1) (Region.left r2).
Definition yoff (r1 r2 : Region.t) : Z :=
Z.min (Region.bottom r1) (Region.bottom r2) - Z.max (Region.top r1) (Region.top r2).

(** Modelled from the spec: [Node.intersect], the region-intersection
  utility of the Node abstraction, which is not part of the bundle.
  The intersection area of two rectangles is the area of their overlap
  (zero when they do not overlap); [inRegion] tells whether they meet. *)
Definition intersect_regions (r1 r2 : Region.t) : Intersection :=
{| area := Z.max 0 (xoff r1 r2) * Z.max 0 (yoff r1 r2);
   inRegion_flag := (0 <=? xoff r1 r2) && (0 <=? yoff r1 r2) |}.

(** [node.intersect(node2, altRegion)]: [altRegion], when given, stands
  for the receiver's own region. *)
Definition intersect (dom : Dom) (n : NodeRef) (r2 : Region.t)
  (altRegion : option Region.t) : Intersection :=
intersect_regions (default (region dom n) altRegion) r2.

(** Modelled from the spec: full containment of [r] in [r2], the test
  [Node.inRegion(region, true, altRegion)] performs ("entirely inside");
  the Node abstraction is not part of the bundle. *)
Definition contains (r2 r : Region.t) : bool :=
(Region.left r2 <=? Region.left r) && (Region.right r <=? Region.right r2)
&& (Region.top r2 <=? Region.top r) && (Region.bottom r <=? Region.bottom r2).

(** [node.inRegion(region2, all, altRegion)]. *)
Definition inRegion (dom : Dom) (n : NodeRef) (r2 : Region.t) (all : bool)
  (altRegion : option Region.t) : bool :=
let r := default (region dom n) altRegion in
if all then contains r2 r else inRegion_flag (intersect_regions r r2).

(** Modelled from the spec: the page after the element [n] has been moved
  by [delta], which is what the [top] and [left] style writes of
  [DDM.setXY] amount to, and after it has been put at [xy] by
  [Node.setXY]; the layout engine is not part of the bundle. The element
  takes the new position; its size and every other element stay as they
  were. *)
Definition moved_to (dom : Dom) (n : NodeRef) (xy : XY) : Dom :=
{| getXY := fun k => if (k =? n)%nat then xy else getXY dom k;
   offsetWidth := offsetWidth dom;
   offsetHeight := offsetHeight dom;
   viewportRegion := viewportRegion dom |}.

Definition moved_by (dom : Dom) (n : NodeRef) (delta : XY) : Dom :=
moved_to dom n (fst (getXY dom n) + fst delta, snd (getXY dom n) + snd delta).
End Node.

(** ** Drag objects (dd-drag, with the dd-constrain attributes) *)

(** CSS-style box sizes, the result of [DDM.cssSizestoObject]. *)
Record Sizes : Type := { s_top : Z; s_right : Z; s_bottom : Z; s_left : Z }.

Definition no_sizes : Sizes := {| s_top := 0; s_right := 0; s_bottom := 0; s_left := 0 |}.

Module Constrain_ATTRS.
(** The attributes dd-constrain adds to a Drag; [false] is [None]. *)
Record t : Type := {
stickX : bool;
stickY : bool;
tickX : option Z;
tickY : option Z;
tickXArray : option (list Z);
tickYArray : option (list Z);
constrain2region : option Region.t;
gutter : Sizes;
constrain2node : option NodeRef;
constrain2view : bool
}.

(** The declared default values. *)
Definition defaults : t :=
{| stickX := false; stickY := false; tickX := None; tickY := None;
   tickXArray := None; tickYArray := None; constrain2region := None;
   gutter := no_sizes; constrain2node := None; constrain2view := false |}.
End Constrain_ATTRS.

Module Drag.
(** Attribute values of a Drag. [dragMode] holds the number
  [_setDragMode] returns; [groups] is what the [groups] getter returns,
  the own keys of [_groups]. *)
Record Config : Type := {
node : NodeRef;
dragNode : NodeRef;
offsetNode : bool;
clickPixelThresh : Z;
clickTimeThresh : Z;
lock : bool;
move : bool;
useShim : bool;
primaryButtonOnly : bool;
dragMode : Z;
groups : list string;
constrain : Constrain_ATTRS.t
}.

(** A Drag: its attributes, the [dragging] attribute (written by
  [start]/[end]) and the instance fields of the prototype. *)
Record t : Type := mk {
cfg : Config;
dragging : bool;
_dragThreshMet : bool;
_fromTimeout : bool;
_clickTimeout : option nat;   (* the handle of the last click timer *)
_ev_md : option XY;           (* pageX/pageY of the mousedown event *)
deltaXY : option XY;
startXY : option XY;
nodeXY : option XY;
lastXY : option XY;
mouseXY : option XY;
region : option Region.t
}.

(** The instance right after construction ([initializer] has run). *)
Definition init (c : Config) : t :=
mk c false false false None None None None None None None None.

Definition set_dragging (v : bool) (d : t) : t :=
mk (cfg d) v (_dragThreshMet d) (_fromTimeout d) (_clickTimeout d) (_ev_md d)
   (deltaXY d) (startXY d) (nodeXY d) (lastXY d) (mouseXY d) (region d).
Definition set_dragThreshMet (v : bool) (d : t) : t :=
mk (cfg d) (dragging d) v (_fromTimeout d) (_clickTimeout d) (_ev_md d)
   (deltaXY d) (startXY d) (nodeXY d) (lastXY d) (mouseXY d) (region d).
Definition set_fromTimeout (v : bool) (d : t) : t :=
mk (cfg d) (dragging d) (_dragThreshMet d) v (_clickTimeout d) (_ev_md d)
   (deltaXY d) (startXY d) (nodeXY d) (lastXY d) (mouseXY d) (region d).
Definition set_clickTimeout (v : option nat) (d : t) : t :=
mk (cfg d) (dragging d) (_dragThreshMet d) (_fromTimeout d) v (_ev_md d)
   (deltaXY d) (startXY d) (nodeXY d) (lastXY d) (mouseXY d) (region d).
Definition set_ev_md (v : option XY) (d : t) : t :=
mk (cfg d) (dragging d) (_dragThreshMet d) (_fromTimeout d) (_clickTimeout d) v
   (deltaXY d) (startXY d) (nodeXY d) (lastXY d) (mouseXY d) (region d).
Definition set_deltaXY (v : option XY) (d : t) : t :=
mk (cfg d) (dragging d) (_dragThreshMet d) (_fromTimeout d) (_clickTimeout d) (_ev_md d)
   v (startXY d) (nodeXY d) (lastXY d) (mouseXY d) (region d).
Definition set_startXY (v : option XY) (d : t) : t :=
mk (cfg d) (dragging d) (_dragThreshMet d) (_fromTimeout d) (_clickTimeout d) (_ev_md d)
   (deltaXY d) v (nodeXY d) (lastXY d) (mouseXY d) (region d).
Definition set_nodeXY (v : option XY) (d : t) : t :=
mk (cfg d) (dragging d) (_dragThreshMet d) (_fromTimeout d) (_clickTimeout d) (_ev_md d)
   (deltaXY d) (startXY d) v (lastXY d) (mouseXY d) (region d).
Definition set_lastXY (v : option XY) (d : t) : t :=
mk (cfg d) (dragging d) (_dragThreshMet d) (_fromTimeout d) (_clickTimeout d) (_ev_md d)
   (deltaXY d) (startXY d) (nodeXY d) v (mouseXY d) (region d).
Definition set_mouseXY (v : option XY) (d : t) : t :=
mk (cfg d) (dragging d) (_dragThreshMet d) (_fromTimeout d) (_clickTimeout d) (_ev_md d)
   (deltaXY d) (startXY d) (nodeXY d) (lastXY d) v (region d).
Definition set_region (v : option Region.t) (d : t) : t :=
mk (cfg d) (dragging d) (_dragThreshMet d) (_fromTimeout d) (_clickTimeout d) (_ev_md d)
   (deltaXY d) (startXY d) (nodeXY d) (lastXY d) (mouseXY d) v.
End Drag.

(** ** Drop objects (dd-drop) *)

Module Drop.
(** A Drop. [_groups] is the object whose own keys are the group names
  (each mapped to [true]); [shim] and [region] are [null] until
  [_createShim] / [sizeShim] set them. *)
Record t : Type := mk {
node : NodeRef;
lock : bool;
padding : Sizes;
_groups : gset string;
_valid : bool;
shim : option NodeRef;
region : option Region.t;
overTarget : bool
}.

Definition set_valid (v : bool) (d : t) : t :=
mk (node d) (lock d) (padding d) (_groups d) v (shim d) (region d) (overTarget d).
Definition set_region (v : option Region.t) (d : t) : t :=
mk (node d) (lock d) (padding d) (_groups d) (_valid d) (shim d) v (overTarget d).
Definition set_overTarget (v : bool) (d : t) : t :=
mk (node d) (lock d) (padding d) (_groups d) (_valid d) (shim d) (region d) v.


Section WithPrototype.
(** The property names every object inherits from [Object.prototype] in
the host ([constructor], [toString], ...); all of them are truthy. *)
Variable proto : string -> bool.

(** [this._groups[name]] as a condition: an own key holds [true], an
inherited name holds a function. *)
Definition group_lookup (d : t) (name : string) : bool :=
bool_decide (name ∈ _groups d) || proto name.

(** [inGroup(J)]: [_valid = false; K = false], then for each name of [J]
with a truthy [_groups] entry [K = true; _valid = true].
Returns [K] and the updated Drop. *)
Definition inGroup (d : t) (J : list string) : bool * t :=
fold_left
(fun (acc : bool * t) (M : string) =>
   if group_lookup (snd acc) M then (true, set_valid true (snd acc)) else acc)
J (false, set_valid false d).
End WithPrototype.
End Drop.

(** ** The manager's drop-target state (dd-ddm-drop) *)

Module DDM.
Definition POINT : Z := 0.
Definition INTERSECT : Z := 1.
Definition STRICT : Z := 2.

(** [_setDragMode]: attribute values to mode numbers; [dflt] is what
  [DDM.get("dragMode")] gives for [null]. *)
Inductive ModeArg : Type := MNull | MNum (n : Z) | MStr (s : string).

Definition _setDragMode_value (C : ModeArg) : Z :=
match C with
| MNum 1 => 1
| MNum 2 => 2
| MStr s => if String.eqb s "intersect" then 1
            else if String.eqb s "strict" then 2 else 0
| _ => 0
end.

Definition _setDragMode (dflt : ModeArg) (C : ModeArg) : Z :=
match C with
| MNull => _setDragMode_value dflt
| _ => _setDragMode_value C
end.

(** The manager: the active drag, the Drop objects (by reference) and the
  target lists. [otherDrops] lists the keys of the [otherDrops] object in
  insertion order. *)
Record t : Type := mk {
activeDrag : option Drag.t;
activeDrop : option DropRef;
validDrops : list DropRef;
otherDrops : list DropRef;
targets : list DropRef;
_activeShims : list DropRef;
_noShim : bool;
useHash : bool;
drops : gmap nat Drop.t
}.

Definition set_activeDrag (v : option Drag.t) (m : t) : t :=
mk v (activeDrop m) (validDrops m) (otherDrops m) (targets m)
   (_activeShims m) (_noShim m) (useHash m) (drops m).
Definition set_activeDrop (v : option DropRef) (m : t) : t :=
mk (activeDrag m) v (validDrops m) (otherDrops m) (targets m)
   (_activeShims m) (_noShim m) (useHash m) (drops m).
Definition set_validDrops (v : list DropRef) (m : t) : t :=
mk (activeDrag m) (activeDrop m) v (otherDrops m) (targets m)
   (_activeShims m) (_noShim m) (useHash m) (drops m).
Definition set_otherDrops (v : list DropRef) (m : t) : t :=
mk (activeDrag m) (activeDrop m) (validDrops m) v (targets m)
   (_activeShims m) (_noShim m) (useHash m) (drops m).
Definition set_activeShims (v : list DropRef) (m : t) : t :=
mk (activeDrag m) (activeDrop m) (validDrops m) (otherDrops m) (targets m)
   v (_noShim m) (useHash m) (drops m).
Definition set_drops (v : gmap nat Drop.t) (m : t) : t :=
mk (activeDrag m) (activeDrop m) (validDrops m) (otherDrops m) (targets m)
   (_activeShims m) (_noShim m) (useHash m) v.

(** Dereference a Drop; a reference always denotes an object of the heap,
  so a miss only arises from an ill-formed state. *)
Definition deref (m : t) (r : DropRef) : Outcome Drop.t :=
match drops m !! r with
| Some d => Ok d
| None => TypeError
end.

Definition store (m : t) (r : DropRef) (d : Drop.t) : t :=
set_drops (<[r := d]> (drops m)) m.

Definition _addValid (B : DropRef) (m : t) : t :=
set_validDrops (validDrops m ++ [B]) m.

Definition _removeValid (B : DropRef) (m : t) : t :=
set_validDrops (List.filter (fun E => negb (E =? B)%nat) (validDrops m)) m.

Definition clearCache (m : t) : t :=
set_activeShims [] (set_otherDrops [] (set_validDrops [] m)).

Section WithDom.
Variable dom : Node.Dom.

(** [isOverTarget(B)]; [B] is [None] when no drop is given. In STRICT
    mode the Drop's [region] is the rectangle handed to [inRegion], whose
    sides are read there: a Drop that was never sized has [region = null]
    and the read raises. Otherwise the test goes through [B.shim], which
    is [null] once the Drop is destroyed. *)
Definition isOverTarget (m : t) (B : option DropRef) : Outcome bool :=
match activeDrag m, B with
| Some drag, Some b =>
  match Drag.mouseXY drag with
  | Some C =>
      d ← deref m b;
      if Drag.dragMode (Drag.cfg drag) =? STRICT then
        match Drop.region d with
        | Some r =>
            Ok (Node.inRegion dom (Drag.dragNode (Drag.cfg drag)) r true
                  (Drag.region drag))
        | None => TypeError
        end
      else
        match Drop.shim d with
        | Some s =>
            Ok (Node.inRegion_flag
                  (Node.intersect dom s (Region.point C) (Drop.region d)))
        | None => TypeError
        end
  | None => Ok false
  end
| _, _ => Ok false
end.

(** What [getBestMatch] returns: the winner alone, or the pair
[[winner, losers]] when the second argument is set. *)
Inductive BestMatch : Type :=
| Winner (C : option DropRef)
| WinnerAndLosers (C : option DropRef) (B : list DropRef).

(** One iteration of the first loop of [getBestMatch]:
[G = dragNode.intersect(I.get("node")); I.region.area = G.area;
 if (G.inRegion) { if (G.area > E) { E = G.area; C = I; } }]. *)
Definition bestMatch_step (acc : t * option DropRef * Z) (I : DropRef)
: Outcome (t * option DropRef * Z) :=
let '(m, C, E) := acc in
match activeDrag m with
| None => TypeError
| Some drag =>
  d ← deref m I;
  let G := Node.intersect dom (Drag.dragNode (Drag.cfg drag))
             (Node.region dom (Drop.node d)) None in
  match Drop.region d with
  | None => TypeError
  | Some r =>
      let m' := store m I (Drop.set_region (Some (Region.set_area r (Node.area G))) d) in
      if Node.inRegion_flag G && (E <? Node.area G)
      then Ok (m', Some I, Node.area G)
      else Ok (m', C, E)
  end
end.

Fixpoint bestMatch_loop (F : list DropRef) (acc : t * option DropRef * Z)
: Outcome (t * option DropRef * Z) :=
match F with
| [] => Ok acc
| I0 :: F' => acc' ← bestMatch_step acc I0; bestMatch_loop F' acc'
end.

(** [H !== C] for a Drop reference [H] and the winner [C] (maybe [null]). *)
Definition differs (C : option DropRef) (H : DropRef) : bool :=
match C with
| Some c => negb (H =? c)%nat
| None => true
end.

(** [getBestMatch(F, D)] over an array [F] of Drops. *)
Definition getBestMatch (m : t) (F : list DropRef) (D : bool)
: Outcome (t * BestMatch) :=
r ← bestMatch_loop F (m, None, 0);
let '(m', C, _) := r in
if D then Ok (m', WinnerAndLosers C (List.filter (differs C) F))
else Ok (m', Winner C).

(** Modelled from the spec: [shim.inViewportRegion(false, region)],
whether the (alternate) region meets the viewport; the Node
abstraction is not part of the bundle. *)
Definition inViewportRegion (n : NodeRef) (altRegion : option Region.t) : bool :=
Node.inRegion dom n (Node.viewportRegion dom n) false altRegion.

Fixpoint _lookup_loop (m : t) (l : list DropRef) : Outcome (list DropRef) :=
match l with
| [] => Ok []
| D :: l' =>
  d ← deref m D;
  match Drop.shim d with
  | None => TypeError
  | Some s =>
      B ← _lookup_loop m l';
      Ok (if inViewportRegion s (Drop.region d) then D :: B else B)
  end
end.

Definition _lookup (m : t) : Outcome (list DropRef) :=
if negb (useHash m) then Ok (validDrops m) else _lookup_loop m (validDrops m).
End WithDom.
End DDM.

(** ** Drop methods that work on the manager (dd-drop)

    [this] is the reference of the receiving Drop. Class-list writes on the
    nodes and style writes on the shim are DOM styling and leave the state
    modelled here unchanged. *)

Module DropShim.
Section WithHost.
Variable dom : Node.Dom.
Variable proto : string -> bool.

(** [sizeShim()]. *)
Definition sizeShim (m : DDM.t) (this : DropRef) : Outcome DDM.t :=
d ← DDM.deref m this;
let O := Drop.node d in
let M := Node.offsetHeight dom O in
let K := Node.offsetWidth dom O in
let Q := Node.getXY dom O in
let P := Drop.padding d in
let K := K + s_left P + s_right P in
let M := M + s_top P + s_bottom P in
let Q := (fst Q - s_left P, snd Q - s_top P) in
match DDM.activeDrag m with
| None => TypeError
| Some J =>
  r ← (if Drag.dragMode (Drag.cfg J) =? DDM.INTERSECT then
         let N := Node.offsetHeight dom (Drag.node (Drag.cfg J)) in
         let L := Node.offsetWidth dom (Drag.node (Drag.cfg J)) in
         match Drag.deltaXY J with
         | None => TypeError
         | Some delta =>
             Ok (M + N, K + L,
                 (fst Q - (L - fst delta), snd Q - (N - snd delta)))
         end
       else Ok (M, K, Q));
  let '(M, K, Q) := r in
  match Drop.shim d with
  | None => TypeError
  | Some _ => Ok (DDM.store m this (Drop.set_region (Some (Region.at_xy Q K M)) d))
  end
end.

(** [_activateShim()]. *)
Definition _activateShim (m : DDM.t) (this : DropRef) : Outcome DDM.t :=
match DDM.activeDrag m with
| None => Ok m
| Some drag =>
  d ← DDM.deref m this;
  if (Drop.node d =? Drag.node (Drag.cfg drag))%nat then Ok m
  else if Drop.lock d then Ok m
  else
    let '(K, d1) := Drop.inGroup proto d (Drag.groups (Drag.cfg drag)) in
    let m1 := DDM.store m this d1 in
    if K then
      let m2 := DDM._addValid this m1 in
      let m3 := DDM.store m2 this (Drop.set_overTarget false d1) in
      sizeShim m3 this
    else Ok (DDM._removeValid this m1)
end.

(** [_deactivateShim()]. *)
Definition _deactivateShim (m : DDM.t) (this : DropRef) : Outcome DDM.t :=
d ← DDM.deref m this;
match Drop.shim d with
| None => TypeError
| Some _ => Ok (DDM.store m this (Drop.set_overTarget false d))
end.

(** [DDM._removeActiveShim(C)] and the key operations on [otherDrops]. *)
Definition _removeActiveShim (C : DropRef) (m : DDM.t) : DDM.t :=
DDM.set_activeShims
(List.filter (fun E => negb (E =? C)%nat) (DDM._activeShims m)) m.

Definition otherDrops_put (r : DropRef) (m : DDM.t) : DDM.t :=
if existsb (Nat.eqb r) (DDM.otherDrops m) then m
else DDM.set_otherDrops (DDM.otherDrops m ++ [r]) m.

Definition otherDrops_delete (r : DropRef) (m : DDM.t) : DDM.t :=
DDM.set_otherDrops
(List.filter (fun E => negb (E =? r)%nat) (DDM.otherDrops m)) m.

(** [_handleOut()]. *)
Definition _handleOut (m : DDM.t) (this : DropRef) : Outcome DDM.t :=
DDM.isOverTarget dom m (Some this) ≫= fun over : bool =>
if over then Ok m
else
d ← DDM.deref m this;
if Drop.overTarget d then
  let m1 := DDM.store m this (Drop.set_overTarget false d) in
  let m2 := _removeActiveShim this m1 in
  match DDM.activeDrag m2 with
  | Some _ => Ok (otherDrops_delete this m2)
  | None => Ok m2
  end
else Ok m.

(** [_handleTargetOver()] of a Drop. On entering, the Drop calls the
manager's [_handleTargetOver] again; [G_handleTargetOver] is that
method, and [None] says the nested call ran out of fuel. *)
Definition _handleTargetOver
(G_handleTargetOver : DDM.t -> option (Outcome DDM.t))
(m : DDM.t) (this : DropRef) : option (Outcome DDM.t) :=
match DDM.isOverTarget dom m (Some this) with
| TypeError => Some TypeError
| Ok over =>
  if over then
    let m1 := otherDrops_put this (DDM.set_activeDrop (Some this) m) in
    match DDM.deref m1 this with
    | TypeError => Some TypeError
    | Ok d =>
        if Drop.overTarget d then Some (Ok m1)
        else G_handleTargetOver (DDM.store m1 this (Drop.set_overTarget true d))
    end
  else Some (_handleOut m this)
end.
End WithHost.
End DropShim.

(** ** Target activation (dd-ddm-drop) *)

Module Targets.
Section WithHost.
Variable dom : Node.Dom.
Variable proto : string -> bool.

(** [A.each(list, f)] for a method [f] that may throw or, through a
nested call, run out of fuel. *)
Fixpoint each (f : DDM.t -> DropRef -> option (Outcome DDM.t))
(l : list DropRef) (m : DDM.t) : option (Outcome DDM.t) :=
match l with
| [] => Some (Ok m)
| D :: l' =>
  match f m D with
  | Some (Ok m') => each f l' m'
  | other => other
  end
end.

(** The manager's [_handleTargetOver()]:
[B = this._lookup(); A.each(B, D => D._handleTargetOver())].
[fuel] bounds the depth of the calls nested through entering Drops. *)
Fixpoint _handleTargetOver (fuel : nat) (m : DDM.t) : option (Outcome DDM.t) :=
match fuel with
| O => None
| S fuel' =>
  match DDM._lookup dom m with
  | TypeError => Some TypeError
  | Ok B => each (DropShim._handleTargetOver dom (_handleTargetOver fuel')) B m
  end
end.

(** [_activateTargets()]:
[clearCache(); A.each(targets, C => C._activateShim()); _handleTargetOver()]. *)
Definition _activateShims (m : DDM.t) : option (Outcome DDM.t) :=
each (fun m' C => Some (DropShim._activateShim dom proto m' C))
   (DDM.targets m) (DDM.clearCache m).

Definition _activateTargets (fuel : nat) (m : DDM.t) : option (Outcome DDM.t) :=
match _activateShims m with
| Some (Ok m') => _handleTargetOver fuel m'
| other => other
end.
End WithHost.
End Targets.

(** ** Drag: pointer-offset alignment (dd-drag) *)

Module DragBase.
(** [_align(S)]: [[S[0] - deltaXY[0], S[1] - deltaXY[1]]]. *)
Definition _align (this : Drag.t) (S : XY) : Outcome XY :=
match Drag.deltaXY this with
| Some delta => Ok (fst S - fst delta, snd S - snd delta)
| None => TypeError
end.
End DragBase.

(** ** The constraint extension (dd-constrain) *)

Module Constrain.
(** The [constrain2region] setter: an object is kept only when its four
  sides are all truthy; the value stored is a copy. *)
Definition set_constrain2region (C : option Region.t) : option Region.t :=
match C with
| Some r =>
    if truthy (Region.top r) && truthy (Region.right r)
       && truthy (Region.left r) && truthy (Region.bottom r)
    then Some r else None
| None => None
end.

(** The [constrain2node] setter: the node is kept only while no
  [constrain2region] is configured. [H] is the node [Node.get] found,
  if any. *)
Definition set_constrain2node (a : Constrain_ATTRS.t) (H : option NodeRef)
  : option NodeRef :=
match Constrain_ATTRS.constrain2region a with
| None => H
| Some _ => None
end.

(** [set("constrain2region", C)], [set("constrain2node", H)] and
  [set("constrain2view", v)] on the constraint attributes: the value
  stored is what the attribute's setter returns. *)
Definition configure_constrain2region (C : option Region.t) (a : Constrain_ATTRS.t)
  : Constrain_ATTRS.t :=
{| Constrain_ATTRS.stickX := Constrain_ATTRS.stickX a;
   Constrain_ATTRS.stickY := Constrain_ATTRS.stickY a;
   Constrain_ATTRS.tickX := Constrain_ATTRS.tickX a;
   Constrain_ATTRS.tickY := Constrain_ATTRS.tickY a;
   Constrain_ATTRS.tickXArray := Constrain_ATTRS.tickXArray a;
   Constrain_ATTRS.tickYArray := Constrain_ATTRS.tickYArray a;
   Constrain_ATTRS.constrain2region := set_constrain2region C;
   Constrain_ATTRS.gutter := Constrain_ATTRS.gutter a;
   Constrain_ATTRS.constrain2node := Constrain_ATTRS.constrain2node a;
   Constrain_ATTRS.constrain2view := Constrain_ATTRS.constrain2view a |}.

Definition configure_constrain2node (H : option NodeRef) (a : Constrain_ATTRS.t)
  : Constrain_ATTRS.t :=
{| Constrain_ATTRS.stickX := Constrain_ATTRS.stickX a;
   Constrain_ATTRS.stickY := Constrain_ATTRS.stickY a;
   Constrain_ATTRS.tickX := Constrain_ATTRS.tickX a;
   Constrain_ATTRS.tickY := Constrain_ATTRS.tickY a;
   Constrain_ATTRS.tickXArray := Constrain_ATTRS.tickXArray a;
   Constrain_ATTRS.tickYArray := Constrain_ATTRS.tickYArray a;
   Constrain_ATTRS.constrain2region := Constrain_ATTRS.constrain2region a;
   Constrain_ATTRS.gutter := Constrain_ATTRS.gutter a;
   Constrain_ATTRS.constrain2node := set_constrain2node a H;
   Constrain_ATTRS.constrain2view := Constrain_ATTRS.constrain2view a |}.

Definition configure_constrain2view (v : bool) (a : Constrain_ATTRS.t)
  : Constrain_ATTRS.t :=
{| Constrain_ATTRS.stickX := Constrain_ATTRS.stickX a;
   Constrain_ATTRS.stickY := Constrain_ATTRS.stickY a;
   Constrain_ATTRS.tickX := Constrain_ATTRS.tickX a;
   Constrain_ATTRS.tickY := Constrain_ATTRS.tickY a;
   Constrain_ATTRS.tickXArray := Constrain_ATTRS.tickXArray a;
   Constrain_ATTRS.tickYArray := Constrain_ATTRS.tickYArray a;
   Constrain_ATTRS.constrain2region := Constrain_ATTRS.constrain2region a;
   Constrain_ATTRS.gutter := Constrain_ATTRS.gutter a;
   Constrain_ATTRS.constrain2node := Constrain_ATTRS.constrain2node a;
   Constrain_ATTRS.constrain2view := v |}.

(** The gutter loop of [getRegion]: [right] and [bottom] shrink, [top] and
  [left] grow. *)
Definition apply_gutter (g : Sizes) (r : Region.t) : Region.t :=
Region.mk (Region.top r + s_top g) (Region.right r - s_right g)
          (Region.bottom r - s_bottom g) (Region.left r + s_left g)
          (Region.area r).

Section WithDom.
Variable dom : Node.Dom.

(** The first part of [getRegion]: which region the constraint starts
from, or [None] where the source returns [false]. *)
Definition region_source (this : Drag.t) : option Region.t :=
let c := Drag.cfg this in
let a := Drag.constrain c in
match Constrain_ATTRS.constrain2node a with
| Some n => Some (Node.region dom n)
| None =>
  match Constrain_ATTRS.constrain2region a with
  | Some r => Some r
  | None =>
      if Constrain_ATTRS.constrain2view a
      then Some (Node.viewportRegion dom (Drag.node c))
      else None
  end
end.

(** The rest of [getRegion(K)]: the gutter is applied and, when [K] is set,
the drag node's size is taken off the right and bottom sides. *)
Definition adjust_region (this : Drag.t) (K : bool) (I0 : Region.t) : Region.t :=
let c := Drag.cfg this in
let I1 := apply_gutter (Constrain_ATTRS.gutter (Drag.constrain c)) I0 in
if K then
let J := Node.offsetHeight dom (Drag.dragNode c) in
let C := Node.offsetWidth dom (Drag.dragNode c) in
Region.mk (Region.top I1) (Region.right I1 - C)
          (Region.bottom I1 - J) (Region.left I1) (Region.area I1)
else I1.

(** [getRegion(K)]. *)
Definition getRegion (this : Drag.t) (K : bool) : option Region.t :=
adjust_region this K <$> region_source this.

(** The body of [_checkRegion] for a region [J] and node size [H] x [K]. *)
Definition clamp (J : Region.t) (H K : Z) (C : XY) : XY :=
let y := snd C in
let y := if y <? Region.top J then Region.top J else y in
let y := if Region.bottom J - K <? y then Region.bottom J - K else y in
let x := fst C in
let x := if x <? Region.left J then Region.left J else x in
let x := if Region.right J - H <? x then Region.right J - H else x in
(x, y).

(** [_checkRegion(C)]. With no region ([getRegion()] is [false]) every
comparison involves [undefined] and fails, so [C] comes back as is. *)
Definition _checkRegion (this : Drag.t) (C : XY) : XY :=
let K := Node.offsetHeight dom (Drag.dragNode (Drag.cfg this)) in
let H := Node.offsetWidth dom (Drag.dragNode (Drag.cfg this)) in
match getRegion this false with
| Some J => clamp J H K C
| None => C
end.

(** [inRegion(I)], with [I] defaulting to the drag node's position. *)
Definition inRegion (this : Drag.t) (I : option XY) : bool :=
let I := default (Node.getXY dom (Drag.dragNode (Drag.cfg this))) I in
let H := _checkRegion this I in
(fst I =? fst H) && (snd I =? snd H).
End WithDom.

(** [Math.floor] and [Math.ceil] of the quotient [a / b], [b] nonzero. *)
Definition floor_div (a b : Z) : Z := a / b.
Definition ceil_div (a b : Z) : Z := - ((- a) / b).

(** [_calcTicks(N, M, J, L, K)] on integers, for a nonzero tick [J]
  ([_checkTicks] passes truthy ticks only). [L] and [K] are [undefined]
  when there is no region. The test [H >= I && H <= C] always holds. *)
Definition _calcTicks (N M J : Z) (L K : option Z) : Z :=
let I := floor_div (N - M) J in
let C := ceil_div (N - M) J in
if negb (I =? 0) || negb (C =? 0) then
  let N1 := M + J * I in
  match L, K with
  | Some l, Some k =>
      if truthy l && truthy k then
        let N2 := if N1 <? l then M + J * (I + 1) else N1 in
        if k <? N2 then M + J * (I - 1) else N2
      else N1
  | _, _ => N1
  end
else N.

(** The body of the [for] loop of [_calcTickArray] at index [H], once
  [P[J]] (with [J = H + 1]) is truthy and at least [O]. *)
Definition tick_choice (O : Z) (P : list Z) (N K : option Z) (H : nat) (PJ : Z) : Z :=
let PH := default 0 (P !! H) in
let I := O - PH in
let C := PJ - O in
let M := if I <? C then PH else PJ in
match N, K with
| Some n, Some k =>
    if truthy n && truthy k then
      if k <? M then
        (if truthy PH then PH else default 0 (P !! (length P - 1)%nat))
      else M
    else M
| _, _ => M
end.

(** The loop [for (H = 0; H < L; H++)] with [count] iterations left. *)
Fixpoint tick_scan (O : Z) (P : list Z) (N K : option Z) (count H : nat) : Z :=
match count with
| 0%nat => default 0 (P !! (length P - 1)%nat)
| S count' =>
    match P !! S H with
    | Some PJ =>
        if truthy PJ && (O <=? PJ) then tick_choice O P N K H PJ
        else tick_scan O P N K count' (S H)
    | None => tick_scan O P N K count' (S H)
    end
end.

(** [_calcTickArray(O, P, N, K)]. *)
Definition _calcTickArray (O : Z) (P : list Z) (N K : option Z) : Z :=
match P with
| [] => O
| P0 :: _ =>
    if O <=? P0 then P0
    else tick_scan O P N K (length P) 0
end.

(** [tickX && ...]: a tick of [false] or [0] is falsy. *)
Definition tick_on (tick : option Z) : option Z :=
match tick with
| Some z => if truthy z then Some z else None
| None => None
end.

(** [_checkTicks(L, J)]; [J] is [None] when [getRegion(true)] gave [false],
  and then [J.left] etc. are [undefined]. *)
Definition _checkTicks (this : Drag.t) (L : XY) (J : option Region.t) : Outcome XY :=
let a := Drag.constrain (Drag.cfg this) in
match Drag.startXY this, Drag.deltaXY this with
| Some start, Some delta =>
    let K := fst start - fst delta in
    let I := snd start - snd delta in
    let x :=
      match tick_on (Constrain_ATTRS.tickX a), Constrain_ATTRS.tickXArray a with
      | Some C, None =>
          _calcTicks (fst L) K C (Region.left <$> J) (Region.right <$> J)
      | _, _ => fst L
      end in
    let y :=
      match tick_on (Constrain_ATTRS.tickY a), Constrain_ATTRS.tickYArray a with
      | Some H, None =>
          _calcTicks (snd L) I H (Region.top <$> J) (Region.bottom <$> J)
      | _, _ => snd L
      end in
    let x :=
      match Constrain_ATTRS.tickXArray a with
      | Some P => _calcTickArray x P (Region.left <$> J) (Region.right <$> J)
      | None => x
      end in
    let y :=
      match Constrain_ATTRS.tickYArray a with
      | Some P => _calcTickArray y P (Region.top <$> J) (Region.bottom <$> J)
      | None => y
      end in
    Ok (x, y)
| _, _ => TypeError
end.

(** The axis pinning of [_align]: [stickX] sets [C[1]], [stickY] sets
  [C[0]], each to the start value of that coordinate. *)
Definition stick (this : Drag.t) (C : XY) : Outcome XY :=
let a := Drag.constrain (Drag.cfg this) in
if Constrain_ATTRS.stickX a || Constrain_ATTRS.stickY a then
  match Drag.startXY this, Drag.deltaXY this with
  | Some start, Some delta =>
      let y := if Constrain_ATTRS.stickX a then snd start - snd delta else snd C in
      let x := if Constrain_ATTRS.stickY a then fst start - fst delta else fst C in
      Ok (x, y)
  | _, _ => TypeError
  end
else Ok C.

Section Align.
Variable dom : Node.Dom.

(** The overriding [_align(I)]: the inherited alignment, axis pinning,
[_checkRegion] when [getRegion(true)] is a region, then
[_checkTicks]. *)
Definition _align (this : Drag.t) (I : XY) : Outcome XY :=
C ← DragBase._align this I;
let H := getRegion dom this true in
C1 ← stick this C;
let C2 := match H with
        | Some _ => _checkRegion dom this C1
        | None => C1
        end in
_checkTicks this C2 H.
End Align.
End Constrain.

(** ** Further parts of the manager (dd-ddm-base, dd-ddm-drop) *)

Module Registry.
(** [_regDrag(C)] and [_unregDrag(D)] on the [_drags] array of Drag
    references. *)
Definition _regDrag (C : nat) (_drags : list nat) : list nat := _drags ++ [C].

Definition _unregDrag (D : nat) (_drags : list nat) : list nat :=
  List.filter (fun F => negb (F =? D)%nat) _drags.

Definition set_targets (v : list DropRef) (m : DDM.t) : DDM.t :=
  DDM.mk (DDM.activeDrag m) (DDM.activeDrop m) (DDM.validDrops m) (DDM.otherDrops m) v
         (DDM._activeShims m) (DDM._noShim m) (DDM.useHash m) (DDM.drops m).

(** [_regTarget(B)] and [_unregTarget(C)]. *)
Definition _regTarget (B : DropRef) (m : DDM.t) : DDM.t :=
  set_targets (DDM.targets m ++ [B]) m.

Definition _unregTarget (C : DropRef) (m : DDM.t) : DDM.t :=
  set_targets (List.filter (fun E => negb (E =? C)%nat) (DDM.targets m)) m.

(** [_addActiveShim(B)] and [_hasActiveShim()]; the latter answers [true]
    or the length of [_activeShims], read as a condition. *)
Definition _addActiveShim (B : DropRef) (m : DDM.t) : DDM.t :=
  DDM.set_activeShims (DDM._activeShims m ++ [B]) m.

Definition _hasActiveShim (m : DDM.t) : bool :=
  if DDM._noShim m then true else negb (length (DDM._activeShims m) =? 0)%nat.

(** One iteration of the loop of [getDrop]: [if (D.compareTo(F.get("node"))) B = F]. *)
Definition getDrop_step (m : DDM.t) (D : NodeRef) (B : option DropRef) (F : DropRef)
    : Outcome (option DropRef) :=
  d ← DDM.deref m F;
  Ok (if (D =? Drop.node d)%nat then Some F else B).

Fixpoint getDrop_loop (m : DDM.t) (D : NodeRef) (l : list DropRef) (B : option DropRef)
    : Outcome (option DropRef) :=
  match l with
  | [] => Ok B
  | F :: l' => B' ← getDrop_step m D B F; getDrop_loop m D l' B'
  end.

(** [getDrop(C)]; [D] is what [Node.get(C)] found, if it is a Node. The
    result [None] is the source's [false]. *)
Definition getDrop (m : DDM.t) (D : option NodeRef) : Outcome (option DropRef) :=
  match D with
  | Some n => getDrop_loop m n (DDM.targets m) None
  | None => Ok None
  end.
End Registry.

(** ** Releasing the drag over the targets (dd-ddm-drop) *)

Module Release.
(** What [_deactivateTargets] fires: [drop:hit] on the winning Drop and
    [drag:drophit] on the Drag, both with the winner and the [others]; or
    [drag:dropmiss] on the Drag, with the last tracked position. *)
Inductive Fired : Type :=
| DropHit (drop : DropRef) (others : list DropRef)
| DragDropHit (drop : DropRef) (others : list DropRef)
| DragDropMiss (pageX pageY : Z).

Section WithDom.
Variable dom : Node.Dom.

(** [A.each(this.targets, F => F._deactivateShim())]. *)
Fixpoint _deactivateShims (l : list DropRef) (m : DDM.t) : Outcome DDM.t :=
match l with
| [] => Ok m
| F :: l' => m' ← DropShim._deactivateShim m F; _deactivateShims l' m'
end.

(** The branch taken when the active drop is a key of [otherDrops]. In
    POINT mode ([dragMode] is falsy) [others] is the [otherDrops] object
    itself, the active drop deleted from it; otherwise [getBestMatch]
    chooses the active drop anew. [this.activeDrop.fire] then raises when
    the active drop has become [null]. *)
Definition hit (D : Drag.t) (a : DropRef) (m : DDM.t) : Outcome (DDM.t * list Fired) :=
r ← (if negb (truthy (Drag.dragMode (Drag.cfg D))) then
       let m1 := DropShim.otherDrops_delete a m in
       Ok (m1, DDM.otherDrops m1)
     else
       DDM.getBestMatch dom m (DDM.otherDrops m) true ≫= fun C =>
       match C with
       | (m1, DDM.WinnerAndLosers C0 C1) => Ok (DDM.set_activeDrop C0 m1, C1)
       | (_, DDM.Winner _) => TypeError
       end);
let '(m1, B) := r in
match DDM.activeDrop m1 with
| Some w => Ok (m1, [DropHit w B; DragDropHit w B])
| None => TypeError
end.

(** The other branch with an active drag: [D.lastXY[0]] is read. *)
Definition miss (D : Drag.t) (m : DDM.t) : Outcome (DDM.t * list Fired) :=
match Drag.lastXY D with
| Some l => Ok (m, [DragDropMiss (fst l) (snd l)])
| None => TypeError
end.

(** [_deactivateTargets()]. *)
Definition _deactivateTargets (m : DDM.t) : Outcome (DDM.t * list Fired) :=
r ← match DDM.activeDrag m with
    | Some D =>
        match DDM.activeDrop m with
        | Some a =>
            if existsb (Nat.eqb a) (DDM.otherDrops m) then hit D a m else miss D m
        | None => miss D m
        end
    | None => Ok (m, [])
    end;
let '(m1, fired) := r in
m2 ← _deactivateShims (DDM.targets m1) (DDM.set_activeDrop None m1);
Ok (m2, fired).
End WithDom.
End Release.

(** ** Pointer moves over the targets (dd-ddm-drop) *)

Module DropMove.
Section WithDom.
Variable dom : Node.Dom.

(** [A.each(this.otherDrops, C => C._handleOut())]; a call deletes its
    own key at most. *)
Fixpoint _handleOuts (l : list DropRef) (m : DDM.t) : Outcome DDM.t :=
match l with
| [] => Ok m
| C :: l' => m' ← DropShim._handleOut dom m C; _handleOuts l' m'
end.

(** [_dropMove()]. *)
Definition _dropMove (fuel : nat) (m : DDM.t) : option (Outcome DDM.t) :=
if Registry._hasActiveShim m then Targets._handleTargetOver dom fuel m
else Some (_handleOuts (DDM.otherDrops m) m).
End WithDom.
End DropMove.

(** ** The Drag state machine (dd-drag, driven by the manager)

    One Drag and the manager, as the handlers of the bundle run on them.
    [DD.Drag] is the class dd-constrain leaves behind, so [_moveNode] calls
    the overriding [_align]; the dd-proxy attributes keep their default
    ([proxy] is [false]), with which its [start] and [end] are the inherited
    ones. The manager's [_startDrag], [_endDrag] and [_dropMove] are those of
    dd-ddm and dd-ddm-drop. *)

Module DragFlow.
(** What a handler does to the outside: events fired, the page-covering
  shim shown or hidden, node moves, timer calls. *)
Inductive Effect : Type :=
| Fire (ev : string) (xy : XY)
| FireDrag (xy delta offset : XY)
| FireMouse (ev : string)
| FireDrop (f : Release.Fired)
| PG_activate
| PG_deactivate
| DDM_setXY (n : NodeRef) (delta : XY)
| Node_setXY (n : NodeRef) (xy : XY)
| SetTimeout (h : nat) (ms : Z)
| ClearTimeout (h : option nat).

(** A pointer event: page coordinates, button, and what [validClick]
  answers for its target (a DOM containment and selector test). *)
Record MouseEvent : Type := {
pageX : Z;
pageY : Z;
button : Z;
validClick : bool
}.

(** The page, the Drag, whether it is the manager's [activeDrag], the
  manager's drop-target state, the timers set by [setTimeout] that have
  neither fired nor been cleared, the handle the next [setTimeout]
  returns, and the trace. *)
Record St : Type := mkSt {
page : Node.Dom;
drag : Drag.t;
active : bool;
mgr : DDM.t;
timers : list nat;
next_timer : nat;
trace : list Effect
}.

(** A freshly constructed Drag with attributes [c] on a page [p] whose
  manager is [m]: no drag is active, no timer has been set. *)
Definition fresh (p : Node.Dom) (c : Drag.Config) (m : DDM.t) : St :=
mkSt p (Drag.init c) false m [] 0 [].

Definition emits (l : list Effect) (s : St) : St :=
mkSt (page s) (drag s) (active s) (mgr s) (timers s) (next_timer s) (trace s ++ l).
Definition emit (e : Effect) (s : St) : St := emits [e] s.
Definition upd (f : Drag.t -> Drag.t) (s : St) : St :=
mkSt (page s) (f (drag s)) (active s) (mgr s) (timers s) (next_timer s) (trace s).
Definition set_active (v : bool) (s : St) : St :=
mkSt (page s) (drag s) v (mgr s) (timers s) (next_timer s) (trace s).
Definition set_mgr (m : DDM.t) (s : St) : St :=
mkSt (page s) (drag s) (active s) m (timers s) (next_timer s) (trace s).
Definition set_timers (l : list nat) (s : St) : St :=
mkSt (page s) (drag s) (active s) (mgr s) l (next_timer s) (trace s).
Definition set_page (p : Node.Dom) (s : St) : St :=
mkSt p (drag s) (active s) (mgr s) (timers s) (next_timer s) (trace s).

(** The manager as its drop-target code sees it: [activeDrag] is this
  Drag while it is the active one. *)
Definition manager (s : St) : DDM.t :=
DDM.set_activeDrag (if active s then Some (drag s) else None) (mgr s).

Definition count_fired (ev : string) (tr : list Effect) : nat :=
length (List.filter (fun e => match e with
                              | Fire ev' _ => String.eqb ev ev'
                              | _ => false
                              end) tr).

(** A call that may raise or, through [_handleTargetOver], run out of
  fuel, followed by [k]. *)
Definition andThen {A B : Type} (r : option (Outcome A))
  (k : A -> option (Outcome B)) : option (Outcome B) :=
match r with
| Some (Ok a) => k a
| Some TypeError => Some TypeError
| None => None
end.

(** [this._clickTimeout = setTimeout(..., ms)]. *)
Definition setTimeout (ms : Z) (s : St) : St :=
let h := next_timer s in
emit (SetTimeout h ms)
  (mkSt (page s) (Drag.set_clickTimeout (Some h) (drag s)) (active s) (mgr s)
        (timers s ++ [h]) (S h) (trace s)).

(** [clearTimeout(this._clickTimeout)]: the timer of that handle, if it
  is still pending, is dropped; the field keeps the handle. *)
Definition clearTimeout (s : St) : St :=
let h := Drag._clickTimeout (drag s) in
emit (ClearTimeout h)
  (set_timers (match h with
               | Some k => List.filter (fun t => negb (t =? k)%nat) (timers s)
               | None => timers s
               end) s).

(** [_setStartPosition(S)]. *)
Definition _setStartPosition (S : XY) (s : St) : St :=
let c := Drag.cfg (drag s) in
let nodeXY := Node.getXY (page s) (Drag.node c) in
let delta := if Drag.offsetNode c
           then (fst S - fst nodeXY, snd S - snd nodeXY) else (0, 0) in
upd (fun d => Drag.set_deltaXY (Some delta)
              (Drag.set_lastXY (Some nodeXY)
                 (Drag.set_nodeXY (Some nodeXY)
                    (Drag.set_startXY (Some S) d)))) s.

(** [end()]. *)
Definition end_ (s : St) : Outcome St :=
let c := Drag.cfg (drag s) in
let s1 := clearTimeout s in
let s2 := upd (fun d => Drag.set_fromTimeout false (Drag.set_dragThreshMet false d)) s1 in
s3 ← (if negb (Drag.lock c) && Drag.dragging (drag s2) then
      match Drag.lastXY (drag s2) with
      | None => TypeError
      | Some l => Ok (emit (Fire "drag:end" l) s2)
      end
    else Ok s2);
Ok (upd (fun d => Drag.set_deltaXY (Some (0, 0)) (Drag.set_dragging false d)) s3).

(** The manager's [_endDrag()]: [_pg_deactivate(); _deactivateTargets()]. *)
Definition DDM_endDrag (s : St) : Outcome St :=
let s1 := emit PG_deactivate s in
r ← Release._deactivateTargets (page s1) (manager s1);
Ok (emits (map FireDrop (snd r)) (set_mgr (fst r) s1)).

(** The manager's [_end()]. *)
Definition DDM_end (s : St) : Outcome St :=
if active s then
  s1 ← DDM_endDrag s;
  s2 ← end_ s1;
  Ok (set_active false s2)
else Ok s.

(** [_handleOverEvent()] and [_handleOutEvent()] of the Drop [r], the
  listeners of its shim. *)
Definition _handleOverEvent (r : DropRef) (s : St) : St :=
set_mgr (Registry._addActiveShim r (mgr s)) s.
Definition _handleOutEvent (r : DropRef) (s : St) : St :=
set_mgr (DropShim._removeActiveShim r (mgr s)) s.

(** [_handleMouseDown(U)], the default action of [drag:mouseDown]. *)
Definition _handleMouseDown (T : MouseEvent) (s : St) : St :=
let c := Drag.cfg (drag s) in
let s1 := upd (fun d => Drag.set_ev_md (Some (pageX T, pageY T))
                        (Drag.set_dragThreshMet false d)) s in
if Drag.primaryButtonOnly c && (1 <? button T) then s1
else
let s2 :=
  if validClick T then
    setTimeout (Drag.clickTimeThresh c)
      (set_active true (_setStartPosition (pageX T, pageY T) s1))
  else s1 in
emit (FireMouse "drag:afterMouseDown") s2.

(** [_handleMouseDownEvent(S)]. *)
Definition _handleMouseDownEvent (T : MouseEvent) (s : St) : St :=
_handleMouseDown T (emit (FireMouse "drag:mouseDown") s).

(** What the host delivers: pointer events on the Drag's node and the
  document, the expiry of the timer with handle [h], and the pointer
  entering or leaving the shim of a Drop. *)
Inductive Input : Type :=
| MouseDown (ev : MouseEvent)
| MouseMove (ev : MouseEvent)
| MouseUp
| TimerFires (h : nat)
| ShimMouseOver (r : DropRef)
| ShimMouseOut (r : DropRef).

Section WithHost.
Variable proto : string -> bool.
Variable opera : bool.
(** Bound on the depth of the nested [_handleTargetOver] calls. *)
Variable fuel : nat.

(** The manager's [_startDrag()], called through [_start]:
[if (this.activeDrag.get("useShim")) { _pg_activate(); _activateTargets(); }]. *)
Definition DDM_startDrag (s : St) : option (Outcome St) :=
if active s then
if Drag.useShim (Drag.cfg (drag s)) then
  let s1 := emit PG_activate s in
  andThen (Targets._activateTargets (page s1) proto fuel (manager s1))
          (fun m => Some (Ok (set_mgr m s1)))
else Some (Ok s)
else Some TypeError.

(** The manager's [_dropMove()]. *)
Definition DDM_dropMove (s : St) : option (Outcome St) :=
andThen (DropMove._dropMove (page s) fuel (manager s))
        (fun m => Some (Ok (set_mgr m s))).

(** [start()]. *)
Definition start (s : St) : option (Outcome St) :=
let c := Drag.cfg (drag s) in
if negb (Drag.lock c) && negb (Drag.dragging (drag s)) then
andThen (DDM_startDrag (upd (Drag.set_dragging true) s)) (fun s1 =>
match Drag.nodeXY (drag s1) with
| None => Some TypeError
| Some S0 =>
    let s2 := emit (Fire "drag:start" S0) s1 in
    Some (Ok (upd (Drag.set_region
                     (Some (Region.at_xy S0 (Node.offsetWidth (page s2) (Drag.node c))
                                         (Node.offsetHeight (page s2) (Drag.node c))))) s2))
end)
else Some (Ok s).

(** [_moveNode(S, X)]. The move is made on [dragNode]: by the offset [T]
through [DDM.setXY], or, in Opera, to [W] through [Node.setXY]. *)
Definition _moveNode (S : XY) (X : bool) (s : St) : Outcome St :=
let c := Drag.cfg (drag s) in
W ← Constrain._align (page s) (drag s) S;
match Drag.lastXY (drag s), Drag.nodeXY (drag s) with
| Some last, Some V =>
  let T := (fst W - fst last, snd W - snd last) in
  let U := (fst W - fst V, snd W - snd V) in
  let s1 := if Drag.move c then
              (if opera
               then set_page (Node.moved_to (page s) (Drag.dragNode c) W)
                             (emit (Node_setXY (Drag.dragNode c) W) s)
               else set_page (Node.moved_by (page s) (Drag.dragNode c) T)
                             (emit (DDM_setXY (Drag.dragNode c) T) s))
            else s in
  let s2 := upd (Drag.set_region
                   (Some (Region.at_xy W (Node.offsetWidth (page s1) (Drag.node c))
                                       (Node.offsetHeight (page s1) (Drag.node c))))) s1 in
  let s3 := if X then s2 else emit (FireDrag W T U) s2 in
  Ok (upd (Drag.set_lastXY (Some W)) s3)
| _, _ => TypeError
end.

(** [_timeoutCheck()], run when a click timer fires. *)
Definition _timeoutCheck (s : St) : option (Outcome St) :=
if negb (Drag.lock (Drag.cfg (drag s))) then
andThen (start (upd (fun d => Drag.set_dragThreshMet true (Drag.set_fromTimeout true d)) s))
        (fun s2 =>
match Drag._ev_md (drag s2) with
| None => Some TypeError
| Some md => Some (_moveNode md true s2)
end)
else Some (Ok s).

(** The Drag's [_move(U)]. *)
Definition _move (U : MouseEvent) (s : St) : option (Outcome St) :=
let c := Drag.cfg (drag s) in
if Drag.lock c then Some (Ok s)
else
let s1 := upd (Drag.set_mouseXY (Some (pageX U, pageY U))) s in
if negb (Drag._dragThreshMet (drag s1)) then
  match Drag.startXY (drag s1) with
  | None => Some TypeError
  | Some st =>
      let T := Z.abs (fst st - pageX U) in
      let S0 := Z.abs (snd st - pageY U) in
      if (Drag.clickPixelThresh c <? T) || (Drag.clickPixelThresh c <? S0) then
        andThen (start (upd (Drag.set_dragThreshMet true) s1))
                (fun s2 => Some (_moveNode (pageX U, pageY U) false s2))
      else Some (Ok s1)
  end
else
  Some (_moveNode (pageX U, pageY U) false (clearTimeout s1)).

(** The manager's [_move(C)]. *)
Definition DDM_move (C : MouseEvent) (s : St) : option (Outcome St) :=
if active s then andThen (_move C s) DDM_dropMove
else Some (Ok s).

(** A timer that is not pending does not fire. *)
Definition dispatch (s : St) (i : Input) : option (Outcome St) :=
match i with
| MouseDown ev => Some (Ok (_handleMouseDownEvent ev s))
| MouseMove ev => DDM_move ev s
| MouseUp => Some (DDM_end s)
| TimerFires h =>
  if existsb (Nat.eqb h) (timers s)
  then _timeoutCheck (set_timers (List.filter (fun t => negb (t =? h)%nat) (timers s)) s)
  else Some (Ok s)
| ShimMouseOver r => Some (Ok (_handleOverEvent r s))
| ShimMouseOut r => Some (Ok (_handleOutEvent r s))
end.

Fixpoint run (s : St) (l : list Input) : option (Outcome St) :=
match l with
| [] => Some (Ok s)
| i :: l' => andThen (dispatch s i) (fun s' => run s' l')
end.
End WithHost.
End DragFlow.


(** * Notions used by the properties *)

Section BestMatchNotions.
Variable dom : Node.Dom.

(** The intersection [getBestMatch] computes for a Drop on node [n] while
  [drag] is active. *)
Definition overlap (drag : Drag.t) (n : NodeRef) : Node.Intersection :=
Node.intersect dom (Drag.dragNode (Drag.cfg drag)) (Node.region dom n) None.

(** Intersection area of candidate [c] in manager state [m]. *)
Definition candidate_area (m : DDM.t) (drag : Drag.t) (c : DropRef) : Z :=
match DDM.drops m !! c with
| Some d => Node.area (overlap drag (Drop.node d))
| None => 0
end.

(** The selection of the first loop, on the areas alone. *)
Fixpoint pick (A : DropRef -> Z) (F : list DropRef) (C : option DropRef) (E : Z)
  : option DropRef * Z :=
match F with
| [] => (C, E)
| x :: F' => if E <? A x then pick A F' (Some x) (A x) else pick A F' C E
end.

(** A candidate that can take part in the first loop: it has been sized
  (its [region] is set) and its overlap with the drag node has area
  [A c]. *)
Definition sized (m : DDM.t) (drag : Drag.t) (A : DropRef -> Z) (c : DropRef) : Prop :=
exists d r, DDM.drops m !! c = Some d /\ Drop.region d = Some r
            /\ A c = Node.area (overlap drag (Drop.node d)).
End BestMatchNotions.

(** * Concrete scenarios *)

Module Scenario.
(** A page with two drop nodes and one drag node: node 1 at (0,0) and
  node 3 at (50,50), both 100 x 100; node 2 at (500,500), 50 x 50. *)
Definition page : Node.Dom :=
{| Node.getXY := fun n =>
     match n with
     | 1%nat => (0, 0) | 2%nat => (500, 500) | 3%nat => (50, 50) | _ => (0, 0)
     end;
   Node.offsetWidth := fun n =>
     match n with
     | 1%nat => 100 | 2%nat => 50 | 3%nat => 100 | _ => 0
     end;
   Node.offsetHeight := fun n =>
     match n with
     | 1%nat => 100 | 2%nat => 50 | 3%nat => 100 | _ => 0
     end;
   Node.viewportRegion := fun _ => Region.mk 0 1000 1000 0 0 |}.

(** A Drag on node [n] with the declared default attribute values, in
  drag mode [mode] and with group names [gs]. *)
Definition config (n : NodeRef) (mode : Z) (gs : list string) : Drag.Config :=
{| Drag.node := n; Drag.dragNode := n; Drag.offsetNode := true;
   Drag.clickPixelThresh := 3; Drag.clickTimeThresh := 1000;
   Drag.lock := false; Drag.move := true; Drag.useShim := true;
   Drag.primaryButtonOnly := true; Drag.dragMode := mode;
   Drag.groups := gs; Drag.constrain := Constrain_ATTRS.defaults |}.

(** A Drop on node [n] whose shim is node [s], not yet sized. *)
Definition drop (n s : NodeRef) (locked : bool) (gs : list string) : Drop.t :=
Drop.mk n locked no_sizes (list_to_set gs) false (Some s) None false.

(** The same Drop once [sizeShim] has run outside INTERSECT mode. *)
Definition sized_drop (n s : NodeRef) (gs : list string) : Drop.t :=
Drop.set_region (Some (Node.region page n)) (drop n s false gs).

Definition manager (drag : option Drag.t) (ds : gmap nat Drop.t)
  (targets valid : list DropRef) : DDM.t :=
DDM.mk drag None valid [] targets [] false false ds.

(** A drag of node 3 in INTERSECT mode with two sized targets. *)
Definition intersect_drag : Drag.t := Drag.init (config 3%nat DDM.INTERSECT ["default"%string]).

Definition two_targets : DDM.t :=
manager (Some intersect_drag)
  (<[1%nat := sized_drop 1%nat 11%nat ["default"%string]]>
     (<[2%nat := sized_drop 2%nat 12%nat ["default"%string]]> ∅))
  [1%nat; 2%nat] [1%nat; 2%nat].
End Scenario.

(** * Notions used by the hit-testing properties *)

(** Full containment of rectangle [r] in rectangle [outer]. *)
Definition Contained (r outer : Region.t) : Prop :=
  Region.left outer <= Region.left r /\ Region.right r <= Region.right outer
  /\ Region.top outer <= Region.top r /\ Region.bottom r <= Region.bottom outer.

(** The region [isOverTarget] takes for the drag in STRICT mode: the region
    tracked by [start]/[_moveNode], or the drag node's own region while none
    is tracked. *)
Definition drag_region (dom : Node.Dom) (drag : Drag.t) : Region.t :=
  default (Node.region dom (Drag.dragNode (Drag.cfg drag))) (Drag.region drag).

Module ScenarioStrict.
(** Node 4, 20 x 20 at (10,10), lies inside node 1 of [Scenario.page]. *)
Definition page : Node.Dom :=
{| Node.getXY := fun n => if (n =? 4)%nat then (10, 10) else Node.getXY Scenario.page n;
   Node.offsetWidth := fun n => if (n =? 4)%nat then 20 else Node.offsetWidth Scenario.page n;
   Node.offsetHeight := fun n => if (n =? 4)%nat then 20 else Node.offsetHeight Scenario.page n;
   Node.viewportRegion := Node.viewportRegion Scenario.page |}.

Definition press : DragFlow.MouseEvent :=
{| DragFlow.pageX := 15; DragFlow.pageY := 15; DragFlow.button := 0;
   DragFlow.validClick := true |}.

(** A STRICT-mode Drag of node 4 after a pointer-down at (15,15) held
  until the click timer fired: dragging, region tracked, and no pointer
  position recorded yet. *)
Definition held : Drag.t :=
Drag.mk (Scenario.config 4%nat DDM.STRICT ["default"%string])
  true true true (Some 0%nat) (Some (15, 15)) (Some (5, 5)) (Some (15, 15))
  (Some (10, 10)) (Some (10, 10)) None (Some (Region.mk 10 30 30 10 0)).

Definition one_target : DDM.t :=
Scenario.manager (Some held)
  (<[1%nat := Scenario.sized_drop 1%nat 11%nat ["default"%string]]> ∅)
  [1%nat] [1%nat].

(** No drag is active; one target is registered. *)
Definition idle : DDM.t :=
Scenario.manager None
  (<[1%nat := Scenario.sized_drop 1%nat 11%nat ["default"%string]]> ∅)
  [1%nat] [].
End ScenarioStrict.

(** * Notions used by the activation properties *)

(** What never changes about a Drop while targets are activated and
    hit-tested: its node, its lock, its group names and its shim. *)
Definition drop_key (d : Drop.t) : NodeRef * bool * gset string * option NodeRef :=
  (Drop.node d, Drop.lock d, Drop._groups d, Drop.shim d).

Definition same_static (m m' : DDM.t) : Prop :=
  DDM.activeDrag m' = DDM.activeDrag m
  /\ forall x, drop_key <$> (DDM.drops m' !! x) = drop_key <$> (DDM.drops m !! x).

(** The drag's group names and the Drop's group names share a name. *)
Definition groups_meet (J : list string) (d : Drop.t) : Prop :=
  exists g, In g J /\ g ∈ Drop._groups d.

(** The Drop [d] passes every test of [_activateShim] for [drag]: another
    node, not locked, and [inGroup] holds. *)
Definition admits (proto : string -> bool) (drag : Drag.t) (d : Drop.t) : bool :=
  negb (Drop.node d =? Drag.node (Drag.cfg drag))%nat
  && negb (Drop.lock d)
  && fst (Drop.inGroup proto d (Drag.groups (Drag.cfg drag))).

Definition admitted (proto : string -> bool) (drag : Drag.t) (m : DDM.t) (c : DropRef) : bool :=
  match DDM.drops m !! c with
  | Some d => admits proto drag d
  | None => false
  end.

(** The members of [Object.prototype] in an ECMAScript 3 host. *)
Definition es3_prototype (name : string) : bool :=
  existsb (String.eqb name)
    ["constructor"; "toString"; "toLocaleString"; "valueOf"; "hasOwnProperty";
     "isPrototypeOf"; "propertyIsEnumerable"]%string.

(** A step that leaves [validDrops], the lookup mode, and the static part,
    the region and the shim of every Drop as they were. *)
Definition drop_geom (d : Drop.t) : option Region.t * option NodeRef :=
  (Drop.region d, Drop.shim d).

Definition quiet (m m' : DDM.t) : Prop :=
  DDM.validDrops m' = DDM.validDrops m
  /\ DDM.useHash m' = DDM.useHash m
  /\ same_static m m'
  /\ forall x, drop_geom <$> (DDM.drops m' !! x) = drop_geom <$> (DDM.drops m !! x).

Module ScenarioGroups.
(** A Drag of node 3 with group names [gs], in POINT mode, after a
  pointer-down at (55,52) and a pointer-move to (105,110). *)
Definition moving (gs : list string) : Drag.t :=
Drag.mk (Scenario.config 3%nat DDM.POINT gs)
  true true false (Some 0%nat) (Some (55, 52)) (Some (5, 2)) (Some (55, 52))
  (Some (50, 50)) (Some (100, 108)) (Some (105, 110))
  (Some (Region.mk 108 200 208 100 0)).

(** Four registered targets: an ordinary Drop in group a, a locked Drop in
  group a, a Drop on the dragged node itself, and a Drop in group b. *)
Definition drops : gmap nat Drop.t :=
<[1%nat := Scenario.drop 1%nat 11%nat false ["a"%string]]>
  (<[2%nat := Scenario.drop 2%nat 12%nat true ["a"%string]]>
     (<[3%nat := Scenario.drop 3%nat 13%nat false ["a"%string]]>
        (<[4%nat := Scenario.drop 5%nat 15%nat false ["b"%string]]> ∅))).

Definition session : DDM.t :=
Scenario.manager (Some (moving ["a"%string])) drops
  [1%nat; 2%nat; 3%nat; 4%nat] [].
End ScenarioGroups.

(** * Notions used by the click-versus-drag properties *)

Module Phase.
(** A pointer event within the click threshold of the start point, on
  both axes. *)
Definition within (c : Drag.Config) (start : XY) (ev : DragFlow.MouseEvent) : Prop :=
Z.abs (fst start - DragFlow.pageX ev) <= Drag.clickPixelThresh c
/\ Z.abs (snd start - DragFlow.pageY ev) <= Drag.clickPixelThresh c.

(** A pointer event beyond the click threshold on at least one axis. *)
Definition beyond (c : Drag.Config) (start : XY) (ev : DragFlow.MouseEvent) : Prop :=
Drag.clickPixelThresh c < Z.abs (fst start - DragFlow.pageX ev)
\/ Drag.clickPixelThresh c < Z.abs (snd start - DragFlow.pageY ev).

(** The Drag is the active drag of an accepted pointer-down at [start]:
  unlocked, with every position field set. *)
Definition armed (start : XY) (s : DragFlow.St) : Prop :=
DragFlow.active s = true
/\ Drag.lock (Drag.cfg (DragFlow.drag s)) = false
/\ Drag.startXY (DragFlow.drag s) = Some start
/\ Drag.deltaXY (DragFlow.drag s) <> None
/\ Drag.nodeXY (DragFlow.drag s) <> None
/\ Drag.lastXY (DragFlow.drag s) <> None
/\ Drag._ev_md (DragFlow.drag s) <> None.

(** Pending: armed, threshold not met, not dragging, and the one click
  timer that runs is the timer [h] of this pointer-down. *)
Definition pending (start : XY) (h : nat) (s : DragFlow.St) : Prop :=
armed start s
/\ Drag.dragging (DragFlow.drag s) = false
/\ Drag._dragThreshMet (DragFlow.drag s) = false
/\ Drag._clickTimeout (DragFlow.drag s) = Some h
/\ DragFlow.timers s = [h].

(** Dragging: armed, threshold met, [dragging] set. *)
Definition dragging (start : XY) (s : DragFlow.St) : Prop :=
armed start s
/\ Drag.dragging (DragFlow.drag s) = true
/\ Drag._dragThreshMet (DragFlow.drag s) = true.

(** Number of [drag:start] and [drag:end] events fired so far. *)
Definition starts (s : DragFlow.St) : nat :=
DragFlow.count_fired "drag:start" (DragFlow.trace s).
Definition ends (s : DragFlow.St) : nat :=
DragFlow.count_fired "drag:end" (DragFlow.trace s).

(** Pointer-moves, timer expiries and shim events, the inputs that keep a
  drag going. *)
Definition keeps_going (i : DragFlow.Input) : Prop :=
match i with
| DragFlow.MouseDown _ | DragFlow.MouseUp => False
| _ => True
end.
End Phase.

Module ScenarioDrag.
(** Node 7 sits at (100,100) and measures 40 x 30; node 9, 100 x 100,
  sits at (120,140). *)
Definition page : Node.Dom :=
{| Node.getXY := fun n =>
     if (n =? 7)%nat then (100, 100) else if (n =? 9)%nat then (120, 140) else (0, 0);
   Node.offsetWidth := fun n =>
     if (n =? 7)%nat then 40 else if (n =? 9)%nat then 100 else 0;
   Node.offsetHeight := fun n =>
     if (n =? 7)%nat then 30 else if (n =? 9)%nat then 100 else 0;
   Node.viewportRegion := fun _ => Region.mk 0 1000 1000 0 0 |}.

Definition pointer (x y : Z) : DragFlow.MouseEvent :=
{| DragFlow.pageX := x; DragFlow.pageY := y; DragFlow.button := 0;
   DragFlow.validClick := true |}.

(** The manager before any drag: one Drop, on node 9, is registered. *)
Definition one_drop : DDM.t :=
Scenario.manager None
  (<[1%nat := Scenario.drop 9%nat 19%nat false ["default"%string]]> ∅) [1%nat] [].


(** A fresh Drag on node 7, in POINT mode. *)
Definition idle : DragFlow.St :=
DragFlow.fresh page (Scenario.config 7%nat DDM.POINT ["default"%string]) one_drop.
End ScenarioDrag.


(** * Notions used by the constraint properties *)

(** The node, put at position [xy], lies inside region [J]: the rectangle of
    width [w] and height [h] at [xy] is contained in [J]. *)
Definition node_inside (J : Region.t) (w h : Z) (xy : XY) : Prop :=
  Region.left J <= fst xy /\ fst xy + w <= Region.right J
  /\ Region.top J <= snd xy /\ snd xy + h <= Region.bottom J.

(** A position is within the bounds [lo .. hi]. *)
Definition in_bounds (lo hi v : Z) : Prop := lo <= v <= hi.

Module ScenarioConstrain.
(** The drag node 7, 40 x 30 at (100,100), and a container node 8,
  300 x 200 at (50,60). *)
Definition page : Node.Dom :=
{| Node.getXY := fun n =>
     if (n =? 7)%nat then (100, 100) else if (n =? 8)%nat then (50, 60) else (0, 0);
   Node.offsetWidth := fun n =>
     if (n =? 7)%nat then 40 else if (n =? 8)%nat then 300 else 0;
   Node.offsetHeight := fun n =>
     if (n =? 7)%nat then 30 else if (n =? 8)%nat then 200 else 0;
   Node.viewportRegion := fun _ => Region.mk 0 1000 1000 0 0 |}.

Definition config (a : Constrain_ATTRS.t) : Drag.Config :=
{| Drag.node := 7%nat; Drag.dragNode := 7%nat; Drag.offsetNode := true;
   Drag.clickPixelThresh := 3; Drag.clickTimeThresh := 1000;
   Drag.lock := false; Drag.move := true; Drag.useShim := true;
   Drag.primaryButtonOnly := true; Drag.dragMode := DDM.POINT;
   Drag.groups := ["default"%string]; Drag.constrain := a |}.

(** A rectangle 10 pixels high, lower than the 30-pixel node. *)
Definition low_rect : Region.t := Region.mk 10 100 20 10 0.

(** A rectangle with room for the node. *)
Definition wide_rect : Region.t := Region.mk 10 500 400 10 0.

(** A Drag constrained to [r]. *)
Definition constrained_to (r : Region.t) : Drag.t :=
Drag.init (config (Constrain.configure_constrain2region (Some r) Constrain_ATTRS.defaults)).

(** The reference node is configured first, the rectangle after it. *)
Definition node_then_rect : Drag.t :=
Drag.init (config (Constrain.configure_constrain2region (Some wide_rect)
                     (Constrain.configure_constrain2node (Some 8%nat)
                        Constrain_ATTRS.defaults))).

(** The viewport is configured first, the rectangle after it. *)
Definition view_then_rect : Drag.t :=
Drag.init (config (Constrain.configure_constrain2region (Some wide_rect)
                     (Constrain.configure_constrain2view true
                        Constrain_ATTRS.defaults))).
End ScenarioConstrain.

Module ScenarioTicks.
(** A Drag constrained to [ScenarioConstrain.wide_rect] with a horizontal
  tick of 50, after a pointer-down at (105,102) on the node at (100,100). *)
Definition ticked : Drag.t :=
Drag.mk
  (ScenarioConstrain.config
     {| Constrain_ATTRS.stickX := false; Constrain_ATTRS.stickY := false;
        Constrain_ATTRS.tickX := Some 50; Constrain_ATTRS.tickY := None;
        Constrain_ATTRS.tickXArray := None; Constrain_ATTRS.tickYArray := None;
        Constrain_ATTRS.constrain2region := Some ScenarioConstrain.wide_rect;
        Constrain_ATTRS.gutter := no_sizes;
        Constrain_ATTRS.constrain2node := None;
        Constrain_ATTRS.constrain2view := false |})
  false false false (Some 0%nat) (Some (105, 102)) (Some (5, 2)) (Some (105, 102))
  (Some (100, 100)) (Some (100, 100)) None None.
End ScenarioTicks.

(** The drag is over Drop [c] and [c] has not been entered yet: the case in
    which the Drop's [_handleTargetOver] calls the manager's again. *)
Definition enter_pending (dom : Node.Dom) (m : DDM.t) (c : DropRef) : bool :=
  match DDM.isOverTarget dom m (Some c), DDM.drops m !! c with
  | Ok over, Some d => over && negb (Drop.overTarget d)
  | _, _ => false
  end.

Definition enters_left (dom : Node.Dom) (m : DDM.t) (B : list DropRef) : nat :=
  length (List.filter (enter_pending dom m) B).

(** Every valid Drop is an object with a shim that has been sized. *)
Definition targets_ready (m : DDM.t) : Prop :=
  forall c, In c (DDM.validDrops m) ->
            exists d, DDM.drops m !! c = Some d
                      /\ Drop.shim d <> None /\ Drop.region d <> None.

(** Every registered target is an object with a shim, and the offset that
    [sizeShim] reads in INTERSECT mode is set. *)
Definition targets_registered (m : DDM.t) (drag : Drag.t) : Prop :=
  (forall c, In c (DDM.targets m) ->
             exists d, DDM.drops m !! c = Some d /\ Drop.shim d <> None)
  /\ (Drag.dragMode (Drag.cfg drag) = DDM.INTERSECT -> Drag.deltaXY drag <> None).

(** A step after which no further Drop is waiting to be entered. *)
Definition settles (dom : Node.Dom) (m m' : DDM.t) : Prop :=
  quiet m m'
  /\ forall x, enter_pending dom m' x = true -> enter_pending dom m x = true.


(** The Drop [c] of [m] sits on node [n]. *)
Definition on_node (m : DDM.t) (n : NodeRef) (c : DropRef) : bool :=
  match DDM.drops m !! c with
  | Some d => (n =? Drop.node d)%nat
  | None => false
  end.

(** * Notions used by the hover properties *)

(** The drag is over the Drop [c], as [isOverTarget] answers. *)
Definition over (dom : Node.Dom) (m : DDM.t) (c : DropRef) : bool :=
  match DDM.isOverTarget dom m (Some c) with
  | Ok b => b
  | TypeError => false
  end.

(** The last Drop of [B] the drag is over, if any. *)
Definition last_over (dom : Node.Dom) (m : DDM.t) (B : list DropRef) : option DropRef :=
  List.find (over dom m) (rev B).

(** The [overTarget] flag of Drop [c] in [m'] says whether the drag is over
    it. *)
Definition synced (dom : Node.Dom) (m m' : DDM.t) (c : DropRef) : Prop :=
  exists d, DDM.drops m' !! c = Some d /\ Drop.overTarget d = over dom m c.

(** What one Drop's [_handleTargetOver] does when it does not call the
    manager again: [b] tells whether the drag is over the Drop [x]. *)
Definition hover_step (m0 m1 : DDM.t) (x : DropRef) (b : bool) : Prop :=
  quiet m0 m1
  /\ (exists d1, DDM.drops m1 !! x = Some d1 /\ Drop.overTarget d1 = b)
  /\ (forall y, y <> x -> DDM.drops m1 !! y = DDM.drops m0 !! y)
  /\ DDM.activeDrop m1 = (if b then Some x else DDM.activeDrop m0)
  /\ (forall y, y <> x -> In y (DDM.otherDrops m0) -> In y (DDM.otherDrops m1))
  /\ (b = true -> In x (DDM.otherDrops m1)).

(** The state after the manager's [_handleTargetOver] over the looked-up
    Drops [B]: flags in sync, Drops under the drag recorded in [otherDrops],
    and [activeDrop] the last of them. *)
Definition hover_settled (dom : Node.Dom) (m m' : DDM.t) (B : list DropRef) : Prop :=
  (forall c, In c B -> synced dom m m' c)
  /\ (forall c, In c B -> over dom m c = true -> In c (DDM.otherDrops m'))
  /\ DDM.activeDrop m' = match last_over dom m B with
                          | Some c => Some c
                          | None => DDM.activeDrop m
                          end.

Module ScenarioHover.
(** The pointer is at (50,50), over the sized Drop on node 1; a second
    sized Drop on node 2 is elsewhere. *)
Definition hovering : DDM.t :=
  Scenario.manager
    (Some (Drag.set_mouseXY (Some (50, 50)) (ScenarioGroups.moving ["a"%string])))
    (<[1%nat := Scenario.sized_drop 1%nat 11%nat ["a"%string]]>
       (<[2%nat := Scenario.sized_drop 2%nat 12%nat ["a"%string]]> ∅))
    [1%nat; 2%nat] [1%nat; 2%nat].
End ScenarioHover.

(** * Notions used by the shim properties *)

(** The box of a Drop's node, widened by the Drop's padding. *)
Definition padded_box (dom : Node.Dom) (d : Drop.t) : Region.t :=
  let xy := Node.getXY dom (Drop.node d) in
  let P := Drop.padding d in
  Region.mk (snd xy - s_top P)
            (fst xy + Node.offsetWidth dom (Drop.node d) + s_right P)
            (snd xy + Node.offsetHeight dom (Drop.node d) + s_bottom P)
            (fst xy - s_left P) 0.

(** The rectangle of the dragged node when the pointer is at [p]: the
    node's size at [p - deltaXY], the region [_moveNode] tracks. *)
Definition drag_box_at (dom : Node.Dom) (drag : Drag.t) (delta p : XY) : Region.t :=
  Region.at_xy (fst p - fst delta, snd p - snd delta)
               (Node.offsetWidth dom (Drag.node (Drag.cfg drag)))
               (Node.offsetHeight dom (Drag.node (Drag.cfg drag))).

(** Two rectangles meet (overlap or touch). *)
Definition meets (r1 r2 : Region.t) : bool :=
  Node.inRegion_flag (Node.intersect_regions r1 r2).

(** A point lies in a rectangle, borders included. *)
Definition point_in (r : Region.t) (p : XY) : bool :=
  (Region.left r <=? fst p) && (fst p <=? Region.right r)
  && (Region.top r <=? snd p) && (snd p <=? Region.bottom r).

(** * The state between two handler calls *)

(** The manager's lists name Drops that exist and have a shim; the valid
    and the entered ones have been sized. *)
Definition sound (m : DDM.t) : Prop :=
  (forall c, In c (DDM.targets m) ->
             exists d, DDM.drops m !! c = Some d /\ Drop.shim d <> None)
  /\ (forall c, In c (DDM.validDrops m) \/ In c (DDM.otherDrops m) ->
                exists d, DDM.drops m !! c = Some d
                          /\ Drop.shim d <> None /\ Drop.region d <> None).

(** The fuel exceeds the number of targets and of valid Drops, hence the
    depth the nested [_handleTargetOver] calls can reach. *)
Definition enough (fuel : nat) (m : DDM.t) : Prop :=
  (length (DDM.targets m) < fuel)%nat /\ (length (DDM.validDrops m) < fuel)%nat.




Module ScenarioRelease.
(** [ScenarioHover.hovering] after the manager's [_handleTargetOver]: the
    Drop on node 1 has been entered. *)
Definition entered : DDM.t :=
match Targets._handleTargetOver Scenario.page 2 ScenarioHover.hovering with
| Some (Ok m') => m'
| _ => ScenarioHover.hovering
end.

(** Node 5, 100 x 100 at (100,0), touches node 1 of [Scenario.page] along
    that node's right side. *)
Definition page : Node.Dom :=
{| Node.getXY := fun n => if (n =? 5)%nat then (100, 0) else Node.getXY Scenario.page n;
   Node.offsetWidth := fun n => if (n =? 5)%nat then 100 else Node.offsetWidth Scenario.page n;
   Node.offsetHeight := fun n => if (n =? 5)%nat then 100 else Node.offsetHeight Scenario.page n;
   Node.viewportRegion := Node.viewportRegion Scenario.page |}.

(** An INTERSECT-mode drag of node 5, picked up at its centre at (350,50)
    and dragged to the pointer position (150,50). *)
Definition touching_drag : Drag.t :=
Drag.mk (Scenario.config 5%nat DDM.INTERSECT ["default"%string])
  true true false (Some 0%nat) (Some (350, 50)) (Some (50, 50)) (Some (350, 50))
  (Some (300, 0)) (Some (100, 0)) (Some (150, 50))
  (Some (Region.mk 0 200 100 100 0)).

Definition touching : DDM.t :=
Scenario.manager (Some touching_drag)
  (<[1%nat := Scenario.drop 1%nat 11%nat false ["default"%string]]> ∅)
  [1%nat] [].

(** [touching] after target activation. *)
Definition touching_entered : DDM.t :=
match Targets._activateTargets page es3_prototype 3 touching with
| Some (Ok m') => m'
| _ => touching
end.
End ScenarioRelease.

(** * Notions used by the tick properties *)

(** Tick positions listed in ascending order. *)
Definition ascending (P : list Z) : Prop :=
  forall (i j : nat) (a b : Z),
    (i <= j)%nat -> P !! i = Some a -> P !! j = Some b -> a <= b.

(** [r] is a tick of [P], and no tick of [P] is nearer to [O]. *)
Definition nearest_tick (O : Z) (P : list Z) (r : Z) : Prop :=
  In r P /\ forall t, In t P -> Z.abs (r - O) <= Z.abs (t - O).

(** The upper bound, when both bounds are set, is not below any tick. *)
Definition ticks_below (P : list Z) (N K : option Z) : Prop :=
  match N, K with
  | Some _, Some k => Forall (fun t => t <= k) P
  | _, _ => True
  end.

Module ScenarioStick.
(** A horizontal slider: [stickX] set, constrained to
    [ScenarioConstrain.wide_rect], after a pointer-down at (105,102) on the
    node at (100,100). *)
Definition sliding : Drag.t :=
Drag.mk
  (ScenarioConstrain.config
     {| Constrain_ATTRS.stickX := true; Constrain_ATTRS.stickY := false;
        Constrain_ATTRS.tickX := None; Constrain_ATTRS.tickY := None;
        Constrain_ATTRS.tickXArray := None; Constrain_ATTRS.tickYArray := None;
        Constrain_ATTRS.constrain2region := Some ScenarioConstrain.wide_rect;
        Constrain_ATTRS.gutter := no_sizes;
        Constrain_ATTRS.constrain2node := None;
        Constrain_ATTRS.constrain2view := false |})
  false false false (Some 0%nat) (Some (105, 102)) (Some (5, 2)) (Some (105, 102))
  (Some (100, 100)) (Some (100, 100)) None None.

(** The state after that pointer-down: the slider is the active drag and
    its click timer runs; no Drop is registered. *)
Definition pressed : DragFlow.St :=
DragFlow.mkSt ScenarioConstrain.page sliding true (Scenario.manager None ∅ [] [])
  [0%nat] 1 [].
End ScenarioStick.

Module ScenarioOrigin.
(** A rectangle that starts at the top left corner of the page. *)
Definition origin_rect : Region.t := Region.mk 0 500 400 0 0.
End ScenarioOrigin.

(** * Plugin hosts (Plugin.Host) *)

(** JS objects whose keys are iterated with [for ... in]: association lists
    in insertion order, one entry per key. *)
Module Obj.
Section WithValue.
Context {A : Type}.

Fixpoint get (k : string) (o : list (string * A)) : option A :=
match o with
| [] => None
| (k', v) :: o' => if String.eqb k k' then Some v else get k o'
end.

(** [o[k] = v]: an existing key keeps its place. *)
Fixpoint put (k : string) (v : A) (o : list (string * A)) : list (string * A) :=
match o with
| [] => [(k, v)]
| (k', v') :: o' => if String.eqb k k' then (k, v) :: o' else (k', v') :: put k v o'
end.

(** [delete o[k]]. *)
Definition del (k : string) (o : list (string * A)) : list (string * A) :=
List.filter (fun e => negb (String.eqb k (fst e))) o.

Definition keys (o : list (string * A)) : list string := map fst o.
End WithValue.
End Obj.

Module PluginHost.
(** The configuration literal handed to a plugin; [_plug] adds the [host]
    to it, which is always the receiving host. *)
Definition Cfg : Type := list (string * Z).

(** A plugin class: [id] tells classes apart (the [!==] of [_unplug]);
    [NS] and [NAME] are the static properties, [None] when not defined. *)
Record Class : Type := {
id : nat;
NS : option string;
NAME : option string
}.

Definition same_class (c c' : Class) : bool := (id c =? id c')%nat.

(** Truthiness of a string, and the [NS] of a class when it is truthy. *)
Definition str_truthy (s : string) : bool := negb (String.eqb s "").

Definition ns_of (c : Class) : option string :=
match NS c with
| Some s => if str_truthy s then Some s else None
| None => None
end.

(** Calls made on plugin instances. *)
Inductive Effect : Type :=
| New (ns : string) (c : Class) (cfg : Cfg)
| SetAttrs (ns : string) (cfg : Cfg)
| Destroy (ns : string).

(** A host: the [_plugins] object, the plugin instances held in the
    properties [this[ns]] (each with the class it was made from), and the
    calls made so far. *)
Record t : Type := mk {
_plugins : list (string * Class);
slots : gmap string Class;
trace : list Effect
}.

(** [function PluginHost(config) { this._plugins = {}; }]. *)
Definition create : t := mk [] ∅ [].

Definition emit (e : Effect) (h : t) : t :=
mk (_plugins h) (slots h) (trace h ++ [e]).

Section WithPrototypes.
(** [proto]: the names every object inherits from [Object.prototype].
    [member]: the names that resolve on the host apart from the plugin
    instances, its methods and fields; none of them has a [setAttrs] or a
    [destroy] method. *)
Variable proto : string -> bool.
Variable member : string -> bool.

(** Truthiness of [this._plugins[ns]] and of [this[ns]]. *)
Definition plugins_has (h : t) (ns : string) : bool :=
match Obj.get ns (_plugins h) with
| Some _ => true
| None => proto ns
end.

Definition slot_has (h : t) (ns : string) : bool :=
match slots h !! ns with
| Some _ => true
| None => member ns
end.

(** [hasPlugin(ns)], as a truth value. *)
Definition hasPlugin (h : t) (ns : string) : bool :=
plugins_has h ns && slot_has h ns.

(** [_plug(PluginClass, config)]. *)
Definition _plug (PluginClass : option Class) (config : option Cfg) (h : t) : Outcome t :=
match PluginClass with
| None => Ok h
| Some c =>
  match ns_of c with
  | None => Ok h
  | Some ns =>
    let config := default [] config in
    if hasPlugin h ns then
      match slots h !! ns with
      | Some _ => Ok (emit (SetAttrs ns config) h)
      | None => TypeError
      end
    else
      Ok (emit (New ns c config)
            (mk (Obj.put ns c (_plugins h)) (<[ns := c]> (slots h)) (trace h)))
  end
end.

(** The first argument of [plug]: nothing, a plugin class, an array, or an
    object literal with [fn] and [cfg]. *)
#[local] Unset Elimination Schemes.
Inductive PlugArg : Type :=
| PNone
| PFn (c : Class)
| PArr (l : list PlugArg)
| PObj (fn : option Class) (cfg : option Cfg).
#[local] Set Elimination Schemes.

(** [plug(p, config)]. *)
Fixpoint plug (p : PlugArg) (config : option Cfg) (h : t) : Outcome t :=
match p with
| PNone => Ok h
| PFn c => _plug (Some c) config h
| PArr l =>
    (fix each (l : list PlugArg) (h : t) : Outcome t :=
       match l with
       | [] => Ok h
       | x :: l' => h' ← plug x None h; each l' h'
       end) l h
| PObj fn cfg => _plug fn cfg h
end.

(** The argument of [unplug] and [_unplug]: nothing, a namespace, or a
    plugin class. *)
Inductive UnplugArg : Type :=
| UNone
| UNs (s : string)
| UClass (c : Class).

Definition arg_truthy (plugin : UnplugArg) : bool :=
match plugin with
| UNone => false
| UNs s => str_truthy s
| UClass _ => true
end.

(** The namespace [_unplug] settles on: for a class, its [NS] unless
    [plugins[ns]] is missing or another class. An inherited
    [plugins[ns]] is never the class. *)
Definition unplug_ns (plugin : UnplugArg) (h : t) : option string :=
match plugin with
| UNone => None
| UNs s => if str_truthy s then Some s else None
| UClass c =>
  match ns_of c with
  | Some ns =>
    match Obj.get ns (_plugins h) with
    | Some c' => if same_class c' c then Some ns else None
    | None => None
    end
  | None => None
  end
end.

(** [_unplug(plugin)]. *)
Definition _unplug (plugin : UnplugArg) (h : t) : Outcome t :=
match unplug_ns plugin h with
| None => Ok h
| Some ns =>
  h1 ← (if slot_has h ns then
          match slots h !! ns with
          | Some _ => Ok (emit (Destroy ns) (mk (_plugins h) (delete ns (slots h)) (trace h)))
          | None => TypeError
          end
        else Ok h);
  Ok (mk (Obj.del ns (_plugins h1)) (slots h1) (trace h1))
end.

(** The [for (ns in this._plugins)] loop of [unplug]; each call deletes
    the key it is given only. *)
Fixpoint unplug_each (l : list string) (h : t) : Outcome t :=
match l with
| [] => Ok h
| ns :: l' => h' ← _unplug (UNs ns) h; unplug_each l' h'
end.

(** [unplug(plugin)]. *)
Definition unplug (plugin : UnplugArg) (h : t) : Outcome t :=
if arg_truthy plugin then _unplug plugin h
else unplug_each (Obj.keys (_plugins h)) h.

(** [_destroyPlugins()]: [this._unplug()]. *)
Definition _destroyPlugins (h : t) : Outcome t := _unplug UNone h.
End WithPrototypes.
End PluginHost.

(** The instances held by a host are those of its registered namespaces,
    each made from the registered class, and no namespace is registered
    twice. *)
Definition in_sync (h : PluginHost.t) : Prop :=
  (forall ns, PluginHost.slots h !! ns = Obj.get ns (PluginHost._plugins h))
  /\ List.NoDup (Obj.keys (PluginHost._plugins h)).

Module ScenarioPlugin.
(** The two plugin classes of the bundle: [Plugin.Drag] with namespace
    [dd] and [Plugin.Drop] with namespace [drop]. *)
Definition drag_plugin : PluginHost.Class :=
{| PluginHost.id := 1; PluginHost.NS := Some "dd"%string;
   PluginHost.NAME := Some "dd-plugin"%string |}.

Definition drop_plugin : PluginHost.Class :=
{| PluginHost.id := 2; PluginHost.NS := Some "drop"%string;
   PluginHost.NAME := Some "dd-drop-plugin"%string |}.

(** Another class that claims the namespace [dd]. *)
Definition rival_plugin : PluginHost.Class :=
{| PluginHost.id := 3; PluginHost.NS := Some "dd"%string;
   PluginHost.NAME := Some "rival"%string |}.

(** A class whose namespace is the name of a host method. *)
Definition plug_plugin : PluginHost.Class :=
{| PluginHost.id := 4; PluginHost.NS := Some "plug"%string;
   PluginHost.NAME := Some "plug"%string |}.


(** Names a host answers to: the members of [Object.prototype] and the
    methods of [Plugin.Host] and [Base]. *)
Definition host_member (name : string) : bool :=
es3_prototype name
|| existsb (String.eqb name)
     ["plug"; "unplug"; "hasPlugin"; "init"; "destroy"; "_plugins"]%string.

(** A host with [Plugin.Drag] plugged in. *)
Definition with_drag : PluginHost.t :=
match PluginHost._plug es3_prototype host_member (Some drag_plugin) None PluginHost.create with
| Ok h => h
| TypeError => PluginHost.create
end.
End ScenarioPlugin.

(** * Plugins registered on a host class (Plugin.Host.plug/unplug) *)

Module StaticPlug.
(** What is stored in [_PLUG] and [_UNPLUG]: a plugin class, or an object
    literal with [fn] and [cfg]. *)
#[local] Unset Elimination Schemes.
Inductive Entry : Type :=
| EClass (c : PluginHost.Class)
| EObj (fn : option Entry) (cfg : option PluginHost.Cfg).
#[local] Set Elimination Schemes.

(** The second argument: one entry or an array of entries. *)
Inductive Plugins : Type :=
| One (e : Entry)
| Many (l : list Entry).

(** A host class: whether it is [Y.Base] itself, and its static [_PLUG]
    and [_UNPLUG] objects, [None] while not defined. *)
Record HostClass : Type := mk {
is_Base : bool;
_PLUG : option (list (string * Entry));
_UNPLUG : option (list (string * Entry))
}.

(** [p.NAME], [undefined] for an object literal, and the property key a
    name gives. *)
Definition NAME_of (p : Entry) : option string :=
match p with
| EClass c => PluginHost.NAME c
| EObj _ _ => None
end.

Definition key (name : option string) : string := default "undefined"%string name.

Definition name_truthy (name : option string) : bool :=
match name with
| Some s => PluginHost.str_truthy s
| None => false
end.

(** [p.NAME || p.fn.NAME]; a class has no [fn]. *)
Definition plug_name (p : Entry) : Outcome (option string) :=
if name_truthy (NAME_of p) then Ok (NAME_of p)
else
  match p with
  | EObj (Some f) _ => Ok (NAME_of f)
  | _ => TypeError
  end.

Fixpoint plug_each (l : list Entry) (o : list (string * Entry))
  : Outcome (list (string * Entry)) :=
match l with
| [] => Ok o
| p :: l' => name ← plug_name p; plug_each l' (Obj.put (key name) p o)
end.

(** [PluginHost.plug(hostClass, plugin, config)]. *)
Definition plug (hostClass : HostClass) (plugin : Plugins) (config : option PluginHost.Cfg)
  : Outcome HostClass :=
if is_Base hostClass then Ok hostClass
else
  let o := default [] (_PLUG hostClass) in
  let l := match plugin with
           | Many l => l
           | One e => match config with
                      | Some cfg => [EObj (Some e) (Some cfg)]
                      | None => [e]
                      end
           end in
  o' ← plug_each l o;
  Ok (mk false (Some o') (_UNPLUG hostClass)).

Section WithPrototype.
Variable proto : string -> bool.

(** The loop of [unplug] over the entries; [_PLUG] is read at each entry
    and may be [undefined]. *)
Fixpoint unplug_each (l : list Entry) (P : option (list (string * Entry)))
  (U : list (string * Entry))
  : Outcome (option (list (string * Entry)) * list (string * Entry)) :=
match l with
| [] => Ok (P, U)
| p :: l' =>
  let name := key (NAME_of p) in
  match P with
  | None => TypeError
  | Some o =>
    match Obj.get name o with
    | Some _ => unplug_each l' (Some (Obj.del name o)) U
    | None =>
        if proto name then unplug_each l' P U
        else unplug_each l' P (Obj.put name p U)
    end
  end
end.

(** [PluginHost.unplug(hostClass, plugin)]. *)
Definition unplug (hostClass : HostClass) (plugin : Plugins) : Outcome HostClass :=
if is_Base hostClass then Ok hostClass
else
  let U := default [] (_UNPLUG hostClass) in
  let l := match plugin with Many l => l | One e => [e] end in
  r ← unplug_each l (_PLUG hostClass) U;
  Ok (mk false (fst r) (Some (snd r))).
End WithPrototype.
End StaticPlug.

Module ScenarioStatic.
(** A host class other than [Y.Base] on which nothing has been plugged. *)
Definition fresh_class : StaticPlug.HostClass := StaticPlug.mk false None None.
End ScenarioStatic.

(** * The class hierarchy of a Base instance (base-base) *)

Module BaseHierarchy.
(** A constructor of the chain: its static [NAME] and the keys of its
    static [ATTRS] ([None] when it has none), whether its prototype has an
    [initializer] or a [destructor] of its own, the [_yuibuild] record
    ([exts], [dynamic]) that [Base.build] leaves on it, and the constructor
    of its superclass. *)
#[local] Unset Elimination Schemes.
Inductive Class : Type := mkClass {
NAME : string;
ATTRS : option (list string);
initializer : bool;
destructor : bool;
_yuibuild : option (list string * bool);
superclass : option Class
}.
#[local] Set Elimination Schemes.

(** Calls made on the instance while it is set up and torn down. *)
Inductive Effect : Type :=
| Ext (c : Class) (ext : string)
| AddAttrs (c : Class) (cfgs : option (list string))
| Initializer (c : Class)
| Destructor (c : Class).

(** The [classes] array of [_initHierarchyData]: the constructor, then its
    superclasses. *)
Fixpoint _classes (c : Class) : list Class :=
c :: match superclass c with
     | Some s => _classes s
     | None => []
     end.

Section WithPrototype.
(** [allCfgs] is a plain object: a name of [Object.prototype] is found in
    it whether or not it is a key. *)
Variable proto : string -> bool.

(** The loop of [_filterAttrCfgs] over the keys of [clazz.ATTRS]; [allCfgs]
    is given by its keys. *)
Fixpoint filter_loop (attrs : list string) (cfgs : option (list string))
  (allCfgs : list string) : option (list string) * list string :=
match attrs with
| [] => (cfgs, allCfgs)
| attr :: attrs' =>
  if existsb (String.eqb attr) allCfgs || proto attr then
    filter_loop attrs' (Some (default [] cfgs ++ [attr]))
      (List.filter (fun k => negb (String.eqb attr k)) allCfgs)
  else filter_loop attrs' cfgs allCfgs
end.

(** [_filterAttrCfgs(clazz, allCfgs)]: the keys of the result ([null] when
    nothing was taken) and what is left in [allCfgs]. *)
Definition _filterAttrCfgs (clazz : Class) (allCfgs : list string)
  : option (list string) * list string :=
match ATTRS clazz with
| Some attrs => filter_loop attrs None allCfgs
| None => (None, allCfgs)
end.

(** One round of the loop of [_initHierarchy], for the constructor
    [constr]. *)
Definition init_class (constr : Class) (st : list string * list Effect)
  : list string * list Effect :=
let '(attrCfgs, tr) := st in
let tr1 := match _yuibuild constr with
           | Some (exts, false) => tr ++ map (Ext constr) exts
           | _ => tr
           end in
let '(cfgs, attrCfgs') := _filterAttrCfgs constr attrCfgs in
let tr2 := tr1 ++ [AddAttrs constr cfgs] in
(attrCfgs', if initializer constr then tr2 ++ [Initializer constr] else tr2).

(** [_initHierarchy(userVals)]: the loop runs from the last class of
    [classes] to the first. [attrCfgs] are the keys of the cached
    [_attrs]. *)
Definition _initHierarchy (classes : list Class) (attrCfgs : list string)
  : list string * list Effect :=
fold_right init_class (attrCfgs, []) classes.
End WithPrototype.

(** [_destroyHierarchy()]: the loop runs from the first class to the
    last. *)
Definition _destroyHierarchy (classes : list Class) : list Effect :=
flat_map (fun constr => if destructor constr then [Destructor constr] else []) classes.
End BaseHierarchy.

(** * Notions used by the hierarchy properties *)

(** The classes whose initializer, or destructor, a trace calls, in order. *)
Definition initialized (tr : list BaseHierarchy.Effect) : list BaseHierarchy.Class :=
  flat_map (fun e => match e with BaseHierarchy.Initializer c => [c] | _ => [] end) tr.

Definition destroyed (tr : list BaseHierarchy.Effect) : list BaseHierarchy.Class :=
  flat_map (fun e => match e with BaseHierarchy.Destructor c => [c] | _ => [] end) tr.

(** The classes whose [addAttrs] call is handed attribute [a], in order. *)
Definition received (a : string) (tr : list BaseHierarchy.Effect) : list BaseHierarchy.Class :=
  flat_map (fun e => match e with
                     | BaseHierarchy.AddAttrs c (Some cfgs) =>
                         if existsb (String.eqb a) cfgs then [c] else []
                     | _ => []
                     end) tr.

(** Class [c] lists attribute [a] in its [ATTRS]. *)
Definition declares (a : string) (c : BaseHierarchy.Class) : bool :=
  match BaseHierarchy.ATTRS c with
  | Some attrs => existsb (String.eqb a) attrs
  | None => false
  end.

Module ScenarioHierarchy.
(** [Base], [DD.Drag] with some of its attributes, and a subclass that
    lists [lock] again next to an attribute of its own. *)
Definition base : BaseHierarchy.Class :=
{| BaseHierarchy.NAME := "base";
   BaseHierarchy.ATTRS := Some ["initialized"; "destroyed"]%string;
   BaseHierarchy.initializer := false; BaseHierarchy.destructor := false;
   BaseHierarchy._yuibuild := None; BaseHierarchy.superclass := None |}.

Definition drag : BaseHierarchy.Class :=
{| BaseHierarchy.NAME := "drag";
   BaseHierarchy.ATTRS := Some ["node"; "dragNode"; "lock"; "groups"]%string;
   BaseHierarchy.initializer := true; BaseHierarchy.destructor := true;
   BaseHierarchy._yuibuild := None; BaseHierarchy.superclass := Some base |}.

Definition slider : BaseHierarchy.Class :=
{| BaseHierarchy.NAME := "slider";
   BaseHierarchy.ATTRS := Some ["lock"; "axis"]%string;
   BaseHierarchy.initializer := true; BaseHierarchy.destructor := true;
   BaseHierarchy._yuibuild := None; BaseHierarchy.superclass := Some drag |}.

(** The keys of the aggregated attribute configurations of a [slider]. *)
Definition slider_attrs : list string :=
["initialized"; "destroyed"; "node"; "dragNode"; "lock"; "groups"; "axis"]%string.
End ScenarioHierarchy.

(** * Creating and destroying a Drop (dd-drop) *)

Module DropLife.
(** The constructor of the Drop [this]: the attributes are set, the
    instance fields start out falsy, [_createShim] makes the shim node
    [shim], and the Drop is registered as a target. *)
Definition construct (this : DropRef) (node : NodeRef) (groups : list string)
  (padding : Sizes) (lock : bool) (shim : NodeRef) (m : DDM.t) : DDM.t :=
Registry._regTarget this
  (DDM.store m this
     (Drop.mk node lock padding (list_to_set groups) false (Some shim) None false)).

Definition clear_shim (d : Drop.t) : Drop.t :=
Drop.mk (Drop.node d) (Drop.lock d) (Drop.padding d) (Drop._groups d) (Drop._valid d)
        None (Drop.region d) (Drop.overTarget d).

(** [destructor()]: the Drop is taken off the targets, its shim is removed
    from the page and [this.shim] becomes [null]. *)
Definition destructor (m : DDM.t) (this : DropRef) : Outcome DDM.t :=
d ← DDM.deref m this;
let m1 := Registry._unregTarget this m in
Ok (match Drop.shim d with
    | Some _ => DDM.store m1 this (clear_shim d)
    | None => m1
    end).
End DropLife.

Module ScenarioDestroy.
(** A manager with the default [useHash], the drag of
    [ScenarioGroups.moving] active, and no Drop yet. *)
Definition empty : DDM.t :=
DDM.mk (Some (ScenarioGroups.moving ["a"%string])) None [] [] [] [] false true ∅.

(** A Drop on node 1 is constructed, then the targets are activated. *)
Definition one_drop : DDM.t :=
DropLife.construct 1%nat 1%nat ["a"%string] no_sizes false 11%nat empty.

Definition activated : DDM.t :=
match Targets._activateTargets Scenario.page es3_prototype 3 one_drop with
| Some (Ok m') => m'
| _ => one_drop
end.
End ScenarioDestroy.

(** * Notions used by the node-tracking property *)




(** Every Drop recorded in [otherDrops] is a sized object with a shim that
    is flagged as hovered, and is recorded once. *)
Definition entered_drops (m : DDM.t) : Prop :=
  (forall c, In c (DDM.otherDrops m) ->
             exists d, DDM.drops m !! c = Some d
                       /\ Drop.shim d <> None /\ Drop.region d <> None
                       /\ Drop.overTarget d = true)
  /\ List.NoDup (DDM.otherDrops m).

Module ScenarioLeave.
(** [ScenarioRelease.entered] after the pointer has moved to (400,400),
    away from the Drop on node 1. *)
Definition moved_away : DDM.t :=
let m := ScenarioRelease.entered in
DDM.mk (Drag.set_mouseXY (Some (400, 400)) <$> DDM.activeDrag m)
       (DDM.activeDrop m) (DDM.validDrops m) (DDM.otherDrops m) (DDM.targets m)
       (DDM._activeShims m) (DDM._noShim m) (DDM.useHash m) (DDM.drops m).
End ScenarioLeave.

Module ScenarioSession.
(** [ScenarioHover.hovering] after target activation. *)
Definition activated : DDM.t :=
match Targets._activateTargets Scenario.page es3_prototype 3 ScenarioHover.hovering with
| Some (Ok m') => m'
| _ => ScenarioHover.hovering
end.
End ScenarioSession.

(** * Notions used by the no-drag property *)




(** * Stopping a drag from code (dd-drag, dd-ddm-base) *)

Module Stop.

End Stop.

(** * Re-sizing the shims (dd-ddm-drop) *)

Module Sync.
Section WithDom.
Variable dom : Node.Dom.

(** [A.each(C, E => E.sizeShim())]. *)
Fixpoint sizeShims (C : list DropRef) (m : DDM.t) : Outcome DDM.t :=
match C with
| [] => Ok m
| E :: C' => m' ← DropShim.sizeShim dom m E; sizeShims C' m'
end.

(** [syncActiveShims(B)]: all the targets when [B] is set, the looked-up
    ones otherwise; the list is returned. *)
Definition syncActiveShims (B : bool) (m : DDM.t) : Outcome (DDM.t * list DropRef) :=
C ← (if B then Ok (DDM.targets m) else DDM._lookup dom m);
m' ← sizeShims C m;
Ok (m', C).
End WithDom.
End Sync.

(** * Notions used by the properties of the state machine *)

(** A step of the drop-target code that keeps the registered targets, the
    valid Drops and the lookup mode, leaves every Drop its node, lock,
    groups and shim, takes no region away, and enters no Drop that was
    neither entered nor valid before. *)
Definition tame (m m' : DDM.t) : Prop :=
  DDM.targets m' = DDM.targets m
  /\ DDM.validDrops m' = DDM.validDrops m
  /\ same_static m m'
  /\ (forall x d, DDM.drops m !! x = Some d -> Drop.region d <> None ->
                  exists d', DDM.drops m' !! x = Some d' /\ Drop.region d' <> None)
  /\ (forall y, In y (DDM.otherDrops m') ->
                In y (DDM.otherDrops m) \/ In y (DDM.validDrops m)).

(** The manager between two drags: no drop is active and no shim is
    under the pointer. *)
Definition at_rest (m : DDM.t) : Prop :=
  DDM.activeDrop m = None /\ Registry._hasActiveShim m = false.


(** The Drop [y] is listed as valid or entered in [m], or is a registered
    target that [_activateShim] admits for a Drag with attributes [c]. *)
Definition reachable (proto : string -> bool) (c : Drag.Config) (m : DDM.t) (y : DropRef)
    : Prop :=
  In y (DDM.validDrops m) \/ In y (DDM.otherDrops m)
  \/ (In y (DDM.targets m) /\ admitted proto (Drag.init c) m y = true).

(** From [m] to [m'] the targets are the same, every Drop keeps its node,
    lock, groups and shim, and no Drop is valid or entered that was not
    reachable for a Drag with attributes [c]. *)
Definition linked (proto : string -> bool) (c : Drag.Config) (m m' : DDM.t) : Prop :=
  DDM.targets m' = DDM.targets m
  /\ (forall k, drop_key <$> (DDM.drops m' !! k) = drop_key <$> (DDM.drops m !! k))
  /\ (forall y, In y (DDM.validDrops m') \/ In y (DDM.otherDrops m') ->
                reachable proto c m y).

(** The tracked position [lastXY], once set, is the page position of the
    Drag's node. *)
Definition tracked (s : DragFlow.St) : Prop :=
  forall l, Drag.lastXY (DragFlow.drag s) = Some l ->
            Node.getXY (DragFlow.page s) (Drag.node (Drag.cfg (DragFlow.drag s))) = l.

(** The events [drop:hit] and [drag:drophit] of a trace go to Drops that
    satisfy [P]. *)
Definition hits_on (P : DropRef -> Prop) (tr : list DragFlow.Effect) : Prop :=
  forall w B, In (DragFlow.FireDrop (Release.DropHit w B)) tr
              \/ In (DragFlow.FireDrop (Release.DragDropHit w B)) tr -> P w.

(** What every input leaves in place: the attributes of the Drag; the
    manager's state, up to [linked]; the trace, which only grows, by hits on
    reachable Drops; and, for a Drag that moves its own node, the node being
    where [lastXY] says. *)
Definition frame (proto : string -> bool) (s s' : DragFlow.St) : Prop :=
  Drag.cfg (DragFlow.drag s') = Drag.cfg (DragFlow.drag s)
  /\ linked proto (Drag.cfg (DragFlow.drag s)) (DragFlow.mgr s) (DragFlow.mgr s')
  /\ (exists tail,
        DragFlow.trace s' = DragFlow.trace s ++ tail
        /\ hits_on (reachable proto (Drag.cfg (DragFlow.drag s)) (DragFlow.mgr s)) tail)
  /\ (Drag.dragNode (Drag.cfg (DragFlow.drag s)) = Drag.node (Drag.cfg (DragFlow.drag s)) ->
      Drag.move (Drag.cfg (DragFlow.drag s)) = true ->
      tracked s -> tracked s').

Module ScenarioOwn.
(** Node 7, 40 x 30, sits at (100,100) and node 8, 20 x 20, at (10,10). *)
Definition page : Node.Dom :=
{| Node.getXY := fun n =>
     if (n =? 7)%nat then (100, 100) else if (n =? 8)%nat then (10, 10) else (0, 0);
   Node.offsetWidth := fun n =>
     if (n =? 7)%nat then 40 else if (n =? 8)%nat then 20 else 0;
   Node.offsetHeight := fun n =>
     if (n =? 7)%nat then 30 else if (n =? 8)%nat then 20 else 0;
   Node.viewportRegion := fun _ => Region.mk 0 1000 1000 0 0 |}.

(** Node 7 is a drop target as well as a draggable element: the one
  registered Drop sits on it. No drag has run yet. *)
Definition registry : DDM.t :=
Scenario.manager None
  (<[1%nat := Scenario.drop 7%nat 17%nat false ["default"%string]]> ∅) [1%nat] [].



End ScenarioOwn.


(** * Notions used by the list of valid Drops *)

(** Some group name of the list [J] is a group name of the Drop. *)
Definition shares_group (J : list string) (d : Drop.t) : bool :=
  existsb (fun g => bool_decide (g ∈ Drop._groups d)) J.

(** The Drop [c] sits on another node than the Drag, is not locked and
    shares a group name with it. *)
Definition eligible (drag : Drag.t) (m : DDM.t) (c : DropRef) : bool :=
  match DDM.drops m !! c with
  | Some d =>
      negb (Drop.node d =? Drag.node (Drag.cfg drag))%nat
      && negb (Drop.lock d)
      && shares_group (Drag.groups (Drag.cfg drag)) d
  | None => false
  end.

(** * Notions used by the lifecycle property *)

(** The Drag is at rest: not the active drag, not dragging, no click timer
    running. *)
Definition idle (s : DragFlow.St) : Prop :=
  DragFlow.active s = false
  /\ Drag.dragging (DragFlow.drag s) = false
  /\ DragFlow.timers s = [].





Module ScenarioNested.
(** Node 7, 40 x 30 at (100,100), lies on top of node 9, 200 x 200 at
  (50,50), which carries the one registered Drop. *)
Definition page : Node.Dom :=
{| Node.getXY := fun n =>
     if (n =? 7)%nat then (100, 100) else if (n =? 9)%nat then (50, 50) else (0, 0);
   Node.offsetWidth := fun n =>
     if (n =? 7)%nat then 40 else if (n =? 9)%nat then 200 else 0;
   Node.offsetHeight := fun n =>
     if (n =? 7)%nat then 30 else if (n =? 9)%nat then 200 else 0;
   Node.viewportRegion := fun _ => Region.mk 0 1000 1000 0 0 |}.

Definition registry : DDM.t :=
Scenario.manager None
  (<[1%nat := Scenario.drop 9%nat 19%nat false ["default"%string]]> ∅) [1%nat] [].

Definition start : DragFlow.St :=
DragFlow.fresh page (Scenario.config 7%nat DDM.POINT ["default"%string]) registry.

(** The Drag of node 7 after a pointer-down at (105,102) and a
  pointer-move to (106,103): pending, the pointer over the Drop. *)
Definition pending : DragFlow.St :=
match DragFlow.run es3_prototype false 2 start
        [DragFlow.MouseDown (ScenarioDrag.pointer 105 102);
         DragFlow.MouseMove (ScenarioDrag.pointer 106 103)] with
| Some (Ok s) => s
| _ => start
end.
End ScenarioNested.

(** * Properties *)

(** ** Geometry *)

Lemma intersect_area_nonneg (r1 r2 : Region.t) :
  0 <= Node.area (Node.intersect_regions r1 r2).
Proof. unfold Node.intersect_regions; simpl. nia. Qed.

Lemma intersect_area_pos_inRegion (r1 r2 : Region.t) :
  0 < Node.area (Node.intersect_regions r1 r2) ->
  Node.inRegion_flag (Node.intersect_regions r1 r2) = true.
Proof.
  unfold Node.intersect_regions; simpl. intros H.
  apply andb_true_iff; split; apply Z.leb_le; nia.
Qed.

(** The scenario of the specification: a drop at (0,0)-(100,100) and a drag
    node at (50,50)-(150,150) overlap on 2500 square pixels. *)
Example intersect_area_2500 :
  Node.area (Node.intersect_regions (Region.mk 50 150 150 50 0) (Region.mk 0 100 100 0 0)) = 2500.
Proof. reflexivity. Qed.

(** ** Best match *)

Section BestMatch.
Variable dom : Node.Dom.

Lemma pick_spec (A : DropRef -> Z) (F : list DropRef) :
forall (C : option DropRef) (E : Z),
  (pick A F C E = (C, E) /\ Forall (fun x => A x <= E) F)
  \/ (exists w l1 l2,
        F = l1 ++ w :: l2 /\ pick A F C E = (Some w, A w) /\ E < A w
        /\ Forall (fun x => A x < A w) l1 /\ Forall (fun x => A x <= A w) l2).
Proof.
induction F as [|x F IH]; intros C E; simpl.
- left. split; [reflexivity | constructor].
- destruct (E <? A x) eqn:Hlt.
  + apply Z.ltb_lt in Hlt. right.
    destruct (IH (Some x) (A x)) as [[Hp Hall] | (w & l1 & l2 & HF & Hp & Hw & H1 & H2)].
    * exists x, [], F.
      split; [reflexivity |]. split; [assumption |]. split; [assumption |].
      split; [constructor | assumption].
    * exists w, (x :: l1), l2. subst F.
      split; [reflexivity |]. split; [assumption |]. split; [lia |].
      split; [constructor; [lia | assumption] | assumption].
  + apply Z.ltb_ge in Hlt.
    destruct (IH C E) as [[Hp Hall] | (w & l1 & l2 & HF & Hp & Hw & H1 & H2)].
    * left. split; [assumption | constructor; assumption].
    * right. exists w, (x :: l1), l2. subst F.
      split; [reflexivity |]. split; [assumption |]. split; [assumption |].
      split; [constructor; [lia | assumption] | assumption].
Qed.

Lemma pick_lower_bound (A : DropRef -> Z) (F : list DropRef) :
forall (C : option DropRef) (E : Z), E <= snd (pick A F C E).
Proof.
induction F as [|x F IH]; intros C E; simpl; [lia |].
destruct (E <? A x) eqn:Hlt.
- apply Z.ltb_lt in Hlt. specialize (IH (Some x) (A x)). lia.
- apply IH.
Qed.

Lemma bestMatch_step_pick (m : DDM.t) (drag : Drag.t) (A : DropRef -> Z)
  (C : option DropRef) (E : Z) (x : DropRef) :
0 <= E ->
DDM.activeDrag m = Some drag ->
sized dom m drag A x ->
exists m',
  DDM.bestMatch_step dom (m, C, E) x
    = Ok (m', if E <? A x then Some x else C, if E <? A x then A x else E)
  /\ DDM.activeDrag m' = Some drag
  /\ forall c, sized dom m drag A c -> sized dom m' drag A c.
Proof.
intros HE Hact (d & r & Hd & Hr & HA).
unfold DDM.bestMatch_step. rewrite Hact.
unfold DDM.deref. rewrite Hd. unfold mbind, Outcome_bind. cbv beta iota. rewrite Hr.
fold (overlap dom drag (Drop.node d)). rewrite <- HA.
set (m' := DDM.store m x _).
exists m'.
assert (Hflag : Node.inRegion_flag (overlap dom drag (Drop.node d)) && (E <? A x)
                = (E <? A x)).
{ destruct (E <? A x) eqn:Hlt; [| apply andb_false_r].
  apply Z.ltb_lt in Hlt. rewrite andb_true_r.
  apply intersect_area_pos_inRegion. unfold overlap, Node.intersect in HA.
  rewrite <- HA. lia. }
rewrite Hflag.
split; [destruct (E <? A x); reflexivity |].
split; [exact Hact |].
intros c (dc & rc & Hdc & Hrc & HAc).
unfold sized, m', DDM.store. simpl.
destruct (decide (x = c)) as [->|Hne].
- rewrite lookup_insert_eq. eexists _, _. split; [reflexivity |].
  simpl. split; [reflexivity |]. rewrite Hd in Hdc. injection Hdc as <-. exact HAc.
- rewrite lookup_insert_ne by assumption. exists dc, rc. auto.
Qed.

Lemma bestMatch_loop_pick (drag : Drag.t) (A : DropRef -> Z) (F : list DropRef) :
forall (m : DDM.t) (C : option DropRef) (E : Z),
  0 <= E ->
  DDM.activeDrag m = Some drag ->
  Forall (sized dom m drag A) F ->
  exists m',
    DDM.bestMatch_loop dom F (m, C, E)
      = Ok (m', fst (pick A F C E), snd (pick A F C E)).
Proof.
induction F as [|x F IH]; intros m C E HE Hact Hall; cbn [DDM.bestMatch_loop pick].
- exists m. reflexivity.
- inversion Hall as [|? ? Hx HF]; subst.
  destruct (bestMatch_step_pick m drag A C E x HE Hact Hx) as (m1 & Hstep & Hact1 & Hkeep).
  rewrite Hstep. unfold mbind, Outcome_bind. cbv beta iota.
  assert (HF1 : Forall (sized dom m1 drag A) F).
  { eapply Forall_impl; [exact HF | exact Hkeep]. }
  destruct (E <? A x) eqn:Hlt.
  + apply Z.ltb_lt in Hlt. apply IH; [lia | assumption | assumption].
  + apply IH; assumption.
Qed.
End BestMatch.

Lemma candidate_area_nonneg (dom : Node.Dom) (m : DDM.t) (drag : Drag.t) (c : DropRef) :
  0 <= candidate_area dom m drag c.
Proof.
  unfold candidate_area. destruct (DDM.drops m !! c); [| lia].
  apply intersect_area_nonneg.
Qed.

Lemma differs_decide (C : option DropRef) (H : DropRef) :
  DDM.differs C H = bool_decide (Some H <> C).
Proof.
  unfold DDM.differs. destruct C as [c|].
  - destruct (Nat.eqb_spec H c) as [->|Hne]; simpl.
    + symmetry. apply bool_decide_eq_false. intros Hc. apply Hc. reflexivity.
    + symmetry. apply bool_decide_eq_true. intros [= Hc]. contradiction.
  - symmetry. apply bool_decide_eq_true. discriminate.
Qed.

(** C1. While a drag is active, [getBestMatch] applied to sized candidate
    Drops returns the first candidate, in iteration order, whose
    intersection area with the drag node is maximal and strictly positive;
    it returns no winner ([null]) when every area is zero; and the losers
    list, when requested, holds exactly the candidates other than the
    winner, in order. *)
Theorem getBestMatch_first_maximal
    (dom : Node.Dom) (m : DDM.t) (drag : Drag.t) (F : list DropRef) :
  DDM.activeDrag m = Some drag ->
  Forall (fun c => exists d r, DDM.drops m !! c = Some d /\ Drop.region d = Some r) F ->
  exists (m' : DDM.t) (C : option DropRef),
    DDM.getBestMatch dom m F false = Ok (m', DDM.Winner C)
    /\ DDM.getBestMatch dom m F true
       = Ok (m', DDM.WinnerAndLosers C
                   (List.filter (fun H => bool_decide (Some H <> C)) F))
    /\ match C with
       | Some w =>
           exists l1 l2,
             F = l1 ++ w :: l2
             /\ 0 < candidate_area dom m drag w
             /\ Forall (fun x => candidate_area dom m drag x
                                 < candidate_area dom m drag w) l1
             /\ Forall (fun x => candidate_area dom m drag x
                                 <= candidate_area dom m drag w) l2
       | None => Forall (fun x => candidate_area dom m drag x = 0) F
       end
    /\ (Forall (fun x => candidate_area dom m drag x = 0) F -> C = None).
Proof.
  intros Hact Hsized.
  set (A := candidate_area dom m drag).
  assert (Hs : Forall (sized dom m drag A) F).
  { eapply Forall_impl; [exact Hsized |].
    intros c (d & r & Hd & Hr). exists d, r.
    split; [assumption |]. split; [assumption |].
    unfold A, candidate_area. rewrite Hd. reflexivity. }
  destruct (bestMatch_loop_pick dom drag A F m None 0 (Z.le_refl 0) Hact Hs) as (m' & Hloop).
  exists m', (fst (pick A F None 0)).
  assert (Hspec := pick_spec A F None 0).
  unfold DDM.getBestMatch. rewrite Hloop.
  unfold mbind, Outcome_bind. cbv beta iota.
  split; [reflexivity |].
  split.
  { do 3 f_equal. apply filter_ext. intros H. apply differs_decide. }
  destruct Hspec as [[Hp Hall] | (w & l1 & l2 & HF & Hp & Hw & H1 & H2)]; rewrite Hp; simpl.
  - split; [| reflexivity].
    eapply Forall_impl; [exact Hall |]. intros x Hx. simpl in Hx.
    pose proof (candidate_area_nonneg dom m drag x). unfold A in *. lia.
  - split.
    + exists l1, l2. auto.
    + intros Hzero. exfalso.
      rewrite Forall_forall in Hzero.
      assert (Hin : In w F) by (rewrite HF; apply in_or_app; right; left; reflexivity).
      assert (Hw0 : A w = 0).
      { apply Hzero. apply list_elem_of_In. exact Hin. }
      lia.
Qed.

(** The scenario of the specification: of a Drop overlapping the drag node
    on 2500 square pixels and a Drop apart from it, the first is selected,
    in either order. *)
Example getBestMatch_scenario :
  (exists m', DDM.getBestMatch Scenario.page Scenario.two_targets [1%nat; 2%nat] true
              = Ok (m', DDM.WinnerAndLosers (Some 1%nat) [2%nat]))
  /\ (exists m', DDM.getBestMatch Scenario.page Scenario.two_targets [2%nat; 1%nat] true
                 = Ok (m', DDM.WinnerAndLosers (Some 1%nat) [2%nat]))
  /\ candidate_area Scenario.page Scenario.two_targets Scenario.intersect_drag 1%nat = 2500.
Proof.
  split; [eexists; vm_compute; reflexivity |].
  split; [eexists; vm_compute; reflexivity |].
  vm_compute. reflexivity.
Qed.

Lemma getBestMatch_first_maximal_witness :
  exists (m' : DDM.t) (C : option DropRef),
    DDM.getBestMatch Scenario.page Scenario.two_targets [1%nat; 2%nat] false
      = Ok (m', DDM.Winner C)
    /\ C = Some 1%nat.
Proof.
  destruct (getBestMatch_first_maximal Scenario.page Scenario.two_targets
              Scenario.intersect_drag [1%nat; 2%nat]) as (m' & C & Hw & Hl & Hsel & Hzero).
  - reflexivity.
  - repeat constructor; eexists _, _; split; vm_compute; reflexivity.
  - exists m', C. split; [exact Hw |].
    vm_compute in Hw. injection Hw as _ HC. symmetry. exact HC.
Defined.

(** ** [isOverTarget] *)

Lemma contains_Contained (outer r : Region.t) :
  Node.contains outer r = true <-> Contained r outer.
Proof.
  unfold Node.contains, Contained.
  rewrite !andb_true_iff, !Z.leb_le. tauto.
Qed.

(** The state [ScenarioStrict.held] is the one a pointer-down followed by
    the expiry of its click timer leaves behind, and in the state so reached
    [isOverTarget] answers false for the activated Drop. *)
Example held_is_reached :
  match DragFlow.run es3_prototype false 2
          (DragFlow.fresh ScenarioStrict.page
             (Scenario.config 4%nat DDM.STRICT ["default"%string]) ScenarioStrict.idle)
          [DragFlow.MouseDown ScenarioStrict.press; DragFlow.TimerFires 0] with
  | Some (Ok s) =>
      DragFlow.drag s = ScenarioStrict.held
      /\ DDM.validDrops (DragFlow.mgr s) = [1%nat]
      /\ DDM.isOverTarget (DragFlow.page s) (DragFlow.manager s) (Some 1%nat) = Ok false
  | _ => False
  end.
Proof. vm_compute. repeat split; reflexivity. Qed.

(** C2, as stated, fails: a STRICT-mode drag that is active and whose region
    lies inside the Drop's region is not over the target as long as no
    pointer position has been recorded. *)
Lemma isOverTarget_strict_counterexample :
  DDM.activeDrag ScenarioStrict.one_target = Some ScenarioStrict.held
  /\ Drag.dragMode (Drag.cfg ScenarioStrict.held) = DDM.STRICT
  /\ (exists d r, DDM.drops ScenarioStrict.one_target !! 1%nat = Some d
                  /\ Drop.region d = Some r
                  /\ Contained (drag_region ScenarioStrict.page ScenarioStrict.held) r)
  /\ DDM.isOverTarget ScenarioStrict.page ScenarioStrict.one_target (Some 1%nat) = Ok false.
Proof.
  split; [reflexivity |]. split; [reflexivity |]. split.
  - eexists _, _. split; [vm_compute; reflexivity |]. split; [vm_compute; reflexivity |].
    apply contains_Contained. vm_compute. reflexivity.
  - vm_compute. reflexivity.
Qed.

(** C2, amended. For an active Drag in STRICT mode with a recorded pointer
    position and a sized Drop, [isOverTarget] returns true if and only if the
    drag's region is fully contained in the Drop's region. *)
Theorem isOverTarget_strict_containment
    (dom : Node.Dom) (m : DDM.t) (drag : Drag.t) (P : DropRef) (d : Drop.t)
    (r : Region.t) (xy : XY) :
  DDM.activeDrag m = Some drag ->
  Drag.dragMode (Drag.cfg drag) = DDM.STRICT ->
  Drag.mouseXY drag = Some xy ->
  DDM.drops m !! P = Some d ->
  Drop.region d = Some r ->
  exists b : bool,
    DDM.isOverTarget dom m (Some P) = Ok b
    /\ (b = true <-> Contained (drag_region dom drag) r).
Proof.
  intros Hact Hmode Hxy Hd Hr.
  unfold DDM.isOverTarget. rewrite Hact, Hxy.
  unfold DDM.deref. rewrite Hd. unfold mbind, Outcome_bind. cbv beta iota.
  rewrite Hmode, Z.eqb_refl, Hr.
  eexists. split; [reflexivity |].
  unfold Node.inRegion. apply contains_Contained.
Qed.

Lemma isOverTarget_strict_containment_witness :
  exists b : bool,
    DDM.isOverTarget ScenarioStrict.page
      (Scenario.manager (Some (Drag.set_mouseXY (Some (15, 15)) ScenarioStrict.held))
         (<[1%nat := Scenario.sized_drop 1%nat 11%nat ["default"%string]]> ∅)
         [1%nat] [1%nat]) (Some 1%nat) = Ok b
    /\ (b = true <->
        Contained (drag_region ScenarioStrict.page
                     (Drag.set_mouseXY (Some (15, 15)) ScenarioStrict.held))
                  (Region.mk 0 100 100 0 0)).
Proof.
  eapply (isOverTarget_strict_containment ScenarioStrict.page _ _ 1%nat
            (Scenario.sized_drop 1%nat 11%nat ["default"%string])
            (Region.mk 0 100 100 0 0) (15, 15)).
  - reflexivity.
  - reflexivity.
  - reflexivity.
  - vm_compute. reflexivity.
  - vm_compute. reflexivity.
Defined.

(** ** Exceptions during hit-testing *)

(** C9, as stated, fails: [getBestMatch] called with a candidate while no
    drag is active dereferences the absent [activeDrag] and raises, where
    [isOverTarget] in the same state answers false. *)
Lemma hit_testing_raises_counterexample :
  DDM.activeDrag ScenarioStrict.idle = None
  /\ DDM.isOverTarget ScenarioStrict.page ScenarioStrict.idle (Some 1%nat) = Ok false
  /\ DDM.getBestMatch ScenarioStrict.page ScenarioStrict.idle [1%nat] false = TypeError.
Proof. repeat split; vm_compute; reflexivity. Qed.

(** C9, amended. [isOverTarget] returns false, without raising, whenever
    there is no active drag or no drop is given; [getBestMatch] returns
    [null] (and no losers), without raising, when given no candidates, and
    returns without raising when a drag is active and the candidates are
    sized. *)
Theorem hit_testing_no_match (dom : Node.Dom) (m : DDM.t) :
  (forall B : option DropRef,
      DDM.activeDrag m = None \/ B = None -> DDM.isOverTarget dom m B = Ok false)
  /\ DDM.getBestMatch dom m [] false = Ok (m, DDM.Winner None)
  /\ DDM.getBestMatch dom m [] true = Ok (m, DDM.WinnerAndLosers None [])
  /\ (forall (drag : Drag.t) (F : list DropRef) (D : bool),
         DDM.activeDrag m = Some drag ->
         Forall (fun c => exists d r, DDM.drops m !! c = Some d /\ Drop.region d = Some r) F ->
         exists res, DDM.getBestMatch dom m F D = Ok res).
Proof.
  split.
  { intros B [Hnone | ->]; unfold DDM.isOverTarget.
    - rewrite Hnone. reflexivity.
    - destruct (DDM.activeDrag m); reflexivity. }
  split; [reflexivity |]. split; [reflexivity |].
  intros drag F D Hact Hsized.
  set (A := candidate_area dom m drag).
  assert (Hs : Forall (sized dom m drag A) F).
  { eapply Forall_impl; [exact Hsized |].
    intros c (d & r & Hd & Hr). exists d, r.
    split; [assumption |]. split; [assumption |].
    unfold A, candidate_area. rewrite Hd. reflexivity. }
  destruct (bestMatch_loop_pick dom drag A F m None 0 (Z.le_refl 0) Hact Hs) as (m' & Hloop).
  unfold DDM.getBestMatch. rewrite Hloop. unfold mbind, Outcome_bind. cbv beta iota.
  destruct D; eexists; reflexivity.
Qed.

(** ** Group matching *)

Lemma inGroup_fold (proto : string -> bool) (d : Drop.t) (J : list string) :
  forall (k : bool) (d0 : Drop.t),
    drop_key d0 = drop_key d ->
    let res := fold_left
        (fun (acc : bool * Drop.t) (M : string) =>
           if Drop.group_lookup proto (snd acc) M
           then (true, Drop.set_valid true (snd acc)) else acc)
        J (k, d0) in
    fst res = k || existsb (Drop.group_lookup proto d) J
    /\ drop_key (snd res) = drop_key d
    /\ Drop.shim (snd res) = Drop.shim d0
    /\ Drop.region (snd res) = Drop.region d0
    /\ Drop.overTarget (snd res) = Drop.overTarget d0
    /\ Drop.padding (snd res) = Drop.padding d0.
Proof.
  induction J as [|M J IH]; intros k d0 Hkey; simpl.
  - rewrite orb_false_r. tauto.
  - assert (Hlk : Drop.group_lookup proto d0 M = Drop.group_lookup proto d M).
    { unfold Drop.group_lookup. unfold drop_key in Hkey.
      injection Hkey as _ _ Hg _. rewrite Hg. reflexivity. }
    rewrite Hlk. destruct (Drop.group_lookup proto d M) eqn:HM.
    + destruct (IH true (Drop.set_valid true d0)) as (H1 & H2 & H3 & H4 & H5 & H6);
        [exact Hkey |].
      simpl in *. rewrite H1. rewrite orb_true_r. tauto.
    + destruct (IH k d0 Hkey) as (H1 & H2 & H3 & H4 & H5 & H6).
      simpl in *. rewrite H1. tauto.
Qed.

Lemma inGroup_spec (proto : string -> bool) (d : Drop.t) (J : list string) :
  fst (Drop.inGroup proto d J) = existsb (Drop.group_lookup proto d) J
  /\ drop_key (snd (Drop.inGroup proto d J)) = drop_key d
  /\ Drop.shim (snd (Drop.inGroup proto d J)) = Drop.shim d
  /\ Drop.region (snd (Drop.inGroup proto d J)) = Drop.region d
  /\ Drop.overTarget (snd (Drop.inGroup proto d J)) = Drop.overTarget d
  /\ Drop.padding (snd (Drop.inGroup proto d J)) = Drop.padding d.
Proof.
  unfold Drop.inGroup.
  destruct (inGroup_fold proto d J false (Drop.set_valid false d) eq_refl)
    as (H1 & H2 & H3 & H4 & H5 & H6).
  simpl in *. tauto.
Qed.

(** [inGroup] holds exactly when some name of [J] is an own group name of
    the Drop or a name inherited from [Object.prototype]. *)
Lemma inGroup_true_iff (proto : string -> bool) (d : Drop.t) (J : list string) :
  fst (Drop.inGroup proto d J) = true
  <-> exists g, In g J /\ (g ∈ Drop._groups d \/ proto g = true).
Proof.
  rewrite (proj1 (inGroup_spec proto d J)), existsb_exists.
  unfold Drop.group_lookup.
  split; intros (g & Hin & Hg); exists g; (split; [exact Hin |]).
  - apply orb_true_iff in Hg. destruct Hg as [Hg | Hg]; [left | right; exact Hg].
    apply bool_decide_eq_true in Hg. exact Hg.
  - apply orb_true_iff. destruct Hg as [Hg | Hg]; [left | right; exact Hg].
    apply bool_decide_eq_true. exact Hg.
Qed.

(** ** Target activation *)

Lemma same_static_refl (m : DDM.t) : same_static m m.
Proof. split; [reflexivity | intros x; reflexivity]. Qed.

Lemma same_static_trans (m1 m2 m3 : DDM.t) :
  same_static m1 m2 -> same_static m2 m3 -> same_static m1 m3.
Proof.
  intros [Ha Hk] [Ha' Hk']. split; [congruence |].
  intros x. etrans; [apply Hk' | apply Hk].
Qed.

Lemma same_static_store (m : DDM.t) (c : DropRef) (d d' : Drop.t) :
  DDM.drops m !! c = Some d -> drop_key d' = drop_key d ->
  same_static m (DDM.store m c d').
Proof.
  intros Hd Hkey. split; [reflexivity |].
  intros x. unfold DDM.store, DDM.set_drops; cbn [DDM.drops].
  destruct (decide (c = x)) as [->|Hne].
  - rewrite lookup_insert_eq, Hd. simpl. rewrite Hkey. reflexivity.
  - rewrite lookup_insert_ne by assumption. reflexivity.
Qed.

Lemma same_static_admitted (proto : string -> bool) (drag : Drag.t) (m m' : DDM.t) (c : DropRef) :
  same_static m m' -> admitted proto drag m' c = admitted proto drag m c.
Proof.
  intros [_ Hk]. specialize (Hk c). unfold admitted.
  destruct (DDM.drops m' !! c) as [d'|], (DDM.drops m !! c) as [d|];
    simpl in Hk; try discriminate; [| reflexivity].
  injection Hk as Hn Hl Hg _. unfold admits.
  rewrite Hn, Hl.
  rewrite (proj1 (inGroup_spec proto d' _)), (proj1 (inGroup_spec proto d _)).
  unfold Drop.group_lookup. rewrite Hg. reflexivity.
Qed.

Lemma sizeShim_effect (dom : Node.Dom) (m m' : DDM.t) (c : DropRef) :
  DropShim.sizeShim dom m c = Ok m' ->
  same_static m m' /\ DDM.validDrops m' = DDM.validDrops m
  /\ DDM.targets m' = DDM.targets m.
Proof.
  unfold DropShim.sizeShim, DDM.deref.
  destruct (DDM.drops m !! c) as [d|] eqn:Hd; [| discriminate].
  unfold mbind, Outcome_bind. cbv beta iota.
  destruct (DDM.activeDrag m) as [J|]; [| discriminate].
  destruct (Drag.dragMode (Drag.cfg J) =? DDM.INTERSECT).
  - destruct (Drag.deltaXY J) as [delta|]; [| discriminate].
    destruct (Drop.shim d); [| discriminate].
    intros [= <-]. split; [| split; reflexivity].
    eapply same_static_store; [exact Hd | reflexivity].
  - destruct (Drop.shim d); [| discriminate].
    intros [= <-]. split; [| split; reflexivity].
    eapply same_static_store; [exact Hd | reflexivity].
Qed.

Lemma activateShim_effect (dom : Node.Dom) (proto : string -> bool)
    (m m' : DDM.t) (c : DropRef) (drag : Drag.t) :
  DDM.activeDrag m = Some drag ->
  DropShim._activateShim dom proto m c = Ok m' ->
  same_static m m'
  /\ DDM.targets m' = DDM.targets m
  /\ (admitted proto drag m c = true -> DDM.validDrops m' = DDM.validDrops m ++ [c])
  /\ (admitted proto drag m c = false ->
      DDM.validDrops m' = DDM.validDrops m
      \/ DDM.validDrops m' = List.filter (fun E => negb (E =? c)%nat) (DDM.validDrops m)).
Proof.
  intros Hact. unfold DropShim._activateShim, admitted, DDM.deref. rewrite Hact.
  destruct (DDM.drops m !! c) as [d|] eqn:Hd; [| discriminate].
  unfold mbind, Outcome_bind. cbv beta iota. unfold admits.
  destruct (Drop.node d =? Drag.node (Drag.cfg drag))%nat.
  { intros [= <-]. simpl. split; [apply same_static_refl |].
    split; [reflexivity |]. split; [discriminate | auto]. }
  destruct (Drop.lock d).
  { intros [= <-]. simpl. split; [apply same_static_refl |].
    split; [reflexivity |]. split; [discriminate | auto]. }
  destruct (inGroup_spec proto d (Drag.groups (Drag.cfg drag)))
    as (HK & Hkey & _).
  destruct (Drop.inGroup proto d (Drag.groups (Drag.cfg drag))) as [K d1] eqn:HG.
  simpl in HK, Hkey. simpl.
  assert (Hs1 : same_static m (DDM.store m c d1)).
  { eapply same_static_store; [exact Hd | exact Hkey]. }
  destruct K.
  - intros Hsize. apply sizeShim_effect in Hsize.
    destruct Hsize as (Hs & Hv & Ht).
    split.
    { eapply same_static_trans; [exact Hs1 |].
      eapply same_static_trans; [| exact Hs].
      apply (same_static_store (DDM._addValid c (DDM.store m c d1)) c d1);
        [| reflexivity].
      unfold DDM._addValid, DDM.store, DDM.set_validDrops, DDM.set_drops.
      cbn [DDM.drops]. apply lookup_insert_eq. }
    split; [rewrite Ht; reflexivity |].
    split; [intros _; rewrite Hv; reflexivity | discriminate].
  - intros [= <-]. split; [exact Hs1 |].
    split; [reflexivity |]. split; [discriminate |].
    intros _. right. reflexivity.
Qed.

Lemma activateShims_loop (dom : Node.Dom) (proto : string -> bool) (drag : Drag.t)
    (l : list DropRef) :
  forall m m' : DDM.t,
    DDM.activeDrag m = Some drag ->
    Targets.each (fun m0 C => Some (DropShim._activateShim dom proto m0 C)) l m
      = Some (Ok m') ->
    same_static m m'
    /\ DDM.targets m' = DDM.targets m
    /\ (forall c, In c (DDM.validDrops m') ->
                  In c (DDM.validDrops m) \/ (In c l /\ admitted proto drag m c = true))
    /\ (forall c, admitted proto drag m c = true ->
                  In c (DDM.validDrops m) \/ In c l -> In c (DDM.validDrops m')).
Proof.
  induction l as [|x l IH]; intros m m' Hact; cbn [Targets.each].
  - intros [= <-]. split; [apply same_static_refl |]. split; [reflexivity |].
    split; [auto |]. intros c _ [H | []]. exact H.
  - destruct (DropShim._activateShim dom proto m x) as [m1|] eqn:Hstep; [| discriminate].
    intros Hrest.
    destruct (activateShim_effect dom proto m m1 x drag Hact Hstep) as (Hs1 & Ht1 & Hadd & Hkeep).
    assert (Hact1 : DDM.activeDrag m1 = Some drag) by (destruct Hs1 as [-> _]; exact Hact).
    destruct (IH m1 m' Hact1 Hrest) as (Hs & Ht & Hin & Hout).
    split; [eapply same_static_trans; eassumption |].
    split; [congruence |].
    split.
    + intros c Hc. destruct (Hin c Hc) as [Hc1 | [Hcl Hadm]].
      * destruct (admitted proto drag m x) eqn:Hx.
        -- rewrite (Hadd eq_refl) in Hc1. apply in_app_or in Hc1.
           destruct Hc1 as [Hc1 | [<- | []]]; [left; exact Hc1 |].
           right. split; [left; reflexivity | exact Hx].
        -- destruct (Hkeep eq_refl) as [Hv | Hv]; rewrite Hv in Hc1.
           ++ left. exact Hc1.
           ++ apply filter_In in Hc1. left. apply Hc1.
      * right. split; [right; exact Hcl |].
        rewrite <- (same_static_admitted proto drag m m1 c Hs1). exact Hadm.
    + intros c Hadm Hc. apply Hout.
      { rewrite (same_static_admitted proto drag m m1 c Hs1). exact Hadm. }
      destruct (admitted proto drag m x) eqn:Hx.
      * rewrite (Hadd eq_refl).
        destruct Hc as [Hc | [<- | Hc]].
        -- left. apply in_or_app. left. exact Hc.
        -- left. apply in_or_app. right. left. reflexivity.
        -- right. exact Hc.
      * destruct Hc as [Hc | [<- | Hc]].
        -- left. destruct (Hkeep eq_refl) as [Hv | Hv]; rewrite Hv; [exact Hc |].
           apply filter_In. split; [exact Hc |].
           apply negb_true_iff, Nat.eqb_neq. intros ->. congruence.
        -- congruence.
        -- right. exact Hc.
Qed.

Lemma activateShims_effect (dom : Node.Dom) (proto : string -> bool) (drag : Drag.t)
    (m m' : DDM.t) :
  DDM.activeDrag m = Some drag ->
  Targets._activateShims dom proto m = Some (Ok m') ->
  same_static m m'
  /\ forall c, In c (DDM.validDrops m')
               <-> In c (DDM.targets m) /\ admitted proto drag m c = true.
Proof.
  intros Hact Hrun. unfold Targets._activateShims in Hrun.
  assert (Hs0 : same_static m (DDM.clearCache m)).
  { split; [reflexivity | intros x; reflexivity]. }
  destruct (activateShims_loop dom proto drag (DDM.targets m) (DDM.clearCache m) m'
              Hact Hrun) as (Hs & _ & Hin & Hout).
  split; [exact (same_static_trans _ _ _ Hs0 Hs) |].
  intros c. split.
  - intros Hc. destruct (Hin c Hc) as [[] | [Hl Hadm]].
    split; [exact Hl |].
    rewrite <- (same_static_admitted proto drag m _ c Hs0). exact Hadm.
  - intros [Hl Hadm]. apply Hout; [| right; exact Hl].
    rewrite (same_static_admitted proto drag m _ c Hs0). exact Hadm.
Qed.

Lemma quiet_refl (m : DDM.t) : quiet m m.
Proof.
  split; [reflexivity |]. split; [reflexivity |].
  split; [apply same_static_refl | intros x; reflexivity].
Qed.

Lemma quiet_trans (m1 m2 m3 : DDM.t) : quiet m1 m2 -> quiet m2 m3 -> quiet m1 m3.
Proof.
  intros (Hv & Hu & Hs & Hg) (Hv' & Hu' & Hs' & Hg').
  split; [congruence |]. split; [congruence |].
  split; [exact (same_static_trans _ _ _ Hs Hs') |].
  intros x. etrans; [apply Hg' | apply Hg].
Qed.

(** A step that touches neither the Drops nor [validDrops], [useHash] and
    [activeDrag]. *)
Lemma quiet_fields (m m' : DDM.t) :
  DDM.validDrops m' = DDM.validDrops m ->
  DDM.useHash m' = DDM.useHash m ->
  DDM.activeDrag m' = DDM.activeDrag m ->
  DDM.drops m' = DDM.drops m ->
  quiet m m'.
Proof.
  intros Hv Hu Ha Hd. split; [exact Hv |]. split; [exact Hu |].
  split; [split; [exact Ha | intros x; rewrite Hd; reflexivity] |].
  intros x. rewrite Hd. reflexivity.
Qed.

Lemma quiet_store (m : DDM.t) (c : DropRef) (d d' : Drop.t) :
  DDM.drops m !! c = Some d -> drop_key d' = drop_key d -> drop_geom d' = drop_geom d ->
  quiet m (DDM.store m c d').
Proof.
  intros Hd Hkey Hgeom. split; [reflexivity |]. split; [reflexivity |].
  split; [exact (same_static_store m c d d' Hd Hkey) |].
  intros x. unfold DDM.store, DDM.set_drops; cbn [DDM.drops].
  destruct (decide (c = x)) as [->|Hne].
  - rewrite lookup_insert_eq, Hd. simpl. rewrite Hgeom. reflexivity.
  - rewrite lookup_insert_ne by assumption. reflexivity.
Qed.

Lemma quiet_otherDrops_put (r : DropRef) (m : DDM.t) :
  quiet m (DropShim.otherDrops_put r m).
Proof.
  unfold DropShim.otherDrops_put.
  destruct (existsb (Nat.eqb r) (DDM.otherDrops m)); [apply quiet_refl |].
  apply quiet_fields; reflexivity.
Qed.

Lemma handleOut_quiet (dom : Node.Dom) (m m' : DDM.t) (c : DropRef) :
  DropShim._handleOut dom m c = Ok m' -> quiet m m'.
Proof.
  unfold DropShim._handleOut.
  destruct (DDM.isOverTarget dom m (Some c)) as [over|]; [| discriminate].
  unfold mbind, Outcome_bind. cbv beta iota.
  destruct over; [intros [= <-]; apply quiet_refl |].
  unfold DDM.deref. destruct (DDM.drops m !! c) as [d|] eqn:Hd; [| discriminate].
  destruct (Drop.overTarget d); [| intros [= <-]; apply quiet_refl].
  set (m1 := DDM.store m c (Drop.set_overTarget false d)).
  assert (H1 : quiet m m1) by (eapply quiet_store; [exact Hd | reflexivity | reflexivity]).
  assert (H2 : quiet m1 (DropShim._removeActiveShim c m1)) by (apply quiet_fields; reflexivity).
  destruct (DDM.activeDrag (DropShim._removeActiveShim c m1)); intros [= <-].
  - eapply quiet_trans; [exact H1 |]. eapply quiet_trans; [exact H2 |].
    apply quiet_fields; reflexivity.
  - eapply quiet_trans; [exact H1 | exact H2].
Qed.

Lemma drop_handleTargetOver_quiet (dom : Node.Dom)
    (G : DDM.t -> option (Outcome DDM.t)) (m m' : DDM.t) (c : DropRef) :
  (forall m1 m2, G m1 = Some (Ok m2) -> quiet m1 m2) ->
  DropShim._handleTargetOver dom G m c = Some (Ok m') -> quiet m m'.
Proof.
  intros HG. unfold DropShim._handleTargetOver.
  destruct (DDM.isOverTarget dom m (Some c)) as [over|]; [| discriminate].
  destruct over.
  - set (m1 := DropShim.otherDrops_put c (DDM.set_activeDrop (Some c) m)).
    assert (H1 : quiet m m1).
    { eapply quiet_trans; [| apply quiet_otherDrops_put].
      apply quiet_fields; reflexivity. }
    unfold DDM.deref. destruct (DDM.drops m1 !! c) as [d|] eqn:Hd; [| discriminate].
    destruct (Drop.overTarget d).
    + intros [= <-]. exact H1.
    + intros Hnest. apply HG in Hnest.
      eapply quiet_trans; [exact H1 |]. eapply quiet_trans; [| exact Hnest].
      eapply quiet_store; [exact Hd | reflexivity | reflexivity].
  - intros [= Hout]. eapply handleOut_quiet. exact Hout.
Qed.

Lemma each_quiet (f : DDM.t -> DropRef -> option (Outcome DDM.t)) (l : list DropRef) :
  (forall m1 c m2, f m1 c = Some (Ok m2) -> quiet m1 m2) ->
  forall m m', Targets.each f l m = Some (Ok m') -> quiet m m'.
Proof.
  intros Hf. induction l as [|x l IH]; intros m m'; cbn [Targets.each].
  - intros [= <-]. apply quiet_refl.
  - destruct (f m x) as [[m1|]|] eqn:Hstep; try discriminate.
    intros Hrest. eapply quiet_trans; [eapply Hf; exact Hstep | apply IH; exact Hrest].
Qed.

Lemma handleTargetOver_quiet (dom : Node.Dom) (fuel : nat) :
  forall m m', Targets._handleTargetOver dom fuel m = Some (Ok m') -> quiet m m'.
Proof.
  induction fuel as [|fuel IH]; intros m m'; cbn [Targets._handleTargetOver];
    [discriminate |].
  destruct (DDM._lookup dom m) as [B|]; [| discriminate].
  apply each_quiet. intros m1 c m2. apply drop_handleTargetOver_quiet. exact IH.
Qed.

Lemma lookup_loop_subset (dom : Node.Dom) (m : DDM.t) (l : list DropRef) :
  forall B, DDM._lookup_loop dom m l = Ok B -> forall c, In c B -> In c l.
Proof.
  induction l as [|x l IH]; intros B; cbn [DDM._lookup_loop].
  - intros [= <-] c [].
  - unfold DDM.deref. destruct (DDM.drops m !! x) as [d|]; [| discriminate].
    unfold mbind, Outcome_bind. cbv beta iota.
    destruct (Drop.shim d) as [s|]; [| discriminate].
    destruct (DDM._lookup_loop dom m l) as [B'|]; [| discriminate].
    intros [= <-] c Hc.
    destruct (DDM.inViewportRegion dom s (Drop.region d)).
    + destruct Hc as [<- | Hc]; [left; reflexivity | right; eapply IH; eauto].
    + right. eapply IH; eauto.
Qed.

Lemma lookup_subset (dom : Node.Dom) (m : DDM.t) (B : list DropRef) :
  DDM._lookup dom m = Ok B -> forall c, In c B -> In c (DDM.validDrops m).
Proof.
  unfold DDM._lookup. destruct (negb (DDM.useHash m)).
  - intros [= <-] c Hc. exact Hc.
  - apply lookup_loop_subset.
Qed.

Lemma activateTargets_validDrops (dom : Node.Dom) (proto : string -> bool) (fuel : nat)
    (m m' : DDM.t) (drag : Drag.t) :
  DDM.activeDrag m = Some drag ->
  Targets._activateTargets dom proto fuel m = Some (Ok m') ->
  same_static m m'
  /\ forall c, In c (DDM.validDrops m')
               <-> In c (DDM.targets m) /\ admitted proto drag m c = true.
Proof.
  intros Hact. unfold Targets._activateTargets.
  destruct (Targets._activateShims dom proto m) as [[m1|]|] eqn:Hshims; try discriminate.
  intros Hover. apply handleTargetOver_quiet in Hover. destruct Hover as (Hv & _ & Hs & _).
  destruct (activateShims_effect dom proto drag m m1 Hact Hshims) as (Hs1 & Hiff).
  split; [exact (same_static_trans _ _ _ Hs1 Hs) |].
  intros c. rewrite Hv. apply Hiff.
Qed.



Lemma hit_testing_no_match_witness :
  DDM.isOverTarget ScenarioStrict.page ScenarioStrict.idle (Some 1%nat) = Ok false
  /\ exists res,
       DDM.getBestMatch Scenario.page Scenario.two_targets [1%nat; 2%nat] true = Ok res.
Proof.
  split.
  - apply (proj1 (hit_testing_no_match ScenarioStrict.page ScenarioStrict.idle)).
    left. reflexivity.
  - destruct (hit_testing_no_match Scenario.page Scenario.two_targets) as (_ & _ & _ & H).
    apply (H Scenario.intersect_drag); [reflexivity |].
    repeat constructor; eexists _, _; split; vm_compute; reflexivity.
Defined.


(** ** Region clamping *)

Ltac no_branch t :=
  lazymatch t with
  | context [if _ then _ else _] => fail
  | _ => idtac
  end.

(** Case analysis on the comparisons of the goal, innermost first. *)
Ltac case_ltb :=
  repeat match goal with
         | |- context [?a <? ?b] =>
             no_branch a; no_branch b; destruct (Z.ltb_spec a b); cbv iota
         end.

Lemma clamp_idempotent (J : Region.t) (H K : Z) (C : XY) :
  Constrain.clamp J H K (Constrain.clamp J H K C) = Constrain.clamp J H K C.
Proof.
  unfold Constrain.clamp. cbn [fst snd].
  case_ltb; try reflexivity; f_equal; lia.
Qed.

(** C7, as stated, fails: constrained to a rectangle lower than the node,
    the clamped position leaves the node's top edge above the rectangle. *)
Lemma checkRegion_counterexample :
  Constrain.getRegion ScenarioConstrain.page
    (ScenarioConstrain.constrained_to ScenarioConstrain.low_rect) false
  = Some ScenarioConstrain.low_rect
  /\ Constrain._checkRegion ScenarioConstrain.page
       (ScenarioConstrain.constrained_to ScenarioConstrain.low_rect) (15, 15) = (15, -10)
  /\ ~ node_inside ScenarioConstrain.low_rect 40 30
         (Constrain._checkRegion ScenarioConstrain.page
            (ScenarioConstrain.constrained_to ScenarioConstrain.low_rect) (15, 15)).
Proof.
  split; [vm_compute; reflexivity |]. split; [vm_compute; reflexivity |].
  unfold node_inside. vm_compute. intros (_ & _ & H & _). apply H. reflexivity.
Qed.

(** C7, amended. [_checkRegion] returns a position already inside
    [[regionMin, regionMax - nodeExtent]] on both axes unchanged, and
    applying it twice gives the same as applying it once. On each axis where
    the region is at least as large as the node the clamped position keeps
    the node inside the region; where the region is smaller than the node,
    the clamped coordinate is [regionMax - nodeExtent]. *)
Theorem checkRegion_idempotent (dom : Node.Dom) (this : Drag.t) (C : XY) :
  let H := Node.offsetWidth dom (Drag.dragNode (Drag.cfg this)) in
  let K := Node.offsetHeight dom (Drag.dragNode (Drag.cfg this)) in
  Constrain._checkRegion dom this (Constrain._checkRegion dom this C)
  = Constrain._checkRegion dom this C
  /\ (forall J, Constrain.getRegion dom this false = Some J ->
        (Region.left J <= fst C <= Region.right J - H ->
         Region.top J <= snd C <= Region.bottom J - K ->
         Constrain._checkRegion dom this C = C)
        /\ (Region.left J <= Region.right J - H ->
            Region.top J <= Region.bottom J - K ->
            node_inside J H K (Constrain._checkRegion dom this C))
        /\ (Region.right J - H < Region.left J ->
            fst (Constrain._checkRegion dom this C) = Region.right J - H)
        /\ (Region.bottom J - K < Region.top J ->
            snd (Constrain._checkRegion dom this C) = Region.bottom J - K)).
Proof.
  intros H K. split.
  - unfold Constrain._checkRegion.
    destruct (Constrain.getRegion dom this false) as [J|]; [| reflexivity].
    apply clamp_idempotent.
  - intros J HJ. unfold Constrain._checkRegion. rewrite HJ.
    fold H. fold K. unfold Constrain.clamp, node_inside. destruct C as [x y].
    cbn [fst snd].
    repeat split; intros; case_ltb; cbn [fst snd]; try reflexivity; try lia;
      f_equal; lia.
Qed.

Lemma checkRegion_idempotent_witness :
  Constrain._checkRegion ScenarioConstrain.page
    (ScenarioConstrain.constrained_to ScenarioConstrain.wide_rect) (120, 200) = (120, 200)
  /\ node_inside ScenarioConstrain.wide_rect 40 30
       (Constrain._checkRegion ScenarioConstrain.page
          (ScenarioConstrain.constrained_to ScenarioConstrain.wide_rect) (900, 5)).
Proof.
  split.
  - destruct (checkRegion_idempotent ScenarioConstrain.page
                (ScenarioConstrain.constrained_to ScenarioConstrain.wide_rect) (120, 200))
      as (_ & Hin).
    destruct (Hin ScenarioConstrain.wide_rect) as (Hsame & _); [vm_compute; reflexivity |].
    apply Hsame; simpl; lia.
  - destruct (checkRegion_idempotent ScenarioConstrain.page
                (ScenarioConstrain.constrained_to ScenarioConstrain.wide_rect) (900, 5))
      as (_ & Hin).
    destruct (Hin ScenarioConstrain.wide_rect) as (_ & Hkeep & _); [vm_compute; reflexivity |].
    apply Hkeep; simpl; lia.
Defined.

(** ** Region source *)

(** C6, as stated, fails: with a reference node configured and then an
    explicit rectangle, both are stored and [getRegion] takes the node's
    region, not the rectangle; and with the viewport configured before the
    rectangle, the rectangle wins, so the order of configuration does not
    decide either. *)
Lemma getRegion_priority_counterexample :
  Constrain_ATTRS.constrain2node
    (Drag.constrain (Drag.cfg ScenarioConstrain.node_then_rect)) = Some 8%nat
  /\ Constrain_ATTRS.constrain2region
       (Drag.constrain (Drag.cfg ScenarioConstrain.node_then_rect))
     = Some ScenarioConstrain.wide_rect
  /\ Constrain.getRegion ScenarioConstrain.page ScenarioConstrain.node_then_rect false
     = Some (Node.region ScenarioConstrain.page 8%nat)
  /\ Node.region ScenarioConstrain.page 8%nat <> ScenarioConstrain.wide_rect
  /\ Constrain.getRegion ScenarioConstrain.page ScenarioConstrain.view_then_rect false
     = Some ScenarioConstrain.wide_rect.
Proof.
  repeat split; try (vm_compute; reflexivity).
  vm_compute. discriminate.
Qed.

(** C6, amended. [getRegion] starts from the reference node's bounding
    region when a reference node is stored, otherwise from the stored
    explicit rectangle, otherwise from the viewport when [constrain2view] is
    set. The [constrain2node] setter stores no node while a rectangle is
    configured, so a rectangle configured before a node takes priority over
    it. With none of the three configured [getRegion] reports no region
    ([false]), [_checkRegion] leaves a position as it is and [_align] does
    not clamp. *)
Theorem getRegion_priority (dom : Node.Dom) (this : Drag.t) (K : bool) :
  let a := Drag.constrain (Drag.cfg this) in
  (forall n, Constrain_ATTRS.constrain2node a = Some n ->
             Constrain.getRegion dom this K
             = Some (Constrain.adjust_region dom this K (Node.region dom n)))
  /\ (forall r, Constrain_ATTRS.constrain2node a = None ->
                Constrain_ATTRS.constrain2region a = Some r ->
                Constrain.getRegion dom this K
                = Some (Constrain.adjust_region dom this K r))
  /\ (Constrain_ATTRS.constrain2node a = None ->
      Constrain_ATTRS.constrain2region a = None ->
      Constrain_ATTRS.constrain2view a = true ->
      Constrain.getRegion dom this K
      = Some (Constrain.adjust_region dom this K
                (Node.viewportRegion dom (Drag.node (Drag.cfg this)))))
  /\ (forall r H, Constrain_ATTRS.constrain2region a = Some r ->
                  Constrain_ATTRS.constrain2node (Constrain.configure_constrain2node H a)
                  = None)
  /\ (Constrain_ATTRS.constrain2node a = None ->
      Constrain_ATTRS.constrain2region a = None ->
      Constrain_ATTRS.constrain2view a = false ->
      Constrain.getRegion dom this K = None
      /\ (forall C, Constrain._checkRegion dom this C = C)
      /\ (forall I, Constrain._align dom this I
                    = (DragBase._align this I ≫= fun C =>
                       Constrain.stick this C ≫= fun C1 =>
                       Constrain._checkTicks this C1 None))).
Proof.
  intros a. unfold Constrain.getRegion, Constrain.region_source. fold a.
  split; [intros n ->; reflexivity |].
  split; [intros r -> ->; reflexivity |].
  split; [intros -> -> ->; reflexivity |].
  split.
  { intros r H Hr. unfold Constrain.configure_constrain2node, Constrain.set_constrain2node.
    cbn [Constrain_ATTRS.constrain2node]. rewrite Hr. reflexivity. }
  intros Hn Hr Hv.
  assert (Hnone : forall K', Constrain.getRegion dom this K' = None).
  { intros K'. unfold Constrain.getRegion, Constrain.region_source. fold a.
    rewrite Hn, Hr, Hv. reflexivity. }
  rewrite Hn, Hr, Hv. split; [reflexivity |]. split.
  - intros C. unfold Constrain._checkRegion. rewrite Hnone. reflexivity.
  - intros I. unfold Constrain._align. rewrite Hnone. reflexivity.
Qed.

Lemma getRegion_priority_witness :
  Constrain.getRegion ScenarioConstrain.page
    (ScenarioConstrain.constrained_to ScenarioConstrain.wide_rect) false
  = Some ScenarioConstrain.wide_rect
  /\ Constrain.getRegion ScenarioConstrain.page
       (Drag.init (ScenarioConstrain.config Constrain_ATTRS.defaults)) false = None.
Proof.
  split.
  - destruct (getRegion_priority ScenarioConstrain.page
                (ScenarioConstrain.constrained_to ScenarioConstrain.wide_rect) false)
      as (_ & Hrect & _).
    rewrite (Hrect ScenarioConstrain.wide_rect); [| reflexivity | reflexivity].
    vm_compute. reflexivity.
  - destruct (getRegion_priority ScenarioConstrain.page
                (Drag.init (ScenarioConstrain.config Constrain_ATTRS.defaults)) false)
      as (_ & _ & _ & _ & Hnone).
    apply Hnone; reflexivity.
Defined.

(** ** Tick snapping *)

Lemma tick_choice_In (O : Z) (P : list Z) (N K : option Z) (H : nat) (PJ : Z) :
  P !! S H = Some PJ -> In (Constrain.tick_choice O P N K H PJ) P.
Proof.
  intros HJ.
  assert (HJin : In PJ P).
  { apply list_elem_of_In. eapply list_elem_of_lookup_2. exact HJ. }
  assert (Hlt : (H < length P)%nat).
  { apply lookup_lt_Some in HJ. lia. }
  destruct (lookup_lt_is_Some_2 P H Hlt) as [PH HH].
  assert (HHin : In PH P).
  { apply list_elem_of_In. eapply list_elem_of_lookup_2. exact HH. }
  assert (Hlast : In (default 0 (P !! (length P - 1)%nat)) P).
  { destruct (lookup_lt_is_Some_2 P (length P - 1)%nat) as [PL HL]; [lia |].
    rewrite HL. apply list_elem_of_In. eapply list_elem_of_lookup_2. exact HL. }
  unfold Constrain.tick_choice. rewrite HH. cbn [default].
  destruct N as [n|], K as [k|];
    repeat match goal with
           | |- context [if ?c then _ else _] => destruct c
           end; assumption.
Qed.

Lemma tick_scan_In (O : Z) (P : list Z) (N K : option Z) (count : nat) :
  P <> [] -> forall H : nat, In (Constrain.tick_scan O P N K count H) P.
Proof.
  intros Hne. induction count as [|count IH]; intros H; cbn [Constrain.tick_scan].
  - destruct (lookup_lt_is_Some_2 P (length P - 1)%nat) as [PL HL].
    { destruct P; [contradiction | cbn [length]; lia]. }
    rewrite HL. apply list_elem_of_In. eapply list_elem_of_lookup_2. exact HL.
  - destruct (P !! S H) as [PJ|] eqn:HJ; [| apply IH].
    destruct (truthy PJ && (O <=? PJ)); [| apply IH].
    apply tick_choice_In. exact HJ.
Qed.

Lemma calcTickArray_In (O : Z) (P : list Z) (N K : option Z) :
  P <> [] -> In (Constrain._calcTickArray O P N K) P.
Proof.
  intros Hne. unfold Constrain._calcTickArray.
  destruct P as [|P0 P']; [contradiction |].
  destruct (O <=? P0); [left; reflexivity |].
  apply tick_scan_In. exact Hne.
Qed.

Lemma calcTicks_in_bounds (N M J L K : Z) :
  0 < J -> L <> 0 -> K <> 0 -> L <= N <= K -> J <= K - L ->
  L <= Constrain._calcTicks N M J (Some L) (Some K) <= K.
Proof.
  intros HJ HL HK HN Hroom.
  unfold Constrain._calcTicks, Constrain.floor_div, Constrain.ceil_div, truthy.
  set (q := (N - M) / J).
  assert (Hq1 : J * q <= N - M) by (apply Z.mul_div_le; exact HJ).
  assert (Hq2 : N - M < J * q + J).
  { pose proof (Z.mul_succ_div_gt (N - M) J HJ) as Hgt. fold q in Hgt. lia. }
  apply Z.eqb_neq in HL. apply Z.eqb_neq in HK. rewrite HL, HK. cbn [negb andb].
  destruct (negb (q =? 0) || negb (- (- (N - M) / J) =? 0)); [| exact HN].
  case_ltb; nia.
Qed.

(** C5, as stated, fails: for an in-bounds position, a tick of 100 and
    bounds 10..50, [_calcTicks] returns -100; and [_calcTickArray] returns
    the tick 500 for bounds 1..100. *)
Lemma tick_snapping_counterexample :
  in_bounds 10 50 30
  /\ Constrain._calcTicks 30 0 100 (Some 10) (Some 50) = -100
  /\ ~ in_bounds 10 50 (Constrain._calcTicks 30 0 100 (Some 10) (Some 50))
  /\ in_bounds 1 100 10
  /\ Constrain._calcTickArray 10 [500] (Some 1) (Some 100) = 500
  /\ ~ in_bounds 1 100 (Constrain._calcTickArray 10 [500] (Some 1) (Some 100)).
Proof.
  unfold in_bounds.
  split; [lia |]. split; [reflexivity |]. split; [vm_compute; intros [H _]; apply H; reflexivity |].
  split; [lia |]. split; [reflexivity |]. vm_compute. intros [_ H]. apply H. reflexivity.
Qed.

(** The clamped position, not the raw one, is what the ticks are computed
    from: at pointer position (700,200) the raw target x is 695, clamped to
    460 and then snapped to 450. *)
Example align_clamps_then_snaps :
  Constrain._align ScenarioConstrain.page ScenarioTicks.ticked (700, 200) = Ok (450, 198)
  /\ Constrain._checkRegion ScenarioConstrain.page ScenarioTicks.ticked (695, 198) = (460, 198).
Proof. split; vm_compute; reflexivity. Qed.

(** C5, amended. For a positive tick interval, nonzero region bounds at
    least one tick apart and a position within them, the position
    [_calcTicks] produces lies within those bounds. [_calcTickArray] returns
    the position itself for an empty array and otherwise one of the listed
    tick positions, so its result lies within the bounds whenever the
    position and every listed tick do. In the constrained [_align] region
    clamping is applied before tick-snapping. *)
Theorem tick_snapping_bounds :
  (forall N M J L K : Z,
      0 < J -> L <> 0 -> K <> 0 -> in_bounds L K N -> J <= K - L ->
      in_bounds L K (Constrain._calcTicks N M J (Some L) (Some K)))
  /\ (forall (O : Z) (P : list Z) (N K : option Z),
         Constrain._calcTickArray O [] N K = O
         /\ (P <> [] -> In (Constrain._calcTickArray O P N K) P))
  /\ (forall (O lo hi : Z) (P : list Z) (N K : option Z),
         in_bounds lo hi O -> Forall (in_bounds lo hi) P ->
         in_bounds lo hi (Constrain._calcTickArray O P N K))
  /\ (forall (dom : Node.Dom) (this : Drag.t) (I C C1 : XY) (H : Region.t),
         DragBase._align this I = Ok C ->
         Constrain.stick this C = Ok C1 ->
         Constrain.getRegion dom this true = Some H ->
         Constrain._align dom this I
         = Constrain._checkTicks this (Constrain._checkRegion dom this C1) (Some H)).
Proof.
  split; [| split; [| split]].
  - intros N M J L K HJ HL HK HN Hroom. apply calcTicks_in_bounds; assumption.
  - intros O P N K. split; [reflexivity |]. apply calcTickArray_In.
  - intros O lo hi P N K HO HP.
    destruct P as [|P0 P']; [exact HO |].
    rewrite Forall_forall in HP. apply HP. apply list_elem_of_In.
    apply calcTickArray_In. discriminate.
  - intros dom this I C C1 H Ha Hs Hr.
    unfold Constrain._align. rewrite Ha, Hr.
    unfold mbind, Outcome_bind. cbv beta iota. rewrite Hs. reflexivity.
Qed.

Lemma tick_snapping_bounds_witness :
  in_bounds 10 460 (Constrain._calcTicks 333 100 50 (Some 10) (Some 460))
  /\ In (Constrain._calcTickArray 120 [100; 150; 200] (Some 10) (Some 460)) [100; 150; 200]
  /\ Constrain._align ScenarioConstrain.page ScenarioTicks.ticked (700, 200)
     = Constrain._checkTicks ScenarioTicks.ticked
         (Constrain._checkRegion ScenarioConstrain.page ScenarioTicks.ticked (695, 198))
         (Some (Region.mk 10 460 370 10 0)).
Proof.
  destruct tick_snapping_bounds as (Hticks & Harr & _ & Horder).
  split; [apply Hticks; unfold in_bounds; lia |].
  split; [apply (Harr 120 [100; 150; 200]); discriminate |].
  apply (Horder ScenarioConstrain.page ScenarioTicks.ticked (700, 200) (695, 198) (695, 198));
    vm_compute; reflexivity.
Defined.

(** ** Termination of target activation *)

Lemma quiet_isOverTarget (dom : Node.Dom) (m m' : DDM.t) (B : option DropRef) :
  quiet m m' -> DDM.isOverTarget dom m' B = DDM.isOverTarget dom m B.
Proof.
  intros (_ & _ & [Ha _] & Hg). unfold DDM.isOverTarget. rewrite Ha.
  destruct (DDM.activeDrag m) as [drag|]; [| reflexivity].
  destruct B as [b|]; [| reflexivity].
  destruct (Drag.mouseXY drag) as [C|]; [| reflexivity].
  specialize (Hg b). unfold DDM.deref.
  destruct (DDM.drops m' !! b) as [d'|], (DDM.drops m !! b) as [d|];
    simpl in Hg; try discriminate; [| reflexivity].
  injection Hg as Hr Hs. unfold mbind, Outcome_bind. cbv beta iota.
  rewrite Hr, Hs. reflexivity.
Qed.

Lemma quiet_lookup_loop (dom : Node.Dom) (m m' : DDM.t) (l : list DropRef) :
  quiet m m' -> DDM._lookup_loop dom m' l = DDM._lookup_loop dom m l.
Proof.
  intros (_ & _ & _ & Hg). induction l as [|x l IH]; cbn [DDM._lookup_loop]; [reflexivity |].
  specialize (Hg x). unfold DDM.deref.
  destruct (DDM.drops m' !! x) as [d'|], (DDM.drops m !! x) as [d|];
    simpl in Hg; try discriminate; [| reflexivity].
  injection Hg as Hr Hs. unfold mbind, Outcome_bind. cbv beta iota.
  rewrite Hr, Hs, IH. reflexivity.
Qed.

Lemma quiet_lookup (dom : Node.Dom) (m m' : DDM.t) :
  quiet m m' -> DDM._lookup dom m' = DDM._lookup dom m.
Proof.
  intros Hq. pose proof Hq as (Hv & Hu & _). unfold DDM._lookup.
  rewrite Hu, Hv. destruct (negb (DDM.useHash m)); [reflexivity |].
  apply quiet_lookup_loop. exact Hq.
Qed.

Lemma quiet_ready (m m' : DDM.t) : quiet m m' -> targets_ready m -> targets_ready m'.
Proof.
  intros (Hv & _ & _ & Hg) Hr c Hc. rewrite Hv in Hc.
  destruct (Hr c Hc) as (d & Hd & Hs & Hreg).
  specialize (Hg c). rewrite Hd in Hg.
  destruct (DDM.drops m' !! c) as [d'|]; simpl in Hg; [| discriminate].
  injection Hg as Hr' Hs'. exists d'. rewrite Hr', Hs'. auto.
Qed.

Lemma ready_isOverTarget (dom : Node.Dom) (m : DDM.t) (c : DropRef) :
  targets_ready m -> In c (DDM.validDrops m) ->
  exists b, DDM.isOverTarget dom m (Some c) = Ok b.
Proof.
  intros Hr Hc. destruct (Hr c Hc) as (d & Hd & Hs & Hreg).
  unfold DDM.isOverTarget, DDM.deref.
  destruct (DDM.activeDrag m) as [drag|]; [| eexists; reflexivity].
  destruct (Drag.mouseXY drag); [| eexists; reflexivity].
  rewrite Hd. unfold mbind, Outcome_bind. cbv beta iota.
  destruct (Drop.region d); [| congruence]. destruct (Drop.shim d); [| congruence].
  destruct (Drag.dragMode (Drag.cfg drag) =? DDM.STRICT); eexists; reflexivity.
Qed.

Lemma ready_lookup_loop (dom : Node.Dom) (m : DDM.t) (l : list DropRef) :
  (forall c, In c l -> exists d, DDM.drops m !! c = Some d /\ Drop.shim d <> None) ->
  exists B, DDM._lookup_loop dom m l = Ok B.
Proof.
  induction l as [|x l IH]; intros Hl; cbn [DDM._lookup_loop]; [eexists; reflexivity |].
  destruct (Hl x (or_introl eq_refl)) as (d & Hd & Hs).
  destruct IH as [B HB]; [intros c Hc; apply Hl; right; exact Hc |].
  unfold DDM.deref. rewrite Hd. unfold mbind, Outcome_bind. cbv beta iota.
  destruct (Drop.shim d); [| congruence]. rewrite HB. eexists; reflexivity.
Qed.

Lemma ready_lookup (dom : Node.Dom) (m : DDM.t) :
  targets_ready m -> exists B, DDM._lookup dom m = Ok B.
Proof.
  intros Hr. unfold DDM._lookup. destruct (negb (DDM.useHash m)); [eexists; reflexivity |].
  apply ready_lookup_loop. intros c Hc. destruct (Hr c Hc) as (d & Hd & Hs & _). eauto.
Qed.

Lemma filter_length_le {A : Type} (P P' : A -> bool) (l : list A) :
  (forall x, P' x = true -> P x = true) ->
  (length (List.filter P' l) <= length (List.filter P l))%nat.
Proof.
  intros HP. induction l as [|x l IH]; simpl; [lia |].
  destruct (P' x) eqn:H'.
  - rewrite (HP x H'). simpl. lia.
  - destruct (P x); simpl; lia.
Qed.

Lemma filter_length_lt {A : Type} (P P' : A -> bool) (l : list A) (c : A) :
  (forall x, P' x = true -> P x = true) ->
  In c l -> P c = true -> P' c = false ->
  (length (List.filter P' l) < length (List.filter P l))%nat.
Proof.
  intros HP Hc Hpc Hpc'. induction l as [|x l IH]; simpl; [contradiction |].
  destruct Hc as [-> | Hc].
  - rewrite Hpc, Hpc'. simpl. pose proof (filter_length_le P P' l HP). lia.
  - specialize (IH Hc). destruct (P' x) eqn:H'.
    + rewrite (HP x H'). simpl. lia.
    + destruct (P x); simpl; lia.
Qed.

Lemma pending_same (dom : Node.Dom) (m m' : DDM.t) (x : DropRef) :
  quiet m m' -> DDM.drops m' !! x = DDM.drops m !! x ->
  enter_pending dom m' x = enter_pending dom m x.
Proof.
  intros Hq Hx. unfold enter_pending.
  rewrite (quiet_isOverTarget dom m m' (Some x) Hq), Hx. reflexivity.
Qed.

Lemma pending_at (dom : Node.Dom) (m m' : DDM.t) (c : DropRef) (d' : Drop.t) (b : bool) :
  quiet m m' -> DDM.drops m' !! c = Some d' ->
  DDM.isOverTarget dom m (Some c) = Ok b ->
  enter_pending dom m' c = b && negb (Drop.overTarget d').
Proof.
  intros Hq Hc Hb. unfold enter_pending.
  rewrite (quiet_isOverTarget dom m m' (Some c) Hq), Hb, Hc. reflexivity.
Qed.

Lemma settles_refl (dom : Node.Dom) (m : DDM.t) : settles dom m m.
Proof. split; [apply quiet_refl | auto]. Qed.

Lemma settles_trans (dom : Node.Dom) (m1 m2 m3 : DDM.t) :
  settles dom m1 m2 -> settles dom m2 m3 -> settles dom m1 m3.
Proof.
  intros [Hq Hp] [Hq' Hp']. split; [exact (quiet_trans _ _ _ Hq Hq') | auto].
Qed.

Lemma otherDrops_put_drops (r : DropRef) (m : DDM.t) :
  DDM.drops (DropShim.otherDrops_put r m) = DDM.drops m.
Proof.
  unfold DropShim.otherDrops_put.
  destruct (existsb (Nat.eqb r) (DDM.otherDrops m)); reflexivity.
Qed.

(** [_handleOut] on a ready target returns and settles. *)
Lemma handleOut_settles (dom : Node.Dom) (m : DDM.t) (c : DropRef) (d : Drop.t) :
  DDM.drops m !! c = Some d ->
  DDM.isOverTarget dom m (Some c) = Ok false ->
  exists m', DropShim._handleOut dom m c = Ok m' /\ settles dom m m'.
Proof.
  intros Hd Hover.
  destruct (DropShim._handleOut dom m c) as [m'|] eqn:Hout.
  - exists m'. split; [reflexivity |].
    pose proof (handleOut_quiet dom m m' c Hout) as Hq.
    split; [exact Hq |]. intros x Hx.
    destruct (decide (x = c)) as [-> | Hne].
    + exfalso. destruct Hq as (_ & _ & _ & Hg). specialize (Hg c). rewrite Hd in Hg.
      destruct (DDM.drops m' !! c) as [d'|] eqn:Hd'; simpl in Hg; [| discriminate].
      rewrite (pending_at dom m m' c d' false) in Hx;
        [discriminate | exact (handleOut_quiet dom m m' c Hout) | exact Hd' | exact Hover].
    + rewrite <- Hx. symmetry. apply pending_same; [exact Hq |].
      revert Hout. unfold DropShim._handleOut. rewrite Hover.
      unfold mbind, Outcome_bind. cbv beta iota. unfold DDM.deref. rewrite Hd.
      destruct (Drop.overTarget d); [| intros [= <-]; reflexivity].
      match goal with
      | |- context [DDM.activeDrag ?s] => destruct (DDM.activeDrag s)
      end; intros [= <-]; cbn; apply lookup_insert_ne; congruence.
  - exfalso. revert Hout. unfold DropShim._handleOut. rewrite Hover.
    unfold mbind, Outcome_bind. cbv beta iota. unfold DDM.deref. rewrite Hd.
    destruct (Drop.overTarget d); [| discriminate].
    match goal with
    | |- context [DDM.activeDrag ?s] => destruct (DDM.activeDrag s)
    end; discriminate.
Qed.

Lemma drop_handleTargetOver_step (dom : Node.Dom)
    (G : DDM.t -> option (Outcome DDM.t)) (m : DDM.t) (c : DropRef) (d : Drop.t) (b : bool) :
  DDM.drops m !! c = Some d ->
  DDM.isOverTarget dom m (Some c) = Ok b ->
  (exists m', DropShim._handleTargetOver dom G m c = Some (Ok m') /\ settles dom m m')
  \/ (exists m2,
         DropShim._handleTargetOver dom G m c = G m2
         /\ quiet m m2
         /\ enter_pending dom m c = true
         /\ enter_pending dom m2 c = false
         /\ forall x, enter_pending dom m2 x = true -> enter_pending dom m x = true).
Proof.
  intros Hd Hover. unfold DropShim._handleTargetOver. rewrite Hover.
  destruct b.
  - set (m1 := DropShim.otherDrops_put c (DDM.set_activeDrop (Some c) m)).
    assert (Hdrops : DDM.drops m1 = DDM.drops m).
    { unfold m1. rewrite otherDrops_put_drops. reflexivity. }
    assert (Hq1 : quiet m m1).
    { eapply quiet_trans; [| apply quiet_otherDrops_put]. apply quiet_fields; reflexivity. }
    unfold DDM.deref. rewrite Hdrops, Hd.
    destruct (Drop.overTarget d) eqn:Hot.
    + left. exists m1. split; [reflexivity |]. split; [exact Hq1 |].
      intros x Hx. rewrite <- Hx. symmetry. apply pending_same; [exact Hq1 |].
      rewrite Hdrops. reflexivity.
    + right. exists (DDM.store m1 c (Drop.set_overTarget true d)).
      assert (Hq2 : quiet m (DDM.store m1 c (Drop.set_overTarget true d))).
      { eapply quiet_trans; [exact Hq1 |].
        eapply quiet_store; [rewrite Hdrops; exact Hd | reflexivity | reflexivity]. }
      split; [reflexivity |]. split; [exact Hq2 |].
      split.
      { unfold enter_pending. rewrite Hover, Hd, Hot. reflexivity. }
      split.
      { rewrite (pending_at dom m _ c (Drop.set_overTarget true d) true Hq2);
          [reflexivity | | exact Hover].
        unfold DDM.store, DDM.set_drops; cbn [DDM.drops]. apply lookup_insert_eq. }
      intros x Hx. destruct (decide (x = c)) as [-> | Hne].
      * unfold enter_pending. rewrite Hover, Hd, Hot. reflexivity.
      * rewrite <- Hx. symmetry. apply pending_same; [exact Hq2 |].
        unfold DDM.store, DDM.set_drops; cbn [DDM.drops]. rewrite Hdrops.
        apply lookup_insert_ne. congruence.
  - left. destruct (handleOut_settles dom m c d Hd Hover) as (m' & Hout & Hs).
    exists m'. rewrite Hout. split; [reflexivity | exact Hs].
Qed.

Lemma enters_left_le (dom : Node.Dom) (m m' : DDM.t) (B : list DropRef) :
  (forall x, enter_pending dom m' x = true -> enter_pending dom m x = true) ->
  (enters_left dom m' B <= enters_left dom m B)%nat.
Proof. intros H. apply filter_length_le. exact H. Qed.

(** With more fuel than Drops waiting to be entered, the manager's
    [_handleTargetOver] returns on ready targets, without raising. *)
Lemma handleTargetOver_total (dom : Node.Dom) (fuel : nat) :
  forall (m : DDM.t) (B : list DropRef),
    targets_ready m ->
    DDM._lookup dom m = Ok B ->
    (enters_left dom m B < fuel)%nat ->
    exists m', Targets._handleTargetOver dom fuel m = Some (Ok m') /\ settles dom m m'.
Proof.
  induction fuel as [|fuel IH]; intros m B Hr HB Hlt; [lia |].
  cbn [Targets._handleTargetOver]. rewrite HB.
  assert (Hloop : forall l m0,
             (forall c, In c l -> In c B) ->
             settles dom m m0 ->
             exists m', Targets.each
                          (DropShim._handleTargetOver dom (Targets._handleTargetOver dom fuel))
                          l m0 = Some (Ok m')
                        /\ settles dom m m').
  { induction l as [|c l IHl]; intros m0 Hsub Hs0; cbn [Targets.each].
    - exists m0. split; [reflexivity | exact Hs0].
    - pose proof Hs0 as [Hq0 Hp0].
      pose proof (quiet_ready m m0 Hq0 Hr) as Hr0.
      assert (HB0 : DDM._lookup dom m0 = Ok B) by (rewrite (quiet_lookup dom m m0 Hq0); exact HB).
      assert (HcB : In c B) by (apply Hsub; left; reflexivity).
      assert (Hcv : In c (DDM.validDrops m0)) by (eapply lookup_subset; eauto).
      destruct (Hr0 c Hcv) as (d & Hd & _).
      destruct (ready_isOverTarget dom m0 c Hr0 Hcv) as [b Hb].
      assert (Hnext : forall m1, settles dom m0 m1 ->
                 exists m', Targets.each
                              (DropShim._handleTargetOver dom (Targets._handleTargetOver dom fuel))
                              l m1 = Some (Ok m')
                            /\ settles dom m m').
      { intros m1 Hs1. apply IHl; [intros x Hx; apply Hsub; right; exact Hx |].
        eapply settles_trans; eassumption. }
      destruct (drop_handleTargetOver_step dom (Targets._handleTargetOver dom fuel) m0 c d b Hd Hb)
        as [(m1 & Hstep & Hs1) | (m2 & Hstep & Hq2 & Hpc & Hpc2 & Hp2)].
      + rewrite Hstep. apply Hnext. exact Hs1.
      + rewrite Hstep.
        assert (Hlt2 : (enters_left dom m2 B < fuel)%nat).
        { assert ((enters_left dom m2 B < enters_left dom m0 B)%nat).
          { apply (filter_length_lt _ _ B c); assumption. }
          pose proof (enters_left_le dom m m0 B Hp0). lia. }
        destruct (IH m2 B (quiet_ready m0 m2 Hq2 Hr0)) as (m3 & Hrun & Hs3);
          [rewrite (quiet_lookup dom m0 m2 Hq2); exact HB0 | exact Hlt2 |].
        rewrite Hrun. apply Hnext.
        eapply settles_trans; [split; [exact Hq2 | exact Hp2] | exact Hs3]. }
  apply Hloop; [auto | apply settles_refl].
Qed.

Lemma same_static_shim (m m' : DDM.t) (x : DropRef) (d : Drop.t) :
  same_static m m' -> DDM.drops m !! x = Some d ->
  exists d', DDM.drops m' !! x = Some d' /\ Drop.shim d' = Drop.shim d.
Proof.
  intros [_ Hk] Hd. specialize (Hk x). rewrite Hd in Hk.
  destruct (DDM.drops m' !! x) as [d'|]; simpl in Hk; [| discriminate].
  injection Hk as _ _ _ Hs. exists d'. auto.
Qed.

Lemma sizeShim_total (dom : Node.Dom) (m : DDM.t) (c : DropRef) (d : Drop.t) (drag : Drag.t) :
  DDM.activeDrag m = Some drag ->
  (Drag.dragMode (Drag.cfg drag) = DDM.INTERSECT -> Drag.deltaXY drag <> None) ->
  DDM.drops m !! c = Some d ->
  Drop.shim d <> None ->
  exists R, DropShim.sizeShim dom m c = Ok (DDM.store m c (Drop.set_region (Some R) d)).
Proof.
  intros Hact Hdelta Hd Hs. unfold DropShim.sizeShim, DDM.deref. rewrite Hd, Hact.
  unfold mbind, Outcome_bind. cbv beta iota.
  destruct (Drag.dragMode (Drag.cfg drag) =? DDM.INTERSECT) eqn:Hmode.
  - apply Z.eqb_eq in Hmode. specialize (Hdelta Hmode).
    destruct (Drag.deltaXY drag) as [delta|]; [| congruence].
    destruct (Drop.shim d); [| congruence]. eexists. reflexivity.
  - destruct (Drop.shim d); [| congruence]. eexists. reflexivity.
Qed.

Lemma activateShim_total (dom : Node.Dom) (proto : string -> bool)
    (m : DDM.t) (c : DropRef) (d : Drop.t) (drag : Drag.t) :
  DDM.activeDrag m = Some drag ->
  (Drag.dragMode (Drag.cfg drag) = DDM.INTERSECT -> Drag.deltaXY drag <> None) ->
  targets_ready m ->
  DDM.drops m !! c = Some d ->
  Drop.shim d <> None ->
  exists m', DropShim._activateShim dom proto m c = Ok m' /\ targets_ready m'.
Proof.
  intros Hact Hdelta Hr Hd Hs. unfold DropShim._activateShim, DDM.deref. rewrite Hact, Hd.
  unfold mbind, Outcome_bind. cbv beta iota.
  destruct (Drop.node d =? Drag.node (Drag.cfg drag))%nat; [exists m; auto |].
  destruct (Drop.lock d); [exists m; auto |].
  destruct (inGroup_spec proto d (Drag.groups (Drag.cfg drag))) as (_ & Hkey & Hshim & _).
  destruct (Drop.inGroup proto d (Drag.groups (Drag.cfg drag))) as [K d1].
  cbn [fst snd] in Hkey, Hshim. cbv zeta.
  destruct K.
  - set (m3 := DDM.store (DDM._addValid c (DDM.store m c d1)) c (Drop.set_overTarget false d1)).
    destruct (sizeShim_total dom m3 c (Drop.set_overTarget false d1) drag) as [R HR].
    + exact Hact.
    + exact Hdelta.
    + unfold m3, DDM.store, DDM.set_drops; cbn [DDM.drops]. apply lookup_insert_eq.
    + cbn [Drop.shim Drop.set_overTarget]. rewrite Hshim. exact Hs.
    + rewrite HR. eexists. split; [reflexivity |]. subst m3.
      intros x Hx. cbn in Hx. apply in_app_or in Hx.
      unfold DDM.store, DDM._addValid, DDM.set_validDrops, DDM.set_drops; cbn [DDM.drops].
      destruct (decide (c = x)) as [<- | Hne].
      * rewrite lookup_insert_eq. eexists. split; [reflexivity |].
        cbn. rewrite Hshim. split; [exact Hs | discriminate].
      * rewrite !lookup_insert_ne by assumption.
        destruct Hx as [Hx | [Hx | []]]; [apply Hr; exact Hx | congruence].
  - eexists. split; [reflexivity |].
    intros x Hx. cbn in Hx. apply filter_In in Hx. destruct Hx as [Hx Hne].
    apply negb_true_iff, Nat.eqb_neq in Hne.
    unfold DDM.store, DDM._removeValid, DDM.set_validDrops, DDM.set_drops; cbn [DDM.drops].
    rewrite lookup_insert_ne by congruence. apply Hr. exact Hx.
Qed.

Lemma activateShims_total (dom : Node.Dom) (proto : string -> bool) (m : DDM.t) (drag : Drag.t) :
  DDM.activeDrag m = Some drag ->
  targets_registered m drag ->
  exists m', Targets._activateShims dom proto m = Some (Ok m') /\ targets_ready m'.
Proof.
  intros Hact [Hreg Hdelta]. unfold Targets._activateShims.
  assert (Hloop : forall l m0,
             (forall c, In c l -> exists d, DDM.drops m0 !! c = Some d /\ Drop.shim d <> None) ->
             DDM.activeDrag m0 = Some drag ->
             targets_ready m0 ->
             exists m', Targets.each
                          (fun m1 C => Some (DropShim._activateShim dom proto m1 C)) l m0
                        = Some (Ok m')
                        /\ targets_ready m').
  { induction l as [|c l IHl]; intros m0 Hl Hact0 Hr0; cbn [Targets.each].
    - exists m0. auto.
    - destruct (Hl c (or_introl eq_refl)) as (d & Hd & Hs).
      destruct (activateShim_total dom proto m0 c d drag Hact0 Hdelta Hr0 Hd Hs)
        as (m1 & Hstep & Hr1).
      rewrite Hstep.
      destruct (activateShim_effect dom proto m0 m1 c drag Hact0 Hstep) as (Hs1 & _).
      apply IHl; [| destruct Hs1 as [-> _]; exact Hact0 | exact Hr1].
      intros x Hx. destruct (Hl x (or_intror Hx)) as (dx & Hdx & Hsx).
      destruct (same_static_shim m0 m1 x dx Hs1 Hdx) as (d' & Hd' & Hs').
      exists d'. rewrite Hs'. auto. }
  apply Hloop; [exact Hreg | exact Hact | intros c []].
Qed.


(** ** Activation: own node, lock and groups *)


(** The activation of [ScenarioGroups.session] leaves exactly the ordinary
    Drop of group [a] valid. *)
Example session_activation :
  exists m',
    Targets._activateTargets Scenario.page es3_prototype 2 ScenarioGroups.session
      = Some (Ok m')
    /\ DDM.validDrops m' = [1%nat].
Proof.
  destruct (Targets._activateTargets Scenario.page es3_prototype 2 ScenarioGroups.session)
    as [[m'|]|] eqn:Hrun; [| vm_compute in Hrun; discriminate ..].
  exists m'. split; [reflexivity |].
  vm_compute in Hrun. injection Hrun as <-. reflexivity.
Qed.




(** * Further properties *)

(** ** Registries *)

Lemma filter_other_In (C : nat) (l : list nat) (x : nat) :
  In x (List.filter (fun E => negb (E =? C)%nat) l) <-> In x l /\ x <> C.
Proof.
  rewrite filter_In, negb_true_iff, Nat.eqb_neq. tauto.
Qed.

Lemma filter_other_absent (C : nat) (l : list nat) :
  ~ In C l -> List.filter (fun E => negb (E =? C)%nat) l = l.
Proof.
  intros Hno. induction l as [|x l IH]; [reflexivity |].
  cbn [List.filter]. destruct (Nat.eqb_spec x C) as [-> | Hne].
  - exfalso. apply Hno. left. reflexivity.
  - cbn [negb]. rewrite IH; [reflexivity |]. intros Hin. apply Hno. right. exact Hin.
Qed.

Lemma filter_other_snoc (C : nat) (l : list nat) :
  List.filter (fun E => negb (E =? C)%nat) (l ++ [C])
  = List.filter (fun E => negb (E =? C)%nat) l.
Proof.
  rewrite List.filter_app. cbn [List.filter]. rewrite Nat.eqb_refl. cbn [negb].
  apply app_nil_r.
Qed.

Lemma activateShims_no_drag (dom : Node.Dom) (proto : string -> bool) (l : list DropRef) :
  forall m, DDM.activeDrag m = None ->
            Targets.each (fun m0 C => Some (DropShim._activateShim dom proto m0 C)) l m
            = Some (Ok m).
Proof.
  induction l as [|x l IH]; intros m Hnone; cbn [Targets.each]; [reflexivity |].
  unfold DropShim._activateShim at 1. rewrite Hnone. apply IH. exact Hnone.
Qed.

Lemma activateTargets_subset_targets (dom : Node.Dom) (proto : string -> bool) (fuel : nat)
    (m m' : DDM.t) :
  Targets._activateTargets dom proto fuel m = Some (Ok m') ->
  forall c, In c (DDM.validDrops m') -> In c (DDM.targets m).
Proof.
  intros Hrun c Hc.
  destruct (DDM.activeDrag m) as [drag|] eqn:Hact.
  - destruct (activateTargets_validDrops dom proto fuel m m' drag Hact Hrun) as (_ & Hiff).
    apply Hiff in Hc. apply Hc.
  - exfalso. revert Hrun. unfold Targets._activateTargets, Targets._activateShims.
    rewrite (activateShims_no_drag dom proto (DDM.targets m) (DDM.clearCache m) Hact).
    intros Hover. apply handleTargetOver_quiet in Hover. destruct Hover as (Hv & _).
    rewrite Hv in Hc. exact Hc.
Qed.

Lemma filter_keeps_order {A : Type} (f : A -> bool) (l : list A) :
  forall (l1 l2 l3 : list A) (x y : A),
    List.filter f l = l1 ++ x :: l2 ++ y :: l3 ->
    exists k1 k2 k3, l = k1 ++ x :: k2 ++ y :: k3.
Proof.
  induction l as [|a l IH]; intros l1 l2 l3 x y Hf.
  - destruct l1; discriminate.
  - cbn [List.filter] in Hf. destruct (f a).
    + destruct l1 as [|b l1]; cbn [app] in Hf; injection Hf as -> Hf.
      * assert (Hy : In y l).
        { apply (proj1 (filter_In f y l)). rewrite Hf.
          apply in_or_app. right. left. reflexivity. }
        apply in_split in Hy. destruct Hy as (k2 & k3 & ->).
        exists [], k2, k3. reflexivity.
      * destruct (IH _ _ _ _ _ Hf) as (k1 & k2 & k3 & ->).
        exists (b :: k1), k2, k3. reflexivity.
    + destruct (IH _ _ _ _ _ Hf) as (k1 & k2 & k3 & ->).
      exists (a :: k1), k2, k3. reflexivity.
Qed.

(** X1. Unregistering a target removes every occurrence of it from
    [targets] and keeps the other targets in their order: a target
    registered once is cut out of the list, and two targets that follow one
    another afterwards did so before. Unregistering undoes a registration
    (also a repeated one), is a no-op for a target that is not registered,
    and an unregistered target is never valid after target activation. The
    Drag registry [_drags] behaves the same way. *)
Theorem unregTarget_removes (C : DropRef) (m : DDM.t) :
  (forall x, In x (DDM.targets (Registry._unregTarget C m))
             <-> In x (DDM.targets m) /\ x <> C)
  /\ (forall l1 l2,
         DDM.targets m = l1 ++ C :: l2 -> ~ In C l1 -> ~ In C l2 ->
         DDM.targets (Registry._unregTarget C m) = l1 ++ l2)
  /\ (forall l1 l2 l3 x y,
         DDM.targets (Registry._unregTarget C m) = l1 ++ x :: l2 ++ y :: l3 ->
         exists k1 k2 k3, DDM.targets m = k1 ++ x :: k2 ++ y :: k3)
  /\ DDM.targets (Registry._unregTarget C (Registry._regTarget C (Registry._regTarget C m)))
     = DDM.targets (Registry._unregTarget C m)
  /\ (~ In C (DDM.targets m) ->
      DDM.targets (Registry._unregTarget C m) = DDM.targets m
      /\ DDM.targets (Registry._unregTarget C (Registry._regTarget C m)) = DDM.targets m)
  /\ (forall dom proto fuel m',
         Targets._activateTargets dom proto fuel (Registry._unregTarget C m) = Some (Ok m') ->
         ~ In C (DDM.validDrops m'))
  /\ (forall _drags : list nat,
         (forall x, In x (Registry._unregDrag C _drags) <-> In x _drags /\ x <> C)
         /\ (forall l1 l2,
                _drags = l1 ++ C :: l2 -> ~ In C l1 -> ~ In C l2 ->
                Registry._unregDrag C _drags = l1 ++ l2)
         /\ Registry._unregDrag C (Registry._regDrag C _drags) = Registry._unregDrag C _drags
         /\ (~ In C _drags -> Registry._unregDrag C (Registry._regDrag C _drags) = _drags)).
Proof.
  assert (Hcut : forall l l1 l2 : list nat,
             l = l1 ++ C :: l2 -> ~ In C l1 -> ~ In C l2 ->
             List.filter (fun E => negb (E =? C)%nat) l = l1 ++ l2).
  { intros l l1 l2 -> H1 H2. rewrite List.filter_app. cbn [List.filter].
    rewrite Nat.eqb_refl. cbn [negb].
    rewrite (filter_other_absent C l1 H1), (filter_other_absent C l2 H2). reflexivity. }
  split; [intros x; apply filter_other_In |].
  split; [intros l1 l2; apply Hcut |].
  split; [intros l1 l2 l3 x y; apply filter_keeps_order |].
  split.
  { cbn. rewrite !filter_other_snoc. reflexivity. }
  split.
  { intros Hno. cbn. rewrite filter_other_snoc, (filter_other_absent C _ Hno). auto. }
  split.
  { intros dom proto fuel m' Hrun Hc.
    apply (activateTargets_subset_targets dom proto fuel _ m' Hrun) in Hc.
    apply filter_other_In in Hc. destruct Hc as [_ Hne]. apply Hne. reflexivity. }
  intros _drags. unfold Registry._unregDrag, Registry._regDrag.
  split; [intros x; apply filter_other_In |].
  split; [intros l1 l2; apply Hcut |].
  split; [apply filter_other_snoc |].
  intros Hno. rewrite filter_other_snoc. apply filter_other_absent. exact Hno.
Qed.

Lemma unregTarget_removes_witness :
  DDM.targets (Registry._unregTarget 2%nat ScenarioGroups.session) = [1%nat; 3%nat; 4%nat]
  /\ DDM.targets (Registry._unregTarget 9%nat ScenarioGroups.session)
     = DDM.targets ScenarioGroups.session
  /\ Registry._unregDrag 9%nat (Registry._regDrag 9%nat [1%nat; 2%nat]) = [1%nat; 2%nat].
Proof.
  split; [| split].
  - destruct (unregTarget_removes 2%nat ScenarioGroups.session) as (_ & Hcut & _).
    apply (Hcut [1%nat] [3%nat; 4%nat]); [reflexivity | simpl; lia | simpl; lia].
  - destruct (unregTarget_removes 9%nat ScenarioGroups.session)
      as (_ & _ & _ & _ & Habs & _).
    apply Habs. simpl. lia.
  - destruct (unregTarget_removes 9%nat ScenarioGroups.session)
      as (_ & _ & _ & _ & _ & _ & Hdrags).
    apply (Hdrags [1%nat; 2%nat]). simpl. lia.
Defined.

Lemma getDrop_loop_last (m : DDM.t) (n : NodeRef) (l : list DropRef) :
  (forall c, In c l -> exists d, DDM.drops m !! c = Some d) ->
  forall B : option DropRef,
  exists r,
    Registry.getDrop_loop m n l B = Ok r
    /\ ((r = B /\ forall x, In x l -> on_node m n x = false)
        \/ (exists c l1 l2,
               r = Some c /\ l = l1 ++ c :: l2 /\ on_node m n c = true
               /\ forall x, In x l2 -> on_node m n x = false)).
Proof.
  induction l as [|F l IH]; intros Hheap B; cbn [Registry.getDrop_loop].
  - exists B. split; [reflexivity |]. left. split; [reflexivity | intros x []].
  - destruct (Hheap F (or_introl eq_refl)) as [d Hd].
    unfold Registry.getDrop_step, DDM.deref. rewrite Hd.
    unfold mbind, Outcome_bind. cbv beta iota.
    assert (Hon : on_node m n F = (n =? Drop.node d)%nat) by (unfold on_node; rewrite Hd; reflexivity).
    destruct (IH (fun c Hc => Hheap c (or_intror Hc))
                 (if (n =? Drop.node d)%nat then Some F else B))
      as (r & Hrun & [[Hr Hnone] | (c & l1 & l2 & Hr & Hl & Hc & Hrest)]).
    + exists r. split; [exact Hrun |].
      destruct (n =? Drop.node d)%nat eqn:Hn.
      * right. exists F, [], l. auto.
      * left. split; [exact Hr |]. intros x [<- | Hx]; [congruence | auto].
    + exists r. split; [exact Hrun |]. right.
      exists c, (F :: l1), l2. rewrite Hl. auto.
Qed.

(** X2. [getDrop] returns the last registered target that sits on the given
    node, and [false] exactly when no registered target sits on it or the
    argument is not a node. *)
Theorem getDrop_last_on_node (m : DDM.t) (n : NodeRef) :
  (forall c, In c (DDM.targets m) -> exists d, DDM.drops m !! c = Some d) ->
  Registry.getDrop m None = Ok None
  /\ exists r,
       Registry.getDrop m (Some n) = Ok r
       /\ match r with
          | Some c =>
              exists l1 l2,
                DDM.targets m = l1 ++ c :: l2 /\ on_node m n c = true
                /\ forall x, In x l2 -> on_node m n x = false
          | None => forall x, In x (DDM.targets m) -> on_node m n x = false
          end.
Proof.
  intros Hheap. split; [reflexivity |].
  destruct (getDrop_loop_last m n (DDM.targets m) Hheap None)
    as (r & Hrun & [[-> Hnone] | (c & l1 & l2 & -> & Hl & Hc & Hrest)]).
  - exists None. split; [exact Hrun | exact Hnone].
  - exists (Some c). split; [exact Hrun |]. exists l1, l2. auto.
Qed.

Lemma getDrop_last_on_node_witness :
  exists r, Registry.getDrop ScenarioGroups.session (Some 2%nat) = Ok r /\ r = Some 2%nat.
Proof.
  destruct (getDrop_last_on_node ScenarioGroups.session 2%nat) as (_ & r & Hrun & _).
  - intros c Hc. simpl in Hc.
    destruct Hc as [<- | [<- | [<- | [<- | []]]]]; eexists; vm_compute; reflexivity.
  - exists r. split; [exact Hrun |].
    vm_compute in Hrun. injection Hrun as <-. reflexivity.
Defined.

(** ** Valid drops after activation *)

Lemma handleOut_targets (dom : Node.Dom) (m m' : DDM.t) (c : DropRef) :
  DropShim._handleOut dom m c = Ok m' -> DDM.targets m' = DDM.targets m.
Proof.
  unfold DropShim._handleOut.
  destruct (DDM.isOverTarget dom m (Some c)) as [over|]; [| discriminate].
  unfold mbind, Outcome_bind. cbv beta iota.
  destruct over; [intros [= <-]; reflexivity |].
  unfold DDM.deref. destruct (DDM.drops m !! c) as [d|]; [| discriminate].
  destruct (Drop.overTarget d); [| intros [= <-]; reflexivity].
  match goal with
  | |- context [DDM.activeDrag ?s] => destruct (DDM.activeDrag s)
  end; intros [= <-]; reflexivity.
Qed.

Lemma otherDrops_put_targets (r : DropRef) (m : DDM.t) :
  DDM.targets (DropShim.otherDrops_put r m) = DDM.targets m.
Proof.
  unfold DropShim.otherDrops_put.
  destruct (existsb (Nat.eqb r) (DDM.otherDrops m)); reflexivity.
Qed.

Lemma drop_handleTargetOver_targets (dom : Node.Dom)
    (G : DDM.t -> option (Outcome DDM.t)) (m m' : DDM.t) (c : DropRef) :
  (forall m1 m2, G m1 = Some (Ok m2) -> DDM.targets m2 = DDM.targets m1) ->
  DropShim._handleTargetOver dom G m c = Some (Ok m') -> DDM.targets m' = DDM.targets m.
Proof.
  intros HG. unfold DropShim._handleTargetOver.
  destruct (DDM.isOverTarget dom m (Some c)) as [over|]; [| discriminate].
  destruct over.
  - unfold DDM.deref.
    destruct (DDM.drops (DropShim.otherDrops_put c (DDM.set_activeDrop (Some c) m)) !! c)
      as [d|]; [| discriminate].
    destruct (Drop.overTarget d).
    + intros [= <-]. rewrite otherDrops_put_targets. reflexivity.
    + intros Hnest. apply HG in Hnest. rewrite Hnest. cbn [DDM.targets DDM.store DDM.set_drops].
      rewrite otherDrops_put_targets. reflexivity.
  - intros [= Hout]. eapply handleOut_targets. exact Hout.
Qed.

Lemma each_targets (f : DDM.t -> DropRef -> option (Outcome DDM.t)) (l : list DropRef) :
  (forall m1 c m2, f m1 c = Some (Ok m2) -> DDM.targets m2 = DDM.targets m1) ->
  forall m m', Targets.each f l m = Some (Ok m') -> DDM.targets m' = DDM.targets m.
Proof.
  intros Hf. induction l as [|x l IH]; intros m m'; cbn [Targets.each].
  - intros [= <-]. reflexivity.
  - destruct (f m x) as [[m1|]|] eqn:Hstep; try discriminate.
    intros Hrest. rewrite (IH m1 m' Hrest). eapply Hf. exact Hstep.
Qed.

Lemma handleTargetOver_targets (dom : Node.Dom) (fuel : nat) :
  forall m m', Targets._handleTargetOver dom fuel m = Some (Ok m') ->
               DDM.targets m' = DDM.targets m.
Proof.
  induction fuel as [|fuel IH]; intros m m'; cbn [Targets._handleTargetOver];
    [discriminate |].
  destruct (DDM._lookup dom m) as [B|]; [| discriminate].
  apply each_targets. intros m1 c m2. apply drop_handleTargetOver_targets. exact IH.
Qed.

Lemma activateShims_list (dom : Node.Dom) (proto : string -> bool) (drag : Drag.t)
    (l : list DropRef) :
  forall m m' : DDM.t,
    DDM.activeDrag m = Some drag ->
    (forall c, In c (DDM.validDrops m) -> admitted proto drag m c = true) ->
    Targets.each (fun m0 C => Some (DropShim._activateShim dom proto m0 C)) l m
      = Some (Ok m') ->
    DDM.validDrops m' = DDM.validDrops m ++ List.filter (admitted proto drag m) l.
Proof.
  induction l as [|x l IH]; intros m m' Hact Hinv; cbn [Targets.each List.filter].
  - intros [= <-]. symmetry. apply app_nil_r.
  - destruct (DropShim._activateShim dom proto m x) as [m1|] eqn:Hstep; [| discriminate].
    intros Hrest.
    destruct (activateShim_effect dom proto m m1 x drag Hact Hstep) as (Hs1 & _ & Hadd & Hkeep).
    assert (Hact1 : DDM.activeDrag m1 = Some drag) by (destruct Hs1 as [-> _]; exact Hact).
    assert (Hsame : forall c, admitted proto drag m1 c = admitted proto drag m c).
    { intros c. apply same_static_admitted. exact Hs1. }
    assert (Hfilter : List.filter (admitted proto drag m1) l
                      = List.filter (admitted proto drag m) l).
    { apply filter_ext. exact Hsame. }
    destruct (admitted proto drag m x) eqn:Hx.
    + rewrite (IH m1 m' Hact1); [| | exact Hrest].
      * rewrite (Hadd eq_refl), Hfilter, <- app_assoc. reflexivity.
      * intros c Hc. rewrite Hsame. rewrite (Hadd eq_refl) in Hc.
        apply in_app_or in Hc. destruct Hc as [Hc | [<- | []]]; [auto | exact Hx].
    + assert (Hv : DDM.validDrops m1 = DDM.validDrops m).
      { destruct (Hkeep eq_refl) as [Hv | Hv]; [exact Hv |].
        rewrite Hv. apply filter_other_absent. intros Hin.
        apply Hinv in Hin. congruence. }
      rewrite (IH m1 m' Hact1); [| | exact Hrest].
      * rewrite Hv, Hfilter. reflexivity.
      * intros c Hc. rewrite Hsame. rewrite Hv in Hc. auto.
Qed.

Lemma activateTargets_list (dom : Node.Dom) (proto : string -> bool) (fuel : nat)
    (m m' : DDM.t) (drag : Drag.t) :
  DDM.activeDrag m = Some drag ->
  Targets._activateTargets dom proto fuel m = Some (Ok m') ->
  DDM.validDrops m' = List.filter (admitted proto drag m) (DDM.targets m)
  /\ DDM.targets m' = DDM.targets m
  /\ same_static m m'.
Proof.
  intros Hact. unfold Targets._activateTargets.
  destruct (Targets._activateShims dom proto m) as [[m1|]|] eqn:Hshims; try discriminate.
  intros Hover.
  pose proof (handleTargetOver_targets dom fuel m1 m' Hover) as Ht.
  apply handleTargetOver_quiet in Hover. destruct Hover as (Hv & _ & Hs & _).
  destruct (activateShims_effect dom proto drag m m1 Hact Hshims) as (Hs1 & _).
  unfold Targets._activateShims in Hshims.
  pose proof (activateShims_loop dom proto drag (DDM.targets m) (DDM.clearCache m) m1
                Hact Hshims) as (_ & Ht1 & _).
  pose proof (activateShims_list dom proto drag (DDM.targets m) (DDM.clearCache m) m1
                Hact (fun c (H : In c []) => match H with end) Hshims) as Hlist.
  split.
  - rewrite Hv, Hlist. cbn [DDM.validDrops DDM.clearCache DDM.set_validDrops
                             DDM.set_otherDrops DDM.set_activeShims app].
    apply filter_ext. intros c. apply same_static_admitted.
    split; [reflexivity | intros x; reflexivity].
  - split; [rewrite Ht, Ht1; reflexivity | exact (same_static_trans _ _ _ Hs1 Hs)].
Qed.

Lemma shares_group_meet (J : list string) (d : Drop.t) :
  shares_group J d = true <-> groups_meet J d.
Proof.
  unfold shares_group, groups_meet. rewrite existsb_exists.
  split; intros (g & Hin & Hg); exists g; (split; [exact Hin |]).
  - apply bool_decide_eq_true in Hg. exact Hg.
  - apply bool_decide_eq_true. exact Hg.
Qed.

Lemma admits_eligible (proto : string -> bool) (drag : Drag.t) (m : DDM.t) (c : DropRef) :
  (forall g, In g (Drag.groups (Drag.cfg drag)) -> proto g = false) ->
  admitted proto drag m c = eligible drag m c.
Proof.
  intros Hproto. unfold admitted, eligible, admits.
  destruct (DDM.drops m !! c) as [d|]; [| reflexivity]. f_equal.
  apply eq_true_iff_eq. rewrite inGroup_true_iff, shares_group_meet. unfold groups_meet.
  split; intros (g & Hin & Hg); exists g; (split; [exact Hin |]).
  - destruct Hg as [Hg | Hg]; [exact Hg |]. rewrite (Hproto g Hin) in Hg. discriminate.
  - left. exact Hg.
Qed.

(** X3. When no group name of the active drag is a member of
    [Object.prototype], [validDrops] lists after target activation, in
    registration order, exactly the registered targets that sit on another
    node than the active drag, are not locked and share a group name with
    it; stale entries of an earlier activation are gone, and activating a
    second time gives the same list. *)
Theorem activateTargets_valid_list
    (dom : Node.Dom) (proto : string -> bool) (fuel : nat) (m m' : DDM.t) (drag : Drag.t) :
  DDM.activeDrag m = Some drag ->
  (forall g, In g (Drag.groups (Drag.cfg drag)) -> proto g = false) ->
  Targets._activateTargets dom proto fuel m = Some (Ok m') ->
  DDM.validDrops m' = List.filter (eligible drag m) (DDM.targets m)
  /\ (forall c,
        eligible drag m c = true
        <-> exists d, DDM.drops m !! c = Some d
                      /\ Drop.node d <> Drag.node (Drag.cfg drag)
                      /\ Drop.lock d = false
                      /\ groups_meet (Drag.groups (Drag.cfg drag)) d)
  /\ forall fuel2 m'',
       Targets._activateTargets dom proto fuel2 m' = Some (Ok m'') ->
       DDM.validDrops m'' = DDM.validDrops m'.
Proof.
  intros Hact Hproto Hrun.
  destruct (activateTargets_list dom proto fuel m m' drag Hact Hrun) as (Hlist & Ht & Hs).
  split.
  { rewrite Hlist. apply filter_ext. intros c. apply admits_eligible. exact Hproto. }
  split.
  { intros c. unfold eligible. destruct (DDM.drops m !! c) as [d|].
    - rewrite !andb_true_iff, !negb_true_iff, Nat.eqb_neq, shares_group_meet. split.
      + intros [[Hn Hl] Hg]. exists d. auto.
      + intros (d' & [= <-] & Hn & Hl & Hg). auto.
    - split; [discriminate | intros (d' & Hd & _); discriminate]. }
  intros fuel2 m'' Hrun2.
  assert (Hact' : DDM.activeDrag m' = Some drag) by (destruct Hs as [-> _]; exact Hact).
  destruct (activateTargets_list dom proto fuel2 m' m'' drag Hact' Hrun2) as (Hlist2 & _).
  rewrite Hlist2, Hlist, Ht. apply filter_ext. intros c.
  apply same_static_admitted. exact Hs.
Qed.

Lemma activateTargets_valid_list_witness :
  exists m',
    Targets._activateTargets Scenario.page es3_prototype 2 ScenarioGroups.session
      = Some (Ok m')
    /\ DDM.validDrops m' = [1%nat].
Proof.
  destruct (Targets._activateTargets Scenario.page es3_prototype 2 ScenarioGroups.session)
    as [[m'|]|] eqn:Hrun; [| vm_compute in Hrun; discriminate ..].
  exists m'. split; [reflexivity |].
  destruct (activateTargets_valid_list Scenario.page es3_prototype 2 ScenarioGroups.session m'
              (ScenarioGroups.moving ["a"%string])) as (Hlist & _).
  - reflexivity.
  - intros g [<- | []]. reflexivity.
  - exact Hrun.
  - rewrite Hlist. vm_compute. reflexivity.
Defined.

(** ** Hover state after hit-testing *)

Lemma over_quiet (dom : Node.Dom) (m m' : DDM.t) (c : DropRef) :
  quiet m m' -> over dom m' c = over dom m c.
Proof. intros Hq. unfold over. rewrite (quiet_isOverTarget dom m m' _ Hq). reflexivity. Qed.

Lemma otherDrops_put_In (r : DropRef) (m : DDM.t) :
  In r (DDM.otherDrops (DropShim.otherDrops_put r m))
  /\ forall y, In y (DDM.otherDrops m) -> In y (DDM.otherDrops (DropShim.otherDrops_put r m)).
Proof.
  unfold DropShim.otherDrops_put.
  destruct (existsb (Nat.eqb r) (DDM.otherDrops m)) eqn:Hex.
  - split; [| auto]. apply existsb_exists in Hex. destruct Hex as (y & Hy & Heq).
    apply Nat.eqb_eq in Heq. subst y. exact Hy.
  - cbn. split; [apply in_or_app; right; left; reflexivity |].
    intros y Hy. apply in_or_app. left. exact Hy.
Qed.

Lemma otherDrops_put_activeDrop (r : DropRef) (m : DDM.t) :
  DDM.activeDrop (DropShim.otherDrops_put r m) = DDM.activeDrop m.
Proof.
  unfold DropShim.otherDrops_put.
  destruct (existsb (Nat.eqb r) (DDM.otherDrops m)); reflexivity.
Qed.

Lemma handleOut_step (dom : Node.Dom) (m : DDM.t) (x : DropRef) (d : Drop.t) :
  DDM.drops m !! x = Some d ->
  DDM.isOverTarget dom m (Some x) = Ok false ->
  exists m1, DropShim._handleOut dom m x = Ok m1 /\ hover_step m m1 x false.
Proof.
  intros Hd Hover.
  destruct (handleOut_settles dom m x d Hd Hover) as (m1 & Hout & [Hq _]).
  exists m1. split; [exact Hout |]. split; [exact Hq |].
  revert Hout. unfold DropShim._handleOut. rewrite Hover.
  unfold mbind, Outcome_bind. cbv beta iota. unfold DDM.deref. rewrite Hd.
  destruct (Drop.overTarget d) eqn:Hot.
  - match goal with
    | |- context [DDM.activeDrag ?s] => destruct (DDM.activeDrag s)
    end; intros [= <-]; cbn.
    + split; [eexists; split; [apply lookup_insert_eq | reflexivity] |].
      split; [intros y Hy; apply lookup_insert_ne; congruence |].
      split; [reflexivity |]. split; [| discriminate].
      intros y Hy Hin. apply filter_other_In. auto.
    + split; [eexists; split; [apply lookup_insert_eq | reflexivity] |].
      split; [intros y Hy; apply lookup_insert_ne; congruence |].
      split; [reflexivity |]. split; [auto | discriminate].
  - intros [= <-]. split; [exists d; auto |]. split; [auto |].
    split; [reflexivity |]. split; [auto | discriminate].
Qed.

(** The three ways a Drop's [_handleTargetOver] goes. *)
Lemma drop_handleTargetOver_cases (dom : Node.Dom)
    (G : DDM.t -> option (Outcome DDM.t)) (m : DDM.t) (x : DropRef) (d : Drop.t) (b : bool) :
  DDM.drops m !! x = Some d ->
  DDM.isOverTarget dom m (Some x) = Ok b ->
  (exists m1, DropShim._handleTargetOver dom G m x = Some (Ok m1) /\ hover_step m m1 x b)
  \/ (exists m2, DropShim._handleTargetOver dom G m x = G m2 /\ b = true /\ quiet m m2).
Proof.
  intros Hd Hover. unfold DropShim._handleTargetOver. rewrite Hover.
  destruct b.
  - set (m1 := DropShim.otherDrops_put x (DDM.set_activeDrop (Some x) m)).
    assert (Hdrops : DDM.drops m1 = DDM.drops m).
    { unfold m1. rewrite otherDrops_put_drops. reflexivity. }
    assert (Hq1 : quiet m m1).
    { eapply quiet_trans; [| apply quiet_otherDrops_put]. apply quiet_fields; reflexivity. }
    unfold DDM.deref. rewrite Hdrops, Hd.
    destruct (Drop.overTarget d) eqn:Hot.
    + left. exists m1. split; [reflexivity |]. split; [exact Hq1 |].
      split; [exists d; rewrite Hdrops; auto |].
      split; [intros y _; rewrite Hdrops; reflexivity |].
      split; [unfold m1; rewrite otherDrops_put_activeDrop; reflexivity |].
      destruct (otherDrops_put_In x (DDM.set_activeDrop (Some x) m)) as [Hin Hkeep].
      split; [intros y _ Hy; apply Hkeep; exact Hy | intros _; exact Hin].
    + right. exists (DDM.store m1 x (Drop.set_overTarget true d)).
      split; [reflexivity |]. split; [reflexivity |].
      eapply quiet_trans; [exact Hq1 |].
      eapply quiet_store; [rewrite Hdrops; exact Hd | reflexivity | reflexivity].
  - left. destruct (handleOut_step dom m x d Hd Hover) as (m1 & Hout & Hstep).
    exists m1. rewrite Hout. auto.
Qed.

Lemma find_rev_snoc {A : Type} (P : A -> bool) (l : list A) (x : A) :
  List.find P (rev (l ++ [x])) = if P x then Some x else List.find P (rev l).
Proof. rewrite rev_app_distr. reflexivity. Qed.

Lemma last_over_app (dom : Node.Dom) (m : DDM.t) (l1 l2 : list DropRef) :
  last_over dom m (l1 ++ l2)
  = match last_over dom m l2 with
    | Some c => Some c
    | None => last_over dom m l1
    end.
Proof.
  unfold last_over. rewrite rev_app_distr.
  induction (rev l2) as [|y r IH]; [reflexivity |].
  cbn [app List.find]. destruct (over dom m y); [reflexivity | exact IH].
Qed.

Lemma last_over_cons_none (dom : Node.Dom) (m : DDM.t) (x : DropRef) (l : list DropRef) :
  last_over dom m l = None ->
  last_over dom m (x :: l) = if over dom m x then Some x else None.
Proof.
  intros Hnone. change (x :: l) with ([x] ++ l). rewrite last_over_app, Hnone.
  unfold last_over. cbn. destruct (over dom m x); reflexivity.
Qed.

Lemma last_over_cons_some (dom : Node.Dom) (m : DDM.t) (x : DropRef) (l : list DropRef) :
  last_over dom m l <> None -> last_over dom m (x :: l) = last_over dom m l.
Proof.
  intros Hsome. change (x :: l) with ([x] ++ l). rewrite last_over_app.
  destruct (last_over dom m l); [reflexivity | congruence].
Qed.

Lemma last_over_ext (dom : Node.Dom) (m m2 : DDM.t) (B : list DropRef) :
  quiet m m2 -> last_over dom m2 B = last_over dom m B.
Proof.
  intros Hq. unfold last_over. induction (rev B) as [|y r IH]; [reflexivity |].
  cbn [List.find]. rewrite (over_quiet dom m m2 y Hq), IH. reflexivity.
Qed.

Lemma last_over_exists (dom : Node.Dom) (m : DDM.t) (B : list DropRef) (x : DropRef) :
  In x B -> over dom m x = true -> last_over dom m B <> None.
Proof.
  intros Hx Hover Hnone. unfold last_over in Hnone.
  pose proof (List.find_none _ _ Hnone x) as Hf.
  rewrite Hf in Hover; [discriminate |]. apply in_rev in Hx. exact Hx.
Qed.

Lemma synced_quiet (dom : Node.Dom) (m m2 m3 : DDM.t) (c : DropRef) :
  quiet m m2 -> synced dom m2 m3 c -> synced dom m m3 c.
Proof.
  intros Hq (d & Hd & Hot). exists d. rewrite <- (over_quiet dom m m2 c Hq). auto.
Qed.

Lemma handleTargetOver_settled (dom : Node.Dom) (fuel : nat) :
  forall (m : DDM.t) (B : list DropRef) (m' : DDM.t),
    targets_ready m ->
    DDM._lookup dom m = Ok B ->
    Targets._handleTargetOver dom fuel m = Some (Ok m') ->
    hover_settled dom m m' B.
Proof.
  induction fuel as [|fuel IH]; intros m B m' Hr HB; cbn [Targets._handleTargetOver];
    [discriminate |].
  rewrite HB.
  set (target := match last_over dom m B with
                 | Some c => Some c
                 | None => DDM.activeDrop m
                 end).
  assert (Hloop : forall l pre m0 m1,
             B = pre ++ l ->
             quiet m m0 ->
             (forall c, In c B -> In c l \/ synced dom m m0 c) ->
             (forall c, In c B -> over dom m c = true -> In c l \/ In c (DDM.otherDrops m0)) ->
             (last_over dom m l <> None \/ DDM.activeDrop m0 = target) ->
             Targets.each
               (DropShim._handleTargetOver dom (Targets._handleTargetOver dom fuel)) l m0
             = Some (Ok m1) ->
             (forall c, In c B -> synced dom m m1 c)
             /\ (forall c, In c B -> over dom m c = true -> In c (DDM.otherDrops m1))
             /\ DDM.activeDrop m1 = target).
  { induction l as [|x l IHl]; intros pre m0 m1 HBl Hq0 HA HO HC; cbn [Targets.each].
    - intros [= <-]. split; [| split].
      + intros c Hc. destruct (HA c Hc) as [[] | Hs]. exact Hs.
      + intros c Hc Hov. destruct (HO c Hc Hov) as [[] | Hin]. exact Hin.
      + destruct HC as [Hne | Hact]; [exfalso; apply Hne; reflexivity | exact Hact].
    - pose proof (quiet_ready m m0 Hq0 Hr) as Hr0.
      assert (HB0 : DDM._lookup dom m0 = Ok B) by (rewrite (quiet_lookup dom m m0 Hq0); exact HB).
      assert (HxB : In x B) by (rewrite HBl; apply in_or_app; right; left; reflexivity).
      assert (Hxv : In x (DDM.validDrops m0)) by (eapply lookup_subset; eauto).
      destruct (Hr0 x Hxv) as (d & Hd & _).
      destruct (ready_isOverTarget dom m0 x Hr0 Hxv) as [b Hb].
      assert (Hbx : over dom m x = b).
      { rewrite <- (over_quiet dom m m0 x Hq0). unfold over. rewrite Hb. reflexivity. }
      assert (HBl' : B = (pre ++ [x]) ++ l) by (rewrite <- app_assoc; exact HBl).
      destruct (drop_handleTargetOver_cases dom (Targets._handleTargetOver dom fuel) m0 x d b Hd Hb)
        as [(m2 & Hstep & Hq2 & (d1 & Hd1 & Hot1) & Hsame & Hactive & Hkeep & Hput)
           | (m2 & Hstep & -> & Hq2)].
      + rewrite Hstep. apply (IHl (pre ++ [x])); [exact HBl' | | | |].
        * exact (quiet_trans _ _ _ Hq0 Hq2).
        * intros c Hc. destruct (decide (c = x)) as [-> | Hne].
          -- right. exists d1. rewrite Hbx. auto.
          -- destruct (HA c Hc) as [[Heq | Hin] | (dc & Hdc & Hotc)];
               [congruence | left; exact Hin |].
             right. exists dc. rewrite (Hsame c Hne). auto.
        * intros c Hc Hov. destruct (decide (c = x)) as [-> | Hne].
          -- right. apply Hput. congruence.
          -- destruct (HO c Hc Hov) as [[Heq | Hin] | Hin];
               [congruence | left; exact Hin | right; apply Hkeep; assumption].
        * destruct (last_over dom m l) as [c|] eqn:Hlast; [left; discriminate |].
          right. rewrite Hactive.
          pose proof (last_over_cons_none dom m x l Hlast) as Hcons. rewrite Hbx in Hcons.
          destruct b.
          -- unfold target. rewrite HBl, last_over_app, Hcons. reflexivity.
          -- destruct HC as [Hne | Hact]; [congruence | exact Hact].
      + rewrite Hstep.
        destruct (Targets._handleTargetOver dom fuel m2) as [[m3|]|] eqn:Hnest; try discriminate.
        pose proof (quiet_trans _ _ _ Hq0 Hq2) as Hq02.
        destruct (IH m2 B m3 (quiet_ready m m2 Hq02 Hr)) as (HA3 & HO3 & HC3);
          [rewrite (quiet_lookup dom m m2 Hq02); exact HB | exact Hnest |].
        pose proof (handleTargetOver_quiet dom fuel m2 m3 Hnest) as Hq23.
        apply (IHl (pre ++ [x])); [exact HBl' | | | |].
        * exact (quiet_trans _ _ _ Hq02 Hq23).
        * intros c Hc. right. eapply synced_quiet; [exact Hq02 | apply HA3; exact Hc].
        * intros c Hc Hov. right. apply HO3; [exact Hc |].
          rewrite (over_quiet dom m m2 c Hq02). exact Hov.
        * right. rewrite HC3, (last_over_ext dom m m2 B Hq02). unfold target.
          destruct (last_over dom m B) eqn:Hlast; [reflexivity |].
          exfalso. exact (last_over_exists dom m B x HxB Hbx Hlast). }
  intros Hrun.
  apply (Hloop B [] m m'); [reflexivity | apply quiet_refl | auto | auto | | exact Hrun].
  destruct (last_over dom m B); [left; discriminate | right; reflexivity].
Qed.

(** X4. The manager's [_handleTargetOver] returns on ready targets, and
    afterwards, for every Drop of the lookup list, the [overTarget] flag
    tells whether the drag is over it, every Drop the drag is over is
    recorded in [otherDrops], and [activeDrop] is the last Drop of the list
    the drag is over (unchanged when it is over none). *)
Theorem handleTargetOver_hover_state (dom : Node.Dom) (m : DDM.t) (B : list DropRef) :
  targets_ready m ->
  DDM._lookup dom m = Ok B ->
  (exists fuel m', Targets._handleTargetOver dom fuel m = Some (Ok m'))
  /\ forall fuel m',
       Targets._handleTargetOver dom fuel m = Some (Ok m') ->
       (forall c, In c B ->
                  exists d, DDM.drops m' !! c = Some d
                            /\ Drop.overTarget d = over dom m c)
       /\ (forall c, In c B -> over dom m c = true -> In c (DDM.otherDrops m'))
       /\ DDM.activeDrop m' = match last_over dom m B with
                               | Some c => Some c
                               | None => DDM.activeDrop m
                               end
       /\ DDM.validDrops m' = DDM.validDrops m.
Proof.
  intros Hr HB. split.
  - destruct (handleTargetOver_total dom (S (enters_left dom m B)) m B Hr HB) as (m' & Hrun & _);
      [lia |].
    eauto.
  - intros fuel m' Hrun.
    destruct (handleTargetOver_settled dom fuel m B m' Hr HB Hrun) as (HA & HO & HC).
    split; [exact HA |]. split; [exact HO |]. split; [exact HC |].
    apply (handleTargetOver_quiet dom fuel m m' Hrun).
Qed.

Lemma handleTargetOver_hover_state_witness :
  exists fuel m', Targets._handleTargetOver Scenario.page fuel ScenarioHover.hovering
                  = Some (Ok m').
Proof.
  destruct (handleTargetOver_hover_state Scenario.page ScenarioHover.hovering [1%nat; 2%nat])
    as (Hrun & _).
  - intros c Hc. simpl in Hc.
    destruct Hc as [<- | [<- | []]];
      eexists; (split; [vm_compute; reflexivity | split; discriminate]).
  - reflexivity.
  - exact Hrun.
Defined.

(** In [ScenarioHover.hovering] the Drop on node 1 is entered and becomes
    the active drop. *)
Example hovering_enters :
  exists m',
    Targets._handleTargetOver Scenario.page 2 ScenarioHover.hovering = Some (Ok m')
    /\ DDM.activeDrop m' = Some 1%nat /\ DDM.otherDrops m' = [1%nat].
Proof.
  destruct (Targets._handleTargetOver Scenario.page 2 ScenarioHover.hovering)
    as [[m'|]|] eqn:Hrun; [| vm_compute in Hrun; discriminate ..].
  exists m'. split; [reflexivity |].
  vm_compute in Hrun. injection Hrun as <-. split; reflexivity.
Qed.

(** ** The shim of a Drop *)

Lemma bool_eq_iff (a b : bool) : (a = true <-> b = true) -> a = b.
Proof.
  destruct a, b; intros [H1 H2]; try reflexivity;
    [symmetry; apply H1; reflexivity | apply H2; reflexivity].
Qed.

Lemma meets_point (r : Region.t) (p : XY) :
  meets r (Region.point p) = point_in r p.
Proof.
  apply bool_eq_iff. unfold meets, point_in, Node.intersect_regions, Node.xoff, Node.yoff.
  cbn [Node.inRegion_flag Region.point Region.left Region.right Region.top Region.bottom].
  rewrite !andb_true_iff, !Z.leb_le. lia.
Qed.

(** X5. After [sizeShim], when the drag has a recorded pointer position and
    the sizes involved are not negative, [isOverTarget] answers: in
    INTERSECT mode, whether the dragged node's rectangle at the pointer meets
    the Drop's padded box; in POINT mode, whether the pointer lies in the
    padded box; in STRICT mode, whether the drag's region lies inside the
    padded box. *)
Theorem sizeShim_hit_test
    (dom : Node.Dom) (m : DDM.t) (drag : Drag.t) (c : DropRef) (d : Drop.t)
    (s : NodeRef) (delta p : XY) :
  DDM.activeDrag m = Some drag ->
  Drag.deltaXY drag = Some delta ->
  Drag.mouseXY drag = Some p ->
  DDM.drops m !! c = Some d ->
  Drop.shim d = Some s ->
  0 <= Node.offsetWidth dom (Drag.node (Drag.cfg drag)) ->
  0 <= Node.offsetHeight dom (Drag.node (Drag.cfg drag)) ->
  Region.left (padded_box dom d) <= Region.right (padded_box dom d) ->
  Region.top (padded_box dom d) <= Region.bottom (padded_box dom d) ->
  exists m',
    DropShim.sizeShim dom m c = Ok m'
    /\ DDM.isOverTarget dom m' (Some c)
       = Ok (if Drag.dragMode (Drag.cfg drag) =? DDM.INTERSECT
             then meets (drag_box_at dom drag delta p) (padded_box dom d)
             else if Drag.dragMode (Drag.cfg drag) =? DDM.STRICT
                  then Node.contains (padded_box dom d) (drag_region dom drag)
                  else point_in (padded_box dom d) p).
Proof.
  intros Hact Hdelta Hp Hd Hs HL HN Hw Hh.
  unfold DropShim.sizeShim, DDM.deref. rewrite Hd, Hact.
  unfold mbind, Outcome_bind. cbv beta iota zeta. rewrite Hdelta, Hs.
  destruct (Drag.dragMode (Drag.cfg drag) =? DDM.INTERSECT) eqn:Hmode.
  - eexists. split; [reflexivity |].
    unfold DDM.isOverTarget, DDM.deref, DDM.store, DDM.set_drops.
    cbn [DDM.activeDrag DDM.drops]. rewrite Hact, Hp, lookup_insert_eq.
    unfold mbind, Outcome_bind. cbv beta iota.
    apply Z.eqb_eq in Hmode. rewrite Hmode. cbn [Z.eqb DDM.INTERSECT DDM.STRICT Pos.eqb].
    cbn [Drop.shim Drop.region Drop.set_region]. rewrite Hs. f_equal.
    apply bool_eq_iff.
    unfold meets, Node.intersect, Node.intersect_regions, Node.xoff, Node.yoff,
      drag_box_at, padded_box, Region.at_xy, Region.point in *.
    cbv [default id].
    cbn [Node.inRegion_flag Region.left Region.right Region.top Region.bottom
         fst snd] in *.
    rewrite !andb_true_iff, !Z.leb_le. lia.
  - eexists. split; [reflexivity |].
    unfold DDM.isOverTarget, DDM.deref, DDM.store, DDM.set_drops.
    cbn [DDM.activeDrag DDM.drops]. rewrite Hact, Hp, lookup_insert_eq.
    unfold mbind, Outcome_bind. cbv beta iota.
    cbn [Drop.shim Drop.region Drop.set_region]. rewrite Hs.
    assert (Hbox : Region.at_xy
                     (fst (Node.getXY dom (Drop.node d)) - s_left (Drop.padding d),
                      snd (Node.getXY dom (Drop.node d)) - s_top (Drop.padding d))
                     (Node.offsetWidth dom (Drop.node d) + s_left (Drop.padding d)
                      + s_right (Drop.padding d))
                     (Node.offsetHeight dom (Drop.node d) + s_top (Drop.padding d)
                      + s_bottom (Drop.padding d))
                   = padded_box dom d).
    { unfold Region.at_xy, padded_box. cbn [fst snd]. f_equal; lia. }
    rewrite Hbox.
    destruct (Drag.dragMode (Drag.cfg drag) =? DDM.STRICT); [reflexivity |].
    f_equal. unfold Node.intersect. cbn [default]. apply meets_point.
Qed.

Lemma sizeShim_hit_test_witness :
  exists m',
    DropShim.sizeShim Scenario.page ScenarioGroups.session 1%nat = Ok m'
    /\ DDM.isOverTarget Scenario.page m' (Some 1%nat) = Ok false.
Proof.
  apply (sizeShim_hit_test Scenario.page ScenarioGroups.session
           (ScenarioGroups.moving ["a"%string]) 1%nat
           (Scenario.drop 1%nat 11%nat false ["a"%string]) 11%nat
           (5, 2) (105, 110));
    try reflexivity; vm_compute; discriminate.
Defined.

(** ** Releasing the drag *)

Lemma deactivateShims_resets (l : list DropRef) :
  forall m m' : DDM.t,
    Release._deactivateShims l m = Ok m' ->
    DDM.activeDrop m' = DDM.activeDrop m
    /\ DDM.targets m' = DDM.targets m
    /\ forall c,
         In c l \/ (exists d, DDM.drops m !! c = Some d /\ Drop.overTarget d = false) ->
         exists d', DDM.drops m' !! c = Some d' /\ Drop.overTarget d' = false.
Proof.
  induction l as [|F l IH]; intros m m' Hrun; cbn [Release._deactivateShims] in Hrun.
  - injection Hrun as <-. split; [reflexivity |]. split; [reflexivity |].
    intros c [[] | H]. exact H.
  - unfold DropShim._deactivateShim, DDM.deref in Hrun.
    destruct (DDM.drops m !! F) as [d|] eqn:Hd; [| discriminate].
    unfold mbind, Outcome_bind in Hrun. cbv beta iota in Hrun.
    destruct (Drop.shim d) as [s|]; [| discriminate].
    destruct (IH _ _ Hrun) as (Ha & Ht & Hall).
    split; [exact Ha |]. split; [exact Ht |].
    intros c Hc. apply Hall.
    unfold DDM.store, DDM.set_drops; cbn [DDM.drops].
    destruct (decide (F = c)) as [->|Hne].
    + right. rewrite lookup_insert_eq. eexists. split; reflexivity.
    + rewrite lookup_insert_ne by assumption.
      destruct Hc as [[Hc | Hc] | Hc]; [contradiction | left; exact Hc | right; exact Hc].
Qed.

Lemma bestMatch_loop_winner (dom : Node.Dom) (F : list DropRef) :
  forall (m m' : DDM.t) (C C' : option DropRef) (E E' : Z),
    DDM.bestMatch_loop dom F (m, C, E) = Ok (m', C', E') ->
    (C' = C \/ exists w, C' = Some w /\ In w F)
    /\ DDM.targets m' = DDM.targets m
    /\ DDM.otherDrops m' = DDM.otherDrops m.
Proof.
  induction F as [|x F IH]; intros m m' C C' E E' Hrun; cbn [DDM.bestMatch_loop] in Hrun.
  - injection Hrun as <- <- <-. split; [left; reflexivity |]. split; reflexivity.
  - unfold DDM.bestMatch_step, DDM.deref in Hrun.
    destruct (DDM.activeDrag m) as [drag|]; [| discriminate].
    destruct (DDM.drops m !! x) as [d|]; [| discriminate].
    unfold mbind, Outcome_bind in Hrun. cbv beta iota in Hrun.
    destruct (Drop.region d) as [r|]; [| discriminate].
    match type of Hrun with
    | context [if ?b then _ else _] => destruct b
    end;
      destruct (IH _ _ _ _ _ _ Hrun) as (Hw & Ht & Ho);
      (split; [| split; [exact Ht | exact Ho]]).
    + right. destruct Hw as [-> | (w & -> & Hin)].
      * exists x. split; [reflexivity | left; reflexivity].
      * exists w. split; [reflexivity | right; exact Hin].
    + destruct Hw as [-> | (w & -> & Hin)]; [left; reflexivity |].
      right. exists w. split; [reflexivity | right; exact Hin].
Qed.

Lemma existsb_eqb_In (a : nat) (l : list nat) :
  existsb (Nat.eqb a) l = true <-> In a l.
Proof.
  rewrite existsb_exists. split.
  - intros (x & Hx & Heq). apply Nat.eqb_eq in Heq. subst. exact Hx.
  - intros Ha. exists a. split; [exact Ha | apply Nat.eqb_refl].
Qed.

Lemma hit_outcome (dom : Node.Dom) (D : Drag.t) (a : DropRef) (m m1 : DDM.t)
    (fired : list Release.Fired) :
  DDM.activeDrop m = Some a ->
  Release.hit dom D a m = Ok (m1, fired) ->
  DDM.targets m1 = DDM.targets m
  /\ exists w,
       In w (a :: DDM.otherDrops m)
       /\ (Drag.dragMode (Drag.cfg D) = DDM.POINT -> w = a)
       /\ (Drag.dragMode (Drag.cfg D) <> DDM.POINT -> In w (DDM.otherDrops m))
       /\ fired = [Release.DropHit w
                     (List.filter (fun E => negb (E =? w)%nat) (DDM.otherDrops m));
                   Release.DragDropHit w
                     (List.filter (fun E => negb (E =? w)%nat) (DDM.otherDrops m))].
Proof.
  intros Ha. unfold Release.hit, truthy, DDM.POINT.
  destruct (Drag.dragMode (Drag.cfg D) =? 0) eqn:Hmode; cbn [negb].
  - unfold mbind, Outcome_bind. cbv beta iota zeta.
    unfold DropShim.otherDrops_delete at 1. cbn [DDM.activeDrop DDM.set_otherDrops].
    rewrite Ha. intros [= <- <-]. split; [reflexivity |].
    exists a. split; [left; reflexivity |]. split; [reflexivity |].
    split; [| reflexivity].
    apply Z.eqb_eq in Hmode. congruence.
  - unfold DDM.getBestMatch. unfold mbind, Outcome_bind. cbv beta iota zeta.
    destruct (DDM.bestMatch_loop dom (DDM.otherDrops m) (m, None, 0))
      as [[[m2 C] E]|] eqn:Hloop; [| discriminate].
    cbv beta iota. cbn [DDM.activeDrop DDM.set_activeDrop].
    destruct C as [w|]; [| discriminate].
    intros [= <- <-].
    destruct (bestMatch_loop_winner dom _ _ _ _ _ _ _ Hloop) as (Hw & Ht & Ho).
    split; [exact Ht |].
    destruct Hw as [Hw | (w' & [= <-] & Hin)]; [discriminate |].
    exists w. split; [right; exact Hin |].
    apply Z.eqb_neq in Hmode.
    split; [intros; contradiction |]. split; [intros _; exact Hin |].
    reflexivity.
Qed.

(** X7. When [_deactivateTargets] returns, no drop is active any more, the
    registered targets are the same and none of them is flagged as hovered.
    With an active drag it has fired either [drop:hit] and [drag:drophit]
    for a Drop of [otherDrops], with all the other entries as [others] (in
    POINT mode that Drop is the active drop), or [drag:dropmiss] at the last
    tracked position, the latter exactly when the active drop is absent or
    not among [otherDrops]; without an active drag it fires nothing. *)
Theorem deactivateTargets_outcome
    (dom : Node.Dom) (m m' : DDM.t) (fired : list Release.Fired) :
  Release._deactivateTargets dom m = Ok (m', fired) ->
  DDM.activeDrop m' = None
  /\ DDM.targets m' = DDM.targets m
  /\ (forall c, In c (DDM.targets m) ->
        exists d, DDM.drops m' !! c = Some d /\ Drop.overTarget d = false)
  /\ match DDM.activeDrag m with
     | None => fired = []
     | Some D =>
         (exists a w,
            DDM.activeDrop m = Some a /\ In a (DDM.otherDrops m)
            /\ In w (DDM.otherDrops m)
            /\ (Drag.dragMode (Drag.cfg D) = DDM.POINT -> w = a)
            /\ fired = [Release.DropHit w
                          (List.filter (fun E => negb (E =? w)%nat) (DDM.otherDrops m));
                        Release.DragDropHit w
                          (List.filter (fun E => negb (E =? w)%nat) (DDM.otherDrops m))])
         \/ (exists l,
               Drag.lastXY D = Some l
               /\ (forall a, DDM.activeDrop m = Some a -> ~ In a (DDM.otherDrops m))
               /\ fired = [Release.DragDropMiss (fst l) (snd l)])
     end.
Proof.
  unfold Release._deactivateTargets. intros Hrun.
  match type of Hrun with
  | (?first ≫= _) = _ => destruct first as [[m1 ev]|] eqn:Hfirst; [| discriminate]
  end.
  unfold mbind, Outcome_bind in Hrun. cbv beta iota in Hrun.
  destruct (Release._deactivateShims (DDM.targets m1) (DDM.set_activeDrop None m1))
    as [m2|] eqn:Hshims; [| discriminate].
  injection Hrun as <- <-.
  destruct (deactivateShims_resets _ _ _ Hshims) as (Hdrop & Htargets & Hflags).
  cbn [DDM.activeDrop DDM.targets DDM.set_activeDrop] in Hdrop, Htargets.
  assert (Hmiss : forall D, Release.miss D m = Ok (m1, ev) ->
                    m1 = m /\ exists l, Drag.lastXY D = Some l
                                        /\ ev = [Release.DragDropMiss (fst l) (snd l)]).
  { intros D. unfold Release.miss. destruct (Drag.lastXY D) as [l|]; [| discriminate].
    intros [= <- <-]. split; [reflexivity |]. exists l. split; reflexivity. }
  assert (Hgoal : DDM.targets m1 = DDM.targets m
                  /\ match DDM.activeDrag m with
                     | None => ev = []
                     | Some D =>
                         (exists a w,
                            DDM.activeDrop m = Some a /\ In a (DDM.otherDrops m)
                            /\ In w (DDM.otherDrops m)
                            /\ (Drag.dragMode (Drag.cfg D) = DDM.POINT -> w = a)
                            /\ ev = [Release.DropHit w
                                       (List.filter (fun E => negb (E =? w)%nat)
                                          (DDM.otherDrops m));
                                     Release.DragDropHit w
                                       (List.filter (fun E => negb (E =? w)%nat)
                                          (DDM.otherDrops m))])
                         \/ (exists l,
                               Drag.lastXY D = Some l
                               /\ (forall a, DDM.activeDrop m = Some a ->
                                             ~ In a (DDM.otherDrops m))
                               /\ ev = [Release.DragDropMiss (fst l) (snd l)])
                     end).
  { destruct (DDM.activeDrag m) as [D|]; [| injection Hfirst as <- <-; split; reflexivity].
    destruct (DDM.activeDrop m) as [a|] eqn:Ha.
    - destruct (existsb (Nat.eqb a) (DDM.otherDrops m)) eqn:Hin.
      + apply existsb_eqb_In in Hin.
        destruct (hit_outcome dom D a m m1 ev Ha Hfirst) as (Ht & w & Hw & Hpoint & Hother & Hev).
        split; [exact Ht |]. left. exists a, w.
        split; [reflexivity |]. split; [exact Hin |].
        split; [| split; [exact Hpoint | exact Hev]].
        destruct Hw as [<- | Hw]; [exact Hin | exact Hw].
      + destruct (Hmiss D Hfirst) as (-> & l & Hl & Hev).
        split; [reflexivity |]. right. exists l. split; [exact Hl |].
        split; [| exact Hev].
        intros a' [= <-] Hin'. apply existsb_eqb_In in Hin'. congruence.
    - destruct (Hmiss D Hfirst) as (-> & l & Hl & Hev).
      split; [reflexivity |]. right. exists l. split; [exact Hl |].
      split; [intros a' Ha'; discriminate | exact Hev]. }
  destruct Hgoal as (Ht1 & Hev).
  split; [exact Hdrop |]. split; [congruence |].
  split; [| exact Hev].
  intros c Hc. apply Hflags. left. rewrite Ht1. exact Hc.
Qed.

Lemma bestMatch_loop_shims (dom : Node.Dom) (F : list DropRef) :
  forall (m m' : DDM.t) (C C' : option DropRef) (E E' : Z),
    DDM.bestMatch_loop dom F (m, C, E) = Ok (m', C', E') ->
    forall c d, DDM.drops m !! c = Some d ->
                exists d', DDM.drops m' !! c = Some d' /\ Drop.shim d' = Drop.shim d.
Proof.
  induction F as [|x F IH]; intros m m' C C' E E' Hrun c d Hc;
    cbn [DDM.bestMatch_loop] in Hrun.
  - injection Hrun as <- <- <-. exists d. split; [exact Hc | reflexivity].
  - unfold DDM.bestMatch_step, DDM.deref in Hrun.
    destruct (DDM.activeDrag m) as [drag|]; [| discriminate].
    destruct (DDM.drops m !! x) as [dx|] eqn:Hx; [| discriminate].
    unfold mbind, Outcome_bind in Hrun. cbv beta iota in Hrun.
    destruct (Drop.region dx) as [r|]; [| discriminate].
    set (m1 := DDM.store m x _) in Hrun.
    assert (H1 : exists d1, DDM.drops m1 !! c = Some d1 /\ Drop.shim d1 = Drop.shim d).
    { unfold m1, DDM.store, DDM.set_drops; cbn [DDM.drops].
      destruct (decide (x = c)) as [->|Hne].
      - rewrite lookup_insert_eq. eexists. split; [reflexivity |].
        rewrite Hx in Hc. injection Hc as <-. reflexivity.
      - rewrite lookup_insert_ne by assumption. exists d. split; [exact Hc | reflexivity]. }
    destruct H1 as (d1 & Hd1 & Hs1).
    match type of Hrun with
    | context [if ?b then _ else _] => destruct b
    end;
      destruct (IH _ _ _ _ _ _ Hrun c d1 Hd1) as (d' & Hd' & Hs');
      exists d'; (split; [exact Hd' | congruence]).
Qed.

Lemma deactivateShims_total (l : list DropRef) :
  forall m : DDM.t,
    (forall c, In c l -> exists d, DDM.drops m !! c = Some d /\ Drop.shim d <> None) ->
    exists m', Release._deactivateShims l m = Ok m'.
Proof.
  induction l as [|F l IH]; intros m Hreg; cbn [Release._deactivateShims].
  - exists m. reflexivity.
  - destruct (Hreg F (or_introl eq_refl)) as (d & Hd & Hs).
    unfold DropShim._deactivateShim, DDM.deref. rewrite Hd.
    unfold mbind, Outcome_bind. cbv beta iota.
    destruct (Drop.shim d) as [s|] eqn:Hshim; [| congruence].
    apply IH. intros c Hc.
    unfold DDM.store, DDM.set_drops; cbn [DDM.drops].
    destruct (decide (F = c)) as [->|Hne].
    + rewrite lookup_insert_eq. eexists. split; [reflexivity |].
      cbn [Drop.shim Drop.set_overTarget]. congruence.
    + rewrite lookup_insert_ne by assumption. apply Hreg. right. exact Hc.
Qed.

(** X8. Outside POINT mode a release over entered Drops asks
    [getBestMatch] anew: when some entered Drop overlaps the drag node with
    a positive area, [drop:hit] and [drag:drophit] go to the first Drop of
    maximal overlap, whichever Drop was active; when no entered Drop has a
    positive overlap, [_deactivateTargets] raises a TypeError. *)
Theorem deactivateTargets_best_match
    (dom : Node.Dom) (m : DDM.t) (D : Drag.t) (a : DropRef) :
  DDM.activeDrag m = Some D ->
  Drag.dragMode (Drag.cfg D) <> DDM.POINT ->
  DDM.activeDrop m = Some a ->
  In a (DDM.otherDrops m) ->
  Forall (fun c => exists d r, DDM.drops m !! c = Some d /\ Drop.region d = Some r)
         (DDM.otherDrops m) ->
  (forall c, In c (DDM.targets m) ->
             exists d, DDM.drops m !! c = Some d /\ Drop.shim d <> None) ->
  (Forall (fun c => candidate_area dom m D c = 0) (DDM.otherDrops m) ->
   Release._deactivateTargets dom m = TypeError)
  /\ (Exists (fun c => 0 < candidate_area dom m D c) (DDM.otherDrops m) ->
      exists w l1 l2 m',
        DDM.otherDrops m = l1 ++ w :: l2
        /\ 0 < candidate_area dom m D w
        /\ Forall (fun x => candidate_area dom m D x < candidate_area dom m D w) l1
        /\ Forall (fun x => candidate_area dom m D x <= candidate_area dom m D w) l2
        /\ Release._deactivateTargets dom m
           = Ok (m', [Release.DropHit w
                        (List.filter (fun E => negb (E =? w)%nat) (DDM.otherDrops m));
                      Release.DragDropHit w
                        (List.filter (fun E => negb (E =? w)%nat) (DDM.otherDrops m))])).
Proof.
  intros Hact Hmode Ha Hin Hsized Hreg.
  set (A := candidate_area dom m D).
  assert (Hs : Forall (sized dom m D A) (DDM.otherDrops m)).
  { eapply Forall_impl; [exact Hsized |].
    intros c (d & r & Hd & Hr). exists d, r.
    split; [assumption |]. split; [assumption |].
    unfold A, candidate_area. rewrite Hd. reflexivity. }
  destruct (bestMatch_loop_pick dom D A (DDM.otherDrops m) m None 0 (Z.le_refl 0) Hact Hs)
    as (m1 & Hloop).
  assert (Hin' : existsb (Nat.eqb a) (DDM.otherDrops m) = true)
    by (apply existsb_eqb_In; exact Hin).
  assert (Htruthy : negb (truthy (Drag.dragMode (Drag.cfg D))) = false).
  { unfold truthy. apply negb_false_iff, negb_true_iff, Z.eqb_neq. exact Hmode. }
  unfold Release._deactivateTargets, Release.hit, DDM.getBestMatch.
  rewrite Hact, Ha, Hin', Htruthy, Hloop.
  unfold mbind, Outcome_bind. cbv beta iota zeta.
  cbn [DDM.activeDrop DDM.set_activeDrop].
  destruct (pick_spec A (DDM.otherDrops m) None 0)
    as [[Hp Hall] | (w & l1 & l2 & HF & Hp & Hw & H1 & H2)]; rewrite Hp; cbn [fst snd].
  - split; [reflexivity |].
    intros Hex. exfalso. apply Exists_exists in Hex. destruct Hex as (c & Hc & Hpos).
    rewrite Forall_forall in Hall. specialize (Hall c Hc). fold A in Hpos. lia.
  - split.
    + intros Hzero. exfalso. rewrite Forall_forall in Hzero.
      assert (Hwin : In w (DDM.otherDrops m)) by (rewrite HF; apply in_elt).
      specialize (Hzero w (proj2 (list_elem_of_In _ _) Hwin)). fold A in Hzero. lia.
    + intros _.
      destruct (deactivateShims_total (DDM.targets (DDM.set_activeDrop (Some w) m1))
                  (DDM.set_activeDrop None (DDM.set_activeDrop (Some w) m1)))
        as (m2 & Hshims).
      { intros c Hc. cbn [DDM.targets DDM.set_activeDrop] in Hc.
        destruct (bestMatch_loop_winner dom _ _ _ _ _ _ _ Hloop) as (_ & Ht & _).
        rewrite Ht in Hc. destruct (Hreg c Hc) as (d & Hd & Hshim).
        destruct (bestMatch_loop_shims dom _ _ _ _ _ _ _ Hloop c d Hd) as (d' & Hd' & Hs').
        exists d'. cbn [DDM.drops DDM.set_activeDrop]. split; [exact Hd' | congruence]. }
      exists w, l1, l2, m2.
      split; [exact HF |]. split; [exact Hw |]. split; [exact H1 |]. split; [exact H2 |].
      rewrite Hshims.
      destruct (bestMatch_loop_winner dom _ _ _ _ _ _ _ Hloop) as (_ & _ & Ho).
      assert (Hfilter : List.filter (DDM.differs (Some w)) (DDM.otherDrops m)
                        = List.filter (fun E => negb (E =? w)%nat) (DDM.otherDrops m))
        by reflexivity.
      rewrite Hfilter. reflexivity.
Qed.

Lemma deactivateTargets_outcome_witness :
  exists m' fired,
    Release._deactivateTargets Scenario.page ScenarioRelease.entered = Ok (m', fired)
    /\ DDM.activeDrop m' = None.
Proof.
  destruct (Release._deactivateTargets Scenario.page ScenarioRelease.entered)
    as [[m' fired]|] eqn:Hrun; [| vm_compute in Hrun; discriminate].
  exists m', fired. split; [reflexivity |].
  exact (proj1 (deactivateTargets_outcome Scenario.page _ _ _ Hrun)).
Defined.

(** In [ScenarioRelease.entered] the release is a hit on the Drop of node 1. *)
Example entered_release_hits :
  exists m',
    Release._deactivateTargets Scenario.page ScenarioRelease.entered
    = Ok (m', [Release.DropHit 1%nat []; Release.DragDropHit 1%nat []]).
Proof.
  destruct (Release._deactivateTargets Scenario.page ScenarioRelease.entered)
    as [[m' fired]|] eqn:Hrun; [| vm_compute in Hrun; discriminate].
  exists m'. f_equal. f_equal. vm_compute in Hrun. injection Hrun as _ <-. reflexivity.
Qed.

(** The dragged node of [ScenarioRelease.touching] only touches the Drop:
    target activation makes the Drop the active drop, and the release
    raises. *)
Example touching_release_raises :
  DDM.activeDrop ScenarioRelease.touching_entered = Some 1%nat
  /\ DDM.otherDrops ScenarioRelease.touching_entered = [1%nat]
  /\ Release._deactivateTargets ScenarioRelease.page ScenarioRelease.touching_entered
     = TypeError.
Proof. split; [| split]; vm_compute; reflexivity. Qed.

Lemma deactivateTargets_best_match_witness :
  Release._deactivateTargets ScenarioRelease.page ScenarioRelease.touching_entered
  = TypeError.
Proof.
  assert (Ho : DDM.otherDrops ScenarioRelease.touching_entered = [1%nat])
    by (vm_compute; reflexivity).
  assert (Ht : DDM.targets ScenarioRelease.touching_entered = [1%nat])
    by (vm_compute; reflexivity).
  refine (proj1 (deactivateTargets_best_match ScenarioRelease.page
                   ScenarioRelease.touching_entered ScenarioRelease.touching_drag 1%nat
                   _ _ _ _ _ _) _).
  - vm_compute; reflexivity.
  - discriminate.
  - vm_compute; reflexivity.
  - rewrite Ho. left. reflexivity.
  - rewrite Ho. constructor; [| constructor].
    eexists _, _. split; [vm_compute; reflexivity | reflexivity].
  - rewrite Ht. intros c [<- | []].
    eexists. split; [vm_compute; reflexivity | discriminate].
  - rewrite Ho. constructor; [| constructor]. vm_compute. reflexivity.
Defined.

(** ** Snapping to listed ticks *)

Lemma tick_choice_unbounded (O : Z) (P : list Z) (N K : option Z) (H : nat) (PH PJ : Z) :
  ticks_below P N K ->
  P !! H = Some PH -> P !! S H = Some PJ ->
  Constrain.tick_choice O P N K H PJ = (if O - PH <? PJ - O then PH else PJ).
Proof.
  intros Hb HH HJ. unfold Constrain.tick_choice. rewrite HH. cbn [default from_option id].
  destruct N as [n|], K as [k|]; try reflexivity.
  destruct (truthy n && truthy k); [| reflexivity].
  unfold ticks_below in Hb. rewrite List.Forall_forall in Hb.
  assert (HHin : In PH P) by (apply list_elem_of_In; eapply list_elem_of_lookup_2; exact HH).
  assert (HJin : In PJ P) by (apply list_elem_of_In; eapply list_elem_of_lookup_2; exact HJ).
  pose proof (Hb _ HHin) as HkH. pose proof (Hb _ HJin) as HkJ. cbv beta in HkH, HkJ.
  destruct (O - PH <? PJ - O);
    match goal with
    | |- context [?k <? ?M] => destruct (Z.ltb_spec k M); [lia | reflexivity]
    end.
Qed.

Lemma tick_scan_nearest (O : Z) (P : list Z) (N K : option Z) :
  P <> [] -> ascending P -> Forall (fun t => t <> 0) P -> ticks_below P N K ->
  forall (count H : nat),
    (count + H = length P)%nat ->
    (forall i a, (i <= H)%nat -> P !! i = Some a -> a < O) ->
    forall t, In t P ->
              Z.abs (Constrain.tick_scan O P N K count H - O) <= Z.abs (t - O).
Proof.
  intros Hne Hasc Hnz Hb. induction count as [|count IH]; intros H Hlen Hlow t Ht;
    cbn [Constrain.tick_scan].
  - destruct (lookup_lt_is_Some_2 P (length P - 1)%nat) as [PL HL].
    { destruct P; [contradiction | cbn [length]; lia]. }
    rewrite HL. cbn [default from_option id].
    apply list_elem_of_In, list_elem_of_lookup in Ht. destruct Ht as [i Hi].
    pose proof (lookup_lt_Some _ _ _ Hi) as Hlt.
    assert (t <= PL) by (apply (Hasc i (length P - 1)%nat); [lia | assumption ..]).
    assert (PL < O) by (apply (Hlow (length P - 1)%nat); [lia | assumption]).
    lia.
  - destruct (lookup_lt_is_Some_2 P H) as [PH HH]; [lia |].
    pose proof (Hlow H PH (Nat.le_refl H) HH) as HPH.
    destruct (P !! S H) as [PJ|] eqn:HJ.
    + assert (Htr : truthy PJ = true).
      { unfold truthy. apply negb_true_iff, Z.eqb_neq.
        rewrite List.Forall_forall in Hnz. apply Hnz.
        apply list_elem_of_In. eapply list_elem_of_lookup_2. exact HJ. }
      rewrite Htr. cbn [andb].
      destruct (Z.leb_spec O PJ) as [Hge | Hlt].
      * rewrite (tick_choice_unbounded O P N K H PH PJ Hb HH HJ).
        apply list_elem_of_In, list_elem_of_lookup in Ht. destruct Ht as [i Hi].
        destruct (Nat.le_gt_cases i H) as [Hi' | Hi'].
        -- assert (t <= PH) by (apply (Hasc i H); assumption).
           destruct (O - PH <? PJ - O) eqn:Hc;
             [apply Z.ltb_lt in Hc | apply Z.ltb_ge in Hc]; lia.
        -- assert (PJ <= t) by (apply (Hasc (S H) i); [lia | assumption ..]).
           destruct (O - PH <? PJ - O) eqn:Hc;
             [apply Z.ltb_lt in Hc | apply Z.ltb_ge in Hc]; lia.
      * apply IH; [lia | | exact Ht].
        intros i a Hi Ha.
        assert (a <= PJ) by (apply (Hasc i (S H)); assumption). lia.
    + apply IH; [lia | | exact Ht].
      intros i a Hi Ha.
      destruct (Nat.le_gt_cases i H) as [Hi' | Hi']; [apply (Hlow i a Hi' Ha) |].
      assert (i = S H) by lia. subst i. congruence.
Qed.

(** X9. For a non-empty list of nonzero tick positions in ascending order,
    and bounds (if any) that leave room for every tick, [_calcTickArray]
    returns a listed tick that is nearest to the position: no other tick is
    strictly nearer. *)
Theorem calcTickArray_nearest (O : Z) (P : list Z) (N K : option Z) :
  P <> [] -> ascending P -> Forall (fun t => t <> 0) P -> ticks_below P N K ->
  nearest_tick O P (Constrain._calcTickArray O P N K).
Proof.
  intros Hne Hasc Hnz Hb. split; [apply calcTickArray_In; exact Hne |].
  intros t Ht. unfold Constrain._calcTickArray.
  destruct P as [|P0 P'] eqn:HP; [contradiction |]. rewrite <- HP in *.
  assert (H0 : P !! 0%nat = Some P0) by (rewrite HP; reflexivity).
  destruct (Z.leb_spec O P0) as [Hle | Hgt].
  - apply list_elem_of_In, list_elem_of_lookup in Ht. destruct Ht as [i Hi].
    assert (P0 <= t) by (apply (Hasc 0%nat i); [lia | assumption ..]). lia.
  - apply tick_scan_nearest; try assumption; [lia |].
    intros i a Hi Ha. assert (i = 0%nat) by lia. subst i. congruence.
Qed.

Lemma calcTickArray_nearest_witness :
  nearest_tick 130 [100; 150; 300] (Constrain._calcTickArray 130 [100; 150; 300] None None).
Proof.
  apply calcTickArray_nearest.
  - discriminate.
  - intros i j a b Hij Hi Hj.
    destruct i as [|[|[|i]]]; destruct j as [|[|[|j]]];
      cbn in Hi, Hj; try discriminate; try lia;
      injection Hi as <-; injection Hj as <-; lia.
  - repeat constructor; discriminate.
  - exact I.
Defined.

(** ** Snapping to a tick interval *)

Lemma floor_ceil_zero (a J : Z) :
  J <> 0 -> Constrain.floor_div a J = 0 -> Constrain.ceil_div a J = 0 -> a = 0.
Proof.
  unfold Constrain.floor_div, Constrain.ceil_div. intros HJ Hf Hc.
  pose proof (Z.div_mod a J HJ) as H1. pose proof (Z.div_mod (- a) J HJ) as H2.
  assert (Hc' : - a / J = 0) by lia.
  rewrite Hf in H1. rewrite Hc' in H2.
  destruct (Z.lt_total J 0) as [Hneg | [-> | Hpos]]; [| contradiction |].
  - pose proof (Z.mod_neg_bound a J Hneg). pose proof (Z.mod_neg_bound (- a) J Hneg). lia.
  - pose proof (Z.mod_pos_bound a J Hpos). pose proof (Z.mod_pos_bound (- a) J Hpos). lia.
Qed.

Lemma calcTicks_unbounded (N M J : Z) (L K : option Z) :
  J <> 0 ->
  otruthy L && otruthy K = false ->
  Constrain._calcTicks N M J L K = M + J * Constrain.floor_div (N - M) J.
Proof.
  intros HJ Hb. unfold Constrain._calcTicks.
  destruct (Z.eqb_spec (Constrain.floor_div (N - M) J) 0) as [Hf | Hf];
    destruct (Z.eqb_spec (Constrain.ceil_div (N - M) J) 0) as [Hc | Hc]; cbn [negb orb].
  - pose proof (floor_ceil_zero _ _ HJ Hf Hc). rewrite Hf. lia.
  - destruct L as [l|], K as [k|]; try reflexivity.
    unfold otruthy in Hb. rewrite Hb. reflexivity.
  - destruct L as [l|], K as [k|]; try reflexivity.
    unfold otruthy in Hb. rewrite Hb. reflexivity.
  - destruct L as [l|], K as [k|]; try reflexivity.
    unfold otruthy in Hb. rewrite Hb. reflexivity.
Qed.

(** X10. For a nonzero tick [J], [_calcTicks] always returns a position on
    the grid of step [J] through the start position [M]. Without bounds (or
    with a bound that is 0 or missing) it snaps downwards, to the grid point
    at or just below the position and not to the nearest one, and snapping
    a snapped position changes nothing. *)
Theorem calcTicks_grid (N M J : Z) (L K : option Z) :
  J <> 0 ->
  (exists q, Constrain._calcTicks N M J L K = M + J * q)
  /\ (otruthy L && otruthy K = false -> 0 < J ->
      Constrain._calcTicks N M J L K <= N < Constrain._calcTicks N M J L K + J)
  /\ (otruthy L && otruthy K = false ->
      Constrain._calcTicks (Constrain._calcTicks N M J L K) M J L K
      = Constrain._calcTicks N M J L K).
Proof.
  intros HJ. split; [| split].
  - unfold Constrain._calcTicks.
    destruct (Z.eqb_spec (Constrain.floor_div (N - M) J) 0) as [Hf | Hf];
      destruct (Z.eqb_spec (Constrain.ceil_div (N - M) J) 0) as [Hc | Hc]; cbn [negb orb];
      try (pose proof (floor_ceil_zero _ _ HJ Hf Hc); exists 0; lia);
      (destruct L as [l|], K as [k|]; try (eexists; reflexivity);
       destruct (truthy l && truthy k); [| eexists; reflexivity];
       repeat match goal with
              | |- context [if ?c then _ else _] => no_branch c; destruct c
              end; eexists; reflexivity).
  - intros Hb Hpos. rewrite (calcTicks_unbounded N M J L K HJ Hb).
    unfold Constrain.floor_div.
    pose proof (Z.div_mod (N - M) J HJ). pose proof (Z.mod_pos_bound (N - M) J Hpos). lia.
  - intros Hb. rewrite !(calcTicks_unbounded _ M J L K HJ Hb).
    unfold Constrain.floor_div.
    replace (M + J * ((N - M) / J) - M) with ((N - M) / J * J) by lia.
    rewrite Z.div_mul by exact HJ. reflexivity.
Qed.

Lemma calcTicks_grid_witness :
  Constrain._calcTicks 149 100 50 None None <= 149
  < Constrain._calcTicks 149 100 50 None None + 50.
Proof.
  destruct (calcTicks_grid 149 100 50 None None) as (_ & H & _); [lia |].
  apply H; [reflexivity | lia].
Defined.

(** ** Axis pinning *)

(** X11. With [stickX] set the vertical coordinate that the constrained
    [_align] returns does not depend on the pointer position, and with
    [stickY] set the horizontal one does not: the drag moves along one axis
    only, whatever region and ticks are configured. *)
Theorem stick_pins_axis (dom : Node.Dom) (this : Drag.t) (I1 I2 : XY) :
  Drag.startXY this <> None ->
  Drag.deltaXY this <> None ->
  exists W1 W2,
    Constrain._align dom this I1 = Ok W1
    /\ Constrain._align dom this I2 = Ok W2
    /\ (Constrain_ATTRS.stickX (Drag.constrain (Drag.cfg this)) = true -> snd W1 = snd W2)
    /\ (Constrain_ATTRS.stickY (Drag.constrain (Drag.cfg this)) = true -> fst W1 = fst W2).
Proof.
  intros Hs Hd.
  unfold Constrain._align, DragBase._align, Constrain.stick, Constrain._checkTicks,
    Constrain._checkRegion.
  destruct (Drag.startXY this) as [start|]; [| congruence].
  destruct (Drag.deltaXY this) as [delta|]; [| congruence].
  unfold mbind, Outcome_bind. cbv beta iota.
  destruct (Constrain_ATTRS.stickX (Drag.constrain (Drag.cfg this))) eqn:HX;
    destruct (Constrain_ATTRS.stickY (Drag.constrain (Drag.cfg this))) eqn:HY;
    cbn [orb]; cbv beta iota zeta;
    destruct (Constrain.getRegion dom this true) as [R|];
    destruct (Constrain.getRegion dom this false) as [R'|];
    unfold Constrain.clamp; cbn [fst snd];
    eexists _, _; (split; [reflexivity |]); (split; [reflexivity |]);
    cbn [fst snd]; split; intros; try discriminate; reflexivity.
Qed.

Lemma stick_pins_axis_witness :
  exists W1 W2,
    Constrain._align ScenarioConstrain.page ScenarioStick.sliding (150, 160) = Ok W1
    /\ Constrain._align ScenarioConstrain.page ScenarioStick.sliding (300, 20) = Ok W2
    /\ snd W1 = snd W2.
Proof.
  destruct (stick_pins_axis ScenarioConstrain.page ScenarioStick.sliding (150, 160) (300, 20))
    as (W1 & W2 & H1 & H2 & HX & _); [discriminate | discriminate |].
  exists W1, W2. split; [exact H1 |]. split; [exact H2 |]. apply HX. reflexivity.
Defined.

(** ** The public region test *)

(** X12. [inRegion] is true for every position when no region is
    configured; with a region that has room for the node it is true exactly
    when the node, put at the position, lies inside the region; a position
    returned by [_checkRegion] always passes it; and without an argument it
    tests the drag node's current position. *)
Theorem inRegion_spec (dom : Node.Dom) (this : Drag.t) (p : XY) :
  let H := Node.offsetWidth dom (Drag.dragNode (Drag.cfg this)) in
  let K := Node.offsetHeight dom (Drag.dragNode (Drag.cfg this)) in
  (Constrain.getRegion dom this false = None ->
   Constrain.inRegion dom this (Some p) = true)
  /\ (forall J, Constrain.getRegion dom this false = Some J ->
                Region.left J <= Region.right J - H ->
                Region.top J <= Region.bottom J - K ->
                (Constrain.inRegion dom this (Some p) = true <-> node_inside J H K p))
  /\ Constrain.inRegion dom this (Some (Constrain._checkRegion dom this p)) = true
  /\ Constrain.inRegion dom this None
     = Constrain.inRegion dom this (Some (Node.getXY dom (Drag.dragNode (Drag.cfg this)))).
Proof.
  intros H K. unfold Constrain.inRegion. cbn [default from_option id].
  split; [| split; [| split; [| reflexivity]]].
  - intros Hnone. unfold Constrain._checkRegion. rewrite Hnone.
    rewrite !Z.eqb_refl. reflexivity.
  - intros J HJ Hw Hh. unfold Constrain._checkRegion. rewrite HJ. fold H. fold K.
    unfold Constrain.clamp, node_inside. destruct p as [x y]. cbn [fst snd].
    rewrite andb_true_iff, !Z.eqb_eq.
    case_ltb; lia.
  - unfold Constrain._checkRegion.
    destruct (Constrain.getRegion dom this false) as [J|];
      [rewrite clamp_idempotent |]; rewrite !Z.eqb_refl; reflexivity.
Qed.

Lemma inRegion_spec_witness :
  Constrain.inRegion ScenarioConstrain.page
    (ScenarioConstrain.constrained_to ScenarioConstrain.wide_rect) (Some (120, 200)) = true
  <-> node_inside ScenarioConstrain.wide_rect 40 30 (120, 200).
Proof.
  destruct (inRegion_spec ScenarioConstrain.page
              (ScenarioConstrain.constrained_to ScenarioConstrain.wide_rect) (120, 200))
    as (_ & H & _).
  apply (H ScenarioConstrain.wide_rect); [reflexivity | vm_compute; discriminate ..].
Defined.

(** ** Rectangles with a side at 0 *)

(** X13. The [constrain2region] setter keeps a rectangle only when its four
    sides are all nonzero. A rectangle with a side at 0 (one that starts at
    the top or the left edge of the page, say) is dropped: with no reference
    node and no viewport constraint, [getRegion] reports no region,
    [_checkRegion] returns every position unchanged and [inRegion] is always
    true. A rectangle with four nonzero sides is the region, gutter
    applied. *)
Theorem zero_side_rectangle_ignored
    (dom : Node.Dom) (this : Drag.t) (r : Region.t) (a : Constrain_ATTRS.t) :
  Drag.constrain (Drag.cfg this) = Constrain.configure_constrain2region (Some r) a ->
  Constrain_ATTRS.constrain2node a = None ->
  Constrain_ATTRS.constrain2view a = false ->
  (Region.top r = 0 \/ Region.right r = 0 \/ Region.left r = 0 \/ Region.bottom r = 0 ->
   (forall K, Constrain.getRegion dom this K = None)
   /\ (forall C, Constrain._checkRegion dom this C = C)
   /\ (forall I, Constrain.inRegion dom this I = true))
  /\ (Region.top r <> 0 -> Region.right r <> 0 -> Region.left r <> 0 ->
      Region.bottom r <> 0 ->
      Constrain.getRegion dom this false
      = Some (Constrain.apply_gutter (Constrain_ATTRS.gutter a) r)).
Proof.
  intros Hcfg Hn Hv.
  assert (Hsrc : Constrain.region_source dom this = Constrain.set_constrain2region (Some r)).
  { unfold Constrain.region_source. rewrite Hcfg.
    unfold Constrain.configure_constrain2region.
    cbn [Constrain_ATTRS.constrain2node Constrain_ATTRS.constrain2region
         Constrain_ATTRS.constrain2view].
    rewrite Hn, Hv. destruct (Constrain.set_constrain2region (Some r)); reflexivity. }
  split.
  - intros Hzero.
    assert (Hset : Constrain.set_constrain2region (Some r) = None).
    { unfold Constrain.set_constrain2region, truthy.
      destruct Hzero as [-> | [-> | [-> | ->]]]; cbn [Z.eqb negb andb];
        rewrite ?andb_false_r; reflexivity. }
    assert (Hnone : forall K, Constrain.getRegion dom this K = None).
    { intros K. unfold Constrain.getRegion. rewrite Hsrc, Hset. reflexivity. }
    split; [exact Hnone |].
    assert (Hid : forall C, Constrain._checkRegion dom this C = C).
    { intros C. unfold Constrain._checkRegion. rewrite Hnone. reflexivity. }
    split; [exact Hid |].
    intros I. unfold Constrain.inRegion. rewrite Hid, !Z.eqb_refl. reflexivity.
  - intros Ht Hr Hl Hb. unfold Constrain.getRegion. rewrite Hsrc.
    unfold Constrain.set_constrain2region, truthy.
    apply Z.eqb_neq in Ht, Hr, Hl, Hb. rewrite Ht, Hr, Hl, Hb. cbn [negb andb fmap option_fmap option_map].
    unfold Constrain.adjust_region. rewrite Hcfg.
    unfold Constrain.configure_constrain2region. cbn [Constrain_ATTRS.gutter]. reflexivity.
Qed.

Lemma zero_side_rectangle_ignored_witness :
  Constrain._checkRegion ScenarioConstrain.page
    (ScenarioConstrain.constrained_to ScenarioOrigin.origin_rect) (-50, -50) = (-50, -50).
Proof.
  destruct (zero_side_rectangle_ignored ScenarioConstrain.page
              (ScenarioConstrain.constrained_to ScenarioOrigin.origin_rect)
              ScenarioOrigin.origin_rect Constrain_ATTRS.defaults)
    as ((_ & H & _) & _); [reflexivity | reflexivity | reflexivity | | apply H].
  left. reflexivity.
Defined.

(** ** Plugin hosts *)

Section ObjFacts.
Context {A : Type}.

Lemma get_put_eq (k : string) (v : A) (o : list (string * A)) :
  Obj.get k (Obj.put k v o) = Some v.
Proof.
  induction o as [|[k' v'] o IH]; cbn [Obj.put Obj.get].
  - rewrite String.eqb_refl. reflexivity.
  - destruct (String.eqb k k') eqn:Hk; cbn [Obj.get].
    + rewrite String.eqb_refl. reflexivity.
    + rewrite Hk. exact IH.
Qed.

Lemma get_put_ne (k k' : string) (v : A) (o : list (string * A)) :
  k <> k' -> Obj.get k' (Obj.put k v o) = Obj.get k' o.
Proof.
  intros Hne. induction o as [|[k0 v0] o IH]; cbn [Obj.put Obj.get].
  - destruct (String.eqb_spec k' k); [congruence | reflexivity].
  - destruct (String.eqb_spec k k0) as [-> | Hk]; cbn [Obj.get].
    + destruct (String.eqb_spec k' k0); [congruence | reflexivity].
    + destruct (String.eqb k' k0); [reflexivity | exact IH].
Qed.

Lemma get_del_eq (k : string) (o : list (string * A)) :
  Obj.get k (Obj.del k o) = None.
Proof.
  unfold Obj.del. induction o as [|[k0 v0] o IH]; cbn [List.filter Obj.get fst];
    [reflexivity |].
  destruct (String.eqb k k0) eqn:Hk; cbn [negb]; [exact IH |].
  cbn [Obj.get]. rewrite Hk. exact IH.
Qed.

Lemma get_del_ne (k k' : string) (o : list (string * A)) :
  k <> k' -> Obj.get k' (Obj.del k o) = Obj.get k' o.
Proof.
  intros Hne. unfold Obj.del.
  induction o as [|[k0 v0] o IH]; cbn [List.filter Obj.get fst]; [reflexivity |].
  destruct (String.eqb_spec k k0) as [-> | Hk]; cbn [negb Obj.get].
  - destruct (String.eqb_spec k' k0); [congruence | exact IH].
  - destruct (String.eqb k' k0); [reflexivity | exact IH].
Qed.

Lemma get_None_keys (k : string) (o : list (string * A)) :
  Obj.get k o = None <-> ~ In k (Obj.keys o).
Proof.
  induction o as [|[k0 v0] o IH]; cbn [Obj.get Obj.keys map fst In].
  - split; [intros _ [] | reflexivity].
  - destruct (String.eqb_spec k k0) as [-> | Hk].
    + split; [discriminate | intros H; exfalso; apply H; left; reflexivity].
    + rewrite IH. unfold Obj.keys. split.
      * intros H [Heq | Hin]; [congruence | contradiction].
      * intros H Hin. apply H. right. exact Hin.
Qed.

Lemma keys_put (k : string) (v : A) (o : list (string * A)) :
  Obj.keys (Obj.put k v o)
  = match Obj.get k o with
    | Some _ => Obj.keys o
    | None => Obj.keys o ++ [k]
    end.
Proof.
  unfold Obj.keys. induction o as [|[k0 v0] o IH]; cbn [Obj.put Obj.get map fst app];
    [reflexivity |].
  destruct (String.eqb_spec k k0) as [-> | Hk]; cbn [map fst]; [reflexivity |].
  rewrite IH. destruct (Obj.get k o); reflexivity.
Qed.

Lemma keys_del (k : string) (o : list (string * A)) :
  Obj.keys (Obj.del k o) = List.filter (fun k' => negb (String.eqb k k')) (Obj.keys o).
Proof.
  unfold Obj.keys, Obj.del.
  induction o as [|[k0 v0] o IH]; cbn [List.filter map fst]; [reflexivity |].
  destruct (String.eqb k k0); cbn [negb map fst]; rewrite IH; reflexivity.
Qed.
End ObjFacts.

Section HostFacts.
Variable proto : string -> bool.
Variable member : string -> bool.

Lemma plug_in_sync (c : PluginHost.Class) (config : option PluginHost.Cfg)
    (h h' : PluginHost.t) :
  in_sync h ->
  PluginHost._plug proto member (Some c) config h = Ok h' ->
  in_sync h'.
Proof.
  intros [Hs Hnd]. unfold PluginHost._plug.
  destruct (PluginHost.ns_of c) as [ns|]; [| intros [= <-]; split; assumption].
  destruct (PluginHost.hasPlugin proto member h ns).
  - destruct (PluginHost.slots h !! ns); [| discriminate].
    intros [= <-]. split; assumption.
  - intros [= <-]. unfold in_sync.
    cbn [PluginHost.emit PluginHost.slots PluginHost._plugins]. split.
    + intros ns'. destruct (decide (ns = ns')) as [<- | Hne].
      * rewrite lookup_insert_eq, get_put_eq. reflexivity.
      * rewrite lookup_insert_ne, get_put_ne by assumption. apply Hs.
    + rewrite keys_put. destruct (Obj.get ns (PluginHost._plugins h)) eqn:Hg;
        [exact Hnd |].
      apply List.NoDup_app; [exact Hnd | constructor; [intros [] | constructor] |].
      intros x Hx [<- | []]. apply get_None_keys in Hg. contradiction.
Qed.

Lemma ns_of_truthy (c : PluginHost.Class) (ns : string) :
  PluginHost.ns_of c = Some ns -> PluginHost.str_truthy ns = true.
Proof.
  unfold PluginHost.ns_of. destruct (PluginHost.NS c) as [s|]; [| discriminate].
  destruct (PluginHost.str_truthy s) eqn:Hs; [| discriminate].
  intros [= <-]. exact Hs.
Qed.

Lemma hasPlugin_registered (h : PluginHost.t) (ns : string) :
  in_sync h -> proto ns = false ->
  PluginHost.hasPlugin proto member h ns
  = match Obj.get ns (PluginHost._plugins h) with Some _ => true | None => false end.
Proof.
  intros [Hs _] Hp. unfold PluginHost.hasPlugin, PluginHost.plugins_has, PluginHost.slot_has.
  rewrite Hs, Hp. destruct (Obj.get ns (PluginHost._plugins h)); reflexivity.
Qed.

Lemma hasPlugin_other (h h' : PluginHost.t) (ns : string) :
  Obj.get ns (PluginHost._plugins h') = Obj.get ns (PluginHost._plugins h) ->
  PluginHost.slots h' !! ns = PluginHost.slots h !! ns ->
  PluginHost.hasPlugin proto member h' ns = PluginHost.hasPlugin proto member h ns.
Proof.
  intros Hg Hs. unfold PluginHost.hasPlugin, PluginHost.plugins_has, PluginHost.slot_has.
  rewrite Hg, Hs. reflexivity.
Qed.

(** What [_unplug(ns)] does to a registered namespace. *)
Lemma unplug_registered (h : PluginHost.t) (ns : string) (c : PluginHost.Class) :
  in_sync h ->
  PluginHost.str_truthy ns = true ->
  Obj.get ns (PluginHost._plugins h) = Some c ->
  let h2 := PluginHost.mk (Obj.del ns (PluginHost._plugins h))
              (delete ns (PluginHost.slots h))
              (PluginHost.trace h ++ [PluginHost.Destroy ns]) in
  PluginHost._unplug member (PluginHost.UNs ns) h = Ok h2 /\ in_sync h2.
Proof.
  intros [Hs Hnd] Ht Hg h2. split.
  - unfold PluginHost._unplug, PluginHost.unplug_ns, PluginHost.slot_has.
    rewrite Ht, Hs, Hg. reflexivity.
  - split; cbn [PluginHost.slots PluginHost._plugins h2].
    + intros ns'. destruct (decide (ns = ns')) as [<- | Hne].
      * rewrite lookup_delete_eq, get_del_eq. reflexivity.
      * rewrite lookup_delete_ne, get_del_ne by assumption. apply Hs.
    + rewrite keys_del. apply List.NoDup_filter. exact Hnd.
Qed.
End HostFacts.

(** X14. Plugging a class whose namespace is not a name the host or
    [Object.prototype] already answers to makes [hasPlugin] true for that
    namespace and leaves every other namespace as it was. A namespace that
    is free gets a new instance of the class; one that is taken keeps its
    instance and its registered class, and only [setAttrs] is called, also
    when the class plugged is another one. Unplugging the namespace destroys
    the instance and makes [hasPlugin] false again, and unplugging by class
    does so only when that very class is the registered one. *)
Theorem plug_unplug_round_trip
    (proto member : string -> bool) (h : PluginHost.t) (P : PluginHost.Class)
    (ns : string) (cfg : option PluginHost.Cfg) :
  in_sync h ->
  PluginHost.ns_of P = Some ns ->
  proto ns = false ->
  member ns = false ->
  exists h1,
    PluginHost._plug proto member (Some P) cfg h = Ok h1
    /\ in_sync h1
    /\ PluginHost.hasPlugin proto member h1 ns = true
    /\ (forall ns', ns' <> ns ->
          PluginHost.hasPlugin proto member h1 ns' = PluginHost.hasPlugin proto member h ns')
    /\ match Obj.get ns (PluginHost._plugins h) with
       | None =>
           Obj.get ns (PluginHost._plugins h1) = Some P
           /\ PluginHost.trace h1
              = PluginHost.trace h ++ [PluginHost.New ns P (default [] cfg)]
       | Some _ =>
           PluginHost._plugins h1 = PluginHost._plugins h
           /\ PluginHost.slots h1 = PluginHost.slots h
           /\ PluginHost.trace h1
              = PluginHost.trace h ++ [PluginHost.SetAttrs ns (default [] cfg)]
       end
    /\ exists h2,
         PluginHost._unplug member (PluginHost.UNs ns) h1 = Ok h2
         /\ in_sync h2
         /\ PluginHost.hasPlugin proto member h2 ns = false
         /\ PluginHost.trace h2 = PluginHost.trace h1 ++ [PluginHost.Destroy ns]
         /\ (forall ns', ns' <> ns ->
               PluginHost.hasPlugin proto member h2 ns'
               = PluginHost.hasPlugin proto member h ns')
         /\ PluginHost._unplug member (PluginHost.UClass P) h1
            = Ok (match Obj.get ns (PluginHost._plugins h1) with
                  | Some c' => if PluginHost.same_class c' P then h2 else h1
                  | None => h1
                  end).
Proof.
  intros Hsync Hns Hproto Hmember.
  pose proof (ns_of_truthy P ns Hns) as Htruthy.
  destruct (PluginHost._plug proto member (Some P) cfg h) as [h1|] eqn:Hplug.
  2:{ exfalso. revert Hplug. unfold PluginHost._plug. rewrite Hns.
      rewrite (hasPlugin_registered proto member h ns Hsync Hproto).
      destruct Hsync as [Hs _]. rewrite Hs.
      destruct (Obj.get ns (PluginHost._plugins h)); discriminate. }
  pose proof (plug_in_sync proto member P cfg h h1 Hsync Hplug) as Hsync1.
  exists h1. split; [reflexivity |]. split; [exact Hsync1 |].
  assert (Hshape :
            match Obj.get ns (PluginHost._plugins h) with
            | None =>
                h1 = PluginHost.mk (Obj.put ns P (PluginHost._plugins h))
                       (<[ns := P]> (PluginHost.slots h))
                       (PluginHost.trace h ++ [PluginHost.New ns P (default [] cfg)])
            | Some _ =>
                h1 = PluginHost.mk (PluginHost._plugins h) (PluginHost.slots h)
                       (PluginHost.trace h ++ [PluginHost.SetAttrs ns (default [] cfg)])
            end).
  { revert Hplug. unfold PluginHost._plug. rewrite Hns.
    rewrite (hasPlugin_registered proto member h ns Hsync Hproto).
    destruct Hsync as [Hs _]. rewrite Hs.
    destruct (Obj.get ns (PluginHost._plugins h)); intros [= <-]; reflexivity. }
  assert (Hreg1 : exists c1, Obj.get ns (PluginHost._plugins h1) = Some c1).
  { destruct (Obj.get ns (PluginHost._plugins h)) as [c0|] eqn:Hg; subst h1;
      cbn [PluginHost._plugins].
    - exists c0. exact Hg.
    - exists P. apply get_put_eq. }
  destruct Hreg1 as [c1 Hc1].
  assert (Hother1 : forall ns', ns' <> ns ->
             Obj.get ns' (PluginHost._plugins h1) = Obj.get ns' (PluginHost._plugins h)
             /\ PluginHost.slots h1 !! ns' = PluginHost.slots h !! ns').
  { intros ns' Hne.
    destruct (Obj.get ns (PluginHost._plugins h)); subst h1;
      cbn [PluginHost._plugins PluginHost.slots]; [split; reflexivity |].
    rewrite get_put_ne, lookup_insert_ne by congruence. split; reflexivity. }
  split.
  { rewrite (hasPlugin_registered proto member h1 ns Hsync1 Hproto), Hc1. reflexivity. }
  split.
  { intros ns' Hne. destruct (Hother1 ns' Hne). apply hasPlugin_other; assumption. }
  split.
  { destruct (Obj.get ns (PluginHost._plugins h)); subst h1;
      cbn [PluginHost._plugins PluginHost.slots PluginHost.trace].
    - split; [reflexivity |]. split; reflexivity.
    - split; [apply get_put_eq | reflexivity]. }
  destruct (unplug_registered member h1 ns c1 Hsync1 Htruthy Hc1) as [Hun Hsync2].
  eexists. split; [exact Hun |]. split; [exact Hsync2 |].
  split.
  { rewrite (hasPlugin_registered proto member _ ns Hsync2 Hproto).
    cbn [PluginHost._plugins]. rewrite get_del_eq. reflexivity. }
  split; [reflexivity |].
  split.
  { intros ns' Hne. destruct (Hother1 ns' Hne) as [Hg Hs].
    apply hasPlugin_other; cbn [PluginHost._plugins PluginHost.slots].
    - rewrite get_del_ne by congruence. exact Hg.
    - rewrite lookup_delete_ne by congruence. exact Hs. }
  rewrite Hc1.
  unfold PluginHost._unplug at 1. unfold PluginHost.unplug_ns. rewrite Hns, Hc1.
  destruct (PluginHost.same_class c1 P); [| reflexivity].
  unfold PluginHost.slot_has. destruct Hsync1 as [Hs1 _]. rewrite Hs1, Hc1. reflexivity.
Qed.

Lemma create_in_sync : in_sync PluginHost.create.
Proof.
  split; [intros ns; reflexivity | constructor].
Qed.

Lemma plug_unplug_round_trip_witness :
  exists h1,
    PluginHost._plug es3_prototype ScenarioPlugin.host_member
      (Some ScenarioPlugin.drop_plugin) None PluginHost.create = Ok h1
    /\ PluginHost.hasPlugin es3_prototype ScenarioPlugin.host_member h1 "drop" = true.
Proof.
  destruct (plug_unplug_round_trip es3_prototype ScenarioPlugin.host_member
              PluginHost.create ScenarioPlugin.drop_plugin "drop" None)
    as (h1 & Hplug & _ & Hhas & _);
    [exact create_in_sync | reflexivity | reflexivity | reflexivity |].
  exists h1. split; [exact Hplug | exact Hhas].
Defined.

(** The host of [ScenarioPlugin.with_drag] keeps its [Plugin.Drag] instance
    when a rival class for the namespace is plugged, and unplugging the
    rival class leaves it in place. *)
Example rival_is_ignored :
  exists h1,
    PluginHost._plug es3_prototype ScenarioPlugin.host_member
      (Some ScenarioPlugin.rival_plugin) None ScenarioPlugin.with_drag = Ok h1
    /\ Obj.get "dd" (PluginHost._plugins h1) = Some ScenarioPlugin.drag_plugin
    /\ PluginHost._unplug ScenarioPlugin.host_member
         (PluginHost.UClass ScenarioPlugin.rival_plugin) h1 = Ok h1.
Proof.
  eexists. split; [vm_compute; reflexivity |]. split; vm_compute; reflexivity.
Qed.

Lemma unplug_each_registered (member : string -> bool) (l : list string) :
  forall h : PluginHost.t,
    in_sync h ->
    List.NoDup l ->
    (forall ns, In ns l ->
                PluginHost.str_truthy ns = true
                /\ Obj.get ns (PluginHost._plugins h) <> None) ->
    exists h',
      PluginHost.unplug_each member l h = Ok h'
      /\ in_sync h'
      /\ PluginHost.trace h' = PluginHost.trace h ++ map PluginHost.Destroy l
      /\ (forall ns, In ns l -> Obj.get ns (PluginHost._plugins h') = None)
      /\ (forall ns, ~ In ns l ->
                     Obj.get ns (PluginHost._plugins h')
                     = Obj.get ns (PluginHost._plugins h)).
Proof.
  induction l as [|k l IH]; intros h Hsync Hnd Hreg; cbn [PluginHost.unplug_each].
  - exists h. split; [reflexivity |]. split; [exact Hsync |].
    split; [cbn [map]; rewrite app_nil_r; reflexivity |].
    split; [intros ns [] | intros ns _; reflexivity].
  - destruct (Hreg k (or_introl eq_refl)) as [Ht Hk].
    destruct (Obj.get k (PluginHost._plugins h)) as [c|] eqn:Hg; [| congruence].
    destruct (unplug_registered member h k c Hsync Ht Hg) as [Hun Hsync1].
    rewrite Hun. unfold mbind, Outcome_bind. cbv beta iota.
    inversion Hnd as [|? ? Hnotin Hnd']; subst.
    destruct (IH _ Hsync1 Hnd') as (h' & Hrun & Hsync' & Htrace & Hin' & Hout').
    { intros ns Hin. destruct (Hreg ns (or_intror Hin)) as [Ht' Hr'].
      split; [exact Ht' |]. cbn [PluginHost._plugins].
      rewrite get_del_ne; [exact Hr' |]. intros ->. contradiction. }
    exists h'. split; [exact Hrun |]. split; [exact Hsync' |].
    split; [| split].
    + rewrite Htrace. cbn [PluginHost.trace map]. rewrite <- app_assoc. reflexivity.
    + intros ns [<- | Hin]; [| apply Hin'; exact Hin].
      rewrite (Hout' k Hnotin). cbn [PluginHost._plugins]. apply get_del_eq.
    + intros ns Hnot. rewrite Hout' by (intros Hin; apply Hnot; right; exact Hin).
      cbn [PluginHost._plugins]. apply get_del_ne. intros ->. apply Hnot. left. reflexivity.
Qed.

Lemma get_all_None {A : Type} (o : list (string * A)) :
  (forall k, Obj.get k o = None) -> o = [].
Proof.
  destruct o as [|[k v] o]; [reflexivity |].
  intros H. specialize (H k). cbn [Obj.get] in H. rewrite String.eqb_refl in H.
  discriminate.
Qed.

(** X15. [unplug()] without an argument, and likewise with the empty
    string for a namespace, destroys every plugin instance in the order of
    plugging and leaves no plugin registered; [_destroyPlugins()], which
    calls [_unplug()] without a namespace, removes none. *)
Theorem unplug_all_versus_destroyPlugins (member : string -> bool) (h : PluginHost.t) :
  in_sync h ->
  Forall (fun ns => PluginHost.str_truthy ns = true) (Obj.keys (PluginHost._plugins h)) ->
  (exists h',
     PluginHost.unplug member PluginHost.UNone h = Ok h'
     /\ PluginHost.unplug member (PluginHost.UNs "") h = Ok h'
     /\ PluginHost._plugins h' = []
     /\ PluginHost.slots h' = ∅
     /\ PluginHost.trace h'
        = PluginHost.trace h ++ map PluginHost.Destroy (Obj.keys (PluginHost._plugins h)))
  /\ PluginHost._destroyPlugins member h = Ok h.
Proof.
  intros Hsync Htruthy. split; [| reflexivity].
  destruct (unplug_each_registered member (Obj.keys (PluginHost._plugins h)) h Hsync)
    as (h' & Hrun & Hsync' & Htrace & Hin & Hout).
  { destruct Hsync as [_ Hnd]. exact Hnd. }
  { intros ns Hin. split.
    - rewrite List.Forall_forall in Htruthy. apply Htruthy. exact Hin.
    - intros Hnone. apply get_None_keys in Hnone. contradiction. }
  assert (Hempty : PluginHost._plugins h' = []).
  { apply get_all_None. intros k.
    destruct (In_dec String.string_dec k (Obj.keys (PluginHost._plugins h))) as [Hk | Hk].
    - apply Hin. exact Hk.
    - rewrite (Hout k Hk). apply get_None_keys. exact Hk. }
  exists h'. split; [exact Hrun |]. split; [exact Hrun |].
  split; [exact Hempty |]. split; [| exact Htrace].
  apply map_eq. intros ns. destruct Hsync' as [Hs _]. rewrite Hs, Hempty.
  rewrite lookup_empty. reflexivity.
Qed.

Lemma with_drag_in_sync : in_sync ScenarioPlugin.with_drag.
Proof.
  apply (plug_in_sync es3_prototype ScenarioPlugin.host_member ScenarioPlugin.drag_plugin
           None PluginHost.create); [exact create_in_sync |].
  vm_compute. reflexivity.
Qed.

Lemma unplug_all_versus_destroyPlugins_witness :
  (exists h',
     PluginHost.unplug ScenarioPlugin.host_member PluginHost.UNone ScenarioPlugin.with_drag
       = Ok h'
     /\ PluginHost._plugins h' = [])
  /\ PluginHost._destroyPlugins ScenarioPlugin.host_member ScenarioPlugin.with_drag
     = Ok ScenarioPlugin.with_drag.
Proof.
  destruct (unplug_all_versus_destroyPlugins ScenarioPlugin.host_member
              ScenarioPlugin.with_drag) as [(h' & Hrun & _ & Hempty & _) Hdestroy].
  - exact with_drag_in_sync.
  - vm_compute. constructor; [reflexivity | constructor].
  - split; [exists h'; split; assumption | exact Hdestroy].
Defined.



(** ** Plugins registered on a host class *)

(** X17. [Plugin.Host.plug] and [Plugin.Host.unplug] never change [Y.Base]
    itself. On another host class, unplugging raises a TypeError while the
    class has no [_PLUG] object, that is before anything was plugged on it;
    plugging a named class and unplugging it again removes it from [_PLUG]
    without recording it in [_UNPLUG]; and unplugging a class that is not in
    [_PLUG] records it in [_UNPLUG]. *)
Theorem static_plug_unplug
    (proto : string -> bool) (hc : StaticPlug.HostClass) (c : PluginHost.Class)
    (n : string) :
  PluginHost.NAME c = Some n ->
  PluginHost.str_truthy n = true ->
  proto n = false ->
  (StaticPlug.is_Base hc = true ->
   forall p cfg, StaticPlug.plug hc p cfg = Ok hc /\ StaticPlug.unplug proto hc p = Ok hc)
  /\ (StaticPlug.is_Base hc = false ->
      (StaticPlug._PLUG hc = None ->
       StaticPlug.unplug proto hc (StaticPlug.One (StaticPlug.EClass c)) = TypeError)
      /\ (exists hc1 hc2,
            StaticPlug.plug hc (StaticPlug.One (StaticPlug.EClass c)) None = Ok hc1
            /\ (Obj.get n <$> StaticPlug._PLUG hc1) = Some (Some (StaticPlug.EClass c))
            /\ StaticPlug.unplug proto hc1 (StaticPlug.One (StaticPlug.EClass c)) = Ok hc2
            /\ (Obj.get n <$> StaticPlug._PLUG hc2) = Some None
            /\ StaticPlug._UNPLUG hc2 = Some (default [] (StaticPlug._UNPLUG hc)))
      /\ (forall o, StaticPlug._PLUG hc = Some o -> Obj.get n o = None ->
            exists hc',
              StaticPlug.unplug proto hc (StaticPlug.One (StaticPlug.EClass c)) = Ok hc'
              /\ StaticPlug._PLUG hc' = Some o
              /\ (Obj.get n <$> StaticPlug._UNPLUG hc') = Some (Some (StaticPlug.EClass c)))).
Proof.
  intros Hname Htruthy Hproto. split.
  - intros HB p cfg. unfold StaticPlug.plug, StaticPlug.unplug. rewrite HB.
    split; reflexivity.
  - intros HB.
    assert (Hkey : StaticPlug.key (StaticPlug.NAME_of (StaticPlug.EClass c)) = n).
    { cbn [StaticPlug.NAME_of]. rewrite Hname. reflexivity. }
    split; [| split].
    + intros HP. unfold StaticPlug.unplug. rewrite HB, HP. reflexivity.
    + unfold StaticPlug.plug. rewrite HB.
      cbn [StaticPlug.plug_each]. unfold StaticPlug.plug_name.
      cbn [StaticPlug.NAME_of]. rewrite Hname. cbn [StaticPlug.name_truthy].
      rewrite Htruthy. unfold mbind, Outcome_bind. cbv beta iota.
      cbn [StaticPlug.key default from_option id].
      eexists _, _. split; [reflexivity |].
      cbn [StaticPlug._PLUG fmap option_fmap option_map].
      split; [rewrite get_put_eq; reflexivity |].
      unfold StaticPlug.unplug. cbn [StaticPlug.is_Base StaticPlug._PLUG StaticPlug._UNPLUG].
      cbn [StaticPlug.unplug_each]. rewrite Hkey, get_put_eq.
      unfold mbind, Outcome_bind. cbv beta iota. cbn [fst snd].
      split; [reflexivity |].
      cbn [StaticPlug._PLUG StaticPlug._UNPLUG fmap option_fmap option_map].
      split; [rewrite get_del_eq; reflexivity | reflexivity].
    + intros o HP Hfree. unfold StaticPlug.unplug. rewrite HB, HP.
      cbn [StaticPlug.unplug_each]. rewrite Hkey, Hfree, Hproto.
      unfold mbind, Outcome_bind. cbv beta iota. cbn [fst snd].
      eexists. split; [reflexivity |].
      cbn [StaticPlug._PLUG StaticPlug._UNPLUG fmap option_fmap option_map].
      split; [reflexivity | rewrite get_put_eq; reflexivity].
Qed.

Lemma static_plug_unplug_witness :
  StaticPlug.unplug es3_prototype ScenarioStatic.fresh_class
    (StaticPlug.One (StaticPlug.EClass ScenarioPlugin.drop_plugin)) = TypeError.
Proof.
  destruct (static_plug_unplug es3_prototype ScenarioStatic.fresh_class
              ScenarioPlugin.drop_plugin "dd-drop-plugin")
    as (_ & H); [reflexivity | reflexivity | reflexivity |].
  destruct H as (H & _); [reflexivity |]. apply H. reflexivity.
Defined.

(** ** Setting up and tearing down the class hierarchy *)

Lemma initialized_app (tr tr' : list BaseHierarchy.Effect) :
  initialized (tr ++ tr') = initialized tr ++ initialized tr'.
Proof. unfold initialized. apply flat_map_app. Qed.

Lemma initialized_exts (c : BaseHierarchy.Class) (exts : list string) :
  initialized (map (BaseHierarchy.Ext c) exts) = [].
Proof. induction exts as [|e exts IH]; [reflexivity | exact IH]. Qed.

Lemma received_app (a : string) (tr tr' : list BaseHierarchy.Effect) :
  received a (tr ++ tr') = received a tr ++ received a tr'.
Proof. unfold received. apply flat_map_app. Qed.

Lemma received_exts (a : string) (c : BaseHierarchy.Class) (exts : list string) :
  received a (map (BaseHierarchy.Ext c) exts) = [].
Proof. induction exts as [|e exts IH]; [reflexivity | exact IH]. Qed.

Lemma init_class_trace (proto : string -> bool) (c : BaseHierarchy.Class)
    (attrCfgs : list string) (tr : list BaseHierarchy.Effect) :
  exists added,
    snd (BaseHierarchy.init_class proto c (attrCfgs, tr)) = tr ++ added
    /\ fst (BaseHierarchy.init_class proto c (attrCfgs, tr))
       = snd (BaseHierarchy._filterAttrCfgs proto c attrCfgs)
    /\ initialized added = (if BaseHierarchy.initializer c then [c] else [])
    /\ forall a, received a added
                 = match fst (BaseHierarchy._filterAttrCfgs proto c attrCfgs) with
                   | Some cfgs => if existsb (String.eqb a) cfgs then [c] else []
                   | None => []
                   end.
Proof.
  unfold BaseHierarchy.init_class.
  destruct (BaseHierarchy._filterAttrCfgs proto c attrCfgs) as [cfgs rest].
  cbn [fst snd].
  set (pre := match BaseHierarchy._yuibuild c with
              | Some (exts, false) => map (BaseHierarchy.Ext c) exts
              | _ => []
              end).
  assert (Hpre : match BaseHierarchy._yuibuild c with
                 | Some (exts, false) => tr ++ map (BaseHierarchy.Ext c) exts
                 | _ => tr
                 end = tr ++ pre).
  { unfold pre. destruct (BaseHierarchy._yuibuild c) as [[exts [|]]|];
      rewrite ?app_nil_r; reflexivity. }
  rewrite Hpre.
  assert (Hpre_init : initialized pre = []).
  { unfold pre. destruct (BaseHierarchy._yuibuild c) as [[exts [|]]|];
      [reflexivity | apply initialized_exts | reflexivity]. }
  assert (Hpre_recv : forall a, received a pre = []).
  { intros a. unfold pre.
    destruct (BaseHierarchy._yuibuild c) as [[exts [|]]|]; try reflexivity.
    apply received_exts. }
  exists (pre ++ [BaseHierarchy.AddAttrs c cfgs]
          ++ if BaseHierarchy.initializer c then [BaseHierarchy.Initializer c] else []).
  split; [| split; [| split]].
  - destruct (BaseHierarchy.initializer c); cbn [snd];
      rewrite <- ?app_assoc, ?app_nil_r; reflexivity.
  - destruct (BaseHierarchy.initializer c); reflexivity.
  - rewrite !initialized_app, Hpre_init.
    destruct (BaseHierarchy.initializer c); reflexivity.
  - intros a. rewrite !received_app, Hpre_recv.
    destruct (BaseHierarchy.initializer c), cfgs as [cfgs|]; cbn [received flat_map app];
      try reflexivity;
      destruct (existsb (String.eqb a) cfgs); reflexivity.
Qed.

Lemma initHierarchy_initialized (proto : string -> bool) (classes : list BaseHierarchy.Class)
    (attrCfgs : list string) :
  initialized (snd (BaseHierarchy._initHierarchy proto classes attrCfgs))
  = rev (List.filter BaseHierarchy.initializer classes).
Proof.
  unfold BaseHierarchy._initHierarchy.
  induction classes as [|c l IH]; cbn [fold_right List.filter]; [reflexivity |].
  destruct (fold_right (BaseHierarchy.init_class proto) (attrCfgs, []) l) as [rest tr] eqn:Hl.
  cbn [snd] in IH.
  destruct (init_class_trace proto c rest tr) as (added & Htr & _ & Hinit & _).
  rewrite Htr, initialized_app, IH, Hinit.
  destruct (BaseHierarchy.initializer c); cbn [rev]; rewrite ?app_nil_r; reflexivity.
Qed.

Lemma destroyHierarchy_destroyed (classes : list BaseHierarchy.Class) :
  destroyed (BaseHierarchy._destroyHierarchy classes)
  = List.filter BaseHierarchy.destructor classes.
Proof.
  unfold destroyed, BaseHierarchy._destroyHierarchy.
  induction classes as [|c l IH]; cbn [flat_map List.filter]; [reflexivity |].
  rewrite flat_map_app, IH. destruct (BaseHierarchy.destructor c); reflexivity.
Qed.

(** X18. Setting up an instance calls the initializers of its class chain
    from the root class down to the instance's own class, each once; tearing
    it down calls the destructors from the instance's own class up to the
    root. When the classes that have an initializer are those that have a
    destructor, the destructors run in exactly the reverse order of the
    initializers. *)
Theorem hierarchy_order
    (proto : string -> bool) (c : BaseHierarchy.Class) (attrCfgs : list string) :
  let classes := BaseHierarchy._classes c in
  let tr := snd (BaseHierarchy._initHierarchy proto classes attrCfgs) in
  initialized tr = rev (List.filter BaseHierarchy.initializer classes)
  /\ destroyed (BaseHierarchy._destroyHierarchy classes)
     = List.filter BaseHierarchy.destructor classes
  /\ ((forall k, In k classes -> BaseHierarchy.initializer k = BaseHierarchy.destructor k) ->
      destroyed (BaseHierarchy._destroyHierarchy classes) = rev (initialized tr))
  /\ (forall s, BaseHierarchy.superclass c = Some s ->
        initialized tr
        = initialized (snd (BaseHierarchy._initHierarchy proto (BaseHierarchy._classes s)
                              attrCfgs))
          ++ (if BaseHierarchy.initializer c then [c] else [])).
Proof.
  intros classes tr. subst tr.
  split; [apply initHierarchy_initialized |].
  split; [apply destroyHierarchy_destroyed |].
  split.
  - intros Hsame. rewrite initHierarchy_initialized, destroyHierarchy_destroyed, rev_involutive.
    apply List.filter_ext_in. intros k Hk. symmetry. apply Hsame. exact Hk.
  - intros s Hs. rewrite !initHierarchy_initialized. subst classes.
    destruct c as [n a i d y sup]. cbn [BaseHierarchy.superclass] in Hs. subst sup.
    cbn [BaseHierarchy._classes BaseHierarchy.superclass List.filter
         BaseHierarchy.initializer].
    destruct i; cbn [rev]; rewrite ?app_nil_r; reflexivity.
Qed.

(** ** Handing the attributes to the classes *)

Lemma existsb_str_In (a : string) (l : list string) :
  existsb (String.eqb a) l = true <-> In a l.
Proof.
  rewrite existsb_exists. split.
  - intros (x & Hx & Heq). apply String.eqb_eq in Heq. subst. exact Hx.
  - intros Ha. exists a. split; [exact Ha | apply String.eqb_refl].
Qed.

Lemma filter_loop_spec (proto : string -> bool) (attrs : list string) :
  forall (cfgs : option (list string)) (allCfgs : list string),
    snd (BaseHierarchy.filter_loop proto attrs cfgs allCfgs)
    = List.filter (fun k => negb (existsb (String.eqb k) attrs)) allCfgs
    /\ forall a, proto a = false ->
         ((exists l, fst (BaseHierarchy.filter_loop proto attrs cfgs allCfgs) = Some l
                     /\ In a l)
          <-> (exists l, cfgs = Some l /\ In a l) \/ (In a attrs /\ In a allCfgs)).
Proof.
  induction attrs as [|attr attrs IH]; intros cfgs allCfgs; cbn [BaseHierarchy.filter_loop].
  - cbn [fst snd existsb negb]. split.
    + induction allCfgs as [|k l IHl]; [reflexivity |]. cbn [List.filter]. congruence.
    + intros a _. split; [intros H; left; exact H |].
      intros [H | [[] _]]. exact H.
  - destruct (existsb (String.eqb attr) allCfgs || proto attr) eqn:Hcond.
    + destruct (IH (Some (default [] cfgs ++ [attr]))
                  (List.filter (fun k => negb (String.eqb attr k)) allCfgs)) as [Hrest Hcfgs].
      split.
      * rewrite Hrest. clear.
        induction allCfgs as [|k l IHl]; [reflexivity |].
        cbn [List.filter existsb].
        rewrite (String.eqb_sym k attr).
        destruct (String.eqb attr k); cbn [negb orb List.filter]; [exact IHl |].
        destruct (existsb (String.eqb k) attrs); cbn [negb]; [exact IHl |].
        rewrite IHl. reflexivity.
      * intros a Ha. rewrite (Hcfgs a Ha). rewrite List.filter_In, negb_true_iff.
        split.
        -- intros [(l & [= <-] & Hin) | (Hin1 & Hin2 & Hne)].
           ++ apply in_app_iff in Hin. destruct Hin as [Hin | [<- | []]].
              ** left. destruct cfgs as [l0|]; [exists l0; split; [reflexivity | exact Hin] |].
                 destruct Hin.
              ** right. split; [left; reflexivity |].
                 apply orb_true_iff in Hcond. destruct Hcond as [Hc | Hc]; [| congruence].
                 apply existsb_str_In. exact Hc.
           ++ right. split; [right; exact Hin1 | exact Hin2].
        -- intros [(l & -> & Hin) | ([<- | Hin1] & Hin2)].
           ++ left. eexists. split; [reflexivity |]. cbn [default from_option id].
              apply in_app_iff. left. exact Hin.
           ++ left. eexists. split; [reflexivity |]. apply in_app_iff. right. left. reflexivity.
           ++ destruct (String.eqb_spec attr a) as [-> | Hne].
              ** left. eexists. split; [reflexivity |]. apply in_app_iff. right. left.
                 reflexivity.
              ** right. split; [exact Hin1 |]. split; [exact Hin2 | reflexivity].
    + destruct (IH cfgs allCfgs) as [Hrest Hcfgs]. split.
      * rewrite Hrest. apply orb_false_iff in Hcond. destruct Hcond as [Hc _].
        apply List.filter_ext_in. intros k Hk. cbn [existsb].
        destruct (String.eqb_spec k attr) as [-> | Hne]; [| reflexivity].
        assert (existsb (String.eqb attr) allCfgs = true) by (apply existsb_str_In; exact Hk).
        congruence.
      * intros a Ha. rewrite (Hcfgs a Ha). apply orb_false_iff in Hcond.
        destruct Hcond as [Hc _].
        split; (intros [H | [Hin1 Hin2]]; [left; exact H | right]).
        -- split; [right; exact Hin1 | exact Hin2].
        -- split; [| exact Hin2]. destruct Hin1 as [<- | Hin1]; [| exact Hin1].
           assert (existsb (String.eqb attr) allCfgs = true)
             by (apply existsb_str_In; exact Hin2).
           congruence.
Qed.

Lemma filterAttrCfgs_spec (proto : string -> bool) (c : BaseHierarchy.Class)
    (allCfgs : list string) :
  snd (BaseHierarchy._filterAttrCfgs proto c allCfgs)
  = List.filter (fun k => negb (declares k c)) allCfgs
  /\ forall a, proto a = false ->
       match fst (BaseHierarchy._filterAttrCfgs proto c allCfgs) with
       | Some cfgs => existsb (String.eqb a) cfgs
       | None => false
       end = declares a c && existsb (String.eqb a) allCfgs.
Proof.
  unfold BaseHierarchy._filterAttrCfgs, declares.
  destruct (BaseHierarchy.ATTRS c) as [attrs|]; cbn [fst snd].
  - destruct (filter_loop_spec proto attrs None allCfgs) as [Hrest Hcfgs].
    split; [exact Hrest |].
    intros a Ha. specialize (Hcfgs a Ha). apply bool_eq_iff.
    rewrite andb_true_iff, !existsb_str_In.
    destruct (fst (BaseHierarchy.filter_loop proto attrs None allCfgs)) as [l|].
    + rewrite existsb_str_In. split.
      * intros Hin. destruct Hcfgs as [H _].
        destruct H as [(l0 & Hl0 & _) | H]; [exists l; split; [reflexivity | exact Hin]
                                           | discriminate | exact H].
      * intros H. destruct Hcfgs as [_ Hback].
        destruct (Hback (or_intror H)) as (l0 & [= <-] & Hin). exact Hin.
    + split; [discriminate |].
      intros H. destruct Hcfgs as [_ Hback].
      destruct (Hback (or_intror H)) as (l0 & Hl0 & _). discriminate.
  - split.
    + induction allCfgs as [|k l IHl]; [reflexivity |]. cbn [List.filter negb] in *. congruence.
    + intros a _. reflexivity.
Qed.

Lemma find_snoc {A : Type} (f : A -> bool) (l : list A) (x : A) :
  find f (l ++ [x])
  = match find f l with
    | Some y => Some y
    | None => if f x then Some x else None
    end.
Proof.
  induction l as [|y l IH]; cbn [app find]; [reflexivity |].
  destruct (f y); [reflexivity | exact IH].
Qed.

Lemma find_rev_None {A : Type} (f : A -> bool) (l : list A) :
  find f (rev l) = None <-> existsb f l = false.
Proof.
  induction l as [|x l IH]; cbn [rev existsb find]; [split; reflexivity |].
  rewrite find_snoc. destruct (find f (rev l)) as [y|] eqn:Hfind.
  - split; [discriminate |]. intros H. apply orb_false_iff in H. destruct H as [_ H].
    apply IH in H. discriminate.
  - destruct IH as [IH _]. rewrite (IH eq_refl), orb_false_r.
    destruct (f x); split; congruence.
Qed.

Lemma initHierarchy_received (proto : string -> bool) (attrCfgs : list string)
    (classes : list BaseHierarchy.Class) :
  fst (BaseHierarchy._initHierarchy proto classes attrCfgs)
  = List.filter (fun k => negb (existsb (declares k) classes)) attrCfgs
  /\ forall a, proto a = false ->
       received a (snd (BaseHierarchy._initHierarchy proto classes attrCfgs))
       = if existsb (String.eqb a) attrCfgs
         then match find (declares a) (rev classes) with
              | Some c => [c]
              | None => []
              end
         else [].
Proof.
  unfold BaseHierarchy._initHierarchy.
  induction classes as [|c l [IHrest IHrecv]]; cbn [fold_right].
  - cbn [fst snd existsb negb rev find received flat_map]. split.
    + induction attrCfgs as [|k l IHl]; [reflexivity |]. cbn [List.filter]. congruence.
    + intros a _. destruct (existsb (String.eqb a) attrCfgs); reflexivity.
  - destruct (fold_right (BaseHierarchy.init_class proto) (attrCfgs, []) l) as [rest tr].
    cbn [fst snd] in IHrest, IHrecv.
    destruct (init_class_trace proto c rest tr) as (added & Htr & Hfst & _ & Hadded).
    destruct (filterAttrCfgs_spec proto c rest) as [Hrest Hcfgs].
    split.
    + rewrite Hfst, Hrest, IHrest. clear.
      induction attrCfgs as [|k ks IHk]; [reflexivity |].
      cbn [List.filter existsb].
      destruct (existsb (declares k) l); cbn [negb orb List.filter].
      * rewrite orb_true_r. cbn [negb]. exact IHk.
      * rewrite orb_false_r. destruct (declares k c); cbn [negb]; [exact IHk |].
        rewrite IHk. reflexivity.
    + intros a Ha. rewrite Htr, received_app, (IHrecv a Ha), (Hadded a).
      specialize (Hcfgs a Ha). cbn [rev]. rewrite find_snoc.
      assert (Hhas : (if match fst (BaseHierarchy._filterAttrCfgs proto c rest) with
                         | Some cfgs => existsb (String.eqb a) cfgs
                         | None => false
                         end then [c] else [])
                     = match fst (BaseHierarchy._filterAttrCfgs proto c rest) with
                       | Some cfgs => if existsb (String.eqb a) cfgs then [c] else []
                       | None => []
                       end).
      { destruct (fst (BaseHierarchy._filterAttrCfgs proto c rest)); reflexivity. }
      rewrite <- Hhas, Hcfgs. clear Hhas Hcfgs.
      assert (Hin_rest : existsb (String.eqb a) rest
                         = existsb (String.eqb a) attrCfgs
                           && negb (existsb (declares a) l)).
      { rewrite IHrest. apply bool_eq_iff.
        rewrite andb_true_iff, !existsb_str_In, List.filter_In. reflexivity. }
      rewrite Hin_rest.
      destruct (existsb (String.eqb a) attrCfgs); cbn [andb];
        [| rewrite andb_false_r; reflexivity].
      destruct (find (declares a) (rev l)) as [y|] eqn:Hfind.
      * assert (Hex : existsb (declares a) l = true).
        { destruct (existsb (declares a) l) eqn:Hex; [reflexivity |].
          apply find_rev_None in Hex. congruence. }
        rewrite Hex. cbn [negb]. rewrite andb_false_r. reflexivity.
      * apply find_rev_None in Hfind. rewrite Hfind. cbn [negb].
        rewrite andb_true_r. destruct (declares a c); reflexivity.
Qed.

(** X19. While the hierarchy is set up, an attribute that is not a name of
    [Object.prototype] is handed to [addAttrs] at most once: when it is among
    the aggregated configurations, with the class nearest the root that
    lists it in its [ATTRS], and with no class otherwise. A subclass that
    lists an attribute of a superclass again is never handed it. What is
    left of the aggregated configurations afterwards are the attributes
    that no class of the chain lists. *)
Theorem attributes_added_once
    (proto : string -> bool) (classes : list BaseHierarchy.Class)
    (attrCfgs : list string) (a : string) :
  proto a = false ->
  received a (snd (BaseHierarchy._initHierarchy proto classes attrCfgs))
  = (if existsb (String.eqb a) attrCfgs
     then match find (declares a) (rev classes) with
          | Some c => [c]
          | None => []
          end
     else [])
  /\ (forall l1 c l2,
        classes = l1 ++ c :: l2 -> declares a c = true -> In a attrCfgs ->
        exists w,
          received a (snd (BaseHierarchy._initHierarchy proto classes attrCfgs)) = [w]
          /\ In w (c :: l2))
  /\ fst (BaseHierarchy._initHierarchy proto classes attrCfgs)
     = List.filter (fun k => negb (existsb (declares k) classes)) attrCfgs.
Proof.
  intros Ha. destruct (initHierarchy_received proto attrCfgs classes) as [Hrest Hrecv].
  split; [exact (Hrecv a Ha) |]. split; [| exact Hrest].
  intros l1 c l2 Hcl Hdecl Hin.
  rewrite (Hrecv a Ha).
  assert (Hex : existsb (String.eqb a) attrCfgs = true) by (apply existsb_str_In; exact Hin).
  rewrite Hex, Hcl, rev_app_distr. cbn [rev].
  rewrite <- app_assoc. cbn [app].
  assert (Hfind : exists w, find (declares a) (rev l2 ++ c :: rev l1) = Some w
                            /\ In w (rev l2 ++ [c])).
  { clear - Hdecl. induction (rev l2) as [|y ys IH]; cbn [app find].
    - rewrite Hdecl. exists c. split; [reflexivity | left; reflexivity].
    - destruct (declares a y); [exists y; split; [reflexivity | left; reflexivity] |].
      destruct IH as (w & Hw & Hin). exists w. split; [exact Hw | right; exact Hin]. }
  destruct Hfind as (w & Hw & Hin'). rewrite Hw. exists w. split; [reflexivity |].
  apply in_app_iff in Hin'. destruct Hin' as [Hin' | [<- | []]];
    [right; apply in_rev; exact Hin' | left; reflexivity].
Qed.

Lemma attributes_added_once_witness :
  received "lock"
    (snd (BaseHierarchy._initHierarchy es3_prototype
            (BaseHierarchy._classes ScenarioHierarchy.slider)
            ScenarioHierarchy.slider_attrs))
  = [ScenarioHierarchy.drag].
Proof.
  destruct (attributes_added_once es3_prototype
              (BaseHierarchy._classes ScenarioHierarchy.slider)
              ScenarioHierarchy.slider_attrs "lock") as (H & _); [reflexivity |].
  rewrite H. reflexivity.
Defined.

(** Setting up a [slider] runs the initializer of [DD.Drag], then its own;
    tearing it down runs the destructors the other way round. *)
Example slider_order :
  initialized (snd (BaseHierarchy._initHierarchy es3_prototype
                      (BaseHierarchy._classes ScenarioHierarchy.slider)
                      ScenarioHierarchy.slider_attrs))
  = [ScenarioHierarchy.drag; ScenarioHierarchy.slider]
  /\ destroyed (BaseHierarchy._destroyHierarchy
                  (BaseHierarchy._classes ScenarioHierarchy.slider))
     = [ScenarioHierarchy.slider; ScenarioHierarchy.drag].
Proof. split; reflexivity. Qed.

(** ** Destroying a Drop during a drag *)

Lemma lookup_loop_no_shim (dom : Node.Dom) (m : DDM.t) (c : DropRef) (d : Drop.t) :
  DDM.drops m !! c = Some d -> Drop.shim d = None ->
  forall l, In c l -> DDM._lookup_loop dom m l = TypeError.
Proof.
  intros Hd Hs. induction l as [|x l IH]; intros Hin; [destruct Hin |].
  cbn [DDM._lookup_loop]. unfold DDM.deref.
  destruct (DDM.drops m !! x) as [dx|] eqn:Hx; [| reflexivity].
  unfold mbind, Outcome_bind. cbv beta iota.
  destruct (Drop.shim dx) as [s|] eqn:Hsx; [| reflexivity].
  destruct Hin as [-> | Hin]; [congruence |].
  rewrite (IH Hin). reflexivity.
Qed.

(** X20. Destroying a Drop takes it off the targets at once but leaves it
    in [validDrops], where the current drag put it: with the default
    [useHash] the next [_lookup], and so the next [_handleTargetOver], raises
    a TypeError on the missing shim. The next target activation no longer
    lists the Drop. *)
Theorem destroyed_drop_mid_drag (dom : Node.Dom) (m : DDM.t) (c : DropRef) (d : Drop.t) :
  DDM.drops m !! c = Some d ->
  In c (DDM.validDrops m) ->
  DDM.useHash m = true ->
  exists m',
    DropLife.destructor m c = Ok m'
    /\ ~ In c (DDM.targets m')
    /\ DDM.validDrops m' = DDM.validDrops m
    /\ DDM._lookup dom m' = TypeError
    /\ (forall fuel, Targets._handleTargetOver dom (S fuel) m' = Some TypeError)
    /\ (forall proto fuel m'',
          Targets._activateTargets dom proto fuel m' = Some (Ok m'') ->
          ~ In c (DDM.validDrops m'')).
Proof.
  intros Hd Hvalid Hhash.
  unfold DropLife.destructor, DDM.deref. rewrite Hd.
  unfold mbind, Outcome_bind. cbv beta iota zeta.
  eexists. split; [reflexivity |].
  set (m' := match Drop.shim d with
             | Some _ => DDM.store (Registry._unregTarget c m) c (DropLife.clear_shim d)
             | None => Registry._unregTarget c m
             end).
  assert (Htargets : DDM.targets m'
                     = List.filter (fun E => negb (E =? c)%nat) (DDM.targets m)).
  { unfold m'. destruct (Drop.shim d); reflexivity. }
  assert (Hv : DDM.validDrops m' = DDM.validDrops m).
  { unfold m'. destruct (Drop.shim d); reflexivity. }
  assert (Hu : DDM.useHash m' = true).
  { unfold m'. destruct (Drop.shim d); exact Hhash. }
  assert (Hc : exists d', DDM.drops m' !! c = Some d' /\ Drop.shim d' = None).
  { unfold m'. destruct (Drop.shim d) eqn:Hs.
    - exists (DropLife.clear_shim d). unfold DDM.store, DDM.set_drops; cbn [DDM.drops].
      rewrite lookup_insert_eq. split; reflexivity.
    - exists d. split; [exact Hd | exact Hs]. }
  destruct Hc as (d' & Hd' & Hs').
  assert (Hnot : ~ In c (DDM.targets m')).
  { rewrite Htargets. intros Hin. apply List.filter_In in Hin. destruct Hin as [_ Hne].
    rewrite Nat.eqb_refl in Hne. discriminate. }
  assert (Hlookup : DDM._lookup dom m' = TypeError).
  { unfold DDM._lookup. rewrite Hu. cbn [negb].
    apply (lookup_loop_no_shim dom m' c d' Hd' Hs'). rewrite Hv. exact Hvalid. }
  split; [exact Hnot |]. split; [exact Hv |]. split; [exact Hlookup |].
  split.
  - intros fuel. cbn [Targets._handleTargetOver]. rewrite Hlookup. reflexivity.
  - intros proto fuel m'' Hrun Hin. apply Hnot.
    exact (activateTargets_subset_targets dom proto fuel m' m'' Hrun c Hin).
Qed.

Lemma destroyed_drop_mid_drag_witness :
  exists m',
    DropLife.destructor ScenarioDestroy.activated 1%nat = Ok m'
    /\ DDM._lookup Scenario.page m' = TypeError.
Proof.
  assert (Hv : DDM.validDrops ScenarioDestroy.activated = [1%nat])
    by (vm_compute; reflexivity).
  destruct (DDM.drops ScenarioDestroy.activated !! 1%nat) as [d|] eqn:Hd;
    [| vm_compute in Hd; discriminate].
  destruct (destroyed_drop_mid_drag Scenario.page ScenarioDestroy.activated 1%nat d)
    as (m' & Hrun & _ & _ & Hlookup & _).
  - exact Hd.
  - rewrite Hv. left. reflexivity.
  - vm_compute. reflexivity.
  - exists m'. split; [exact Hrun | exact Hlookup].
Defined.

(** ** Pointer moves while no shim is active *)

Lemma isOverTarget_defined (dom : Node.Dom) (m : DDM.t) (c : DropRef) (d : Drop.t) :
  DDM.drops m !! c = Some d -> Drop.shim d <> None -> Drop.region d <> None ->
  exists b, DDM.isOverTarget dom m (Some c) = Ok b.
Proof.
  intros Hd Hs Hr. unfold DDM.isOverTarget, DDM.deref.
  destruct (DDM.activeDrag m) as [drag|]; [| eexists; reflexivity].
  destruct (Drag.mouseXY drag) as [C|]; [| eexists; reflexivity].
  rewrite Hd. unfold mbind, Outcome_bind. cbv beta iota.
  destruct (Drop.shim d) as [s|]; [| congruence].
  destruct (Drop.region d) as [r|]; [| congruence].
  destruct (Drag.dragMode (Drag.cfg drag) =? DDM.STRICT); eexists; reflexivity.
Qed.

Lemma handleOut_exact (dom : Node.Dom) (m : DDM.t) (x : DropRef) (d : Drop.t) (b : bool)
    (drag : Drag.t) :
  DDM.drops m !! x = Some d ->
  DDM.isOverTarget dom m (Some x) = Ok b ->
  DDM.activeDrag m = Some drag ->
  exists m1,
    DropShim._handleOut dom m x = Ok m1
    /\ quiet m m1
    /\ DDM.activeDrop m1 = DDM.activeDrop m
    /\ DDM.targets m1 = DDM.targets m
    /\ DDM.otherDrops m1
       = (if b || negb (Drop.overTarget d) then DDM.otherDrops m
          else List.filter (fun E => negb (E =? x)%nat) (DDM.otherDrops m))
    /\ (exists d1, DDM.drops m1 !! x = Some d1
                   /\ Drop.overTarget d1 = Drop.overTarget d && b)
    /\ (forall y, y <> x -> DDM.drops m1 !! y = DDM.drops m !! y).
Proof.
  intros Hd Hover Hact.
  assert (Hq : forall m1, DropShim._handleOut dom m x = Ok m1 -> quiet m m1)
    by (intros m1; apply handleOut_quiet).
  revert Hq. unfold DropShim._handleOut. rewrite Hover.
  unfold mbind, Outcome_bind. cbv beta iota.
  destruct b.
  - intros Hq. exists m. split; [reflexivity |]. split; [apply quiet_refl |].
    cbn [orb]. repeat (split; [reflexivity |]).
    split; [exists d; split; [exact Hd | rewrite andb_true_r; reflexivity] |].
    intros y _. reflexivity.
  - unfold DDM.deref. rewrite Hd. cbv beta iota.
    destruct (Drop.overTarget d) eqn:Ho.
    + cbv zeta. unfold DropShim._removeActiveShim.
      cbn [DDM.activeDrag DDM.store DDM.set_drops DDM.set_activeShims]. rewrite Hact.
      intros Hq. eexists. split; [reflexivity |]. split; [apply Hq; reflexivity |].
      cbn [orb negb]. repeat (split; [reflexivity |]).
      split.
      * eexists. unfold DropShim.otherDrops_delete, DDM.store, DDM.set_drops;
          cbn [DDM.drops DDM.set_otherDrops DDM.set_activeShims].
        rewrite lookup_insert_eq. split; reflexivity.
      * intros y Hy. unfold DropShim.otherDrops_delete, DDM.store, DDM.set_drops;
          cbn [DDM.drops DDM.set_otherDrops DDM.set_activeShims].
        rewrite lookup_insert_ne by congruence. reflexivity.
    + intros Hq. exists m. split; [reflexivity |]. split; [apply quiet_refl |].
      cbn [orb negb]. repeat (split; [reflexivity |]).
      split; [exists d; split; [exact Hd | rewrite Ho; reflexivity] |].
      intros y _. reflexivity.
Qed.

Lemma quiet_activeDrag (m m' : DDM.t) : quiet m m' -> DDM.activeDrag m' = DDM.activeDrag m.
Proof. intros (_ & _ & [Ha _] & _). exact Ha. Qed.

Lemma over_Ok (dom : Node.Dom) (m : DDM.t) (c : DropRef) (b : bool) :
  DDM.isOverTarget dom m (Some c) = Ok b -> over dom m c = b.
Proof. intros H. unfold over. rewrite H. reflexivity. Qed.

Lemma handleOuts_spec (dom : Node.Dom) (m0 : DDM.t) (drag : Drag.t) (l : list DropRef) :
  DDM.activeDrag m0 = Some drag ->
  forall m : DDM.t,
    quiet m0 m ->
    List.NoDup l ->
    (forall c, In c l ->
               exists d, DDM.drops m !! c = Some d
                         /\ Drop.shim d <> None /\ Drop.region d <> None
                         /\ Drop.overTarget d = true) ->
    exists m',
      DropMove._handleOuts dom l m = Ok m'
      /\ quiet m0 m'
      /\ DDM.activeDrop m' = DDM.activeDrop m
      /\ DDM.targets m' = DDM.targets m
      /\ DDM.otherDrops m'
         = List.filter (fun y => negb (existsb (Nat.eqb y) l) || over dom m0 y)
                       (DDM.otherDrops m)
      /\ (forall c, In c l ->
                    exists d', DDM.drops m' !! c = Some d'
                               /\ Drop.overTarget d' = over dom m0 c)
      /\ (forall y, ~ In y l -> DDM.drops m' !! y = DDM.drops m !! y).
Proof.
  intros Hact0. induction l as [|x l IH]; intros m Hq Hnd Hall;
    cbn [DropMove._handleOuts].
  - exists m. split; [reflexivity |]. split; [exact Hq |].
    split; [reflexivity |]. split; [reflexivity |]. split.
    + cbn [existsb negb orb]. symmetry.
      induction (DDM.otherDrops m) as [|k ks IHk]; [reflexivity |].
      cbn [List.filter]. congruence.
    + split; [intros c [] | intros y _; reflexivity].
  - inversion Hnd as [|? ? Hnotin Hnd']; subst.
    destruct (Hall x (or_introl eq_refl)) as (d & Hd & Hs & Hr & Ho).
    destruct (isOverTarget_defined dom m x d Hd Hs Hr) as [b Hb].
    assert (Hact : DDM.activeDrag m = Some drag)
      by (rewrite (quiet_activeDrag m0 m Hq); exact Hact0).
    destruct (handleOut_exact dom m x d b drag Hd Hb Hact)
      as (m1 & Hrun1 & Hq1 & Hdrop1 & Ht1 & Ho1 & (d1 & Hd1 & Hflag1) & Hkeep1).
    rewrite Hrun1. unfold mbind, Outcome_bind. cbv beta iota.
    assert (Hq01 : quiet m0 m1) by (exact (quiet_trans _ _ _ Hq Hq1)).
    assert (Hbx : over dom m0 x = b).
    { rewrite <- (over_quiet dom m0 m x Hq). apply over_Ok. exact Hb. }
    destruct (IH m1 Hq01 Hnd') as (m' & Hrun & Hq' & Hdrop & Ht & Hother & Hflags & Hkeep).
    { intros c Hc. rewrite Hkeep1 by (intros ->; contradiction).
      apply Hall. right. exact Hc. }
    exists m'. split; [exact Hrun |]. split; [exact Hq' |].
    split; [congruence |]. split; [congruence |]. split; [| split].
    + rewrite Hother, Ho1, Ho. cbn [negb]. rewrite orb_false_r.
      destruct b.
      * apply List.filter_ext. intros y. cbn [existsb].
        destruct (Nat.eqb_spec y x) as [-> | Hne]; cbn [orb negb]; [| reflexivity].
        rewrite Hbx, !orb_true_r. reflexivity.
      * clear - Hbx. induction (DDM.otherDrops m) as [|k ks IHk]; [reflexivity |].
        cbn [List.filter existsb].
        destruct (Nat.eqb_spec k x) as [-> | Hne]; cbn [negb orb List.filter].
        -- rewrite Hbx. exact IHk.
        -- rewrite IHk. reflexivity.
    + intros c [<- | Hc]; [| apply Hflags; exact Hc].
      rewrite (Hkeep x Hnotin). exists d1. split; [exact Hd1 |].
      rewrite Hflag1, Ho, Hbx. reflexivity.
    + intros y Hy. rewrite Hkeep by (intros Hin; apply Hy; right; exact Hin).
      apply Hkeep1. intros ->. apply Hy. left. reflexivity.
Qed.

(** X22. While no shim is active, [_dropMove] looks at the Drops of
    [otherDrops] only: those the drag is no longer over are exited (their
    flag is cleared and they leave [otherDrops]), the others stay as they
    are. [activeDrop] is left alone, even when the drag has left every
    Drop. With an active shim [_dropMove] is the manager's
    [_handleTargetOver]. *)
Theorem dropMove_without_shim (dom : Node.Dom) (fuel : nat) (m : DDM.t) (drag : Drag.t) :
  DDM.activeDrag m = Some drag ->
  entered_drops m ->
  (Registry._hasActiveShim m = true ->
   DropMove._dropMove dom fuel m = Targets._handleTargetOver dom fuel m)
  /\ (Registry._hasActiveShim m = false ->
      exists m',
        DropMove._dropMove dom fuel m = Some (Ok m')
        /\ DDM.otherDrops m' = List.filter (over dom m) (DDM.otherDrops m)
        /\ (forall c, In c (DDM.otherDrops m) ->
                      exists d', DDM.drops m' !! c = Some d'
                                 /\ Drop.overTarget d' = over dom m c)
        /\ DDM.activeDrop m' = DDM.activeDrop m
        /\ DDM.validDrops m' = DDM.validDrops m
        /\ DDM.targets m' = DDM.targets m).
Proof.
  intros Hact [Hall Hnd]. unfold DropMove._dropMove. split; intros Hshim; rewrite Hshim;
    [reflexivity |].
  destruct (handleOuts_spec dom m drag (DDM.otherDrops m) Hact m (quiet_refl m) Hnd Hall)
    as (m' & Hrun & Hq & Hdrop & Ht & Hother & Hflags & _).
  exists m'. split; [rewrite Hrun; reflexivity |].
  split.
  - rewrite Hother. apply List.filter_ext_in. intros y Hy.
    assert (Hex : existsb (Nat.eqb y) (DDM.otherDrops m) = true)
      by (apply existsb_eqb_In; exact Hy).
    rewrite Hex. reflexivity.
  - split; [exact Hflags |]. split; [exact Hdrop |]. split; [| exact Ht].
    destruct Hq as (Hv & _). exact Hv.
Qed.

Lemma dropMove_without_shim_witness :
  exists m',
    DropMove._dropMove Scenario.page 1 ScenarioLeave.moved_away = Some (Ok m')
    /\ DDM.otherDrops m' = []
    /\ DDM.activeDrop m' = Some 1%nat.
Proof.
  assert (Ho : DDM.otherDrops ScenarioLeave.moved_away = [1%nat])
    by (vm_compute; reflexivity).
  destruct (DDM.activeDrag ScenarioLeave.moved_away) as [drag|] eqn:Hact;
    [| vm_compute in Hact; discriminate].
  destruct (dropMove_without_shim Scenario.page 1 ScenarioLeave.moved_away drag Hact)
    as [_ H].
  - split.
    + rewrite Ho. intros c [<- | []].
      eexists. split; [vm_compute; reflexivity |].
      split; [discriminate |]. split; [discriminate | reflexivity].
    + rewrite Ho. constructor; [intros [] | constructor].
  - destruct H as (m' & Hrun & Hother & _ & Hdrop & _); [vm_compute; reflexivity |].
    exists m'. split; [exact Hrun |]. split.
    + rewrite Hother, Ho. vm_compute. reflexivity.
    + rewrite Hdrop. vm_compute. reflexivity.
Defined.

(** ** From hovering to the release *)

Lemma handleOut_others (dom : Node.Dom) (m m1 : DDM.t) (x : DropRef) :
  DropShim._handleOut dom m x = Ok m1 ->
  forall y, In y (DDM.otherDrops m1) -> In y (DDM.otherDrops m).
Proof.
  unfold DropShim._handleOut.
  destruct (DDM.isOverTarget dom m (Some x)) as [b|]; [| discriminate].
  unfold mbind, Outcome_bind. cbv beta iota.
  destruct b; [intros [= <-] y Hy; exact Hy |].
  unfold DDM.deref. destruct (DDM.drops m !! x) as [d|]; [| discriminate].
  cbv beta iota. destruct (Drop.overTarget d); [| intros [= <-] y Hy; exact Hy].
  cbv zeta. unfold DropShim._removeActiveShim.
  cbn [DDM.activeDrag DDM.store DDM.set_drops DDM.set_activeShims].
  destruct (DDM.activeDrag m); intros [= <-] y Hy.
  - unfold DropShim.otherDrops_delete in Hy. cbn [DDM.otherDrops DDM.set_otherDrops] in Hy.
    apply List.filter_In in Hy. destruct Hy as [Hy _]. exact Hy.
  - exact Hy.
Qed.

Lemma otherDrops_put_others (r : DropRef) (m : DDM.t) :
  forall y, In y (DDM.otherDrops (DropShim.otherDrops_put r m)) ->
            In y (DDM.otherDrops m) \/ y = r.
Proof.
  intros y. unfold DropShim.otherDrops_put.
  destruct (existsb (Nat.eqb r) (DDM.otherDrops m)); [intros Hy; left; exact Hy |].
  cbn [DDM.otherDrops DDM.set_otherDrops]. intros Hy. apply in_app_iff in Hy.
  destruct Hy as [Hy | [<- | []]]; [left; exact Hy | right; reflexivity].
Qed.

Lemma drop_handleTargetOver_others (dom : Node.Dom)
    (G : DDM.t -> option (Outcome DDM.t)) (m : DDM.t) (x : DropRef) (d : Drop.t) (b : bool) :
  DDM.drops m !! x = Some d ->
  DDM.isOverTarget dom m (Some x) = Ok b ->
  (exists m1,
     DropShim._handleTargetOver dom G m x = Some (Ok m1)
     /\ quiet m m1
     /\ forall y, In y (DDM.otherDrops m1) -> In y (DDM.otherDrops m) \/ (y = x /\ b = true))
  \/ (exists m2,
        DropShim._handleTargetOver dom G m x = G m2
        /\ b = true /\ quiet m m2
        /\ forall y, In y (DDM.otherDrops m2) -> In y (DDM.otherDrops m) \/ y = x).
Proof.
  intros Hd Hover. unfold DropShim._handleTargetOver. rewrite Hover.
  destruct b.
  - set (m1 := DropShim.otherDrops_put x (DDM.set_activeDrop (Some x) m)).
    assert (Hdrops : DDM.drops m1 = DDM.drops m).
    { unfold m1. rewrite otherDrops_put_drops. reflexivity. }
    assert (Hq1 : quiet m m1).
    { eapply quiet_trans; [| apply quiet_otherDrops_put]. apply quiet_fields; reflexivity. }
    assert (Hsub : forall y, In y (DDM.otherDrops m1) -> In y (DDM.otherDrops m) \/ y = x).
    { intros y Hy. apply otherDrops_put_others in Hy. exact Hy. }
    unfold DDM.deref. rewrite Hdrops, Hd.
    destruct (Drop.overTarget d) eqn:Hot.
    + left. exists m1. split; [reflexivity |]. split; [exact Hq1 |].
      intros y Hy. destruct (Hsub y Hy) as [H | H]; [left; exact H | right; auto].
    + right. exists (DDM.store m1 x (Drop.set_overTarget true d)).
      split; [reflexivity |]. split; [reflexivity |]. split.
      * eapply quiet_trans; [exact Hq1 |].
        eapply quiet_store; [rewrite Hdrops; exact Hd | reflexivity | reflexivity].
      * exact Hsub.
  - left. destruct (DropShim._handleOut dom m x) as [m1|] eqn:Hout.
    + exists m1. split; [reflexivity |]. split; [exact (handleOut_quiet dom m m1 x Hout) |].
      intros y Hy. left. exact (handleOut_others dom m m1 x Hout y Hy).
    + exfalso. destruct (handleOut_step dom m x d Hd Hover) as (m1 & Hout' & _). congruence.
Qed.

Lemma handleTargetOver_others (dom : Node.Dom) (fuel : nat) :
  forall (m : DDM.t) (B : list DropRef) (m' : DDM.t),
    targets_ready m ->
    DDM._lookup dom m = Ok B ->
    Targets._handleTargetOver dom fuel m = Some (Ok m') ->
    forall y, In y (DDM.otherDrops m') ->
              In y (DDM.otherDrops m) \/ (In y B /\ over dom m y = true).
Proof.
  induction fuel as [|fuel IH]; intros m B m' Hr HB; cbn [Targets._handleTargetOver];
    [discriminate |].
  rewrite HB.
  assert (Hloop : forall l m0 m1,
             (forall c, In c l -> In c B) ->
             quiet m m0 ->
             (forall y, In y (DDM.otherDrops m0) ->
                        In y (DDM.otherDrops m) \/ (In y B /\ over dom m y = true)) ->
             Targets.each
               (DropShim._handleTargetOver dom (Targets._handleTargetOver dom fuel)) l m0
             = Some (Ok m1) ->
             forall y, In y (DDM.otherDrops m1) ->
                       In y (DDM.otherDrops m) \/ (In y B /\ over dom m y = true)).
  { induction l as [|x l IHl]; intros m0 m1 Hsub Hq0 Hinv; cbn [Targets.each].
    - intros [= <-]. exact Hinv.
    - pose proof (quiet_ready m m0 Hq0 Hr) as Hr0.
      assert (HB0 : DDM._lookup dom m0 = Ok B) by (rewrite (quiet_lookup dom m m0 Hq0); exact HB).
      assert (HxB : In x B) by (apply Hsub; left; reflexivity).
      assert (Hxv : In x (DDM.validDrops m0)) by (eapply lookup_subset; eauto).
      destruct (Hr0 x Hxv) as (d & Hd & _).
      destruct (ready_isOverTarget dom m0 x Hr0 Hxv) as [b Hb].
      assert (Hbx : over dom m x = b).
      { rewrite <- (over_quiet dom m m0 x Hq0). unfold over. rewrite Hb. reflexivity. }
      destruct (drop_handleTargetOver_others dom (Targets._handleTargetOver dom fuel)
                  m0 x d b Hd Hb)
        as [(m2 & Hstep & Hq2 & Hsub2) | (m2 & Hstep & -> & Hq2 & Hsub2)].
      + rewrite Hstep. apply (IHl m2).
        * intros c Hc. apply Hsub. right. exact Hc.
        * exact (quiet_trans _ _ _ Hq0 Hq2).
        * intros y Hy. destruct (Hsub2 y Hy) as [H | [-> ->]]; [apply Hinv; exact H |].
          right. split; [exact HxB | exact Hbx].
      + rewrite Hstep.
        destruct (Targets._handleTargetOver dom fuel m2) as [[m3|]|] eqn:Hnest; try discriminate.
        pose proof (quiet_trans _ _ _ Hq0 Hq2) as Hq02.
        pose proof (handleTargetOver_quiet dom fuel m2 m3 Hnest) as Hq23.
        assert (HB2 : DDM._lookup dom m2 = Ok B)
          by (rewrite (quiet_lookup dom m m2 Hq02); exact HB).
        pose proof (IH m2 B m3 (quiet_ready m m2 Hq02 Hr) HB2 Hnest) as Hnested.
        apply (IHl m3).
        * intros c Hc. apply Hsub. right. exact Hc.
        * exact (quiet_trans _ _ _ Hq02 Hq23).
        * intros y Hy. destruct (Hnested y Hy) as [H | [HyB Hov]].
          -- destruct (Hsub2 y H) as [H0 | ->]; [apply Hinv; exact H0 |].
             right. split; [exact HxB | exact Hbx].
          -- right. split; [exact HyB |].
             rewrite <- (over_quiet dom m m2 y Hq02). exact Hov. }
  intros Hrun. apply (Hloop B m m'); [auto | apply quiet_refl | | exact Hrun].
  intros y Hy. left. exact Hy.
Qed.

Lemma sizeShim_others (dom : Node.Dom) (m m' : DDM.t) (c : DropRef) :
  DropShim.sizeShim dom m c = Ok m' ->
  DDM.otherDrops m' = DDM.otherDrops m /\ DDM.activeDrop m' = DDM.activeDrop m.
Proof.
  unfold DropShim.sizeShim, DDM.deref.
  destruct (DDM.drops m !! c) as [d|]; [| discriminate].
  unfold mbind, Outcome_bind. cbv beta iota zeta.
  destruct (DDM.activeDrag m) as [J|]; [| discriminate].
  destruct (Drag.dragMode (Drag.cfg J) =? DDM.INTERSECT).
  - destruct (Drag.deltaXY J); [| discriminate]. cbv beta iota.
    destruct (Drop.shim d); [| discriminate]. intros [= <-]. split; reflexivity.
  - cbv beta iota. destruct (Drop.shim d); [| discriminate].
    intros [= <-]. split; reflexivity.
Qed.

Lemma activateShim_others (dom : Node.Dom) (proto : string -> bool) (m m' : DDM.t)
    (c : DropRef) :
  DropShim._activateShim dom proto m c = Ok m' ->
  DDM.otherDrops m' = DDM.otherDrops m /\ DDM.activeDrop m' = DDM.activeDrop m.
Proof.
  unfold DropShim._activateShim, DDM.deref.
  destruct (DDM.activeDrag m) as [drag|]; [| intros [= <-]; split; reflexivity].
  destruct (DDM.drops m !! c) as [d|]; [| discriminate].
  unfold mbind, Outcome_bind. cbv beta iota.
  destruct (Drop.node d =? Drag.node (Drag.cfg drag))%nat; [intros [= <-]; split; reflexivity |].
  destruct (Drop.lock d); [intros [= <-]; split; reflexivity |].
  destruct (Drop.inGroup proto d (Drag.groups (Drag.cfg drag))) as [K d1].
  destruct K.
  - cbv zeta. intros Hsize. apply sizeShim_others in Hsize. exact Hsize.
  - intros [= <-]. split; reflexivity.
Qed.

Lemma activateShims_others (dom : Node.Dom) (proto : string -> bool) (m m' : DDM.t) :
  Targets._activateShims dom proto m = Some (Ok m') ->
  DDM.otherDrops m' = [] /\ DDM.activeDrop m' = DDM.activeDrop m.
Proof.
  unfold Targets._activateShims.
  assert (Hloop : forall l m0 m1,
             Targets.each (fun m2 C => Some (DropShim._activateShim dom proto m2 C)) l m0
             = Some (Ok m1) ->
             DDM.otherDrops m1 = DDM.otherDrops m0
             /\ DDM.activeDrop m1 = DDM.activeDrop m0).
  { induction l as [|x l IH]; intros m0 m1; cbn [Targets.each].
    - intros [= <-]. split; reflexivity.
    - destruct (DropShim._activateShim dom proto m0 x) as [m2|] eqn:Hstep; [| discriminate].
      intros Hrest. destruct (activateShim_others dom proto m0 m2 x Hstep) as [Ho Ha].
      destruct (IH m2 m1 Hrest) as [Ho' Ha']. split; congruence. }
  intros Hrun. destruct (Hloop _ _ _ Hrun) as [Ho Ha]. split; [exact Ho | exact Ha].
Qed.

Lemma last_over_Some (dom : Node.Dom) (m : DDM.t) (B : list DropRef) (w : DropRef) :
  last_over dom m B = Some w -> In w B /\ over dom m w = true.
Proof.
  unfold last_over. intros Hfind. apply find_some in Hfind. destruct Hfind as [Hin Hov].
  split; [apply in_rev; exact Hin | exact Hov].
Qed.

Lemma last_over_None (dom : Node.Dom) (m : DDM.t) (B : list DropRef) :
  last_over dom m B = None -> forall c, In c B -> over dom m c = false.
Proof.
  unfold last_over. intros Hfind c Hc.
  apply (find_none _ _ Hfind c). apply in_rev in Hc. exact Hc.
Qed.

(** Target activation followed by the release, in POINT mode: [drag'] is
    the active drag as it is at the release. *)
Lemma release_after_activation
    (dom dom' : Node.Dom) (proto : string -> bool) (fuel : nat) (m m1 : DDM.t)
    (drag drag' : Drag.t) (l : XY) (B : list DropRef) :
  DDM.activeDrag m = Some drag ->
  Drag.dragMode (Drag.cfg drag) = DDM.POINT ->
  Drag.dragMode (Drag.cfg drag') = DDM.POINT ->
  Drag.lastXY drag' = Some l ->
  (forall c, In c (DDM.targets m) ->
             exists d, DDM.drops m !! c = Some d /\ Drop.shim d <> None) ->
  Targets._activateTargets dom proto fuel m = Some (Ok m1) ->
  DDM._lookup dom m1 = Ok B ->
  match last_over dom m1 B with
  | Some w =>
      exists m2 others,
        Release._deactivateTargets dom' (DDM.set_activeDrag (Some drag') m1)
        = Ok (m2, [Release.DropHit w others; Release.DragDropHit w others])
        /\ forall c, In c others <-> In c B /\ over dom m1 c = true /\ c <> w
  | None =>
      exists m2,
        Release._deactivateTargets dom' (DDM.set_activeDrag (Some drag') m1)
        = Ok (m2, [Release.DragDropMiss (fst l) (snd l)])
  end.
Proof.
  intros Hact Hmode Hmode' Hlast Hreg Hrun HB.
  assert (Hregd : targets_registered m drag).
  { split; [exact Hreg |]. rewrite Hmode. discriminate. }
  destruct (activateTargets_list dom proto fuel m m1 drag Hact Hrun) as (_ & Ht1 & Hstatic).
  unfold Targets._activateTargets in Hrun.
  destruct (Targets._activateShims dom proto m) as [[ma|]|] eqn:Hshims; try discriminate.
  destruct (activateShims_total dom proto m drag Hact Hregd) as (ma' & Hshims' & Hready).
  assert (ma' = ma) by congruence. subst ma'.
  destruct (activateShims_others dom proto m ma Hshims) as [Hoa Hda].
  pose proof (handleTargetOver_quiet dom fuel ma m1 Hrun) as Hq.
  assert (HBa : DDM._lookup dom ma = Ok B)
    by (rewrite <- (quiet_lookup dom ma m1 Hq); exact HB).
  destruct (handleTargetOver_settled dom fuel ma B m1 Hready HBa Hrun)
    as (_ & Hrecorded & Hactive).
  pose proof (handleTargetOver_others dom fuel ma B m1 Hready HBa Hrun) as Hupper.
  rewrite (last_over_ext dom ma m1 B Hq).
  assert (Hover : forall c, over dom m1 c = over dom ma c)
    by (intros c; apply over_quiet; exact Hq).
  assert (Hact1 : DDM.activeDrag m1 = Some drag).
  { destruct Hstatic as [Ha _]. rewrite Ha. exact Hact. }
  assert (Hshims1 : forall m1',
             DDM.drops m1' = DDM.drops m1 -> DDM.targets m1' = DDM.targets m1 ->
             exists m2', Release._deactivateShims (DDM.targets m1') m1' = Ok m2').
  { intros m1' Hd' Ht'. apply deactivateShims_total.
    intros c Hc. rewrite Ht', Ht1 in Hc. destruct (Hreg c Hc) as (d & Hd & Hs).
    destruct (same_static_shim m m1 c d Hstatic Hd) as (d' & Hd1 & Hs1).
    exists d'. rewrite Hd'. split; [exact Hd1 | congruence]. }
  unfold Release._deactivateTargets.
  cbn [DDM.activeDrag DDM.set_activeDrag DDM.activeDrop DDM.otherDrops DDM.targets].
  destruct (last_over dom ma B) as [w|] eqn:Hw.
  - destruct (last_over_Some dom ma B w Hw) as [HwB Hwov].
    rewrite Hactive.
    assert (Hwin : In w (DDM.otherDrops m1)) by (apply Hrecorded; assumption).
    assert (Hex : existsb (Nat.eqb w) (DDM.otherDrops m1) = true)
      by (apply existsb_eqb_In; exact Hwin).
    rewrite Hex. unfold Release.hit, truthy. rewrite Hmode'.
    cbn [DDM.POINT Z.eqb negb]. unfold mbind, Outcome_bind. cbv beta iota zeta.
    unfold DropShim.otherDrops_delete at 1.
    cbn [DDM.activeDrop DDM.set_otherDrops DDM.set_activeDrag]. rewrite Hactive.
    cbv beta iota.
    destruct (Hshims1 (DDM.set_activeDrop None
                         (DropShim.otherDrops_delete w (DDM.set_activeDrag (Some drag') m1))))
      as [m2 Hm2]; [reflexivity | reflexivity |].
    cbn [DDM.targets DDM.set_activeDrop] in Hm2 |- *.
    rewrite Hm2. eexists _, _. split; [reflexivity |].
    intros c. unfold DropShim.otherDrops_delete.
    cbn [DDM.otherDrops DDM.set_otherDrops DDM.set_activeDrag].
    rewrite List.filter_In, negb_true_iff, Nat.eqb_neq, Hover. split.
    + intros [Hc Hne]. destruct (Hupper c Hc) as [Hold | [HcB Hcov]].
      * rewrite Hoa in Hold. destruct Hold.
      * split; [exact HcB |]. split; [exact Hcov | exact Hne].
    + intros (HcB & Hcov & Hne). split; [| exact Hne].
      apply Hrecorded; assumption.
  - assert (Hempty : DDM.otherDrops m1 = []).
    { destruct (DDM.otherDrops m1) as [|y ys] eqn:Ho; [reflexivity |].
      exfalso. destruct (Hupper y) as [Hold | [HyB Hyov]].
      - left. reflexivity.
      - rewrite Hoa in Hold. destruct Hold.
      - rewrite (last_over_None dom ma B Hw y HyB) in Hyov. discriminate. }
    assert (Hmiss : match DDM.activeDrop m1 with
                    | Some a =>
                        if existsb (Nat.eqb a) (DDM.otherDrops m1)
                        then Release.hit dom' drag' a (DDM.set_activeDrag (Some drag') m1)
                        else Release.miss drag' (DDM.set_activeDrag (Some drag') m1)
                    | None => Release.miss drag' (DDM.set_activeDrag (Some drag') m1)
                    end = Ok (DDM.set_activeDrag (Some drag') m1,
                              [Release.DragDropMiss (fst l) (snd l)])).
    { rewrite Hempty. unfold Release.miss. rewrite Hlast.
      destruct (DDM.activeDrop m1); reflexivity. }
    rewrite Hmiss. unfold mbind, Outcome_bind. cbv beta iota.
    destruct (Hshims1 (DDM.set_activeDrop None (DDM.set_activeDrag (Some drag') m1)))
      as [m2 Hm2]; [reflexivity | reflexivity |].
    cbn [DDM.targets DDM.set_activeDrop] in Hm2 |- *.
    rewrite Hm2. eexists. reflexivity.
Qed.


(** ** Re-sizing the shims *)

Lemma sizeShim_padded (dom : Node.Dom) (m : DDM.t) (c : DropRef) (d : Drop.t) (drag : Drag.t) :
  DDM.activeDrag m = Some drag ->
  Drag.dragMode (Drag.cfg drag) <> DDM.INTERSECT ->
  DDM.drops m !! c = Some d ->
  Drop.shim d <> None ->
  DropShim.sizeShim dom m c
  = Ok (DDM.store m c (Drop.set_region (Some (padded_box dom d)) d)).
Proof.
  intros Hact Hmode Hd Hs. unfold DropShim.sizeShim, DDM.deref. rewrite Hd, Hact.
  unfold mbind, Outcome_bind. cbv beta iota zeta.
  apply Z.eqb_neq in Hmode. rewrite Hmode. cbv beta iota.
  destruct (Drop.shim d); [| congruence].
  do 4 f_equal. unfold Region.at_xy, padded_box. cbv zeta. cbn [fst snd]. f_equal; lia.
Qed.

Lemma sizeShims_padded (dom : Node.Dom) (m : DDM.t) (drag : Drag.t) :
  Drag.dragMode (Drag.cfg drag) <> DDM.INTERSECT ->
  forall (l : list DropRef) (m0 : DDM.t),
    DDM.activeDrag m0 = Some drag ->
    (forall c d, DDM.drops m !! c = Some d ->
                 DDM.drops m0 !! c = Some d
                 \/ DDM.drops m0 !! c = Some (Drop.set_region (Some (padded_box dom d)) d)) ->
    (forall c, In c l -> exists d, DDM.drops m !! c = Some d /\ Drop.shim d <> None) ->
    exists m',
      Sync.sizeShims dom l m0 = Ok m'
      /\ DDM.validDrops m' = DDM.validDrops m0
      /\ DDM.targets m' = DDM.targets m0
      /\ (forall c, ~ In c l -> DDM.drops m' !! c = DDM.drops m0 !! c)
      /\ (forall c d, In c l -> DDM.drops m !! c = Some d ->
                      DDM.drops m' !! c
                      = Some (Drop.set_region (Some (padded_box dom d)) d)).
Proof.
  intros Hmode. induction l as [|x l IH]; intros m0 Hact0 Hinv Hreg;
    cbn [Sync.sizeShims].
  - exists m0. split; [reflexivity |]. split; [reflexivity |]. split; [reflexivity |].
    split; [intros c _; reflexivity | intros c d []].
  - destruct (Hreg x (or_introl eq_refl)) as (d & Hd & Hs).
    assert (Hx : exists d0, DDM.drops m0 !! x = Some d0 /\ Drop.shim d0 <> None
                            /\ Drop.set_region (Some (padded_box dom d0)) d0
                               = Drop.set_region (Some (padded_box dom d)) d).
    { destruct (Hinv x d Hd) as [H0 | H0]; eexists; (split; [exact H0 |]);
        (split; [exact Hs | reflexivity]). }
    destruct Hx as (d0 & Hd0 & Hs0 & Heq).
    rewrite (sizeShim_padded dom m0 x d0 drag Hact0 Hmode Hd0 Hs0), Heq.
    unfold mbind, Outcome_bind. cbv beta iota.
    set (m1 := DDM.store m0 x (Drop.set_region (Some (padded_box dom d)) d)).
    assert (Hx1 : DDM.drops m1 !! x = Some (Drop.set_region (Some (padded_box dom d)) d)).
    { unfold m1, DDM.store, DDM.set_drops; cbn [DDM.drops]. apply lookup_insert_eq. }
    assert (Hne1 : forall c, c <> x -> DDM.drops m1 !! c = DDM.drops m0 !! c).
    { intros c Hc. unfold m1, DDM.store, DDM.set_drops; cbn [DDM.drops].
      apply lookup_insert_ne. congruence. }
    destruct (IH m1) as (m' & Hrun & Hv & Ht & Hkeep & Hsized).
    + exact Hact0.
    + intros c dc Hdc. destruct (decide (c = x)) as [-> | Hc].
      * right. rewrite Hx1. rewrite Hd in Hdc. injection Hdc as <-. reflexivity.
      * rewrite (Hne1 c Hc). apply Hinv. exact Hdc.
    + intros c Hc. apply Hreg. right. exact Hc.
    + exists m'. split; [exact Hrun |]. split; [exact Hv |]. split; [exact Ht |].
      split.
      * intros c Hc. rewrite Hkeep by (intros Hin; apply Hc; right; exact Hin).
        apply Hne1. intros ->. apply Hc. left. reflexivity.
      * intros c dc [<- | Hc] Hdc; [| apply Hsized; assumption].
        destruct (In_dec Nat.eq_dec x l) as [Hin | Hnot]; [apply Hsized; assumption |].
        rewrite (Hkeep x Hnot), Hx1. rewrite Hd in Hdc. injection Hdc as <-. reflexivity.
Qed.

(** X26. [syncActiveShims(true)] sizes every registered target, also those
    that are locked or in no group of the drag: during a drag outside
    INTERSECT mode each target with a shim gets its padded box as region,
    and [validDrops] stays as it is. Called while no drag is active, with a
    target registered, it raises a TypeError. *)
Theorem syncActiveShims_sizes (dom : Node.Dom) (m : DDM.t) :
  (DDM.activeDrag m = None -> DDM.targets m <> [] ->
   Sync.syncActiveShims dom true m = TypeError)
  /\ (forall drag,
        DDM.activeDrag m = Some drag ->
        Drag.dragMode (Drag.cfg drag) <> DDM.INTERSECT ->
        (forall c, In c (DDM.targets m) ->
                   exists d, DDM.drops m !! c = Some d /\ Drop.shim d <> None) ->
        exists m',
          Sync.syncActiveShims dom true m = Ok (m', DDM.targets m)
          /\ DDM.validDrops m' = DDM.validDrops m
          /\ DDM.targets m' = DDM.targets m
          /\ forall c d, In c (DDM.targets m) -> DDM.drops m !! c = Some d ->
                         DDM.drops m' !! c
                         = Some (Drop.set_region (Some (padded_box dom d)) d)).
Proof.
  split.
  - intros Hact Hne. unfold Sync.syncActiveShims. unfold mbind, Outcome_bind. cbv beta iota.
    destruct (DDM.targets m) as [|x l]; [contradiction |].
    cbn [Sync.sizeShims]. unfold DropShim.sizeShim, DDM.deref.
    destruct (DDM.drops m !! x); [| reflexivity].
    unfold mbind, Outcome_bind. cbv beta iota zeta. rewrite Hact. reflexivity.
  - intros drag Hact Hmode Hreg.
    destruct (sizeShims_padded dom m drag Hmode (DDM.targets m) m Hact)
      as (m' & Hrun & Hv & Ht & _ & Hsized).
    + intros c d Hd. left. exact Hd.
    + exact Hreg.
    + exists m'. unfold Sync.syncActiveShims. unfold mbind, Outcome_bind. cbv beta iota.
      rewrite Hrun. split; [reflexivity |]. split; [exact Hv |]. split; [exact Ht |].
      exact Hsized.
Qed.

Lemma syncActiveShims_sizes_witness :
  Sync.syncActiveShims Scenario.page true ScenarioStrict.idle = TypeError
  /\ exists m',
       Sync.syncActiveShims Scenario.page true ScenarioGroups.session
       = Ok (m', [1; 2; 3; 4]%nat)
       /\ DDM.validDrops m' = []
       /\ DDM.drops m' !! 2%nat
          = Some (Drop.set_region
                    (Some (padded_box Scenario.page
                             (Scenario.drop 2%nat 12%nat true ["a"%string])))
                    (Scenario.drop 2%nat 12%nat true ["a"%string])).
Proof.
  split.
  - destruct (syncActiveShims_sizes Scenario.page ScenarioStrict.idle) as [H _].
    apply H; [reflexivity | discriminate].
  - destruct (syncActiveShims_sizes Scenario.page ScenarioGroups.session) as [_ H].
    destruct (H (ScenarioGroups.moving ["a"%string])) as (m' & Hrun & Hv & _ & Hsized).
    + reflexivity.
    + discriminate.
    + intros c Hc. vm_compute in Hc.
      destruct Hc as [<- | [<- | [<- | [<- | []]]]]; eexists;
        (split; [vm_compute; reflexivity | discriminate]).
    + exists m'. split; [exact Hrun |]. split; [exact Hv |].
      apply Hsized; [vm_compute; tauto | vm_compute; reflexivity].
Defined.

(** * The state machine *)

(** ** Steps of the drop-target code *)

Lemma tame_refl (m : DDM.t) : tame m m.
Proof.
  split; [reflexivity |]. split; [reflexivity |]. split; [apply same_static_refl |].
  split; [intros x d Hd Hr; exists d; auto | intros y Hy; left; exact Hy].
Qed.

Lemma tame_trans (m1 m2 m3 : DDM.t) : tame m1 m2 -> tame m2 m3 -> tame m1 m3.
Proof.
  intros (Ht & Hv & Hs & Hr & Ho) (Ht' & Hv' & Hs' & Hr' & Ho').
  split; [congruence |]. split; [congruence |].
  split; [exact (same_static_trans _ _ _ Hs Hs') |].
  split.
  - intros x d Hd Hreg. destruct (Hr x d Hd Hreg) as (d' & Hd' & Hreg').
    exact (Hr' x d' Hd' Hreg').
  - intros y Hy. destruct (Ho' y Hy) as [Hy' | Hy'].
    + exact (Ho y Hy').
    + right. rewrite <- Hv. exact Hy'.
Qed.

Lemma tame_sound (m m' : DDM.t) : tame m m' -> sound m -> sound m'.
Proof.
  intros (Ht & Hv & Hs & Hr & Ho) [Htg Hvo]. split.
  - intros c Hc. rewrite Ht in Hc. destruct (Htg c Hc) as (d & Hd & Hsh).
    destruct (same_static_shim m m' c d Hs Hd) as (d' & Hd' & Hsh').
    exists d'. rewrite Hsh'. auto.
  - intros c Hc.
    assert (Hc0 : In c (DDM.validDrops m) \/ In c (DDM.otherDrops m)).
    { destruct Hc as [Hc | Hc]; [left; rewrite <- Hv; exact Hc |].
      destruct (Ho c Hc); auto. }
    destruct (Hvo c Hc0) as (d & Hd & Hsh & Hreg).
    destruct (Hr c d Hd Hreg) as (d' & Hd' & Hreg').
    destruct (same_static_shim m m' c d Hs Hd) as (d'' & Hd'' & Hsh'').
    rewrite Hd' in Hd''. injection Hd'' as <-.
    exists d'. rewrite Hsh''. auto.
Qed.

Lemma tame_enough (fuel : nat) (m m' : DDM.t) : tame m m' -> enough fuel m -> enough fuel m'.
Proof. intros (Ht & Hv & _) [H1 H2]. split; congruence. Qed.

Lemma quiet_tame (m m' : DDM.t) :
  quiet m m' ->
  DDM.targets m' = DDM.targets m ->
  (forall y, In y (DDM.otherDrops m') ->
             In y (DDM.otherDrops m) \/ In y (DDM.validDrops m)) ->
  tame m m'.
Proof.
  intros (Hv & _ & Hs & Hg) Ht Ho.
  split; [exact Ht |]. split; [exact Hv |]. split; [exact Hs |]. split; [| exact Ho].
  intros x d Hd Hreg. specialize (Hg x). rewrite Hd in Hg.
  destruct (DDM.drops m' !! x) as [d'|]; simpl in Hg; [| discriminate].
  injection Hg as Hr' _. exists d'. rewrite Hr'. auto.
Qed.

Lemma sound_ready (m : DDM.t) : sound m -> targets_ready m.
Proof. intros [_ H] c Hc. apply H. left. exact Hc. Qed.

Lemma sound_activeDrag (v : option Drag.t) (m : DDM.t) :
  sound (DDM.set_activeDrag v m) <-> sound m.
Proof. unfold sound. reflexivity. Qed.

Lemma lookup_loop_length (dom : Node.Dom) (m : DDM.t) (l : list DropRef) :
  forall B, DDM._lookup_loop dom m l = Ok B -> (length B <= length l)%nat.
Proof.
  induction l as [|x l IH]; cbn [DDM._lookup_loop]; intros B HB.
  - injection HB as <-. simpl. lia.
  - destruct (DDM.deref m x) as [d|]; [| discriminate].
    unfold mbind, Outcome_bind in HB. cbv beta iota in HB.
    destruct (Drop.shim d); [| discriminate].
    destruct (DDM._lookup_loop dom m l) as [B0|]; [| discriminate].
    cbv beta iota in HB. specialize (IH B0 eq_refl).
    destruct (DDM.inViewportRegion dom n (Drop.region d)); injection HB as <-; simpl; lia.
Qed.

Lemma lookup_length (dom : Node.Dom) (m : DDM.t) (B : list DropRef) :
  DDM._lookup dom m = Ok B -> (length B <= length (DDM.validDrops m))%nat.
Proof.
  unfold DDM._lookup. destruct (negb (DDM.useHash m)).
  - intros [= <-]. lia.
  - apply lookup_loop_length.
Qed.

Lemma enters_left_length (dom : Node.Dom) (m : DDM.t) (B : list DropRef) :
  (enters_left dom m B <= length B)%nat.
Proof. unfold enters_left. apply List.filter_length_le. Qed.

(** The manager's [_handleTargetOver] on a sound state. *)
Lemma handleTargetOver_tame (dom : Node.Dom) (fuel : nat) (m : DDM.t) :
  sound m -> enough fuel m ->
  exists m', Targets._handleTargetOver dom fuel m = Some (Ok m') /\ tame m m'.
Proof.
  intros Hs [_ Hf]. pose proof (sound_ready m Hs) as Hr.
  destruct (ready_lookup dom m Hr) as [B HB].
  destruct (handleTargetOver_total dom fuel m B Hr HB) as (m' & Hrun & Hset).
  { pose proof (enters_left_length dom m B). pose proof (lookup_length dom m B HB). lia. }
  exists m'. split; [exact Hrun |].
  apply quiet_tame.
  - apply Hset.
  - exact (handleTargetOver_targets dom fuel m m' Hrun).
  - intros y Hy.
    destruct (handleTargetOver_others dom fuel m B m' Hr HB Hrun y Hy) as [H | [H _]];
      [left; exact H | right; exact (lookup_subset dom m B HB y H)].
Qed.

Lemma handleOut_tame (dom : Node.Dom) (m : DDM.t) (c : DropRef) (d : Drop.t) :
  DDM.drops m !! c = Some d -> Drop.shim d <> None -> Drop.region d <> None ->
  exists m', DropShim._handleOut dom m c = Ok m' /\ tame m m'.
Proof.
  intros Hd Hsh Hreg.
  destruct (isOverTarget_defined dom m c d Hd Hsh Hreg) as [b Hb].
  assert (Hrun : exists m', DropShim._handleOut dom m c = Ok m').
  { destruct b.
    - exists m. unfold DropShim._handleOut. rewrite Hb. reflexivity.
    - destruct (handleOut_settles dom m c d Hd Hb) as (m' & H & _). eauto. }
  destruct Hrun as [m' Hrun]. exists m'. split; [exact Hrun |].
  apply quiet_tame.
  - exact (handleOut_quiet dom m m' c Hrun).
  - exact (handleOut_targets dom m m' c Hrun).
  - intros y Hy. left. exact (handleOut_others dom m m' c Hrun y Hy).
Qed.

Lemma handleOuts_tame (dom : Node.Dom) (m0 : DDM.t) (l : list DropRef) :
  sound m0 ->
  (forall c, In c l -> In c (DDM.otherDrops m0) \/ In c (DDM.validDrops m0)) ->
  forall m, tame m0 m ->
            exists m', DropMove._handleOuts dom l m = Ok m' /\ tame m0 m'.
Proof.
  intros Hs0. induction l as [|c l IH]; intros Hl m Ht; cbn [DropMove._handleOuts].
  - exists m. auto.
  - destruct (Hs0) as [_ Hvo0].
    destruct (Hvo0 c) as (d0 & Hd0 & Hsh0 & Hreg0).
    { destruct (Hl c (or_introl eq_refl)); auto. }
    destruct Ht as (Ht1 & Ht2 & Ht3 & Ht4 & Ht5).
    destruct (Ht4 c d0 Hd0 Hreg0) as (d & Hd & Hreg).
    destruct (same_static_shim m0 m c d0 Ht3 Hd0) as (d' & Hd' & Hsh').
    rewrite Hd in Hd'. injection Hd' as <-.
    destruct (handleOut_tame dom m c d Hd) as (m1 & Hrun & Ht'); [congruence | exact Hreg |].
    rewrite Hrun. unfold mbind, Outcome_bind. cbv beta iota.
    apply IH; [intros x Hx; apply Hl; right; exact Hx |].
    eapply tame_trans; [| exact Ht']. exact (conj Ht1 (conj Ht2 (conj Ht3 (conj Ht4 Ht5)))).
Qed.

(** The manager's [_dropMove] on a sound state. *)
Lemma dropMove_tame (dom : Node.Dom) (fuel : nat) (m : DDM.t) :
  sound m -> enough fuel m ->
  exists m', DropMove._dropMove dom fuel m = Some (Ok m') /\ tame m m'.
Proof.
  intros Hs Hf. unfold DropMove._dropMove.
  destruct (Registry._hasActiveShim m).
  - apply handleTargetOver_tame; assumption.
  - destruct (handleOuts_tame dom m (DDM.otherDrops m) Hs) with (m := m) as (m' & Hrun & Ht).
    + intros c Hc. left. exact Hc.
    + apply tame_refl.
    + exists m'. rewrite Hrun. auto.
Qed.

Lemma store_tame (m : DDM.t) (c : DropRef) (d d' : Drop.t) :
  DDM.drops m !! c = Some d -> drop_key d' = drop_key d ->
  (Drop.region d <> None -> Drop.region d' <> None) ->
  tame m (DDM.store m c d').
Proof.
  intros Hd Hk Hr. split; [reflexivity |]. split; [reflexivity |].
  split; [exact (same_static_store m c d d' Hd Hk) |]. split.
  - intros x dx Hx Hreg. unfold DDM.store, DDM.set_drops; cbn [DDM.drops].
    destruct (decide (c = x)) as [<- | Hne].
    + rewrite lookup_insert_eq. exists d'. split; [reflexivity |].
      apply Hr. rewrite Hd in Hx. injection Hx as <-. exact Hreg.
    + rewrite lookup_insert_ne by assumption. exists dx. auto.
  - intros y Hy. left. exact Hy.
Qed.

Lemma activateTargets_sound (dom : Node.Dom) (proto : string -> bool) (fuel : nat)
    (m : DDM.t) (drag : Drag.t) :
  DDM.activeDrag m = Some drag ->
  targets_registered m drag ->
  (length (DDM.targets m) < fuel)%nat ->
  exists m',
    Targets._activateTargets dom proto fuel m = Some (Ok m')
    /\ sound m' /\ enough fuel m'
    /\ DDM.targets m' = DDM.targets m
    /\ same_static m m'
    /\ DDM.validDrops m' = List.filter (admitted proto drag m) (DDM.targets m)
    /\ (forall y, In y (DDM.otherDrops m') -> In y (DDM.validDrops m')).
Proof.
  intros Hact Hreg Hf.
  destruct (activateShims_total dom proto m drag Hact Hreg) as (m1 & Hshims & Hr1).
  destruct (activateShims_others dom proto m m1 Hshims) as [Ho1 _].
  destruct (activateShims_effect dom proto drag m m1 Hact Hshims) as (Hs1 & _).
  pose proof Hshims as Hloop. unfold Targets._activateShims in Hloop.
  pose proof (activateShims_loop dom proto drag (DDM.targets m) (DDM.clearCache m) m1
                Hact Hloop) as (_ & Ht1 & _).
  pose proof (activateShims_list dom proto drag (DDM.targets m) (DDM.clearCache m) m1
                Hact (fun c (H : In c []) => match H with end) Hloop) as Hlist.
  cbn [DDM.validDrops DDM.clearCache DDM.set_validDrops DDM.set_otherDrops
       DDM.set_activeShims DDM.targets app] in Hlist, Ht1.
  assert (Hsound1 : sound m1).
  { split.
    - intros c Hc. rewrite Ht1 in Hc. destruct Hreg as [Hreg _].
      destruct (Hreg c Hc) as (d & Hd & Hsh).
      destruct (same_static_shim m m1 c d Hs1 Hd) as (d' & Hd' & Hsh').
      exists d'. rewrite Hsh'. auto.
    - intros c [Hc | Hc]; [exact (Hr1 c Hc) | rewrite Ho1 in Hc; destruct Hc]. }
  assert (Hen1 : enough fuel m1).
  { split; [rewrite Ht1; exact Hf |]. rewrite Hlist.
    pose proof (List.filter_length_le (admitted proto drag (DDM.clearCache m)) (DDM.targets m)).
    lia. }
  destruct (handleTargetOver_tame dom fuel m1 Hsound1 Hen1) as (m' & Hrun & Ht).
  exists m'. unfold Targets._activateTargets. rewrite Hshims.
  split; [exact Hrun |].
  split; [exact (tame_sound m1 m' Ht Hsound1) |].
  split; [exact (tame_enough fuel m1 m' Ht Hen1) |].
  destruct Ht as (Hta & Hva & Hsa & _ & Hoa).
  split; [congruence |].
  split; [exact (same_static_trans _ _ _ Hs1 Hsa) |].
  split.
  - rewrite Hva, Hlist. apply filter_ext. intros c. apply same_static_admitted.
    split; [reflexivity | intros x; reflexivity].
  - intros y Hy. rewrite Hva. destruct (Hoa y Hy) as [H | H]; [| exact H].
    rewrite Ho1 in H. destruct H.
Qed.

Lemma deactivateShims_tame (l : list DropRef) :
  forall m m' : DDM.t,
    Release._deactivateShims l m = Ok m' ->
    tame m m' /\ DDM.otherDrops m' = DDM.otherDrops m
    /\ DDM._activeShims m' = DDM._activeShims m /\ DDM._noShim m' = DDM._noShim m.
Proof.
  induction l as [|F l IH]; intros m m' Hrun; cbn [Release._deactivateShims] in Hrun.
  - injection Hrun as <-. split; [apply tame_refl | auto].
  - unfold DropShim._deactivateShim, DDM.deref in Hrun.
    destruct (DDM.drops m !! F) as [d|] eqn:Hd; [| discriminate].
    unfold mbind, Outcome_bind in Hrun. cbv beta iota in Hrun.
    destruct (Drop.shim d) as [s|]; [| discriminate].
    destruct (IH _ _ Hrun) as (Ht & Ho & Ha & Hn).
    split; [| auto].
    eapply tame_trans; [| exact Ht].
    apply (store_tame m F d); [exact Hd | reflexivity | auto].
Qed.

Lemma bestMatch_loop_tame (dom : Node.Dom) (F : list DropRef) :
  forall (m m' : DDM.t) (C C' : option DropRef) (E E' : Z),
    DDM.bestMatch_loop dom F (m, C, E) = Ok (m', C', E') ->
    tame m m' /\ DDM._activeShims m' = DDM._activeShims m /\ DDM._noShim m' = DDM._noShim m.
Proof.
  induction F as [|I F IH]; intros m m' C C' E E' Hrun; cbn [DDM.bestMatch_loop] in Hrun.
  - injection Hrun as <- _ _. split; [apply tame_refl | auto].
  - unfold DDM.bestMatch_step in Hrun.
    destruct (DDM.activeDrag m) as [drag|]; [| discriminate].
    unfold DDM.deref in Hrun.
    destruct (DDM.drops m !! I) as [d|] eqn:Hd; [| discriminate].
    unfold mbind, Outcome_bind in Hrun. cbv beta iota zeta in Hrun.
    destruct (Drop.region d) as [r|] eqn:Hr; [| discriminate].
    match type of Hrun with
    | context [if ?b then _ else _] => destruct b
    end; cbv beta iota in Hrun;
      destruct (IH _ _ _ _ _ _ Hrun) as (Ht & Ha & Hn);
      (split; [| auto]);
      (eapply tame_trans; [| exact Ht]);
      (apply (store_tame m I d); [exact Hd | reflexivity | intros _; discriminate]).
Qed.

(** When [_deactivateTargets] returns on a sound state, the state is sound,
    no drop is active, and a hit went to a Drop that had been entered. *)
Lemma deactivateTargets_tame (dom : Node.Dom) (m m' : DDM.t) (fired : list Release.Fired) :
  Release._deactivateTargets dom m = Ok (m', fired) ->
  tame m m'
  /\ DDM.activeDrop m' = None
  /\ DDM._activeShims m' = DDM._activeShims m /\ DDM._noShim m' = DDM._noShim m
  /\ (forall y, In y (DDM.otherDrops m') -> In y (DDM.otherDrops m))
  /\ (forall w B, In (Release.DropHit w B) fired \/ In (Release.DragDropHit w B) fired ->
                  In w (DDM.otherDrops m)).
Proof.
  unfold Release._deactivateTargets. intros Hrun.
  assert (Hfirst : forall m1 fired1,
             match DDM.activeDrag m with
             | Some D =>
                 match DDM.activeDrop m with
                 | Some a =>
                     if existsb (Nat.eqb a) (DDM.otherDrops m)
                     then Release.hit dom D a m else Release.miss D m
                 | None => Release.miss D m
                 end
             | None => Ok (m, [])
             end = Ok (m1, fired1) ->
             tame m m1
             /\ DDM._activeShims m1 = DDM._activeShims m /\ DDM._noShim m1 = DDM._noShim m
             /\ (forall y, In y (DDM.otherDrops m1) -> In y (DDM.otherDrops m))
             /\ (forall w B, In (Release.DropHit w B) fired1
                             \/ In (Release.DragDropHit w B) fired1 ->
                             In w (DDM.otherDrops m))).
  { intros m1 fired1 H1.
    assert (Hmiss : forall D, Release.miss D m = Ok (m1, fired1) ->
               tame m m1
               /\ DDM._activeShims m1 = DDM._activeShims m /\ DDM._noShim m1 = DDM._noShim m
               /\ (forall y, In y (DDM.otherDrops m1) -> In y (DDM.otherDrops m))
               /\ (forall w B, In (Release.DropHit w B) fired1
                               \/ In (Release.DragDropHit w B) fired1 ->
                               In w (DDM.otherDrops m))).
    { intros D. unfold Release.miss. destruct (Drag.lastXY D); [| discriminate].
      intros [= <- <-]. split; [apply tame_refl |]. split; [reflexivity |].
      split; [reflexivity |]. split; [auto |].
      intros w B [[H | []] | [H | []]]; discriminate. }
    destruct (DDM.activeDrag m) as [D|].
    - destruct (DDM.activeDrop m) as [a|] eqn:Ha; [| exact (Hmiss D H1)].
      destruct (existsb (Nat.eqb a) (DDM.otherDrops m)) eqn:Hin; [| exact (Hmiss D H1)].
      apply existsb_eqb_In in Hin.
      destruct (hit_outcome dom D a m m1 fired1 Ha H1) as (_ & w & Hw & _ & _ & Hfired).
      assert (Hw' : In w (DDM.otherDrops m)).
      { destruct Hw as [<- | Hw]; assumption. }
      revert H1. unfold Release.hit.
      destruct (negb (truthy (Drag.dragMode (Drag.cfg D)))).
      + unfold mbind, Outcome_bind. cbv beta iota zeta.
        cbn [DropShim.otherDrops_delete DDM.activeDrop DDM.set_otherDrops].
        rewrite Ha. intros [= <- _].
        split.
        { apply quiet_tame; [apply quiet_fields; reflexivity | reflexivity |].
          intros y Hy. left. cbn in Hy. apply filter_In in Hy. apply Hy. }
        split; [reflexivity |]. split; [reflexivity |]. split.
        { intros y Hy. cbn in Hy. apply filter_In in Hy. apply Hy. }
        intros w0 B0 Hf. rewrite Hfired in Hf.
        destruct Hf as [[H | [H | []]] | [H | [H | []]]]; try discriminate;
          injection H as <- _; exact Hw'.
      + unfold DDM.getBestMatch.
        destruct (DDM.bestMatch_loop dom (DDM.otherDrops m) (m, None, 0))
          as [[[m2 C2] E2]|] eqn:Hloop; [| discriminate].
        unfold mbind, Outcome_bind. cbv beta iota zeta.
        destruct C2 as [w2|]; cbn [DDM.activeDrop DDM.set_activeDrop]; [| discriminate].
        intros [= <- _].
        destruct (bestMatch_loop_tame dom _ _ _ _ _ _ _ Hloop) as (Ht & Hsh & Hn).
        destruct (bestMatch_loop_winner dom _ _ _ _ _ _ _ Hloop) as (_ & _ & Ho).
        split.
        { eapply tame_trans; [exact Ht |].
          apply quiet_tame; [apply quiet_fields; reflexivity | reflexivity |].
          intros y Hy. left. exact Hy. }
        split; [exact Hsh |]. split; [exact Hn |]. split.
        { intros y Hy. cbn in Hy. rewrite Ho in Hy. exact Hy. }
        intros w0 B0 Hf. rewrite Hfired in Hf.
        destruct Hf as [[H | [H | []]] | [H | [H | []]]]; try discriminate;
          injection H as <- _; exact Hw'.
    - injection H1 as <- <-. split; [apply tame_refl |]. split; [reflexivity |].
      split; [reflexivity |]. split; [auto |]. intros w B [[] | []]. }
  match type of Hrun with
  | (?first ≫= _) = _ => destruct first as [[m1 fired1]|] eqn:H1; [| discriminate]
  end.
  unfold mbind, Outcome_bind in Hrun. cbv beta iota zeta in Hrun.
  destruct (Release._deactivateShims (DDM.targets m1) (DDM.set_activeDrop None m1))
    as [m2|] eqn:Hsh; [| discriminate].
  cbv beta iota in Hrun. injection Hrun as <- <-.
  destruct (Hfirst m1 fired1 eq_refl) as (Ht1 & Ha1 & Hn1 & Ho1 & Hf1).
  destruct (deactivateShims_tame _ _ _ Hsh) as (Ht2 & Ho2 & Ha2 & Hn2).
  destruct (deactivateShims_resets _ _ _ Hsh) as (Hd2 & _).
  split.
  { eapply tame_trans; [exact Ht1 |]. eapply tame_trans; [| exact Ht2].
    apply quiet_tame; [apply quiet_fields; reflexivity | reflexivity |].
    intros y Hy. left. exact Hy. }
  split; [rewrite Hd2; reflexivity |].
  split; [rewrite Ha2; exact Ha1 |]. split; [rewrite Hn2; exact Hn1 |].
  split; [| exact Hf1].
  intros y Hy. rewrite Ho2 in Hy. apply Ho1. exact Hy.
Qed.

Lemma deactivateTargets_total (dom : Node.Dom) (m : DDM.t) (drag : Drag.t) :
  DDM.activeDrag m = Some drag ->
  Drag.lastXY drag <> None ->
  sound m ->
  Drag.dragMode (Drag.cfg drag) = DDM.POINT \/ DDM.activeDrop m = None ->
  exists m' fired, Release._deactivateTargets dom m = Ok (m', fired).
Proof.
  intros Hact Hlast [Htg _] Hmode. unfold Release._deactivateTargets. rewrite Hact.
  assert (Hfirst : exists fired1 o,
             match DDM.activeDrop m with
             | Some a =>
                 if existsb (Nat.eqb a) (DDM.otherDrops m)
                 then Release.hit dom drag a m else Release.miss drag m
             | None => Release.miss drag m
             end = Ok (DDM.set_otherDrops o m, fired1)).
  { assert (Hmiss : exists fired1 o,
               Release.miss drag m = Ok (DDM.set_otherDrops o m, fired1)).
    { unfold Release.miss. destruct (Drag.lastXY drag) as [l|]; [| congruence].
      exists [Release.DragDropMiss (fst l) (snd l)], (DDM.otherDrops m).
      destruct m; reflexivity. }
    destruct (DDM.activeDrop m) as [a|] eqn:Ha; [| exact Hmiss].
    destruct (existsb (Nat.eqb a) (DDM.otherDrops m)); [| exact Hmiss].
    destruct Hmode as [Hmode | Hmode]; [| discriminate].
    unfold Release.hit. rewrite Hmode. cbn [DDM.POINT truthy Z.eqb negb].
    unfold mbind, Outcome_bind. cbv beta iota zeta.
    cbn [DropShim.otherDrops_delete DDM.activeDrop DDM.set_otherDrops]. rewrite Ha.
    eexists _, _. reflexivity. }
  destruct Hfirst as (fired1 & o & ->).
  unfold mbind, Outcome_bind. cbv beta iota zeta.
  destruct (deactivateShims_total (DDM.targets (DDM.set_otherDrops o m))
              (DDM.set_activeDrop None (DDM.set_otherDrops o m))) as [m2 H2].
  { exact Htg. }
  rewrite H2. eexists _, _. reflexivity.
Qed.

Lemma hasActiveShim_false (m : DDM.t) :
  Registry._hasActiveShim m = false <-> DDM._noShim m = false /\ DDM._activeShims m = [].
Proof.
  unfold Registry._hasActiveShim. destruct (DDM._noShim m).
  - split; [discriminate | intros [H _]; discriminate].
  - destruct (DDM._activeShims m); cbn; split; auto; try discriminate.
    intros [_ H]. discriminate.
Qed.

Lemma handleOut_calm (dom : Node.Dom) (m m' : DDM.t) (c : DropRef) :
  DropShim._handleOut dom m c = Ok m' ->
  DDM.activeDrop m' = DDM.activeDrop m /\ DDM._noShim m' = DDM._noShim m
  /\ (DDM._activeShims m = [] -> DDM._activeShims m' = []).
Proof.
  unfold DropShim._handleOut.
  destruct (DDM.isOverTarget dom m (Some c)) as [over|]; [| discriminate].
  unfold mbind, Outcome_bind. cbv beta iota.
  destruct over; [intros [= <-]; auto |].
  destruct (DDM.deref m c) as [d|]; [| discriminate]. cbv beta iota.
  destruct (Drop.overTarget d); [| intros [= <-]; auto].
  cbv zeta.
  match goal with
  | |- context [DDM.activeDrag ?s] => destruct (DDM.activeDrag s)
  end; intros [= <-]; cbn; (split; [reflexivity |]); (split; [reflexivity |]);
    intros ->; reflexivity.
Qed.

Lemma handleOuts_calm (dom : Node.Dom) (l : list DropRef) :
  forall m m', DropMove._handleOuts dom l m = Ok m' ->
               DDM.activeDrop m' = DDM.activeDrop m /\ DDM._noShim m' = DDM._noShim m
               /\ (DDM._activeShims m = [] -> DDM._activeShims m' = []).
Proof.
  induction l as [|c l IH]; intros m m'; cbn [DropMove._handleOuts].
  - intros [= <-]. auto.
  - destruct (DropShim._handleOut dom m c) as [m1|] eqn:H1; [| discriminate].
    unfold mbind, Outcome_bind. cbv beta iota. intros Hrest.
    destruct (handleOut_calm dom m m1 c H1) as (Ha & Hn & Hs).
    destruct (IH m1 m' Hrest) as (Ha' & Hn' & Hs').
    split; [congruence |]. split; [congruence | auto].
Qed.

(** While no shim is active, [_dropMove] enters no Drop. *)
Lemma dropMove_calm (dom : Node.Dom) (fuel : nat) (m m' : DDM.t) :
  Registry._hasActiveShim m = false ->
  DropMove._dropMove dom fuel m = Some (Ok m') ->
  DDM.activeDrop m' = DDM.activeDrop m /\ Registry._hasActiveShim m' = false.
Proof.
  intros Hn. unfold DropMove._dropMove. rewrite Hn. intros [= Hrun].
  destruct (handleOuts_calm dom _ _ _ Hrun) as (Ha & Hno & Hs).
  apply hasActiveShim_false in Hn. destruct Hn as [Hn1 Hn2].
  split; [exact Ha |]. apply hasActiveShim_false. split; [congruence | auto].
Qed.

Lemma find_all_false {A : Type} (f : A -> bool) (l : list A) :
  (forall x, In x l -> f x = false) -> List.find f l = None.
Proof.
  induction l as [|x l IH]; intros H; [reflexivity |]. cbn [List.find].
  rewrite (H x (or_introl eq_refl)). apply IH. intros y Hy. apply H. right. exact Hy.
Qed.

(** While the active drag has no pointer position, as before its first
    pointer-move, [_dropMove] makes no Drop the active one. *)
Lemma dropMove_idle (dom : Node.Dom) (fuel : nat) (m m' : DDM.t) :
  (forall drag, DDM.activeDrag m = Some drag -> Drag.mouseXY drag = None) ->
  sound m ->
  DropMove._dropMove dom fuel m = Some (Ok m') ->
  DDM.activeDrop m' = DDM.activeDrop m.
Proof.
  intros Hxy Hs. unfold DropMove._dropMove.
  destruct (Registry._hasActiveShim m).
  - intros Hrun. pose proof (sound_ready m Hs) as Hr.
    destruct (ready_lookup dom m Hr) as [B HB].
    destruct (handleTargetOver_settled dom fuel m B m' Hr HB Hrun) as (_ & _ & Ha).
    rewrite Ha. unfold last_over. rewrite find_all_false; [reflexivity |].
    intros x _. unfold over, DDM.isOverTarget.
    destruct (DDM.activeDrag m) as [drag|]; [| reflexivity].
    rewrite (Hxy drag eq_refl). reflexivity.
  - intros [= Hrun]. apply (handleOuts_calm dom _ _ _ Hrun).
Qed.

(** ** The manager's hooks in the state machine *)

Lemma manager_sound (s : DragFlow.St) : sound (DragFlow.manager s) <-> sound (DragFlow.mgr s).
Proof. unfold DragFlow.manager. apply sound_activeDrag. Qed.

Lemma manager_enough (fuel : nat) (s : DragFlow.St) :
  enough fuel (DragFlow.manager s) <-> enough fuel (DragFlow.mgr s).
Proof. unfold enough, DragFlow.manager. reflexivity. Qed.

Lemma emits_nil (s : DragFlow.St) : DragFlow.emits [] (DragFlow.set_mgr (DragFlow.mgr s) s) = s.
Proof. destruct s. unfold DragFlow.emits, DragFlow.set_mgr. cbn. rewrite app_nil_r. reflexivity. Qed.

Section Hooks.
Variable proto : string -> bool.
Variable fuel : nat.

Lemma startDrag_ok (s : DragFlow.St) :
  DragFlow.active s = true ->
  sound (DragFlow.mgr s) -> enough fuel (DragFlow.mgr s) ->
  (Drag.dragMode (Drag.cfg (DragFlow.drag s)) = DDM.INTERSECT ->
   Drag.deltaXY (DragFlow.drag s) <> None) ->
  exists m' tr,
    DragFlow.DDM_startDrag proto fuel s
    = Some (Ok (DragFlow.emits tr (DragFlow.set_mgr m' s)))
    /\ sound m' /\ enough fuel m'
    /\ (tr = [] \/ tr = [DragFlow.PG_activate])
    /\ DDM.targets m' = DDM.targets (DragFlow.mgr s)
    /\ (forall x, drop_key <$> (DDM.drops m' !! x)
                  = drop_key <$> (DDM.drops (DragFlow.mgr s) !! x))
    /\ (forall y, In y (DDM.validDrops m') \/ In y (DDM.otherDrops m') ->
                  In y (DDM.validDrops (DragFlow.mgr s)) \/ In y (DDM.otherDrops (DragFlow.mgr s))
                  \/ (In y (DDM.targets (DragFlow.mgr s))
                      /\ admitted proto (DragFlow.drag s) (DragFlow.mgr s) y = true)).
Proof.
  intros Ha Hs He Hd. unfold DragFlow.DDM_startDrag. rewrite Ha.
  destruct (Drag.useShim (Drag.cfg (DragFlow.drag s))).
  - set (s1 := DragFlow.emit DragFlow.PG_activate s).
    destruct (activateTargets_sound (DragFlow.page s1) proto fuel (DragFlow.manager s1)
                (DragFlow.drag s))
      as (m' & Hrun & Hs' & He' & Ht' & Hst' & Hv' & Ho').
    + unfold DragFlow.manager, s1. cbn. rewrite Ha. reflexivity.
    + split; [| exact Hd]. destruct Hs as [Htg _]. exact Htg.
    + destruct He as [He _]. exact He.
    + exists m', [DragFlow.PG_activate]. rewrite Hrun. cbn [DragFlow.andThen].
      split; [reflexivity |]. split; [exact Hs' |]. split; [exact He' |].
      split; [right; reflexivity |]. split; [exact Ht' |]. split; [apply Hst' |].
      intros y Hy. right. right.
      assert (Hyv : In y (DDM.validDrops m')) by (destruct Hy as [Hy | Hy]; auto).
      rewrite Hv' in Hyv. apply filter_In in Hyv. exact Hyv.
  - exists (DragFlow.mgr s), []. rewrite emits_nil.
    split; [reflexivity |]. split; [exact Hs |]. split; [exact He |].
    split; [left; reflexivity |]. split; [reflexivity |].
    split; [intros x; reflexivity |].
    intros y [Hy | Hy]; auto.
Qed.

Lemma dropMove_ok (s : DragFlow.St) :
  sound (DragFlow.mgr s) -> enough fuel (DragFlow.mgr s) ->
  exists m',
    DragFlow.DDM_dropMove fuel s = Some (Ok (DragFlow.set_mgr m' s))
    /\ tame (DragFlow.manager s) m'
    /\ sound m' /\ enough fuel m'
    /\ (at_rest (DragFlow.mgr s) -> at_rest m')
    /\ (Drag.mouseXY (DragFlow.drag s) = None ->
        DDM.activeDrop m' = DDM.activeDrop (DragFlow.mgr s)).
Proof.
  intros Hs He. unfold DragFlow.DDM_dropMove.
  destruct (dropMove_tame (DragFlow.page s) fuel (DragFlow.manager s)) as (m' & Hrun & Ht).
  - apply manager_sound. exact Hs.
  - apply manager_enough. exact He.
  - exists m'. rewrite Hrun. split; [reflexivity |]. split; [exact Ht |].
    split; [exact (tame_sound _ _ Ht (proj2 (manager_sound s) Hs)) |].
    split; [exact (tame_enough fuel _ _ Ht (proj2 (manager_enough fuel s) He)) |].
    split.
    + intros [Hr1 Hr2].
      destruct (dropMove_calm (DragFlow.page s) fuel (DragFlow.manager s) m' Hr2 Hrun)
        as [Hc1 Hc2].
      split; [rewrite Hc1; exact Hr1 | exact Hc2].
    + intros Hxy.
      apply (dropMove_idle (DragFlow.page s) fuel (DragFlow.manager s) m');
        [| apply manager_sound; exact Hs | exact Hrun].
      unfold DragFlow.manager. cbn [DDM.activeDrag DDM.set_activeDrag].
      destruct (DragFlow.active s); [intros drag [= <-]; exact Hxy | discriminate].
Qed.
End Hooks.

Lemma endDrag_tame (s s' : DragFlow.St) :
  DragFlow.DDM_endDrag s = Ok s' ->
  exists m' fired,
    s' = DragFlow.emits (map DragFlow.FireDrop fired)
           (DragFlow.set_mgr m' (DragFlow.emit DragFlow.PG_deactivate s))
    /\ tame (DragFlow.manager s) m'
    /\ DDM.activeDrop m' = None
    /\ DDM._activeShims m' = DDM._activeShims (DragFlow.mgr s)
    /\ DDM._noShim m' = DDM._noShim (DragFlow.mgr s)
    /\ (forall y, In y (DDM.otherDrops m') -> In y (DDM.otherDrops (DragFlow.mgr s)))
    /\ (forall w B, In (Release.DropHit w B) fired \/ In (Release.DragDropHit w B) fired ->
                    In w (DDM.otherDrops (DragFlow.mgr s))).
Proof.
  unfold DragFlow.DDM_endDrag. cbv zeta.
  destruct (Release._deactivateTargets
              (DragFlow.page (DragFlow.emit DragFlow.PG_deactivate s))
              (DragFlow.manager (DragFlow.emit DragFlow.PG_deactivate s)))
    as [[m' fired]|] eqn:Hrun; [| discriminate].
  unfold mbind, Outcome_bind. cbv beta iota. cbn [fst snd]. intros [= <-].
  exists m', fired. split; [reflexivity |].
  exact (deactivateTargets_tame _ _ _ _ Hrun).
Qed.

Lemma endDrag_ok (s : DragFlow.St) :
  DragFlow.active s = true ->
  Drag.lastXY (DragFlow.drag s) <> None ->
  sound (DragFlow.mgr s) ->
  Drag.dragMode (Drag.cfg (DragFlow.drag s)) = DDM.POINT
  \/ DDM.activeDrop (DragFlow.mgr s) = None ->
  exists s', DragFlow.DDM_endDrag s = Ok s'.
Proof.
  intros Ha Hl Hs Hm. unfold DragFlow.DDM_endDrag. cbv zeta.
  destruct (deactivateTargets_total
              (DragFlow.page (DragFlow.emit DragFlow.PG_deactivate s))
              (DragFlow.manager (DragFlow.emit DragFlow.PG_deactivate s))
              (DragFlow.drag s)) as (m' & fired & Hrun).
  - unfold DragFlow.manager. cbn. rewrite Ha. reflexivity.
  - exact Hl.
  - apply manager_sound. exact Hs.
  - exact Hm.
  - rewrite Hrun. eexists. reflexivity.
Qed.
Lemma sound_activeShims (v : list DropRef) (m : DDM.t) :
  sound (DDM.set_activeShims v m) <-> sound m.
Proof. unfold sound. reflexivity. Qed.

Lemma enough_activeShims (fuel : nat) (v : list DropRef) (m : DDM.t) :
  enough fuel (DDM.set_activeShims v m) <-> enough fuel m.
Proof. unfold enough. reflexivity. Qed.

(** ** Click versus drag *)

Lemma count_fired_app (ev : string) (tr tr' : list DragFlow.Effect) :
  DragFlow.count_fired ev (tr ++ tr')
  = (DragFlow.count_fired ev tr + DragFlow.count_fired ev tr')%nat.
Proof.
  unfold DragFlow.count_fired. rewrite List.filter_app, length_app. reflexivity.
Qed.

Lemma count_fired_drops (ev : string) (fired : list Release.Fired) :
  DragFlow.count_fired ev (map DragFlow.FireDrop fired) = 0%nat.
Proof. induction fired as [|f fired IH]; [reflexivity | exact IH]. Qed.

(** The overriding [_align] yields a position whenever the offsets it
    reads are set. *)
Lemma constrain_align_total (dom : Node.Dom) (d : Drag.t) (p : XY) :
  Drag.deltaXY d <> None -> Drag.startXY d <> None ->
  exists w, Constrain._align dom d p = Ok w.
Proof.
  intros Hd Hs. unfold Constrain._align, DragBase._align, Constrain.stick,
    Constrain._checkTicks.
  destruct (Drag.deltaXY d) as [delta|]; [| congruence].
  destruct (Drag.startXY d) as [start|]; [| congruence].
  unfold mbind, Outcome_bind. cbv beta iota.
  destruct (Constrain_ATTRS.stickX (Drag.constrain (Drag.cfg d))
            || Constrain_ATTRS.stickY (Drag.constrain (Drag.cfg d)));
    eexists; reflexivity.
Qed.

Ltac open_state s :=
  let d := fresh "d" in
  destruct s as [? d ? ? ? ? ?]; destruct d;
  unfold Phase.pending, Phase.dragging, Phase.armed, Phase.starts, Phase.ends in *;
  cbn [DragFlow.page DragFlow.drag DragFlow.active DragFlow.mgr DragFlow.timers
       DragFlow.next_timer DragFlow.trace Drag.cfg Drag.dragging
       Drag._dragThreshMet Drag._fromTimeout Drag._clickTimeout Drag._ev_md
       Drag.deltaXY Drag.startXY Drag.nodeXY Drag.lastXY Drag.mouseXY Drag.region] in *.

Ltac flow_cbn :=
  cbn [DragFlow.page DragFlow.drag DragFlow.active DragFlow.mgr DragFlow.timers
       DragFlow.next_timer DragFlow.trace DragFlow.upd DragFlow.emit DragFlow.emits
       DragFlow.set_active DragFlow.set_mgr DragFlow.set_timers DragFlow.set_page
       DragFlow.andThen DragFlow.clearTimeout DragFlow.setTimeout
       Drag.cfg Drag.dragging
       Drag._dragThreshMet Drag._fromTimeout Drag._clickTimeout Drag._ev_md
       Drag.deltaXY Drag.startXY Drag.nodeXY Drag.lastXY Drag.mouseXY Drag.region
       Drag.set_dragging Drag.set_dragThreshMet Drag.set_fromTimeout
       Drag.set_clickTimeout Drag.set_ev_md Drag.set_deltaXY Drag.set_startXY
       Drag.set_nodeXY Drag.set_lastXY Drag.set_mouseXY Drag.set_region
       negb andb orb fst snd mbind Outcome_bind].

Ltac some_fields :=
  repeat match goal with
         | H : ?x <> None |- _ =>
             let v := fresh "v" in destruct x as [v|]; [clear H | congruence]
         end.

Ltac run_align :=
  match goal with
  | |- context [Constrain._align ?dom ?d ?p] =>
      let w := fresh "w" in
      let Hw := fresh "Hw" in
      destruct (constrain_align_total dom d p) as [w Hw]; [discriminate | discriminate |];
      rewrite Hw
  end.

(** Runs the manager's [_dropMove] in the goal on a sound state. *)
Ltac drop_move fuel Hs He :=
  match goal with
  | |- context [DragFlow.DDM_dropMove fuel ?s1] =>
      let m' := fresh "m'" in
      let Hrun := fresh "Hrun" in
      let Ht := fresh "Ht" in
      let Hs' := fresh "Hs'" in
      let He' := fresh "He'" in
      let Hr' := fresh "Hr'" in
      let Hi' := fresh "Hi'" in
      destruct (dropMove_ok fuel s1 Hs He) as (m' & Hrun & Ht & Hs' & He' & Hr' & Hi');
      rewrite Hrun; clear Hrun;
      cbn [DragFlow.mgr DragFlow.drag DragFlow.upd DragFlow.emit DragFlow.emits
           DragFlow.set_page DragFlow.set_mgr DragFlow.set_timers DragFlow.set_active
           DragFlow.clearTimeout Drag.mouseXY] in Hr', Hi'
  end.

(** Runs the manager's [_startDrag] in the goal on a sound state. *)
Ltac start_drag proto fuel Hs He :=
  match goal with
  | |- context [DragFlow.DDM_startDrag proto fuel ?s1] =>
      let m' := fresh "m'" in
      let tr := fresh "tr" in
      let Hrun := fresh "Hrun" in
      let Hs' := fresh "Hs'" in
      let He' := fresh "He'" in
      let Htr := fresh "Htr" in
      let Htg := fresh "Htg" in
      let Hk := fresh "Hk" in
      let Hmem := fresh "Hmem" in
      destruct (startDrag_ok proto fuel s1) as (m' & tr & Hrun & Hs' & He' & Htr & Htg & Hk & Hmem);
      [reflexivity | exact Hs | exact He | intros _; discriminate |];
      rewrite Hrun; clear Hrun;
      cbn [DragFlow.mgr DragFlow.drag DragFlow.upd DragFlow.emit DragFlow.emits
           DragFlow.set_page DragFlow.set_mgr DragFlow.set_timers DragFlow.set_active
           DragFlow.clearTimeout] in Htg, Hk, Hmem
  end.

(** Runs the manager's [_endDrag] in the goal, given that it returns. *)
Ltac end_drag Hend :=
  match goal with
  | |- context [DragFlow.DDM_endDrag ?s1] =>
      let m' := fresh "m'" in
      let fired := fresh "fired" in
      let Heq := fresh "Heq" in
      let Ht := fresh "Ht" in
      let Hnone := fresh "Hnone" in
      let Hsh := fresh "Hsh" in
      let Hno := fresh "Hno" in
      let Hoth := fresh "Hoth" in
      let Hhit := fresh "Hhit" in
      destruct (endDrag_tame s1 _ Hend) as (m' & fired & Heq & Ht & Hnone & Hsh & Hno & Hoth & Hhit);
      rewrite Hend, Heq;
      cbn [DragFlow.mgr DragFlow.drag DragFlow.upd DragFlow.emit DragFlow.emits
           DragFlow.set_page DragFlow.set_mgr DragFlow.set_timers DragFlow.set_active
           DragFlow.clearTimeout] in Hsh, Hno, Hoth, Hhit
  end.

Ltac facts := repeat (split; try assumption); auto; try discriminate.

Ltac count_trace :=
  rewrite ?count_fired_app, ?count_fired_drops; cbn [DragFlow.count_fired List.filter length
    String.eqb Ascii.eqb Bool.eqb]; cbn; rewrite ?Nat.add_0_r, ?Nat.add_1_r.

Section ClickVersusDrag.
Variable proto : string -> bool.
Variable opera : bool.
Variable fuel : nat.

Lemma press_arms (s : DragFlow.St) (ev : DragFlow.MouseEvent) :
  Drag.lock (Drag.cfg (DragFlow.drag s)) = false ->
  Drag.dragging (DragFlow.drag s) = false ->
  DragFlow.timers s = [] ->
  DragFlow.validClick ev = true ->
  (Drag.primaryButtonOnly (Drag.cfg (DragFlow.drag s)) = true -> DragFlow.button ev <= 1) ->
  let s' := DragFlow._handleMouseDownEvent ev s in
  DragFlow.dispatch proto opera fuel s (DragFlow.MouseDown ev) = Some (Ok s')
  /\ Phase.pending (DragFlow.pageX ev, DragFlow.pageY ev) (DragFlow.next_timer s) s'
  /\ Drag.cfg (DragFlow.drag s') = Drag.cfg (DragFlow.drag s)
  /\ DragFlow.mgr s' = DragFlow.mgr s
  /\ Phase.starts s' = Phase.starts s /\ Phase.ends s' = Phase.ends s.
Proof.
  intros Hl Hdr Ht Hv Hb. open_state s. subst.
  split; [reflexivity |].
  unfold DragFlow._handleMouseDownEvent, DragFlow._handleMouseDown. flow_cbn.
  assert (Hbtn : Drag.primaryButtonOnly cfg && (1 <? DragFlow.button ev) = false).
  { destruct (Drag.primaryButtonOnly cfg); [| reflexivity].
    apply Z.ltb_ge. apply Hb. reflexivity. }
  rewrite Hbtn, Hv. unfold DragFlow._setStartPosition. flow_cbn.
  rewrite !count_fired_app. cbn. rewrite ?Nat.add_0_r.
  repeat split; auto; discriminate.
Qed.

Lemma move_within (start : XY) (h : nat) (s : DragFlow.St) (ev : DragFlow.MouseEvent) :
  Phase.pending start h s ->
  sound (DragFlow.mgr s) -> enough fuel (DragFlow.mgr s) ->
  Phase.within (Drag.cfg (DragFlow.drag s)) start ev ->
  exists s',
    DragFlow.DDM_move proto opera fuel ev s = Some (Ok s')
    /\ Phase.pending start h s'
    /\ Drag.cfg (DragFlow.drag s') = Drag.cfg (DragFlow.drag s)
    /\ sound (DragFlow.mgr s') /\ enough fuel (DragFlow.mgr s')
    /\ (at_rest (DragFlow.mgr s) -> at_rest (DragFlow.mgr s'))
    /\ Phase.starts s' = Phase.starts s /\ Phase.ends s' = Phase.ends s.
Proof.
  intros Hp Hs He [Hx Hy]. open_state s.
  destruct Hp as ((Ha & Hl & Hst & Hd & Hn & Hla & Hmd) & Hdr & Hth & Hto & Htm).
  subst. unfold DragFlow.DDM_move, DragFlow._move. flow_cbn. rewrite Hl. flow_cbn.
  assert (Hc : (Drag.clickPixelThresh cfg <? Z.abs (fst start - DragFlow.pageX ev))
               || (Drag.clickPixelThresh cfg <? Z.abs (snd start - DragFlow.pageY ev))
               = false).
  { apply orb_false_iff. split; apply Z.ltb_ge; assumption. }
  rewrite Hc. flow_cbn.
  drop_move fuel Hs He.
  eexists. split; [reflexivity |]. flow_cbn.
  split; [repeat split; auto |]. split; [reflexivity |].
  split; [assumption |]. split; [assumption |]. split; [assumption |].
  split; reflexivity.
Qed.

Lemma move_beyond (start : XY) (h : nat) (s : DragFlow.St) (ev : DragFlow.MouseEvent) :
  Phase.pending start h s ->
  sound (DragFlow.mgr s) -> enough fuel (DragFlow.mgr s) ->
  Phase.beyond (Drag.cfg (DragFlow.drag s)) start ev ->
  exists s',
    DragFlow.DDM_move proto opera fuel ev s = Some (Ok s')
    /\ Phase.dragging start s'
    /\ Drag.cfg (DragFlow.drag s') = Drag.cfg (DragFlow.drag s)
    /\ sound (DragFlow.mgr s') /\ enough fuel (DragFlow.mgr s')
    /\ Phase.starts s' = S (Phase.starts s) /\ Phase.ends s' = Phase.ends s.
Proof.
  intros Hp Hs He Hb. open_state s.
  destruct Hp as ((Ha & Hl & Hst & Hd & Hn & Hla & Hmd) & Hdr & Hth & Hto & Htm).
  subst. some_fields.
  unfold DragFlow.DDM_move, DragFlow._move. flow_cbn. rewrite Hl. flow_cbn.
  assert (Hc : (Drag.clickPixelThresh cfg <? Z.abs (fst start - DragFlow.pageX ev))
               || (Drag.clickPixelThresh cfg <? Z.abs (snd start - DragFlow.pageY ev))
               = true).
  { apply orb_true_iff. destruct Hb; [left | right]; apply Z.ltb_lt; assumption. }
  rewrite Hc. unfold DragFlow.start. flow_cbn. rewrite Hl. flow_cbn.
  start_drag proto fuel Hs He. flow_cbn.
  unfold DragFlow._moveNode. flow_cbn. run_align. flow_cbn.
  destruct (Drag.move cfg), opera; flow_cbn; drop_move fuel Hs' He';
    (eexists; split; [reflexivity |]); flow_cbn;
    (destruct Htr as [-> | ->]); count_trace; facts.
Qed.

Lemma timer_promotes (start : XY) (h : nat) (s : DragFlow.St) :
  Phase.pending start h s ->
  sound (DragFlow.mgr s) -> enough fuel (DragFlow.mgr s) ->
  exists s',
    DragFlow.dispatch proto opera fuel s (DragFlow.TimerFires h) = Some (Ok s')
    /\ Phase.dragging start s'
    /\ Drag.cfg (DragFlow.drag s') = Drag.cfg (DragFlow.drag s)
    /\ sound (DragFlow.mgr s') /\ enough fuel (DragFlow.mgr s')
    /\ Phase.starts s' = S (Phase.starts s) /\ Phase.ends s' = Phase.ends s.
Proof.
  intros Hp Hs He. open_state s.
  destruct Hp as ((Ha & Hl & Hst & Hd & Hn & Hla & Hmd) & Hdr & Hth & Hto & Htm).
  subst. some_fields.
  unfold DragFlow.dispatch. flow_cbn. cbn [existsb]. rewrite Nat.eqb_refl. cbn [orb].
  unfold DragFlow._timeoutCheck. flow_cbn. rewrite Hl. flow_cbn.
  unfold DragFlow.start. flow_cbn. rewrite Hl. flow_cbn.
  start_drag proto fuel Hs He. flow_cbn.
  unfold DragFlow._moveNode. flow_cbn. run_align. flow_cbn.
  eexists. split; [reflexivity |].
  destruct (Drag.move cfg), opera; flow_cbn;
    (destruct Htr as [-> | ->]); count_trace; facts.
Qed.

Lemma dragging_keeps_going (start : XY) (s : DragFlow.St) (i : DragFlow.Input) :
  Phase.dragging start s ->
  sound (DragFlow.mgr s) -> enough fuel (DragFlow.mgr s) ->
  Phase.keeps_going i ->
  exists s',
    DragFlow.dispatch proto opera fuel s i = Some (Ok s')
    /\ Phase.dragging start s'
    /\ Drag.cfg (DragFlow.drag s') = Drag.cfg (DragFlow.drag s)
    /\ sound (DragFlow.mgr s') /\ enough fuel (DragFlow.mgr s')
    /\ Phase.starts s' = Phase.starts s /\ Phase.ends s' = Phase.ends s.
Proof.
  intros Hp Hs He Hi. open_state s.
  destruct Hp as ((Ha & Hl & Hst & Hd & Hn & Hla & Hmd) & Hdr & Hth).
  subst. some_fields.
  destruct i as [ev | ev | | h0 | r | r]; try contradiction.
  - unfold DragFlow.dispatch, DragFlow.DDM_move, DragFlow._move.
    flow_cbn. rewrite Hl. flow_cbn.
    unfold DragFlow._moveNode. flow_cbn. run_align. flow_cbn.
    destruct (Drag.move cfg), opera; flow_cbn; drop_move fuel Hs He;
      (eexists; split; [reflexivity |]); flow_cbn; count_trace; facts.
  - unfold DragFlow.dispatch. flow_cbn.
    destruct (existsb (Nat.eqb h0) timers).
    + unfold DragFlow._timeoutCheck. flow_cbn. rewrite Hl. flow_cbn.
      unfold DragFlow.start. flow_cbn. rewrite Hl. flow_cbn.
      unfold DragFlow._moveNode. flow_cbn. run_align. flow_cbn.
      eexists. split; [reflexivity |].
      destruct (Drag.move cfg), opera; flow_cbn; count_trace; facts.
    + eexists. split; [reflexivity |]. flow_cbn. facts.
  - unfold DragFlow.dispatch, DragFlow._handleOverEvent. flow_cbn.
    eexists. split; [reflexivity |]. flow_cbn.
    unfold Registry._addActiveShim. rewrite sound_activeShims, enough_activeShims. facts.
  - unfold DragFlow.dispatch, DragFlow._handleOutEvent. flow_cbn.
    eexists. split; [reflexivity |]. flow_cbn.
    unfold DropShim._removeActiveShim. rewrite sound_activeShims, enough_activeShims. facts.
Qed.

Lemma release_while_pending (start : XY) (h : nat) (s : DragFlow.St) :
  Phase.pending start h s ->
  sound (DragFlow.mgr s) ->
  Drag.dragMode (Drag.cfg (DragFlow.drag s)) = DDM.POINT
  \/ DDM.activeDrop (DragFlow.mgr s) = None ->
  exists s',
    DragFlow.dispatch proto opera fuel s DragFlow.MouseUp = Some (Ok s')
    /\ Drag.dragging (DragFlow.drag s') = false
    /\ DragFlow.active s' = false
    /\ DragFlow.timers s' = []
    /\ Phase.starts s' = Phase.starts s /\ Phase.ends s' = Phase.ends s.
Proof.
  intros Hp Hs Hm.
  destruct (endDrag_ok s) as [s1 Hend]; [apply Hp | | exact Hs | exact Hm |].
  { destruct Hp as ((_ & _ & _ & _ & _ & Hla & _) & _). exact Hla. }
  open_state s.
  destruct Hp as ((Ha & Hl & Hst & Hd & Hn & Hla & Hmd) & Hdr & Hth & Hto & Htm).
  subst.
  unfold DragFlow.dispatch, DragFlow.DDM_end. flow_cbn.
  end_drag Hend. flow_cbn.
  unfold DragFlow.end_. flow_cbn. rewrite Hl. flow_cbn.
  eexists. split; [reflexivity |]. flow_cbn.
  cbn [List.filter]. rewrite Nat.eqb_refl. cbn [negb].
  count_trace. facts.
Qed.
End ClickVersusDrag.

Lemma pending_moves (proto : string -> bool) (opera : bool) (fuel : nat)
    (start : XY) (h : nat) (moves : list DragFlow.MouseEvent) :
  forall s : DragFlow.St,
    Phase.pending start h s ->
    sound (DragFlow.mgr s) -> enough fuel (DragFlow.mgr s) ->
    Forall (Phase.within (Drag.cfg (DragFlow.drag s)) start) moves ->
    exists s',
      DragFlow.run proto opera fuel s (map DragFlow.MouseMove moves) = Some (Ok s')
      /\ Phase.pending start h s'
      /\ Drag.cfg (DragFlow.drag s') = Drag.cfg (DragFlow.drag s)
      /\ sound (DragFlow.mgr s') /\ enough fuel (DragFlow.mgr s')
      /\ (at_rest (DragFlow.mgr s) -> at_rest (DragFlow.mgr s'))
      /\ Phase.starts s' = Phase.starts s /\ Phase.ends s' = Phase.ends s.
Proof.
  induction moves as [|ev moves IH]; intros s Hp Hs He Hall.
  - exists s. split; [reflexivity |]. split; [exact Hp |]. split; [reflexivity |].
    split; [exact Hs |]. split; [exact He |]. split; [auto |]. split; reflexivity.
  - inversion Hall as [|? ? Hev Hrest]; subst.
    destruct (move_within proto opera fuel start h s ev Hp Hs He Hev)
      as (s1 & Hrun & Hp1 & Hc & Hs1 & He1 & Hr1 & Hst & Hen).
    destruct (IH s1 Hp1 Hs1 He1) as (s' & Hrun' & Hp' & Hc' & Hs' & He' & Hr' & Hst' & Hen').
    { rewrite Hc. exact Hrest. }
    exists s'. cbn [map DragFlow.run DragFlow.dispatch]. rewrite Hrun.
    cbn [DragFlow.andThen].
    split; [exact Hrun' |]. split; [exact Hp' |]. split; [congruence |].
    split; [exact Hs' |]. split; [exact He' |]. split; [auto |]. split; congruence.
Qed.

Lemma dragging_run (proto : string -> bool) (opera : bool) (fuel : nat)
    (start : XY) (rest : list DragFlow.Input) :
  forall s : DragFlow.St,
    Phase.dragging start s ->
    sound (DragFlow.mgr s) -> enough fuel (DragFlow.mgr s) ->
    Forall Phase.keeps_going rest ->
    exists s',
      DragFlow.run proto opera fuel s rest = Some (Ok s')
      /\ Phase.dragging start s'
      /\ Phase.starts s' = Phase.starts s /\ Phase.ends s' = Phase.ends s.
Proof.
  induction rest as [|i rest IH]; intros s Hp Hs He Hall.
  - exists s. split; [reflexivity |]. split; [exact Hp |]. split; reflexivity.
  - inversion Hall as [|? ? Hi Hrest]; subst.
    destruct (dragging_keeps_going proto opera fuel start s i Hp Hs He Hi)
      as (s1 & Hrun & Hp1 & Hc & Hs1 & He1 & Hst & Hen).
    destruct (IH s1 Hp1 Hs1 He1 Hrest) as (s' & Hrun' & Hp' & Hst' & Hen').
    exists s'. cbn [DragFlow.run]. rewrite Hrun. cbn [DragFlow.andThen].
    split; [exact Hrun' |]. split; [exact Hp' |]. split; congruence.
Qed.

(** C4, as stated, fails: after two pointer-downs without a pointer-up in
    between, the click timer of the first is still running, since
    [_handleMouseDown] sets a new timer without clearing the old one. When it
    expires, the Drag is dragging and has fired [drag:start], although since
    the last pointer-down no pointer-move was made and its own click timer
    (handle 1) has not expired. *)
Lemma click_versus_drag_counterexample :
  exists s1 s2,
    DragFlow.run es3_prototype false 2 ScenarioDrag.idle
      [DragFlow.MouseDown (ScenarioDrag.pointer 105 102)] = Some (Ok s1)
    /\ Drag.lock (Drag.cfg (DragFlow.drag s1)) = false
    /\ Drag.dragging (DragFlow.drag s1) = false
    /\ DragFlow.run es3_prototype false 2 s1
         [DragFlow.MouseDown (ScenarioDrag.pointer 105 102); DragFlow.TimerFires 0]
       = Some (Ok s2)
    /\ DragFlow.timers s2 = [1%nat]
    /\ Drag._clickTimeout (DragFlow.drag s2) = Some 1%nat
    /\ Drag.dragging (DragFlow.drag s2) = true
    /\ Phase.starts s2 = S (Phase.starts s1).
Proof.
  eexists _, _. split; [reflexivity |]. split; [reflexivity |]. split; [reflexivity |].
  split; [vm_compute; reflexivity |]. repeat split; reflexivity.
Qed.

(** C4, amended. After an accepted pointer-down on an unlocked Drag that is
    not dragging and has no click timer of an earlier pointer-down pending,
    pointer moves that stay within [clickPixelThresh] of the start point on
    both axes, with the click timer of that pointer-down not yet expired,
    leave the Drag out of the dragging state and fire neither [drag:start]
    nor [drag:end]; a pointer-up then ends the click without either event
    (outside POINT mode, provided the manager was at rest at the
    pointer-down). The first event beyond the threshold, a pointer-move past
    it on some axis or the expiry of that click timer, sets [dragging] and
    fires [drag:start] once; however many moves, timer expiries and shim
    events follow, no further [drag:start] fires. No handler raises on the
    way when the manager's lists are sound. *)
Theorem click_versus_drag
    (proto : string -> bool) (opera : bool) (fuel : nat)
    (s0 : DragFlow.St) (press : DragFlow.MouseEvent) (moves : list DragFlow.MouseEvent) :
  Drag.lock (Drag.cfg (DragFlow.drag s0)) = false ->
  Drag.dragging (DragFlow.drag s0) = false ->
  DragFlow.timers s0 = [] ->
  sound (DragFlow.mgr s0) -> enough fuel (DragFlow.mgr s0) ->
  DragFlow.validClick press = true ->
  (Drag.primaryButtonOnly (Drag.cfg (DragFlow.drag s0)) = true -> DragFlow.button press <= 1) ->
  Forall (Phase.within (Drag.cfg (DragFlow.drag s0))
            (DragFlow.pageX press, DragFlow.pageY press)) moves ->
  exists s1,
    DragFlow.run proto opera fuel s0
      (DragFlow.MouseDown press :: map DragFlow.MouseMove moves) = Some (Ok s1)
    /\ Drag.dragging (DragFlow.drag s1) = false
    /\ Phase.starts s1 = Phase.starts s0 /\ Phase.ends s1 = Phase.ends s0
    /\ (Drag.dragMode (Drag.cfg (DragFlow.drag s0)) = DDM.POINT
        \/ at_rest (DragFlow.mgr s0) ->
        exists s2,
          DragFlow.dispatch proto opera fuel s1 DragFlow.MouseUp = Some (Ok s2)
          /\ Drag.dragging (DragFlow.drag s2) = false
          /\ Phase.starts s2 = Phase.starts s0 /\ Phase.ends s2 = Phase.ends s0)
    /\ (forall i : DragFlow.Input,
           i = DragFlow.TimerFires (DragFlow.next_timer s0)
           \/ (exists ev, i = DragFlow.MouseMove ev
                          /\ Phase.beyond (Drag.cfg (DragFlow.drag s0))
                               (DragFlow.pageX press, DragFlow.pageY press) ev) ->
           exists s2,
             DragFlow.dispatch proto opera fuel s1 i = Some (Ok s2)
             /\ Drag.dragging (DragFlow.drag s2) = true
             /\ Phase.starts s2 = S (Phase.starts s0) /\ Phase.ends s2 = Phase.ends s0
             /\ forall rest : list DragFlow.Input,
                 Forall Phase.keeps_going rest ->
                 exists s3,
                   DragFlow.run proto opera fuel s2 rest = Some (Ok s3)
                   /\ Drag.dragging (DragFlow.drag s3) = true
                   /\ Phase.starts s3 = S (Phase.starts s0)
                   /\ Phase.ends s3 = Phase.ends s0).
Proof.
  intros Hl Hdr Htm Hs He Hv Hb Hall.
  set (start := (DragFlow.pageX press, DragFlow.pageY press)) in *.
  destruct (press_arms proto opera fuel s0 press Hl Hdr Htm Hv Hb)
    as (Hd & Hp & Hc & Hm & Hst & Hen).
  set (sa := DragFlow._handleMouseDownEvent press s0) in *.
  destruct (pending_moves proto opera fuel start (DragFlow.next_timer s0) moves sa Hp)
    as (s1 & Hrun & Hp1 & Hc1 & Hs1 & He1 & Hr1 & Hst1 & Hen1).
  { rewrite Hm. exact Hs. }
  { rewrite Hm. exact He. }
  { rewrite Hc. exact Hall. }
  exists s1.
  split.
  { cbn [DragFlow.run]. rewrite Hd. cbn [DragFlow.andThen]. exact Hrun. }
  split; [apply Hp1 |]. split; [congruence |]. split; [congruence |].
  split.
  - intros Hmode.
    destruct (release_while_pending proto opera fuel start _ s1 Hp1 Hs1)
      as (s2 & Hr & Hd2 & _ & _ & Hst2 & Hen2).
    { destruct Hmode as [Hmode | Hrest]; [left; congruence | right].
      rewrite Hm in Hr1. apply Hr1. exact Hrest. }
    exists s2. repeat split; try assumption; congruence.
  - intros i Hi.
    assert (Hprom : exists s2, DragFlow.dispatch proto opera fuel s1 i = Some (Ok s2)
                               /\ Phase.dragging start s2
                               /\ sound (DragFlow.mgr s2) /\ enough fuel (DragFlow.mgr s2)
                               /\ Phase.starts s2 = S (Phase.starts s1)
                               /\ Phase.ends s2 = Phase.ends s1).
    { destruct Hi as [-> | (ev & -> & Hbeyond)].
      - destruct (timer_promotes proto opera fuel start _ s1 Hp1 Hs1 He1)
          as (s2 & H1 & H2 & _ & H3 & H4 & H5 & H6).
        exists s2. auto 10.
      - destruct (move_beyond proto opera fuel start _ s1 ev Hp1 Hs1 He1)
          as (s2 & H1 & H2 & _ & H3 & H4 & H5 & H6).
        { rewrite Hc1, Hc. exact Hbeyond. }
        exists s2. auto 10. }
    destruct Hprom as (s2 & Hrun2 & Hp2 & Hs2 & He2 & Hst2 & Hen2).
    exists s2. split; [exact Hrun2 |]. split; [apply Hp2 |].
    split; [congruence |]. split; [congruence |].
    intros rest Hrest.
    destruct (dragging_run proto opera fuel start rest s2 Hp2 Hs2 He2 Hrest)
      as (s3 & Hrun3 & Hp3 & Hst3 & Hen3).
    exists s3. split; [exact Hrun3 |]. split; [apply Hp3 |]. split; congruence.
Qed.

Lemma one_drop_sound : sound ScenarioDrag.one_drop /\ enough 2 ScenarioDrag.one_drop.
Proof.
  split; [split |].
  - intros c [<- | []]. eexists. split; [vm_compute; reflexivity | discriminate].
  - intros c [[] | []].
  - split; simpl; lia.
Qed.

Lemma click_versus_drag_witness :
  exists s1,
    DragFlow.run es3_prototype false 2 ScenarioDrag.idle
      (DragFlow.MouseDown (ScenarioDrag.pointer 105 102)
       :: map DragFlow.MouseMove [ScenarioDrag.pointer 106 103; ScenarioDrag.pointer 108 99])
    = Some (Ok s1)
    /\ Drag.dragging (DragFlow.drag s1) = false
    /\ Phase.starts s1 = Phase.starts ScenarioDrag.idle.
Proof.
  destruct (click_versus_drag es3_prototype false 2
              ScenarioDrag.idle (ScenarioDrag.pointer 105 102)
              [ScenarioDrag.pointer 106 103; ScenarioDrag.pointer 108 99])
    as (s1 & Hrun & Hdr & Hst & _).
  - reflexivity.
  - reflexivity.
  - reflexivity.
  - apply one_drop_sound.
  - apply one_drop_sound.
  - reflexivity.
  - intros _. simpl. lia.
  - repeat constructor; simpl; lia.
  - exists s1. auto.
Defined.

(** ** Pointer offset *)

(** With the default constraint attributes the overriding [_align] is the
    inherited one. *)
Lemma constrain_align_defaults (dom : Node.Dom) (d : Drag.t) (p : XY) :
  Drag.constrain (Drag.cfg d) = Constrain_ATTRS.defaults ->
  Drag.startXY d <> None ->
  Constrain._align dom d p = DragBase._align d p.
Proof.
  intros Hc Hs. unfold Constrain._align, DragBase._align, Constrain.stick,
    Constrain._checkTicks, Constrain.getRegion, Constrain.region_source.
  rewrite Hc. cbn [Constrain_ATTRS.stickX Constrain_ATTRS.stickY Constrain_ATTRS.tickX
                   Constrain_ATTRS.tickY Constrain_ATTRS.tickXArray
                   Constrain_ATTRS.tickYArray Constrain_ATTRS.constrain2node
                   Constrain_ATTRS.constrain2region Constrain_ATTRS.constrain2view
                   Constrain_ATTRS.defaults orb Constrain.tick_on].
  destruct (Drag.deltaXY d) as [delta|]; [| reflexivity].
  destruct (Drag.startXY d) as [start|]; [| congruence].
  unfold mbind, Outcome_bind. cbn. reflexivity.
Qed.

(** C3, as stated, fails: the position update goes through the [_align] of
    dd-constrain, which pins, clamps and snaps the difference. For a slider
    with [stickX], picked up with the offset (5,2), the pointer coordinate
    (150,160) gives the position (145,100) and not (145,158). *)
Lemma moveNode_subtracts_offset_counterexample :
  Drag.deltaXY (DragFlow.drag ScenarioStick.pressed) = Some (5, 2)
  /\ Constrain._align (DragFlow.page ScenarioStick.pressed)
       (DragFlow.drag ScenarioStick.pressed) (150, 160) = Ok (145, 100)
  /\ exists s',
       DragFlow._moveNode false (150, 160) false ScenarioStick.pressed = Ok s'
       /\ Drag.lastXY (DragFlow.drag s') = Some (145, 100)
       /\ Drag.lastXY (DragFlow.drag s') <> Some (150 - 5, 160 - 2).
Proof.
  split; [reflexivity |]. split; [vm_compute; reflexivity |].
  eexists. split; [vm_compute; reflexivity |]. split; [reflexivity | discriminate].
Qed.

(** C3, amended. The inherited [_align] returns the pointer coordinate
    minus [deltaXY], the pointer-to-node offset captured at pointer-down. For
    a Drag whose constraint attributes have their default values the
    position update computes that difference and [_moveNode] records it as
    the tracked position [lastXY]; [_setStartPosition] is where the offset
    is captured. For a node at (100,100), a pointer-down at (105,102) and a
    pointer-move to (150,160), the drag is promoted to dragging, the tracked
    position is (145,158) and the node has been moved there. *)
Theorem moveNode_subtracts_offset
    (opera : bool) (s : DragFlow.St) (p delta last origin : XY) (X : bool) :
  Drag.deltaXY (DragFlow.drag s) = Some delta ->
  Drag.lastXY (DragFlow.drag s) = Some last ->
  Drag.nodeXY (DragFlow.drag s) = Some origin ->
  DragBase._align (DragFlow.drag s) p = Ok (fst p - fst delta, snd p - snd delta)
  /\ (Drag.constrain (Drag.cfg (DragFlow.drag s)) = Constrain_ATTRS.defaults ->
      Drag.startXY (DragFlow.drag s) <> None ->
      Constrain._align (DragFlow.page s) (DragFlow.drag s) p
      = Ok (fst p - fst delta, snd p - snd delta)
      /\ exists s',
           DragFlow._moveNode opera p X s = Ok s'
           /\ Drag.lastXY (DragFlow.drag s') = Some (fst p - fst delta, snd p - snd delta))
  /\ (forall (s0 : DragFlow.St) (q : XY),
         Drag.offsetNode (Drag.cfg (DragFlow.drag s0)) = true ->
         Drag.deltaXY (DragFlow.drag (DragFlow._setStartPosition q s0))
         = Some (fst q - fst (Node.getXY (DragFlow.page s0)
                                (Drag.node (Drag.cfg (DragFlow.drag s0)))),
                 snd q - snd (Node.getXY (DragFlow.page s0)
                                (Drag.node (Drag.cfg (DragFlow.drag s0))))))
  /\ (exists s2,
         DragFlow.run es3_prototype opera 2 ScenarioDrag.idle
           [DragFlow.MouseDown (ScenarioDrag.pointer 105 102);
            DragFlow.MouseMove (ScenarioDrag.pointer 150 160)] = Some (Ok s2)
         /\ Drag.dragging (DragFlow.drag s2) = true
         /\ Drag.deltaXY (DragFlow.drag s2) = Some (5, 2)
         /\ Drag.lastXY (DragFlow.drag s2) = Some (145, 158)
         /\ Node.getXY (DragFlow.page s2) 7%nat = (145, 158)).
Proof.
  intros Hd Hl Hn.
  assert (Ha : DragBase._align (DragFlow.drag s) p
               = Ok (fst p - fst delta, snd p - snd delta)).
  { unfold DragBase._align. rewrite Hd. reflexivity. }
  split; [exact Ha |].
  split.
  { intros Hc Hs.
    assert (Hal : Constrain._align (DragFlow.page s) (DragFlow.drag s) p
                  = Ok (fst p - fst delta, snd p - snd delta)).
    { rewrite constrain_align_defaults; assumption. }
    split; [exact Hal |].
    unfold DragFlow._moveNode. rewrite Hal, Hl, Hn.
    unfold mbind, Outcome_bind. cbv beta iota.
    eexists. split; [reflexivity |].
    destruct (Drag.move (Drag.cfg (DragFlow.drag s))), opera, X; reflexivity. }
  split.
  { intros s0 q Hoff. unfold DragFlow._setStartPosition. rewrite Hoff. reflexivity. }
  destruct opera; eexists; (split; [vm_compute; reflexivity |]); repeat split.
Qed.

Lemma moveNode_subtracts_offset_witness :
  exists s',
    DragFlow._moveNode false (150, 160) false
      (DragFlow._handleMouseDownEvent (ScenarioDrag.pointer 105 102) ScenarioDrag.idle)
    = Ok s'
    /\ Drag.lastXY (DragFlow.drag s') = Some (150 - 5, 160 - 2).
Proof.
  destruct (moveNode_subtracts_offset false
              (DragFlow._handleMouseDownEvent (ScenarioDrag.pointer 105 102)
                 ScenarioDrag.idle)
              (150, 160) (5, 2) (100, 100) (100, 100) false) as (_ & Hmove & _).
  - reflexivity.
  - reflexivity.
  - reflexivity.
  - destruct Hmove as [_ H]; [reflexivity | discriminate | exact H].
Defined.

(** ** Locked Drags and rejected pointer-downs *)




Section NoDrag.
Variable proto : string -> bool.
Variable opera : bool.
Variable fuel : nat.





End NoDrag.



(** ** What the handlers leave in place *)






Lemma linked_refl (proto : string -> bool) (c : Drag.Config) (m : DDM.t) :
  linked proto c m m.
Proof.
  split; [reflexivity |]. split; [reflexivity |].
  intros y [Hy | Hy]; [left | right; left]; exact Hy.
Qed.










Section Frames.
Variable proto : string -> bool.






(** A change of the trace, the timers, the active flag or the manager. *)
Lemma frame_rest (s s' : DragFlow.St) (tail : list DragFlow.Effect) :
  DragFlow.page s' = DragFlow.page s ->
  DragFlow.drag s' = DragFlow.drag s ->
  linked proto (Drag.cfg (DragFlow.drag s)) (DragFlow.mgr s) (DragFlow.mgr s') ->
  DragFlow.trace s' = DragFlow.trace s ++ tail ->
  hits_on (reachable proto (Drag.cfg (DragFlow.drag s)) (DragFlow.mgr s)) tail ->
  frame proto s s'.
Proof.
  intros Hp Hd Hl Ht Hh. split; [rewrite Hd; reflexivity |]. split; [exact Hl |].
  split; [exists tail; auto |].
  intros _ _ Htr. unfold tracked in *. rewrite Hp, Hd. exact Htr.
Qed.










Lemma frame_emits_drops (fired : list Release.Fired) (s : DragFlow.St) :
  (forall w B, In (Release.DropHit w B) fired \/ In (Release.DragDropHit w B) fired ->
               reachable proto (Drag.cfg (DragFlow.drag s)) (DragFlow.mgr s) w) ->
  frame proto s (DragFlow.emits (map DragFlow.FireDrop fired) s).
Proof.
  intros Hh. apply (frame_rest s _ (map DragFlow.FireDrop fired)); try reflexivity;
    [apply linked_refl |].
  intros w B Hin. apply (Hh w B).
  destruct Hin as [Hin | Hin]; apply in_map_iff in Hin; destruct Hin as (f0 & [= ->] & Hin);
    auto.
Qed.


Section Fuelled.
Variable opera : bool.
Variable fuel : nat.











End Fuelled.
End Frames.

(** ** Stopping a drag from code *)



(** ** The life of a Drag *)







Section Settled.
Variable proto : string -> bool.
Variable opera : bool.
Variable fuel : nat.









End Settled.




Section Life.
Variable proto : string -> bool.
Variable opera : bool.
Variable fuel : nat.







End Life.



(** ** The release of a drag started by the click timer *)

Lemma over_release (dom dom' : Node.Dom) (m : DDM.t) (drag drag' : Drag.t) (c : DropRef) :
  DDM.activeDrag m = Some drag ->
  Drag.mouseXY drag' = Drag.mouseXY drag ->
  Drag.dragMode (Drag.cfg drag) = DDM.POINT ->
  Drag.dragMode (Drag.cfg drag') = DDM.POINT ->
  (exists d, DDM.drops m !! c = Some d /\ Drop.region d <> None) ->
  over dom' (DDM.set_activeDrag (Some drag') m) c = over dom m c.
Proof.
  intros Ha Hxy Hm Hm' (d & Hd & Hr). unfold over, DDM.isOverTarget, DDM.deref.
  cbn [DDM.activeDrag DDM.set_activeDrag DDM.drops]. rewrite Ha, Hxy, Hm, Hm', Hd.
  destruct (Drag.mouseXY drag); [| reflexivity]. cbn.
  destruct (Drop.shim d); [| reflexivity].
  destruct (Drop.region d); [reflexivity | congruence].
Qed.

Lemma find_ext_in {A : Type} (f g : A -> bool) (l : list A) :
  (forall x, In x l -> f x = g x) -> find f l = find g l.
Proof.
  induction l as [|a l IH]; intros H; [reflexivity |]. cbn [find].
  rewrite (H a (or_introl eq_refl)), IH; [reflexivity |].
  intros x Hx. apply H. right. exact Hx.
Qed.

Lemma lookup_loop_release (dom dom' : Node.Dom) (m : DDM.t) (v : option Drag.t)
    (l : list DropRef) :
  (forall n, Node.viewportRegion dom' n = Node.viewportRegion dom n) ->
  (forall c, In c l -> exists d, DDM.drops m !! c = Some d /\ Drop.region d <> None) ->
  DDM._lookup_loop dom' (DDM.set_activeDrag v m) l = DDM._lookup_loop dom m l.
Proof.
  intros Hv. induction l as [|c l IH]; intros Hr; [reflexivity |].
  cbn [DDM._lookup_loop]. unfold DDM.deref. cbn [DDM.drops DDM.set_activeDrag].
  destruct (Hr c (or_introl eq_refl)) as (d & Hd & Hreg). rewrite Hd.
  unfold mbind, Outcome_bind. cbv beta iota.
  destruct (Drop.shim d) as [sh|]; [| reflexivity].
  rewrite IH by (intros x Hx; apply Hr; right; exact Hx).
  destruct (Drop.region d) as [r|]; [| congruence].
  unfold DDM.inViewportRegion, Node.inRegion. cbn. rewrite Hv. reflexivity.
Qed.

Lemma lookup_release (dom dom' : Node.Dom) (m : DDM.t) (v : option Drag.t) :
  (forall n, Node.viewportRegion dom' n = Node.viewportRegion dom n) ->
  targets_ready m ->
  DDM._lookup dom' (DDM.set_activeDrag v m) = DDM._lookup dom m.
Proof.
  intros Hv Hr. unfold DDM._lookup. cbn [DDM.useHash DDM.validDrops DDM.set_activeDrag].
  destruct (negb (DDM.useHash m)); [reflexivity |].
  apply lookup_loop_release; [exact Hv |].
  intros c Hc. destruct (Hr c Hc) as (d & Hd & _ & Hreg). exists d. auto.
Qed.

(** The release of an unlocked POINT-mode drag whose manager state [m1] is
    the one target activation left, on the page [dom0] and with the active
    drag [drag0] of that moment. *)
Lemma release_of_activated
    (proto : string -> bool) (opera : bool) (fuel : nat)
    (dom0 : Node.Dom) (m0 m1 : DDM.t) (drag0 : Drag.t)
    (h : nat) (l : XY) (s1 : DragFlow.St) :
  DragFlow.active s1 = true ->
  Drag.lock (Drag.cfg (DragFlow.drag s1)) = false ->
  Drag.dragMode (Drag.cfg (DragFlow.drag s1)) = DDM.POINT ->
  Drag.dragging (DragFlow.drag s1) = true ->
  Drag._clickTimeout (DragFlow.drag s1) = Some h ->
  Drag.lastXY (DragFlow.drag s1) = Some l ->
  DragFlow.mgr s1 = m1 ->
  DDM.activeDrag m0 = Some drag0 ->
  Drag.cfg drag0 = Drag.cfg (DragFlow.drag s1) ->
  Drag.mouseXY drag0 = Drag.mouseXY (DragFlow.drag s1) ->
  (forall n, Node.viewportRegion (DragFlow.page s1) n = Node.viewportRegion dom0 n) ->
  sound m0 -> sound m1 ->
  Targets._activateTargets dom0 proto fuel m0 = Some (Ok m1) ->
  exists B,
    DDM._lookup (DragFlow.page s1) (DragFlow.manager s1) = Ok B
    /\ match last_over (DragFlow.page s1) (DragFlow.manager s1) B with
       | Some w =>
           exists s2 others,
             DragFlow.dispatch proto opera fuel s1 DragFlow.MouseUp = Some (Ok s2)
             /\ DragFlow.trace s2
                = DragFlow.trace s1
                  ++ [DragFlow.PG_deactivate;
                      DragFlow.FireDrop (Release.DropHit w others);
                      DragFlow.FireDrop (Release.DragDropHit w others);
                      DragFlow.ClearTimeout (Some h);
                      DragFlow.Fire "drag:end" l]
             /\ forall c, In c others
                          <-> In c B
                              /\ over (DragFlow.page s1) (DragFlow.manager s1) c = true
                              /\ c <> w
       | None =>
           exists s2,
             DragFlow.dispatch proto opera fuel s1 DragFlow.MouseUp = Some (Ok s2)
             /\ DragFlow.trace s2
                = DragFlow.trace s1
                  ++ [DragFlow.PG_deactivate;
                      DragFlow.FireDrop (Release.DragDropMiss (fst l) (snd l));
                      DragFlow.ClearTimeout (Some h);
                      DragFlow.Fire "drag:end" l]
       end.
Proof.
  intros Ha Hl Hmode Hdr Hto Hlast Hm Had Hcfg Hxy Hview Hs0 Hs1 Hact.
  pose proof (sound_ready m1 Hs1) as Hready.
  destruct (ready_lookup dom0 m1 Hready) as [B HB].
  destruct (activateTargets_list dom0 proto fuel m0 m1 drag0 Had Hact) as (_ & _ & Hstatic).
  assert (Had1 : DDM.activeDrag m1 = Some drag0) by (destruct Hstatic as [-> _]; exact Had).
  assert (Hmode0 : Drag.dragMode (Drag.cfg drag0) = DDM.POINT) by (rewrite Hcfg; exact Hmode).
  assert (Hman : DragFlow.manager s1 = DDM.set_activeDrag (Some (DragFlow.drag s1)) m1).
  { unfold DragFlow.manager. rewrite Ha, Hm. reflexivity. }
  assert (Hover : forall c, In c B ->
            over (DragFlow.page s1) (DragFlow.manager s1) c = over dom0 m1 c).
  { intros c Hc. rewrite Hman.
    apply (over_release dom0 (DragFlow.page s1) m1 drag0);
      [exact Had1 | symmetry; exact Hxy | exact Hmode0 | exact Hmode |].
    destruct (Hready c (lookup_subset dom0 m1 B HB c Hc)) as (d & Hd & _ & Hr).
    exists d. auto. }
  exists B. split.
  { rewrite Hman. rewrite (lookup_release dom0 (DragFlow.page s1) m1 _ Hview Hready).
    exact HB. }
  assert (Hlo : last_over (DragFlow.page s1) (DragFlow.manager s1) B = last_over dom0 m1 B).
  { unfold last_over. apply find_ext_in. intros c Hc. apply Hover.
    apply in_rev. exact Hc. }
  rewrite Hlo.
  pose proof (release_after_activation dom0 (DragFlow.page s1) proto fuel m0 m1 drag0
                (DragFlow.drag s1) l B Had Hmode0 Hmode Hlast (proj1 Hs0) Hact HB) as Hrel.
  assert (Hend : forall m2 fired,
            Release._deactivateTargets (DragFlow.page s1)
              (DDM.set_activeDrag (Some (DragFlow.drag s1)) m1) = Ok (m2, fired) ->
            exists s2,
              DragFlow.dispatch proto opera fuel s1 DragFlow.MouseUp = Some (Ok s2)
              /\ DragFlow.trace s2
                 = DragFlow.trace s1
                   ++ DragFlow.PG_deactivate :: map DragFlow.FireDrop fired
                   ++ [DragFlow.ClearTimeout (Some h); DragFlow.Fire "drag:end" l]).
  { intros m2 fired Hde. rewrite <- Hman in Hde.
    cbn [DragFlow.dispatch]. unfold DragFlow.DDM_end, DragFlow.DDM_endDrag. rewrite Ha.
    cbv zeta.
    assert (Hman' : DragFlow.manager (DragFlow.emit DragFlow.PG_deactivate s1)
                    = DragFlow.manager s1) by reflexivity.
    rewrite Hman'. cbn [DragFlow.page DragFlow.emit DragFlow.emits]. rewrite Hde.
    unfold mbind, Outcome_bind. cbv beta iota. cbn [fst snd].
    unfold DragFlow.end_. open_state s1. subst. flow_cbn. rewrite Hl. flow_cbn.
    eexists. split; [reflexivity |]. flow_cbn.
    rewrite <- !app_assoc. reflexivity. }
  destruct (last_over dom0 m1 B) as [w|].
  - destruct Hrel as (m2 & others & Hde & Hoth).
    destruct (Hend m2 _ Hde) as (s2 & Hrun & Htr).
    exists s2, others. split; [exact Hrun |]. split; [exact Htr |].
    intros c. rewrite Hoth. split; intros (HcB & Hco & Hne); (split; [exact HcB |]);
      (split; [| exact Hne]); [rewrite Hover | rewrite <- Hover]; assumption.
  - destruct Hrel as (m2 & Hde).
    destruct (Hend m2 _ Hde) as (s2 & Hrun & Htr).
    exists s2. split; [exact Hrun | exact Htr].
Qed.

(** X23. A POINT-mode drag with shims that is started by the click timer
    and released before the next pointer-move: if the pointer, where the
    last pointer-move left it, is over some Drop of the lookup list (the
    valid Drops, in the viewport when [useHash] is set), [drop:hit] and
    [drag:drophit] go to the last such Drop in registration order, and
    [others] are exactly the other Drops of that list under the pointer; if
    it is over none, [drag:dropmiss] is fired at the last tracked position.
    [drag:end] follows, and neither the timer handler nor the release
    raises. *)
Theorem point_mode_release
    (proto : string -> bool) (opera : bool) (fuel : nat)
    (start : XY) (h : nat) (s : DragFlow.St) :
  Phase.pending start h s ->
  sound (DragFlow.mgr s) -> enough fuel (DragFlow.mgr s) ->
  Drag.dragMode (Drag.cfg (DragFlow.drag s)) = DDM.POINT ->
  Drag.useShim (Drag.cfg (DragFlow.drag s)) = true ->
  exists s1 B l,
    DragFlow.dispatch proto opera fuel s (DragFlow.TimerFires h) = Some (Ok s1)
    /\ DDM._lookup (DragFlow.page s1) (DragFlow.manager s1) = Ok B
    /\ Drag.lastXY (DragFlow.drag s1) = Some l
    /\ match last_over (DragFlow.page s1) (DragFlow.manager s1) B with
       | Some w =>
           exists s2 others,
             DragFlow.dispatch proto opera fuel s1 DragFlow.MouseUp = Some (Ok s2)
             /\ DragFlow.trace s2
                = DragFlow.trace s1
                  ++ [DragFlow.PG_deactivate;
                      DragFlow.FireDrop (Release.DropHit w others);
                      DragFlow.FireDrop (Release.DragDropHit w others);
                      DragFlow.ClearTimeout (Some h);
                      DragFlow.Fire "drag:end" l]
             /\ forall c, In c others
                          <-> In c B
                              /\ over (DragFlow.page s1) (DragFlow.manager s1) c = true
                              /\ c <> w
       | None =>
           exists s2,
             DragFlow.dispatch proto opera fuel s1 DragFlow.MouseUp = Some (Ok s2)
             /\ DragFlow.trace s2
                = DragFlow.trace s1
                  ++ [DragFlow.PG_deactivate;
                      DragFlow.FireDrop (Release.DragDropMiss (fst l) (snd l));
                      DragFlow.ClearTimeout (Some h);
                      DragFlow.Fire "drag:end" l]
       end.
Proof.
  intros Hp Hs He Hmode Hshim. open_state s.
  destruct Hp as ((Ha & Hl & Hst & Hd & Hn & Hla & Hmd) & Hdr & Hth & Hto & Htm).
  subst. some_fields.
  unfold DragFlow.dispatch at 1. flow_cbn. cbn [existsb]. rewrite Nat.eqb_refl. cbn [orb].
  unfold DragFlow._timeoutCheck. flow_cbn. rewrite Hl. flow_cbn.
  unfold DragFlow.start. flow_cbn. rewrite Hl. flow_cbn.
  unfold DragFlow.DDM_startDrag. flow_cbn. rewrite Hshim. cbv zeta.
  unfold DragFlow.manager. flow_cbn.
  match goal with
  | |- context [Targets._activateTargets ?dom proto fuel (DDM.set_activeDrag (Some ?d) ?m)] =>
      set (d0 := d)
  end.
  destruct (activateTargets_sound page proto fuel (DDM.set_activeDrag (Some d0) mgr) d0)
    as (m1 & Hact & Hs1 & He1 & _).
  { reflexivity. }
  { split; [exact (proj1 Hs) | intros _; discriminate]. }
  { exact (proj1 He). }
  rewrite Hact. flow_cbn.
  unfold DragFlow._moveNode. flow_cbn. run_align. flow_cbn.
  assert (Hs0 : sound (DDM.set_activeDrag (Some d0) mgr)) by exact Hs.
  destruct (Drag.move cfg), opera; flow_cbn;
    match goal with
    | |- context [DragFlow.dispatch proto ?op fuel _ DragFlow.MouseUp] =>
    match goal with
    | |- exists s1 B l, Some (Ok ?s) = Some (Ok s1) /\ _ =>
        destruct (release_of_activated proto op fuel page (DDM.set_activeDrag (Some d0) mgr)
                    m1 d0 h w s)
          as (B & HB & Hrel);
        [reflexivity | exact Hl | exact Hmode | reflexivity | reflexivity | reflexivity
        | reflexivity | reflexivity | reflexivity | reflexivity | intros n; reflexivity
        | exact Hs0 | exact Hs1 | exact Hact |];
        exists s, B, w; split; [reflexivity |]; split; [exact HB |];
        split; [reflexivity | exact Hrel]
    end
    end.
Qed.

Lemma nested_sound :
  sound (DragFlow.mgr ScenarioNested.pending)
  /\ enough 2 (DragFlow.mgr ScenarioNested.pending).
Proof.
  assert (Ht : DDM.targets (DragFlow.mgr ScenarioNested.pending) = [1%nat])
    by (vm_compute; reflexivity).
  assert (Hv : DDM.validDrops (DragFlow.mgr ScenarioNested.pending) = [])
    by (vm_compute; reflexivity).
  assert (Ho : DDM.otherDrops (DragFlow.mgr ScenarioNested.pending) = [])
    by (vm_compute; reflexivity).
  unfold sound, enough. rewrite Ht, Hv, Ho. split; [split |].
  - intros c [<- | []]. eexists. split; [vm_compute; reflexivity | discriminate].
  - intros c [[] | []].
  - split; simpl; lia.
Qed.

Lemma point_mode_release_witness :
  exists s1 s2,
    DragFlow.dispatch es3_prototype false 2 ScenarioNested.pending (DragFlow.TimerFires 0%nat)
    = Some (Ok s1)
    /\ DragFlow.dispatch es3_prototype false 2 s1 DragFlow.MouseUp = Some (Ok s2)
    /\ DragFlow.trace s2
       = DragFlow.trace s1
         ++ [DragFlow.PG_deactivate;
             DragFlow.FireDrop (Release.DropHit 1%nat []);
             DragFlow.FireDrop (Release.DragDropHit 1%nat []);
             DragFlow.ClearTimeout (Some 0%nat);
             DragFlow.Fire "drag:end" (100, 100)].
Proof.
  destruct (point_mode_release es3_prototype false 2 (105, 102) 0%nat ScenarioNested.pending)
    as (s1 & B & l & Hrun & HB & Hl & Hrel).
  - vm_compute. repeat split; try reflexivity; discriminate.
  - exact (proj1 nested_sound).
  - exact (proj2 nested_sound).
  - reflexivity.
  - reflexivity.
  - exists s1.
    assert (Hs1 : last_over (DragFlow.page s1) (DragFlow.manager s1) B = Some 1%nat
                  /\ l = (100, 100)).
    { vm_compute in Hrun. injection Hrun as <-.
      vm_compute in HB. injection HB as <-.
      vm_compute in Hl. injection Hl as <-.
      split; vm_compute; reflexivity. }
    destruct Hs1 as [Hw ->]. rewrite Hw in Hrel.
    destruct Hrel as (s2 & others & Hup & Htr & Hoth).
    exists s2. split; [exact Hrun |]. split; [exact Hup |].
    assert (Hnil : others = []).
    { destruct others as [|c others]; [reflexivity |]. exfalso.
      destruct (proj1 (Hoth c) (or_introl eq_refl)) as (HcB & _ & Hne).
      vm_compute in Hrun. injection Hrun as <-.
      vm_compute in HB. injection HB as <-.
      destruct HcB as [<- | []]. apply Hne. reflexivity. }
    rewrite Hnil in Htr. exact Htr.
Defined.

(** ** Activation: own node and lock, over a whole drag *)




(** ** The node and its tracked position *)


